(** * preso: the streaming slide parser and the batch generation protocol

    A shallow embedding of [services/streamParser.ts] ([parseLiveStream],
    [transformPollinationsURLs], [convertQuickChartTags]) and of the
    generation-call layer of [services/gemini.ts] ([_withRetry],
    [generatePresentationStream]), with the properties the specification
    states about them.

    JavaScript strings are sequences of UTF-16 code units; a code unit is
    a binary natural number.  The ECMAScript built-ins the source calls
    ([substring], [replace] with a literal pattern, [trim], [JSON.parse],
    [encodeURIComponent], [decodeURIComponent], the four regular
    expressions) are written out as functions on such sequences. *)

From Stdlib Require Import Ascii String DecimalString.
From Stdlib Require Import List NArith ZArith Bool Lia.
From Stdlib Require DecimalNat DecimalFacts.
Import ListNotations.

Set Warnings "-register-all".

(* ================================================================== *)
(** * JavaScript strings *)
(* ================================================================== *)

Module JsString.

(** A code unit, and a string of them. *)
Abbreviation char := N (only parsing).
Abbreviation jsstring := (list N) (only parsing).

(** [js "abc"] is the JavaScript string with the code units of an ASCII
    literal. *)
Definition js (s : string) : jsstring := map N_of_ascii (list_ascii_of_string s).

Definition QUOTE : char := 34%N.        (* the double-quote character *)
Definition BACKSLASH : char := 92%N.
Definition LBRACE : char := 123%N.
Definition RBRACE : char := 125%N.
Definition LBRACKET : char := 91%N.
Definition RBRACKET : char := 93%N.
Definition COLON : char := 58%N.
Definition COMMA : char := 44%N.
Definition BACKTICK : char := 96%N.
Definition GT : char := 62%N.
Definition PERCENT : char := 37%N.
Definition UNDERSCORE : char := 95%N.
Definition SPACE : char := 32%N.
Definition APOSTROPHE : char := 39%N.
Definition EQUALS : char := 61%N.
Definition HYPHEN : char := 45%N.

(** [jsq q s]: the literal [s] in which the stand-in character [q] is read
    as the double-quote character. *)
Definition jsq (q : ascii) (s : string) : jsstring :=
  map (fun c => if N.eqb c (N_of_ascii q) then QUOTE else c) (js s).

Fixpoint str_eqb (a b : jsstring) : bool :=
  match a, b with
  | [], [] => true
  | x :: a', y :: b' => N.eqb x y && str_eqb a' b'
  | _, _ => false
  end.

(** [starts_with p s]: the literal [p] is a prefix of [s]. *)
Fixpoint starts_with (p s : jsstring) : bool :=
  match p with
  | [] => true
  | x :: p' =>
      match s with
      | [] => false
      | y :: s' => N.eqb x y && starts_with p' s'
      end
  end.

(** [s.indexOf(p) !== -1] *)
Fixpoint includes (p s : jsstring) : bool :=
  starts_with p s ||
  match s with
  | [] => false
  | _ :: s' => includes p s'
  end.

(** Index clamping of [String.prototype.substring]: a negative argument
    counts as 0 and one past the end as the length. *)
Definition clamp (len : nat) (x : Z) : nat := Nat.min (Z.to_nat x) len.

(** [s.substring(a, b)]; the two indices are swapped when [a > b]. *)
Definition substring (s : jsstring) (a b : Z) : jsstring :=
  let a' := clamp (length s) a in
  let b' := clamp (length s) b in
  firstn (Nat.max a' b' - Nat.min a' b') (skipn (Nat.min a' b') s).

(** [s.substring(a)] *)
Definition substring_from (s : jsstring) (a : Z) : jsstring :=
  skipn (clamp (length s) a) s.

(** [s.replace(/p/g, r)] for a literal, non-empty pattern [p]: matches are
    taken leftmost first and do not overlap.  [skip] counts the characters
    of the current match that are still to be dropped. *)
Fixpoint replace_from (p r : jsstring) (skip : nat) (s : jsstring) : jsstring :=
  match s with
  | [] => []
  | c :: s' =>
      match skip with
      | S k => replace_from p r k s'
      | O =>
          if starts_with p s
          then r ++ replace_from p r (length p - 1) s'
          else c :: replace_from p r 0 s'
      end
  end.

Definition replace_all (p r s : jsstring) : jsstring := replace_from p r 0 s.

(** WhiteSpace and LineTerminator code units: what [trim] strips and what
    [\s] matches. *)
Definition is_js_space (c : char) : bool :=
  ((9 <=? c) && (c <=? 13) || (c =? 32) || (c =? 160) || (c =? 5760)
   || (8192 <=? c) && (c <=? 8202) || (c =? 8232) || (c =? 8233)
   || (c =? 8239) || (c =? 8287) || (c =? 12288) || (c =? 65279))%N.

Fixpoint trim_start (s : jsstring) : jsstring :=
  match s with
  | [] => []
  | c :: s' => if is_js_space c then trim_start s' else s
  end.

Definition trim_end (s : jsstring) : jsstring := rev (trim_start (rev s)).

Definition trim (s : jsstring) : jsstring := trim_end (trim_start s).

(** A regular expression is given by its anchored matcher: the length of
    the match that starts at the head of the text, if there is one.
    [regex_search] is the unanchored search of [String.prototype.match]:
    the index and length of the leftmost match. *)
Fixpoint regex_search (m : jsstring -> option nat) (s : jsstring) (idx : nat)
  : option (nat * nat) :=
  match m s with
  | Some len => Some (idx, len)
  | None =>
      match s with
      | [] => None
      | _ :: s' => regex_search m s' (S idx)
      end
  end.

(** The number of leading [\s] characters. *)
Fixpoint count_space (s : jsstring) : nat :=
  match s with
  | [] => 0
  | c :: s' => if is_js_space c then S (count_space s') else 0
  end.

(** Anchored matcher of a quoted key, optional white space, a colon,
    optional white space and one opening character: the two patterns of
    [parseLiveStream], for the key slides opened by a bracket and for the
    key content opened by a quote. *)
Definition match_key_open (key : jsstring) (opener : char) (s : jsstring) : option nat :=
  let lit := QUOTE :: key ++ [QUOTE] in
  if starts_with lit s then
    let s1 := skipn (length lit) s in
    let w1 := count_space s1 in
    match skipn w1 s1 with
    | c :: s2 =>
        if N.eqb c COLON then
          let w2 := count_space s2 in
          match skipn w2 s2 with
          | d :: _ =>
              if N.eqb d opener
              then Some (length lit + w1 + 1 + w2 + 1)
              else None
          | [] => None
          end
        else None
    | [] => None
    end
  else None.

End JsString.
Import JsString.

(* ================================================================== *)
(** * JSON values and [JSON.parse] *)
(* ================================================================== *)

Module Json.

(** A JSON number literal is kept as the exact decimal value it spells,
    [mant * 10 ^ expo]; the Number it denotes is that value rounded to
    the nearest double, ties to even ([to_double]). *)
Record jsnumber := { mant : Z; expo : Z }.

(** The Number values a JSON literal can denote: zero (the sign of a
    zero is seen by none of the operations used here), a value
    [m * 2 ^ e] with [2 ^ 52 <= m < 2 ^ 53], or with [e = -1074] and
    [0 < m < 2 ^ 52] for the subnormals, and the infinities. *)
Inductive double :=
| DZero
| DFinite (negative : bool) (m e : Z)
| DInfinity (negative : bool).

(** The integer nearest to [n / d], the even one of the two when [n / d]
    is half-way. *)
Definition round_half_even (n d : Z) : Z :=
  let q := (n / d)%Z in
  let r := (n mod d)%Z in
  if (d <? 2 * r)%Z then (q + 1)%Z
  else if (2 * r =? d)%Z then (if Z.even q then q else q + 1)%Z
  else q.

Definition to_double (x : jsnumber) : double :=
  let a := Z.abs (mant x) in
  let negative := (mant x <? 0)%Z in
  if (a =? 0)%Z then DZero
  else
    (* the value is p / q *)
    let p := if (0 <=? expo x)%Z then (a * 10 ^ expo x)%Z else a in
    let q := if (0 <=? expo x)%Z then 1%Z else (10 ^ (- expo x))%Z in
    (* e is the binary exponent: 2 ^ e <= p / q < 2 ^ (e + 1) *)
    let e0 := (Z.log2 p - Z.log2 q)%Z in
    let below :=
      if (0 <=? e0)%Z then (p <? q * 2 ^ e0)%Z else (p * 2 ^ (- e0) <? q)%Z in
    let e := if below then (e0 - 1)%Z else e0 in
    (* u is the exponent of the last place *)
    let u := Z.max (e - 52) (-1074) in
    let m :=
      if (0 <=? u)%Z then round_half_even p (q * 2 ^ u)
      else round_half_even (p * 2 ^ (- u)) q in
    let '(m, u) := if (m =? 2 ^ 53)%Z then ((2 ^ 52)%Z, (u + 1)%Z) else (m, u) in
    if (m =? 0)%Z then DZero
    else if (971 <? u)%Z then DInfinity negative
    else DFinite negative m u.

Definition double_eqb (a b : double) : bool :=
  match a, b with
  | DZero, DZero => true
  | DFinite n1 m1 e1, DFinite n2 m2 e2 =>
      Bool.eqb n1 n2 && Z.eqb m1 m2 && Z.eqb e1 e2
  | DInfinity n1, DInfinity n2 => Bool.eqb n1 n2
  | _, _ => false
  end.

(** The values [JSON.parse] builds.  A [JObj] lists the own properties of
    the object in the order in which they were first defined; the code
    embedded here never enumerates them. *)
Inductive json :=
| JNull
| JBool (b : bool)
| JNum (n : jsnumber)
| JStr (s : jsstring)
| JArr (elems : list json)
| JObj (members : list (jsstring * json)).

(** Defining a property: a repeated key keeps its place and takes the
    later value. *)
Fixpoint obj_put (o : list (jsstring * json)) (k : jsstring) (v : json)
  : list (jsstring * json) :=
  match o with
  | [] => [(k, v)]
  | (k', v') :: o' =>
      if str_eqb k' k then (k', v) :: o' else (k', v') :: obj_put o' k v
  end.

Definition mk_object (ms : list (jsstring * json)) : json :=
  JObj (fold_left (fun o kv => obj_put o (fst kv) (snd kv)) ms []).

Fixpoint obj_get (o : list (jsstring * json)) (k : jsstring) : option json :=
  match o with
  | [] => None
  | (k', v) :: o' => if str_eqb k' k then Some v else obj_get o' k
  end.

(** ** The lexical grammar *)

Definition is_json_ws (c : char) : bool :=
  ((c =? 32) || (c =? 9) || (c =? 10) || (c =? 13))%N.

Fixpoint skip_ws (s : jsstring) : jsstring :=
  match s with
  | [] => []
  | c :: s' => if is_json_ws c then skip_ws s' else s
  end.

Definition is_digit (c : char) : bool := ((48 <=? c) && (c <=? 57))%N.

Definition hex_value (c : char) : option N :=
  (if (48 <=? c) && (c <=? 57) then Some (c - 48)
   else if (65 <=? c) && (c <=? 70) then Some (c - 55)
   else if (97 <=? c) && (c <=? 102) then Some (c - 87)
   else None)%N.

Definition hex4 (a b c d : char) : option N :=
  match hex_value a, hex_value b, hex_value c, hex_value d with
  | Some x, Some y, Some z, Some w => Some (((x * 16 + y) * 16 + z) * 16 + w)%N
  | _, _, _, _ => None
  end.

(** The single-character escapes of a JSON string. *)
Definition simple_escape (e : char) : option char :=
  (if e =? 34 then Some 34          (* quote *)
   else if e =? 92 then Some 92     (* backslash *)
   else if e =? 47 then Some 47     (* solidus *)
   else if e =? 98 then Some 8      (* b *)
   else if e =? 102 then Some 12    (* f *)
   else if e =? 110 then Some 10    (* n *)
   else if e =? 114 then Some 13    (* r *)
   else if e =? 116 then Some 9     (* t *)
   else None)%N.

(** The characters of a string after its opening quote, up to and
    including the closing quote. *)
Fixpoint parse_string_body (s : jsstring) : option (jsstring * jsstring) :=
  match s with
  | [] => None
  | c :: s1 =>
      if N.eqb c QUOTE then Some ([], s1)
      else if N.eqb c BACKSLASH then
        match s1 with
        | [] => None
        | e :: s2 =>
            if N.eqb e 117 (* u *) then
              match s2 with
              | h1 :: h2 :: h3 :: h4 :: s3 =>
                  match hex4 h1 h2 h3 h4 with
                  | Some u =>
                      match parse_string_body s3 with
                      | Some (str, r) => Some (u :: str, r)
                      | None => None
                      end
                  | None => None
                  end
              | _ => None
              end
            else
              match simple_escape e with
              | Some x =>
                  match parse_string_body s2 with
                  | Some (str, r) => Some (x :: str, r)
                  | None => None
                  end
              | None => None
              end
        end
      else if N.ltb c 32 then None
      else
        match parse_string_body s1 with
        | Some (str, r) => Some (c :: str, r)
        | None => None
        end
  end.

Fixpoint take_digits (s : jsstring) : list Z * jsstring :=
  match s with
  | [] => ([], [])
  | c :: s' =>
      if is_digit c
      then let '(ds, r) := take_digits s' in (Z.of_N (c - 48) :: ds, r)
      else ([], s)
  end.

Definition digits_value (ds : list Z) : Z :=
  fold_left (fun acc d => acc * 10 + d)%Z ds 0%Z.

(** A number literal: an optional minus sign, an integer part without
    leading zero, an optional fraction and an optional exponent. *)
Definition parse_number (s : jsstring) : option (jsnumber * jsstring) :=
  let '(neg, s1) :=
    match s with
    | c :: s' => if N.eqb c 45 then (true, s') else (false, s)
    | [] => (false, s)
    end in
  match s1 with
  | [] => None
  | d :: s2 =>
      if is_digit d then
        let '(ints, r1) :=
          if N.eqb d 48 then ([0%Z], s2)
          else let '(ds, r) := take_digits s2 in (Z.of_N (d - 48) :: ds, r) in
        let frac :=
          match r1 with
          | p :: r2 =>
              if N.eqb p 46 then
                match take_digits r2 with
                | ([], _) => None
                | (fs, r3) => Some (fs, r3)
                end
              else Some ([], r1)
          | [] => Some ([], r1)
          end in
        match frac with
        | None => None
        | Some (fs, r3) =>
            let ex :=
              match r3 with
              | e :: r4 =>
                  if N.eqb e 101 || N.eqb e 69 then
                    let '(eneg, r5) :=
                      match r4 with
                      | sg :: r' =>
                          if N.eqb sg 45 then (true, r')
                          else if N.eqb sg 43 then (false, r')
                          else (false, r4)
                      | [] => (false, r4)
                      end in
                    match take_digits r5 with
                    | ([], _) => None
                    | (es, r6) =>
                        Some ((if eneg then - digits_value es else digits_value es)%Z, r6)
                    end
                  else Some (0%Z, r3)
              | [] => Some (0%Z, r3)
              end in
            match ex with
            | None => None
            | Some (e, r6) =>
                let m := digits_value (ints ++ fs) in
                Some ({| mant := if neg then (- m)%Z else m;
                         expo := (e - Z.of_nat (length fs))%Z |}, r6)
            end
        end
      else None
  end.

(** ** The value grammar

    [fuel] bounds the nesting of the calls; [JSON_parse] gives enough of
    it for any text ([parse_value_fuel] below). *)
Fixpoint parse_value (fuel : nat) (s : jsstring) {struct fuel}
  : option (json * jsstring) :=
  match fuel with
  | O => None
  | S f =>
      match s with
      | [] => None
      | c :: s1 =>
          if N.eqb c LBRACE then
            match skip_ws s1 with
            | [] => None
            | d :: s2 =>
                if N.eqb d RBRACE then Some (JObj [], s2)
                else
                  match parse_members f (d :: s2) with
                  | Some (ms, r) => Some (mk_object ms, r)
                  | None => None
                  end
            end
          else if N.eqb c LBRACKET then
            match skip_ws s1 with
            | [] => None
            | d :: s2 =>
                if N.eqb d RBRACKET then Some (JArr [], s2)
                else
                  match parse_elements f (d :: s2) with
                  | Some (vs, r) => Some (JArr vs, r)
                  | None => None
                  end
            end
          else if N.eqb c QUOTE then
            match parse_string_body s1 with
            | Some (str, r) => Some (JStr str, r)
            | None => None
            end
          else if starts_with (js "true") s then Some (JBool true, skipn 4 s)
          else if starts_with (js "false") s then Some (JBool false, skipn 5 s)
          else if starts_with (js "null") s then Some (JNull, skipn 4 s)
          else
            match parse_number s with
            | Some (n, r) => Some (JNum n, r)
            | None => None
            end
      end
  end

(** The elements of a non-empty array, from the first element up to and
    including the closing bracket. *)
with parse_elements (fuel : nat) (s : jsstring) {struct fuel}
  : option (list json * jsstring) :=
  match fuel with
  | O => None
  | S f =>
      match parse_value f s with
      | None => None
      | Some (v, r) =>
          match skip_ws r with
          | [] => None
          | d :: r2 =>
              if N.eqb d COMMA then
                match parse_elements f (skip_ws r2) with
                | Some (vs, r3) => Some (v :: vs, r3)
                | None => None
                end
              else if N.eqb d RBRACKET then Some ([v], r2)
              else None
          end
      end
  end

(** The members of a non-empty object, from the first key up to and
    including the closing brace. *)
with parse_members (fuel : nat) (s : jsstring) {struct fuel}
  : option (list (jsstring * json) * jsstring) :=
  match fuel with
  | O => None
  | S f =>
      match s with
      | [] => None
      | q :: s1 =>
          if N.eqb q QUOTE then
            match parse_string_body s1 with
            | None => None
            | Some (k, r) =>
                match skip_ws r with
                | [] => None
                | col :: r1 =>
                    if N.eqb col COLON then
                      match parse_value f (skip_ws r1) with
                      | None => None
                      | Some (v, r2) =>
                          match skip_ws r2 with
                          | [] => None
                          | d :: r3 =>
                              if N.eqb d COMMA then
                                match parse_members f (skip_ws r3) with
                                | Some (ms, r4) => Some ((k, v) :: ms, r4)
                                | None => None
                                end
                              else if N.eqb d RBRACE then Some ([(k, v)], r3)
                              else None
                          end
                      end
                    else None
                end
            end
          else None
      end
  end.

(** [JSON.parse(text)]: [None] stands for the SyntaxError it throws. *)
Definition JSON_parse (text : jsstring) : option json :=
  match parse_value (2 * length text + 2) (skip_ws text) with
  | Some (v, r) =>
      match skip_ws r with
      | [] => Some v
      | _ :: _ => None
      end
  | None => None
  end.

(** ** The operations of the language on these values *)

(** [v.key] on a parsed value.  The outer [None] is the TypeError of a
    property read on [null]; the inner [None] is [undefined].  The keys
    read by the code (slides, title, content) are no properties of the
    String, Number, Boolean, Array or Object prototypes. *)
Definition get_member (v : json) (k : jsstring) : option (option json) :=
  match v with
  | JNull => None
  | JObj o => Some (obj_get o k)
  | _ => Some None
  end.

(** ToBoolean; [None] is [undefined]. *)
Definition truthy (v : option json) : bool :=
  match v with
  | None => false
  | Some JNull => false
  | Some (JBool b) => b
  | Some (JNum n) => negb (double_eqb (to_double n) DZero)
  | Some (JStr s) => match s with [] => false | _ :: _ => true end
  | Some (JArr _) => true
  | Some (JObj _) => true
  end.

(** [a === b] on two Numbers: they are the same double (a JSON literal
    never denotes NaN, and the two zeros are equal). *)
Definition num_eqb (a b : jsnumber) : bool :=
  double_eqb (to_double a) (to_double b).

(** [a === b] for two values that come from different calls of
    [JSON.parse]: two objects or two arrays are then never the same
    reference. *)
Definition strict_eq (a b : option json) : bool :=
  match a, b with
  | None, None => true
  | Some JNull, Some JNull => true
  | Some (JBool x), Some (JBool y) => Bool.eqb x y
  | Some (JNum x), Some (JNum y) => num_eqb x y
  | Some (JStr x), Some (JStr y) => str_eqb x y
  | _, _ => false
  end.

End Json.
Import Json.

(* ================================================================== *)
(** * services/streamParser.ts *)
(* ================================================================== *)

Module StreamParser.

Definition FENCE_JSON : jsstring := js "```json".
Definition FENCE : jsstring := js "```".
Definition CLOSE_DIV : jsstring := js "</div>".

(** The cleaning step: every [```json], then every remaining [```], then
    [trim]. *)
Definition cleanStreamOf (stream : jsstring) : jsstring :=
  trim (replace_all FENCE [] (replace_all FENCE_JSON [] stream)).

(** ** Phase 1: the fully completed batches *)

Module BatchScan.
Record state := {
  braceCount : Z;
  inString : bool;
  currentObjectStartIndex : Z;
  lastValidBatchEndIndex : Z;
  completeSlides : list json
}.
End BatchScan.

Definition batch_init : BatchScan.state :=
  {| BatchScan.braceCount := 0;
     BatchScan.inString := false;
     BatchScan.currentObjectStartIndex := -1;
     BatchScan.lastValidBatchEndIndex := 0;
     BatchScan.completeSlides := [] |}.

(** [batch && Array.isArray(batch.slides)]: the slides the batch brings. *)
Definition batch_slides (batch : json) : list json :=
  if truthy (Some batch) then
    match get_member batch (js "slides") with
    | Some (Some (JArr l)) => l
    | _ => []
    end
  else [].

(** The body of the loop for a character at index [i] that is not
    skipped as part of an escape. *)
Definition batch_step (cleanStream : jsstring) (i : nat) (char : char)
    (st : BatchScan.state) : BatchScan.state :=
  let inString := if N.eqb char QUOTE then negb (BatchScan.inString st)
                  else BatchScan.inString st in
  let braceCount := BatchScan.braceCount st in
  let start := BatchScan.currentObjectStartIndex st in
  let lastEnd := BatchScan.lastValidBatchEndIndex st in
  let slides := BatchScan.completeSlides st in
  if inString then BatchScan.Build_state braceCount inString start lastEnd slides
  else if N.eqb char LBRACE then
    BatchScan.Build_state (braceCount + 1) inString
      (if Z.eqb braceCount 0 then Z.of_nat i else start) lastEnd slides
  else if N.eqb char RBRACE then
    let braceCount := (braceCount - 1)%Z in
    if Z.eqb braceCount 0 && negb (Z.eqb start (-1)) then
      let batchStr := substring cleanStream start (Z.of_nat i + 1) in
      match JSON_parse batchStr with
      | Some batch =>
          BatchScan.Build_state braceCount inString (-1) (Z.of_nat i + 1)
            (slides ++ batch_slides batch)
      | None =>
          BatchScan.Build_state braceCount inString (-1) lastEnd slides
      end
    else BatchScan.Build_state braceCount inString start lastEnd slides
  else BatchScan.Build_state braceCount inString start lastEnd slides.

(** The loop over [cleanStream]; [rest] is the text from index [i] on.
    A backslash that is not the last character skips the character
    after it. *)
Fixpoint scan_batches (cleanStream rest : jsstring) (i : nat)
    (st : BatchScan.state) : BatchScan.state :=
  match rest with
  | [] => st
  | char :: rest1 =>
      match rest1 with
      | _ :: rest2 =>
          if N.eqb char BACKSLASH
          then scan_batches cleanStream rest2 (i + 2) st
          else scan_batches cleanStream rest1 (i + 1)
                 (batch_step cleanStream i char st)
      | [] => batch_step cleanStream i char st
      end
  end.

(** ** Phase 2: the closed slides of the open batch *)

Module SlideScan.
Record state := {
  slideBraceCount : Z;
  slideInString : bool;
  slideStartIndex : Z;
  lastParsedSlideEnd : Z;
  completeSlides : list json
}.
End SlideScan.

(** [completeSlides.some(s => s.title === slide.title)]; [None] when the
    read of [s.title] throws. *)
Fixpoint some_title_eq (completeSlides : list json) (title : option json)
  : option bool :=
  match completeSlides with
  | [] => Some false
  | s :: rest =>
      match get_member s (js "title") with
      | None => None
      | Some t => if strict_eq t title then Some true
                  else some_title_eq rest title
      end
  end.

(** The [try] block on a slide candidate: the slides and the end offset
    after it.  Whatever is thrown inside is caught and changes nothing. *)
Definition try_slide (completeSlides : list json) (potentialSlideStr : jsstring)
    (j : nat) (lastParsedSlideEnd : Z) : list json * Z :=
  match JSON_parse potentialSlideStr with
  | None => (completeSlides, lastParsedSlideEnd)
  | Some slide =>
      match get_member slide (js "title") with
      | None => (completeSlides, lastParsedSlideEnd)
      | Some title =>
          if truthy title then
            match get_member slide (js "content") with
            | None => (completeSlides, lastParsedSlideEnd)
            | Some content =>
                if truthy content then
                  match some_title_eq completeSlides title with
                  | None => (completeSlides, lastParsedSlideEnd)
                  | Some exists_ =>
                      (if exists_ then completeSlides
                       else completeSlides ++ [slide],
                       (Z.of_nat j + 1)%Z)
                  end
                else (completeSlides, lastParsedSlideEnd)
            end
          else (completeSlides, lastParsedSlideEnd)
      end
  end.

Definition slide_step (slidesString : jsstring) (j : nat) (char : char)
    (st : SlideScan.state) : SlideScan.state :=
  let inString := if N.eqb char QUOTE then negb (SlideScan.slideInString st)
                  else SlideScan.slideInString st in
  let braceCount := SlideScan.slideBraceCount st in
  let start := SlideScan.slideStartIndex st in
  let lastEnd := SlideScan.lastParsedSlideEnd st in
  let slides := SlideScan.completeSlides st in
  if inString then SlideScan.Build_state braceCount inString start lastEnd slides
  else if N.eqb char LBRACE then
    SlideScan.Build_state (braceCount + 1) inString
      (if Z.eqb braceCount 0 then Z.of_nat j else start) lastEnd slides
  else if N.eqb char RBRACE then
    let braceCount := (braceCount - 1)%Z in
    if Z.eqb braceCount 0 && negb (Z.eqb start (-1)) then
      let potentialSlideStr := substring slidesString start (Z.of_nat j + 1) in
      let '(slides', lastEnd') := try_slide slides potentialSlideStr j lastEnd in
      SlideScan.Build_state braceCount inString (-1) lastEnd' slides'
    else SlideScan.Build_state braceCount inString start lastEnd slides
  else SlideScan.Build_state braceCount inString start lastEnd slides.

(** The loop over [slidesString]; here a backslash always skips. *)
Fixpoint scan_slides (slidesString rest : jsstring) (j : nat)
    (st : SlideScan.state) : SlideScan.state :=
  match rest with
  | [] => st
  | char :: rest1 =>
      if N.eqb char BACKSLASH then
        match rest1 with
        | [] => st
        | _ :: rest2 => scan_slides slidesString rest2 (j + 2) st
        end
      else scan_slides slidesString rest1 (j + 1)
             (slide_step slidesString j char st)
  end.

(** ** Phase 3: the HTML in progress *)

(** The three replacements, in the order of the source: backslash-quote,
    backslash-n, backslash-backslash. *)
Definition unescapePartial (partialHtml : jsstring) : jsstring :=
  replace_all [BACKSLASH; BACKSLASH] [BACKSLASH]
    (replace_all [BACKSLASH; 110%N] [10%N]
       (replace_all [BACKSLASH; QUOTE] [QUOTE] partialHtml)).

Definition previewOf (partialHtml : jsstring) : jsstring :=
  if includes [GT] partialHtml then
    if negb (includes CLOSE_DIV partialHtml) then partialHtml ++ CLOSE_DIV
    else partialHtml
  else [].

Definition extractInProgress (activeSlidePart : jsstring) : jsstring :=
  match regex_search (match_key_open (js "content") QUOTE) activeSlidePart 0 with
  | Some (index, len) =>
      previewOf
        (unescapePartial
           (substring_from activeSlidePart (Z.of_nat (index + len))))
  | None => []
  end.

Record StreamParseResult := {
  completeSlides : list json;
  inProgressHtml : jsstring
}.

(** The state in which the second scan starts. *)
Definition slide_init (completeSlides : list json) : SlideScan.state :=
  {| SlideScan.slideBraceCount := 0;
     SlideScan.slideInString := false;
     SlideScan.slideStartIndex := -1;
     SlideScan.lastParsedSlideEnd := 0;
     SlideScan.completeSlides := completeSlides |}.

(** The three phases, on the cleaned stream. *)
Definition parsePhases (cleanStream : jsstring) (isStreamComplete : bool)
  : StreamParseResult :=
  let p1 := scan_batches cleanStream cleanStream 0 batch_init in
  let remainingStream :=
    substring_from cleanStream (BatchScan.lastValidBatchEndIndex p1) in
  match regex_search (match_key_open (js "slides") LBRACKET) remainingStream 0 with
  | Some (index, len) =>
      let slidesArrayStart := index + len in
      let slidesString := substring_from remainingStream (Z.of_nat slidesArrayStart) in
      let p2 :=
        scan_slides slidesString slidesString 0
          (slide_init (BatchScan.completeSlides p1)) in
      {| completeSlides := SlideScan.completeSlides p2;
         inProgressHtml :=
           if isStreamComplete then []
           else extractInProgress
                  (substring_from slidesString (SlideScan.lastParsedSlideEnd p2)) |}
  | None =>
      {| completeSlides := BatchScan.completeSlides p1; inProgressHtml := [] |}
  end.

Definition parseLiveStream (stream : jsstring) (isStreamComplete : bool)
  : StreamParseResult :=
  parsePhases (cleanStreamOf stream) isStreamComplete.

End StreamParser.
Import StreamParser.

(* ================================================================== *)
(** * URI components *)
(* ================================================================== *)

Module Uri.

Definition is_alnum (c : char) : bool :=
  ((48 <=? c) && (c <=? 57) || (65 <=? c) && (c <=? 90)
   || (97 <=? c) && (c <=? 122))%N.

(** The characters [encodeURIComponent] leaves alone: letters, digits and
    the marks [- _ . ! ~ * ' ( )]. *)
Definition is_unreserved (c : char) : bool :=
  (is_alnum c || (c =? 45) || (c =? 95) || (c =? 46) || (c =? 33)
   || (c =? 126) || (c =? 42) || (c =? 39) || (c =? 40) || (c =? 41))%N.

Definition hex_digit (n : N) : char :=
  (if n <? 10 then 48 + n else 55 + n)%N.

Definition percent_byte (b : N) : jsstring :=
  [PERCENT; hex_digit (b / 16); hex_digit (b mod 16)].

(** The UTF-8 octets of a code point. *)
Definition utf8 (cp : N) : list N :=
  (if cp <? 128 then [cp]
   else if cp <? 2048 then [192 + cp / 64; 128 + cp mod 64]
   else if cp <? 65536 then
     [224 + cp / 4096; 128 + (cp / 64) mod 64; 128 + cp mod 64]
   else
     [240 + cp / 262144; 128 + (cp / 4096) mod 64;
      128 + (cp / 64) mod 64; 128 + cp mod 64])%N.

Definition is_high_surrogate (c : char) : bool := ((55296 <=? c) && (c <=? 56319))%N.
Definition is_low_surrogate (c : char) : bool := ((56320 <=? c) && (c <=? 57343))%N.

(** [encodeURIComponent(s)]; [None] is the URIError for a lone
    surrogate. *)
Fixpoint encodeURIComponent (s : jsstring) : option jsstring :=
  match s with
  | [] => Some []
  | c :: s1 =>
      if is_unreserved c then
        match encodeURIComponent s1 with
        | Some r => Some (c :: r)
        | None => None
        end
      else if is_low_surrogate c then None
      else if is_high_surrogate c then
        match s1 with
        | [] => None
        | d :: s2 =>
            if is_low_surrogate d then
              match encodeURIComponent s2 with
              | Some r =>
                  Some (flat_map percent_byte
                          (utf8 ((c - 55296) * 1024 + (d - 56320) + 65536)%N) ++ r)
              | None => None
              end
            else None
        end
      else
        match encodeURIComponent s1 with
        | Some r => Some (flat_map percent_byte (utf8 c) ++ r)
        | None => None
        end
  end.

(** The octet written as a percent sign and two hexadecimal digits at
    the head of [s]. *)
Definition read_percent (s : jsstring) : option (N * jsstring) :=
  match s with
  | p :: h1 :: h2 :: r =>
      if N.eqb p PERCENT then
        match hex_value h1, hex_value h2 with
        | Some a, Some b => Some ((a * 16 + b)%N, r)
        | _, _ => None
        end
      else None
  | _ => None
  end.

(** The next [n] continuation octets (of the form 10xxxxxx), folded into
    the code point [acc]. *)
Fixpoint read_continuation (n : nat) (acc : N) (s : jsstring) : option N :=
  match n with
  | O => Some acc
  | S n' =>
      match read_percent s with
      | Some (b, r) =>
          if ((128 <=? b) && (b <=? 191))%N
          then read_continuation n' (acc * 64 + (b - 128))%N r
          else None
      | None => None
      end
  end.

(** The escape sequence at the head of [s], which starts with a percent
    sign: the code units it stands for and the number of characters it
    takes.  [None] is the URIError for a malformed sequence (no two
    hexadecimal digits, or octets that are not the UTF-8 encoding of a
    code point). *)
Definition decode_escape (s : jsstring) : option (jsstring * nat) :=
  match read_percent s with
  | None => None
  | Some (b, r) =>
      (if b <? 128 then Some ([b], 3%nat)
       else if b <? 192 then None
       else if b <? 224 then
         match read_continuation 1 (b - 192) r with
         | Some cp => if 128 <=? cp then Some ([cp], 6%nat) else None
         | None => None
         end
       else if b <? 240 then
         match read_continuation 2 (b - 224) r with
         | Some cp =>
             if (2048 <=? cp) && negb ((55296 <=? cp) && (cp <=? 57343))
             then Some ([cp], 9%nat) else None
         | None => None
         end
       else if b <? 248 then
         match read_continuation 3 (b - 240) r with
         | Some cp =>
             if (65536 <=? cp) && (cp <=? 1114111)
             then Some ([55296 + (cp - 65536) / 1024;
                         56320 + (cp - 65536) mod 1024], 12%nat)
             else None
         | None => None
         end
       else None)%N
  end.

(** [decodeURIComponent(s)]; [skip] counts the characters of the current
    escape sequence that are still to be passed over. *)
Fixpoint decode_from (skip : nat) (s : jsstring) : option jsstring :=
  match s with
  | [] => Some []
  | c :: s1 =>
      match skip with
      | S k => decode_from k s1
      | O =>
          if N.eqb c PERCENT then
            match decode_escape s with
            | Some (units, len) =>
                match decode_from (len - 1) s1 with
                | Some r => Some (units ++ r)
                | None => None
                end
            | None => None
            end
          else
            match decode_from 0 s1 with
            | Some r => Some (c :: r)
            | None => None
            end
      end
  end.

Definition decodeURIComponent (s : jsstring) : option jsstring := decode_from 0 s.

End Uri.
Import Uri.

(* ================================================================== *)
(** * The final content transforms of services/streamParser.ts *)
(* ================================================================== *)

Module Transforms.

(** [s.replace(re, callback)] with the global flag, for an expression
    that never matches the empty string: the callback receives the
    matched text; what it throws ([None]) ends the whole call. *)
Fixpoint regex_replace (m : jsstring -> option nat)
    (callback : jsstring -> option jsstring) (skip : nat) (s : jsstring)
  : option jsstring :=
  match s with
  | [] => Some []
  | c :: s1 =>
      match skip with
      | S k => regex_replace m callback k s1
      | O =>
          match m s with
          | Some len =>
              match callback (firstn len s) with
              | Some r =>
                  match regex_replace m callback (len - 1) s1 with
                  | Some rest => Some (r ++ rest)
                  | None => None
                  end
              | None => None
              end
          | None =>
              match regex_replace m callback 0 s1 with
              | Some rest => Some (c :: rest)
              | None => None
              end
          end
      end
  end.

(** ** transformPollinationsURLs *)

Definition to_lower (c : char) : char :=
  (if (65 <=? c) && (c <=? 90) then c + 32 else c)%N.

(** A literal of ASCII characters matched under the ignore-case flag. *)
Fixpoint starts_with_ci (p s : jsstring) : bool :=
  match p with
  | [] => true
  | x :: p' =>
      match s with
      | [] => false
      | y :: s' => N.eqb (to_lower x) (to_lower y) && starts_with_ci p' s'
      end
  end.

(** The class of the capture group: anything but a backslash, a quote,
    white space and the greater-than sign. *)
Definition is_url_char (c : char) : bool :=
  negb (N.eqb c BACKSLASH || N.eqb c QUOTE || is_js_space c || N.eqb c GT).

Fixpoint count_while (f : char -> bool) (s : jsstring) : nat :=
  match s with
  | [] => 0
  | c :: s' => if f c then S (count_while f s') else 0
  end.

Definition URL_HOST_PATH : jsstring := js "://gen.pollinations.ai/image/".

(** The anchored matcher of the URL expression: the scheme with an
    optional s, the host and path, then the longest non-empty run of the
    class.  The result is the length of the prefix before the capture
    group and the length of the group. *)
Definition match_url (s : jsstring) : option (nat * nat) :=
  if starts_with_ci (js "http") s then
    let s1 := skipn 4 s in
    let after_scheme (n : nat) (t : jsstring) :=
      if starts_with_ci URL_HOST_PATH t then
        let raw := skipn (length URL_HOST_PATH) t in
        match count_while is_url_char raw with
        | O => None
        | S k => Some (n + length URL_HOST_PATH, S k)
        end
      else None in
    match s1 with
    | c :: s2 =>
        if N.eqb (to_lower c) 115 (* s *) then
          match after_scheme 5 s2 with
          | Some r => Some r
          | None => after_scheme 4 s1
          end
        else after_scheme 4 s1
    | [] => None
    end
  else None.

Definition match_url_len (s : jsstring) : option nat :=
  match match_url s with
  | Some (pre, raw) => Some (pre + raw)
  | None => None
  end.

Definition transformPollinationsURLs (input apiKey : jsstring) : option jsstring :=
  regex_replace match_url_len
    (fun full =>
       match match_url full with
       | Some (pre, _) =>
           let raw := skipn pre full in
           let desc := replace_all [UNDERSCORE] [SPACE] raw in
           match decodeURIComponent desc with
           | Some desc =>
               match encodeURIComponent desc with
               | Some encoded =>
                   Some (js "https://gen.pollinations.ai/image/" ++ encoded
                         ++ js "?model=flux&key=" ++ apiKey)
               | None => None
               end
           | None => None
           end
       | None => None
       end)
    0 input.

(** ** convertQuickChartTags *)

Definition TAG_OPEN : jsstring := js "<quickchart".

Fixpoint index_of_char (x : char) (s : jsstring) : option nat :=
  match s with
  | [] => None
  | c :: s' =>
      if N.eqb c x then Some 0
      else match index_of_char x s' with
           | Some n => Some (S n)
           | None => None
           end
  end.

(** The tag expression: the opening literal, then the shortest
    non-empty text that is followed by a greater-than sign. *)
Definition match_tag (s : jsstring) : option nat :=
  if starts_with TAG_OPEN s then
    match skipn (length TAG_OPEN) s with
    | _ :: r =>
        match index_of_char GT r with
        | Some k => Some (length TAG_OPEN + 1 + k + 1)
        | None => None
        end
    | [] => None
    end
  else None.

Definition is_attr_name_char (c : char) : bool :=
  is_alnum c || N.eqb c UNDERSCORE || N.eqb c HYPHEN.

(** The attribute expression: the longest run of name characters, white
    space, an equals sign, white space, a quote of either kind, the
    shortest text up to the same quote.  The result is the length of the
    match, the name and the value. *)
Definition match_attr (s : jsstring) : option (nat * jsstring * jsstring) :=
  match count_while is_attr_name_char s with
  | O => None
  | S k =>
      let n := S k in
      let s1 := skipn n s in
      let w1 := count_space s1 in
      match skipn w1 s1 with
      | e :: s2 =>
          if N.eqb e EQUALS then
            let w2 := count_space s2 in
            match skipn w2 s2 with
            | q :: s3 =>
                if N.eqb q QUOTE || N.eqb q APOSTROPHE then
                  match index_of_char q s3 with
                  | Some v => Some (n + w1 + 1 + w2 + 1 + v + 1, firstn n s, firstn v s3)
                  | None => None
                  end
                else None
            | [] => None
            end
          else None
      | [] => None
      end
  end.

(** The object [attributes]: its own properties in the order in which
    they were created.  An assignment to the name of the prototype
    accessor creates no property. *)
Definition PROTO : jsstring := js "__proto__".

Fixpoint attr_put (o : list (jsstring * jsstring)) (k v : jsstring)
  : list (jsstring * jsstring) :=
  match o with
  | [] => [(k, v)]
  | (k', v') :: o' =>
      if str_eqb k' k then (k', v) :: o' else (k', v') :: attr_put o' k v
  end.

Definition attr_set (o : list (jsstring * jsstring)) (k v : jsstring) :=
  if str_eqb k PROTO then o else attr_put o k v.

Fixpoint attr_get (o : list (jsstring * jsstring)) (k : jsstring) : option jsstring :=
  match o with
  | [] => None
  | (k', v) :: o' => if str_eqb k' k then Some v else attr_get o' k
  end.

(** The [while] loop over the matches of the attribute expression. *)
Fixpoint scan_attrs (skip : nat) (s : jsstring)
    (attributes : list (jsstring * jsstring)) : list (jsstring * jsstring) :=
  match s with
  | [] => attributes
  | _ :: s1 =>
      match skip with
      | S k => scan_attrs k s1 attributes
      | O =>
          match match_attr s with
          | Some (len, name, value) =>
              scan_attrs (len - 1) s1 (attr_set attributes name value)
          | None => scan_attrs 0 s1 attributes
          end
      end
  end.

(** An array index as a property name: a canonical decimal numeral below
    2^32 - 1.  Such names are enumerated first, in ascending order. *)
Definition array_index (k : jsstring) : option N :=
  match k with
  | [] => None
  | c :: k' =>
      if forallb is_digit k && (negb (N.eqb c 48) || match k' with [] => true | _ => false end)
         && (length k <=? 10)%nat
      then
        let n := fold_left (fun acc d => acc * 10 + (d - 48))%N k 0%N in
        if (n <? 4294967295)%N then Some n else None
      else None
  end.

Fixpoint insert_index (e : N * (jsstring * jsstring))
    (l : list (N * (jsstring * jsstring))) :=
  match l with
  | [] => [e]
  | x :: l' => if (fst e <? fst x)%N then e :: l else x :: insert_index e l'
  end.

(** The order of [for (const key in attributes)]. *)
Definition for_in_order (o : list (jsstring * jsstring)) : list (jsstring * jsstring) :=
  let indexed :=
    fold_right
      (fun kv acc =>
         match array_index (fst kv) with
         | Some n => insert_index (n, kv) acc
         | None => acc
         end) [] o in
  map snd indexed
  ++ filter (fun kv => match array_index (fst kv) with Some _ => false | None => true end) o.

Definition convertTag (matched : jsstring) : option jsstring :=
  let attributesString := skipn (length TAG_OPEN) (removelast matched) in
  let cleanedAttributesString :=
    replace_all [BACKSLASH; APOSTROPHE] [APOSTROPHE]
      (replace_all [BACKSLASH; QUOTE] [QUOTE] attributesString) in
  let attributes := scan_attrs 0 cleanedAttributesString [] in
  match attr_get attributes (js "config") with
  | None => Some matched
  | Some [] => Some matched
  | Some config =>
      match encodeURIComponent (replace_all [APOSTROPHE] [QUOTE] config) with
      | None => None
      | Some encodedConfig =>
          let chartUrl := js "https://quickchart.io/chart?c=" ++ encodedConfig in
          let imgTag := js "<img src=" ++ [QUOTE] ++ chartUrl ++ [QUOTE] in
          let imgTag :=
            fold_left
              (fun acc kv =>
                 if negb (str_eqb (fst kv) (js "config")) then
                   let escapedValue := replace_all [QUOTE] (js "&quot;") (snd kv) in
                   acc ++ [SPACE] ++ fst kv ++ [EQUALS; QUOTE] ++ escapedValue ++ [QUOTE]
                 else acc)
              (for_in_order attributes) imgTag in
          Some (imgTag ++ [GT])
      end
  end.

Definition convertQuickChartTags (htmlString : jsstring) : option jsstring :=
  regex_replace match_tag convertTag 0 htmlString.

End Transforms.
Import Transforms.

(* ================================================================== *)
(** * services/gemini.ts: the generation-call layer *)
(* ================================================================== *)

Module Gemini.

(** What a rejected call throws: an error with a message and possibly a
    numeric code. *)
Record JsError := {
  message : jsstring;
  code : option Z
}.

Inductive outcome (T : Type) :=
| Resolved (v : T)
| Rejected (e : JsError).
Arguments Resolved {T} v.
Arguments Rejected {T} e.

(** The effects of the layer: the calls made to the backend so far and
    the delays waited for, in milliseconds, oldest first. *)
Record World := {
  calls : nat;
  slept : list Z
}.

Definition world0 : World := {| calls := 0; slept := [] |}.

Definition called (w : World) : World :=
  {| calls := S (calls w); slept := slept w |}.

Definition sleep (ms : Z) (w : World) : World :=
  {| calls := calls w; slept := slept w ++ [ms] |}.

(** [(error.message && error.message.includes(429)) || error.code == 429] *)
Definition is_rate_limit (error : JsError) : bool :=
  match message error with
  | [] => false
  | _ :: _ => includes (js "429") (message error)
  end
  || match code error with
     | Some c => Z.eqb c 429
     | None => false
     end.

Definition show_nat (n : nat) : jsstring :=
  js (DecimalString.NilZero.string_of_uint (Nat.to_uint n)).

Definition exhausted (maxRetries : nat) (lastError : option JsError) : JsError :=
  {| message :=
       js "AI service failed after " ++ show_nat maxRetries
       ++ js " attempts. Last error: "
       ++ match lastError with
          | Some e => message e
          | None => js "undefined"
          end;
     code := None |}.

(** The [for] loop of [_withRetry] from iteration [i], with [k] the
    number of iterations left.  The wrapped function [fn] is given by the
    outcome of each of its calls, numbered by the calls made so far. *)
Fixpoint retry_from {T : Type} (fn : nat -> outcome T) (maxRetries k i : nat)
    (lastError : option JsError) (w : World) : outcome T * World :=
  match k with
  | O => (Rejected (exhausted maxRetries lastError), w)
  | S k' =>
      match fn (calls w) with
      | Resolved v => (Resolved v, called w)
      | Rejected error =>
          if is_rate_limit error then (Rejected error, called w)
          else
            retry_from fn maxRetries k' (i + 1) (Some error)
              (sleep (1000 * (Z.of_nat i + 1)) (called w))
      end
  end.

Definition _withRetry {T : Type} (fn : nat -> outcome T) (maxRetries : nat)
    (w : World) : outcome T * World :=
  retry_from fn maxRetries maxRetries 0 None w.

(** The default value of the second parameter, which every caller
    relies on. *)
Definition MAX_RETRIES : nat := 3.

(** ** generatePresentationStream *)

Record OutlineItem := {
  id : jsstring;
  title : jsstring;
  points : list jsstring
}.

Record GenerationChunk := {
  text : jsstring;
  isComplete : bool
}.

(** What one turn sends: the prompt is built from these (the prompt
    texts themselves are in a module that is not part of the sources). *)
Record Message := {
  firstRequest : bool;
  startSlide : nat;
  endSlide : nat;
  batchOutlineItems : list OutlineItem
}.

(** The response stream of a turn: the [text] of each chunk
    ([None] for undefined) and the error the iteration ends with, if
    any. *)
Record ResponseStream := {
  chunks : list (option jsstring);
  failure : option JsError
}.

(** The chat handle: the outcome of each call of [sendMessageStream],
    numbered by the calls made so far. *)
Definition Chat := nat -> Message -> outcome ResponseStream.

Inductive completion :=
| Returned
| Threw (e : JsError).

Definition BATCH_SIZE : nat := 4.

(** The chunks one response stream makes the generator yield: those
    whose text is neither undefined nor empty. *)
Definition yields_of (isLastBatch : bool) (cs : list (option jsstring))
  : list GenerationChunk :=
  flat_map
    (fun c =>
       match c with
       | Some (x :: t) => [{| text := x :: t; isComplete := isLastBatch |}]
       | _ => []
       end) cs.

(** The loop over the outline from index [i]; [rest] is the outline from
    [i] on.  The result lists the turns that yielded, each with its index
    [i] and the chunks it yielded (to a consumer that drains the
    generator), and how the generator ends. *)
Fixpoint turns_from (chat : Chat) (outline_length : nat)
    (rest : list OutlineItem) (i : nat) (w : World)
  : list (nat * list GenerationChunk) * completion * World :=
  match rest with
  | [] => ([], Returned, w)
  | _ :: _ =>
      let startSlide := i + 1 in
      let endSlide := Nat.min (i + BATCH_SIZE) outline_length in
      let isLastBatch := (outline_length <=? endSlide)%nat in
      let message :=
        {| firstRequest := (i =? 0)%nat;
           startSlide := startSlide;
           endSlide := endSlide;
           batchOutlineItems := firstn BATCH_SIZE rest |} in
      match _withRetry (fun n => chat n message) MAX_RETRIES w with
      | (Rejected error, w1) => ([], Threw error, w1)
      | (Resolved responseStream, w1) =>
          let ys := yields_of isLastBatch (chunks responseStream) in
          match failure responseStream with
          | Some error => ([(i, ys)], Threw error, w1)
          | None =>
              match rest with
              | _ :: _ :: _ :: _ :: rest' =>
                  let '(turns, c, w2) :=
                    turns_from chat outline_length rest' (i + BATCH_SIZE) w1 in
                  ((i, ys) :: turns, c, w2)
              | _ => ([(i, ys)], Returned, w1)
              end
          end
      end
  end.

(** The generator: the sequence of the chunks it yields, how it ends and
    the effects it had. *)
Definition generatePresentationStream (chat : Chat) (outline : list OutlineItem)
    (w : World) : list GenerationChunk * completion * World :=
  let '(turns, c, w') := turns_from chat (length outline) outline 0 w in
  (concat (map snd turns), c, w').

End Gemini.
Import Gemini.

(* ================================================================== *)
(** * The vocabulary of the properties *)
(* ================================================================== *)

Module Wire.

(** A slide record and a batch as the backend is asked to send them. *)
Record SlideRecord := {
  s_title : jsstring;
  s_content : jsstring
}.

Definition Batch := list SlideRecord.

Definition hex_lower (n : N) : char := (if n <? 10 then 48 + n else 87 + n)%N.

(** The escaping of one character inside a JSON string, as
    [JSON.stringify] writes it: the quote, the backslash and the control
    characters are escaped, every other code unit stands for itself. *)
Definition escape_char (c : char) : jsstring :=
  (if c =? 34 then [BACKSLASH; 34]
   else if c =? 92 then [BACKSLASH; 92]
   else if c =? 8 then [BACKSLASH; 98]
   else if c =? 12 then [BACKSLASH; 102]
   else if c =? 10 then [BACKSLASH; 110]
   else if c =? 13 then [BACKSLASH; 114]
   else if c =? 9 then [BACKSLASH; 116]
   else if c <? 32 then
     [BACKSLASH; 117; 48; 48; hex_lower (c / 16); hex_lower (c mod 16)]
   else [c])%N.

Definition json_escape (s : jsstring) : jsstring := flat_map escape_char s.

Definition quoted (s : jsstring) : jsstring := QUOTE :: json_escape s ++ [QUOTE].

(** The compact JSON text of a slide, of the slides of a batch, of a
    batch, and of a stream of batches written one after the other with
    no separator. *)
Definition slide_text (r : SlideRecord) : jsstring :=
  jsq "'" "{'title':" ++ quoted (s_title r)
  ++ jsq "'" ",'content':" ++ quoted (s_content r) ++ [RBRACE].

Fixpoint slides_text (l : list SlideRecord) : jsstring :=
  match l with
  | [] => []
  | r :: l' =>
      match l' with
      | [] => slide_text r
      | _ :: _ => slide_text r ++ COMMA :: slides_text l'
      end
  end.

Definition SLIDES_OPEN : jsstring := jsq "'" "{'slides':[".

Definition batch_text (b : Batch) : jsstring :=
  SLIDES_OPEN ++ slides_text b ++ js "]}".

Definition stream_text (bs : list Batch) : jsstring :=
  concat (map batch_text bs).

(** The value a slide record parses to. *)
Definition slide_value (r : SlideRecord) : json :=
  JObj [(js "title", JStr (s_title r)); (js "content", JStr (s_content r))].

(** The value a batch parses to. *)
Definition batch_value (b : Batch) : json :=
  JObj [(js "slides", JArr (map slide_value b))].

(** A text without its fenced-code markers, as the cleaning step removes
    them. *)
Definition strip (s : jsstring) : jsstring :=
  replace_all FENCE [] (replace_all FENCE_JSON [] s).

Definition map_fields (f : jsstring -> jsstring) (r : SlideRecord) : SlideRecord :=
  {| s_title := f (s_title r); s_content := f (s_content r) |}.

Definition strip_slide (r : SlideRecord) : SlideRecord := map_fields strip r.

(** A character that a JSON string holds as it is. *)
Definition is_plain (c : char) : bool :=
  negb (N.ltb c 32) && negb (N.eqb c QUOTE) && negb (N.eqb c BACKSLASH).

(** A state of the first scan with its in-string flag set to [b]. *)
Definition set_inString (b : bool) (st : BatchScan.state) : BatchScan.state :=
  {| BatchScan.braceCount := BatchScan.braceCount st;
     BatchScan.inString := b;
     BatchScan.currentObjectStartIndex := BatchScan.currentObjectStartIndex st;
     BatchScan.lastValidBatchEndIndex := BatchScan.lastValidBatchEndIndex st;
     BatchScan.completeSlides := BatchScan.completeSlides st |}.

Definition with_braceCount (n : Z) (st : BatchScan.state) : BatchScan.state :=
  {| BatchScan.braceCount := n;
     BatchScan.inString := BatchScan.inString st;
     BatchScan.currentObjectStartIndex := BatchScan.currentObjectStartIndex st;
     BatchScan.lastValidBatchEndIndex := BatchScan.lastValidBatchEndIndex st;
     BatchScan.completeSlides := BatchScan.completeSlides st |}.

(** The state of the first scan between two top-level objects. *)
Definition between_batches (lastEnd : Z) (slides : list json) : BatchScan.state :=
  {| BatchScan.braceCount := 0;
     BatchScan.inString := false;
     BatchScan.currentObjectStartIndex := -1;
     BatchScan.lastValidBatchEndIndex := lastEnd;
     BatchScan.completeSlides := slides |}.

(** A state of the second scan with its in-string flag set to [b]. *)
Definition set_slideInString (b : bool) (st : SlideScan.state) : SlideScan.state :=
  {| SlideScan.slideBraceCount := SlideScan.slideBraceCount st;
     SlideScan.slideInString := b;
     SlideScan.slideStartIndex := SlideScan.slideStartIndex st;
     SlideScan.lastParsedSlideEnd := SlideScan.lastParsedSlideEnd st;
     SlideScan.completeSlides := SlideScan.completeSlides st |}.

Definition with_slideBraceCount (n : Z) (st : SlideScan.state) : SlideScan.state :=
  {| SlideScan.slideBraceCount := n;
     SlideScan.slideInString := SlideScan.slideInString st;
     SlideScan.slideStartIndex := SlideScan.slideStartIndex st;
     SlideScan.lastParsedSlideEnd := SlideScan.lastParsedSlideEnd st;
     SlideScan.completeSlides := SlideScan.completeSlides st |}.

(** The state of the second scan between two slide objects. *)
Definition between_slides (lastEnd : Z) (slides : list json) : SlideScan.state :=
  {| SlideScan.slideBraceCount := 0;
     SlideScan.slideInString := false;
     SlideScan.slideStartIndex := -1;
     SlideScan.lastParsedSlideEnd := lastEnd;
     SlideScan.completeSlides := slides |}.

(** A slide record passes the test on its title and content when both
    are non-empty. *)
Definition has_fields (r : SlideRecord) : bool :=
  match s_title r, s_content r with
  | _ :: _, _ :: _ => true
  | _, _ => false
  end.

(** Some record of [seen] has the title [t]. *)
Definition title_seen (seen : list SlideRecord) (t : jsstring) : bool :=
  existsb (fun r => str_eqb (s_title r) t) seen.

(** What the second scan makes of a closed slide: the records found so
    far, with the slide added when it has its fields and a new title. *)
Definition take_slide (seen : list SlideRecord) (r : SlideRecord) : list SlideRecord :=
  if has_fields r && negb (title_seen seen (s_title r)) then seen ++ [r] else seen.

Definition take_slides (seen rs : list SlideRecord) : list SlideRecord :=
  fold_left take_slide rs seen.

(** The text of the closed slides of an open batch: each is followed by
    the comma that announces the next slide. *)
Definition closed_text (rs : list SlideRecord) : jsstring :=
  flat_map (fun r => slide_text r ++ [COMMA]) rs.

(** The end offset of the last slide of [rs] that has its fields, for
    slides written from offset [pos] on; [lastEnd] when there is none. *)
Fixpoint last_parsed_end (pos : nat) (lastEnd : Z) (rs : list SlideRecord) : Z :=
  match rs with
  | [] => lastEnd
  | r :: rs' =>
      last_parsed_end (pos + length (slide_text r) + 1)
        (if has_fields r then Z.of_nat (pos + length (slide_text r)) else lastEnd)
        rs'
  end.

(** The first scan only ever adds slides and moves its end cursor
    forward: [b] is a later state than [a]. *)
Definition batch_later (a b : BatchScan.state) : Prop :=
  (exists l, BatchScan.completeSlides b = BatchScan.completeSlides a ++ l)
  /\ (BatchScan.lastValidBatchEndIndex a <= BatchScan.lastValidBatchEndIndex b)%Z.

(** The offsets a state of the first scan holds are not beyond the
    index [i] the loop is at. *)
Definition batch_within (i : nat) (st : BatchScan.state) : Prop :=
  (BatchScan.lastValidBatchEndIndex st <= Z.of_nat i)%Z
  /\ (BatchScan.currentObjectStartIndex st <= Z.of_nat i)%Z.

(** The same for the second scan. *)
Definition slide_later (a b : SlideScan.state) : Prop :=
  (exists l, SlideScan.completeSlides b = SlideScan.completeSlides a ++ l)
  /\ (SlideScan.lastParsedSlideEnd a <= SlideScan.lastParsedSlideEnd b)%Z.

Definition slide_within (j : nat) (st : SlideScan.state) : Prop :=
  (SlideScan.lastParsedSlideEnd st <= Z.of_nat j)%Z
  /\ (SlideScan.slideStartIndex st <= Z.of_nat j)%Z.

(** The text of a slide that is cut inside its content: the title, and
    the part of the escaped content that has arrived. *)
Definition open_slide_text (t partial : jsstring) : jsstring :=
  jsq "'" "{'title':" ++ quoted t ++ jsq "'" ",'content':'" ++ partial.

(** A buffer cut inside the content of a slide: complete batches, then
    an open batch with closed slides and the slide that is cut. *)
Definition truncated_text (done : list Batch) (closed : list SlideRecord)
    (t partial : jsstring) : jsstring :=
  stream_text done ++ SLIDES_OPEN ++ closed_text closed ++ open_slide_text t partial.

(** Every quote of [s] comes right after a backslash; [prev] is the
    character before [s]. *)
Fixpoint quotes_escaped (prev : char) (s : jsstring) : bool :=
  match s with
  | [] => true
  | c :: s' =>
      (negb (N.eqb c QUOTE) || N.eqb prev BACKSLASH) && quotes_escaped c s'
  end.

(** [c] is the inside of a string for the first scan: read inside a
    string and followed by a quote, it ends the string and changes
    nothing else. *)
Definition scans_as_string (c : jsstring) : Prop :=
  forall cs rest i st,
    BatchScan.inString st = true ->
    scan_batches cs (c ++ QUOTE :: rest) i st
    = scan_batches cs rest (i + length c + 1) (set_inString false st).

(** [c] is balanced for the first scan: read inside an object and
    outside a string, it leaves the state as it is. *)
Definition balanced (c : jsstring) : Prop :=
  forall cs rest i st,
    BatchScan.inString st = false ->
    (1 <= BatchScan.braceCount st)%Z ->
    scan_batches cs (c ++ rest) i st = scan_batches cs rest (i + length c) st.

(** A character the first scan does not react to. *)
Definition neutral (x : char) : Prop :=
  x <> QUOTE /\ x <> BACKSLASH /\ x <> LBRACE /\ x <> RBRACE.

(** From [s], a balanced text is read and [r] is left. *)
Definition reads (s r : jsstring) : Prop :=
  exists c, s = c ++ r /\ balanced c.

(** [text] is the text of a JSON object with the value [v]: it parses
    to [v], starts at the opening brace and ends at the closing brace. *)
Definition is_object_text (text : jsstring) (v : json) : Prop :=
  JSON_parse text = Some v
  /\ hd_error text = Some LBRACE
  /\ last text 0%N = RBRACE.

(** No character of [s] is a backtick. *)
Definition no_backtick (s : jsstring) : bool :=
  forallb (fun c => negb (N.eqb c BACKTICK)) s.

(** [insert_at p m s]: the text [s] with [m] put in at position [p]. *)
Definition insert_at (p : nat) (m s : jsstring) : jsstring :=
  firstn p s ++ m ++ skipn p s.

(** Some suffix of [s] is matched by the anchored matcher [m]. *)
Fixpoint has_match {A : Type} (m : jsstring -> option A) (s : jsstring) : bool :=
  match m s with
  | Some _ => true
  | None =>
      match s with
      | [] => false
      | _ :: s' => has_match m s'
      end
  end.

(** The delays of a linear backoff before the attempt number [k]: one
    second after the first failure, two after the second, and so on. *)
Definition backoff (k : nat) : list Z :=
  map (fun j => 1000 * (Z.of_nat j + 1))%Z (seq 0 k).

(** The [k] calls from call number [n] on are rejected without a
    rate-limit signal. *)
Definition transient_failures {T : Type} (fn : nat -> outcome T) (n k : nat) : Prop :=
  forall j, j < k -> exists e, fn (n + j) = Rejected e /\ is_rate_limit e = false.

(** The rate-limit signal as the specification words it: the message of
    the error mentions 429 somewhere, or its code is 429. *)
Definition carries_429 (e : JsError) : Prop :=
  (exists a b, message e = a ++ js "429" ++ b) \/ code e = Some 429%Z.

(** The [k] calls from call number [n] on are rejected with errors that
    do not carry the signal. *)
Definition failures_without_429 {T : Type} (fn : nat -> outcome T) (n k : nat) : Prop :=
  forall j, j < k -> exists e, fn (n + j) = Rejected e /\ ~ carries_429 e.

(** ** The generation-call layer, for any attempt cap and any outline *)

(** The error the loop of [_withRetry] holds after [j] failed calls from
    call number [n] on; [lastError] before the first of them. *)
Definition last_error {T : Type} (fn : nat -> outcome T) (n j : nat)
    (lastError : option JsError) : option JsError :=
  match j with
  | O => lastError
  | S j' =>
      match fn (n + j') with
      | Rejected e => Some e
      | Resolved _ => lastError
      end
  end.

(** The number of turns for an outline of [n] items. *)
Definition turn_count (n : nat) : nat := (n + 3) / 4.

(** What turn number [j] sends for the outline. *)
Definition turn_message (outline : list OutlineItem) (j : nat) : Message :=
  {| firstRequest := (j =? 0)%nat;
     startSlide := 4 * j + 1;
     endSlide := Nat.min (4 * j + 4) (length outline);
     batchOutlineItems := firstn 4 (skipn (4 * j) outline) |}.

(** Turn number [j] is answered at the first attempt, as call number
    [n + j], by a stream that ends without an error. *)
Definition healthy_turn (chat : Chat) (outline : list OutlineItem) (n j : nat) : Prop :=
  exists rs, chat (n + j) (turn_message outline j) = Resolved rs
             /\ failure rs = None.

(** The chunks turn number [j] yields when it is answered at the first
    attempt as call number [n + j]. *)
Definition turn_yields (chat : Chat) (outline : list OutlineItem) (n j : nat)
  : list GenerationChunk :=
  match chat (n + j) (turn_message outline j) with
  | Resolved rs =>
      yields_of (length outline <=? 4 * j + 4)%nat (chunks rs)
  | Rejected _ => []
  end.

(** ** The results of the parser on any buffer *)

(** The slides of [extra], added one after the other to [seen], each
    have a title and a content that count as true and a title that no
    slide before it has. *)
Fixpoint fresh_slides (seen extra : list json) : bool :=
  match extra with
  | [] => true
  | s :: rest =>
      match get_member s (js "title"), get_member s (js "content") with
      | Some t, Some c =>
          truthy t && truthy c
          && match some_title_eq seen t with
             | Some false => true
             | _ => false
             end
          && fresh_slides (seen ++ [s]) rest
      | _, _ => false
      end
  end.

(** The same, in the words of the specification and with no reference
    to the tests of the parser.  [field s k] is the property [k] of a
    slide of the result when it is an object that has it. *)
Definition field (s : json) (k : jsstring) : option json :=
  match s with
  | JObj o => obj_get o k
  | _ => None
  end.

(** The value counts as true in a condition. *)
Definition counts_as_true (v : json) : Prop :=
  match v with
  | JNull => False
  | JBool b => b = true
  | JNum n => to_double n <> DZero
  | JStr s => s <> []
  | JArr _ => True
  | JObj _ => True
  end.

(** The two values are the same title: the same string, the same
    Number, the same boolean, or both null. *)
Definition same_title (a b : json) : Prop :=
  match a, b with
  | JNull, JNull => True
  | JBool x, JBool y => x = y
  | JNum x, JNum y => to_double x = to_double y
  | JStr x, JStr y => x = y
  | _, _ => False
  end.

(** The slide [s] has a title and a content that count as true, and no
    slide of [seen] is null or has the same title. *)
Definition fresh_after (seen : list json) (s : json) : Prop :=
  exists t c,
    field s (js "title") = Some t /\ field s (js "content") = Some c
    /\ counts_as_true t /\ counts_as_true c
    /\ forall s', In s' seen ->
         s' <> JNull
         /\ forall t', field s' (js "title") = Some t' -> ~ same_title t' t.

(** The slides the first scan finds in a buffer. *)
Definition phase1_slides (stream : jsstring) : list json :=
  BatchScan.completeSlides
    (scan_batches (cleanStreamOf stream) (cleanStreamOf stream) 0 batch_init).

(** ** Buffers with fenced-code markers *)

(** A marker and the text after it: [(true, p)] is the long marker
    followed by [p], [(false, p)] the short one followed by [p]. *)
Definition fence_piece (x : bool * jsstring) : jsstring :=
  (if fst x then FENCE_JSON else FENCE) ++ snd x.

(** A text [head] followed by markers, each with the text after it. *)
Definition fenced (head : jsstring) (tail : list (bool * jsstring)) : jsstring :=
  head ++ flat_map fence_piece tail.

(** The same text without the markers. *)
Definition unfenced (head : jsstring) (tail : list (bool * jsstring)) : jsstring :=
  head ++ flat_map snd tail.

(** The texts hold no backtick, and no text after a short marker starts
    with the letters json. *)
Definition fence_free (head : jsstring) (tail : list (bool * jsstring)) : bool :=
  no_backtick head
  && forallb (fun x => no_backtick (snd x)
                       && (fst x || negb (starts_with (js "json") (snd x)))) tail.

(** ** Buffers with text between the batches *)

(** The decidable form of [neutral]. *)
Definition is_neutral (x : char) : bool :=
  negb (N.eqb x QUOTE) && negb (N.eqb x BACKSLASH)
  && negb (N.eqb x LBRACE) && negb (N.eqb x RBRACE).

(** What may stand between two batches: a text without quotes,
    backslashes and braces, or such a text in braces that [JSON.parse]
    refuses. *)
Definition is_filler (f : jsstring) : bool :=
  forallb is_neutral f
  || match f with
     | c :: r =>
         N.eqb c LBRACE && N.eqb (last r 0%N) RBRACE
         && forallb is_neutral (removelast r)
         && match r with [] => false | _ :: _ => true end
         && match JSON_parse f with None => true | Some _ => false end
     | [] => false
     end.

(** A batch with what stands before it. *)
Record Item := {
  gap : list jsstring;
  item_text : jsstring;
  item_value : json
}.

Definition item_whole (it : Item) : jsstring := concat (gap it) ++ item_text it.

(** ** White space after a JSON text *)

(** The result of a parser with [w] put after what is left. *)
Definition followed_by {A : Type} (w : jsstring) (x : option (A * jsstring))
  : option (A * jsstring) :=
  match x with
  | Some (a, r) => Some (a, r ++ w)
  | None => None
  end.

(** ** Streams in any layout

    The backend may write the same batches with white space between the
    tokens, with the two members of a slide in either order, with any
    spelling of the strings, and with text between the batches. *)

(** White space between the tokens of a JSON text. *)
Definition is_ws (w : jsstring) : bool := forallb is_json_ws w.

(** The text [lit], read as the inside of a string literal, spells the
    string [s]. *)
Definition spells (lit s : jsstring) : bool :=
  match parse_string_body (lit ++ [QUOTE]) with
  | Some (s', []) => str_eqb s' s
  | _ => false
  end.

(** A member with a string value as it is written: the white space
    before the key, between the key and the colon, between the colon
    and the value, and after the value, and the spelling of the
    value. *)
Record Member := {
  m_lead : jsstring;
  m_key_gap : jsstring;
  m_colon_gap : jsstring;
  m_lit : jsstring;
  m_trail : jsstring
}.

(** The text of a member up to the opening quote of its value. *)
Definition member_head (key : jsstring) (m : Member) : jsstring :=
  m_lead m ++ QUOTE :: key ++ QUOTE :: m_key_gap m ++ COLON :: m_colon_gap m
  ++ [QUOTE].

Definition member_text (key : jsstring) (m : Member) : jsstring :=
  member_head key m ++ m_lit m ++ QUOTE :: m_trail m.

Definition member_ok (m : Member) (value : jsstring) : bool :=
  is_ws (m_lead m) && is_ws (m_key_gap m) && is_ws (m_colon_gap m)
  && is_ws (m_trail m) && spells (m_lit m) value.

(** A slide object as it is written: the white space around it, the
    order of its two members, how each is written, and the record it
    stands for. *)
Record Written := {
  w_lead : jsstring;
  content_first : bool;
  w_title : Member;
  w_content : Member;
  w_trail : jsstring;
  w_record : SlideRecord
}.

(** The text of the object, from its opening to its closing brace. *)
Definition object_text (x : Written) : jsstring :=
  LBRACE ::
  (if content_first x
   then member_text (js "content") (w_content x)
        ++ COMMA :: member_text (js "title") (w_title x)
   else member_text (js "title") (w_title x)
        ++ COMMA :: member_text (js "content") (w_content x))
  ++ [RBRACE].

Definition element_text (x : Written) : jsstring :=
  w_lead x ++ object_text x ++ w_trail x.

Definition written_ok (x : Written) : bool :=
  is_ws (w_lead x) && is_ws (w_trail x)
  && member_ok (w_title x) (s_title (w_record x))
  && member_ok (w_content x) (s_content (w_record x)).

(** The value the object parses to: its members in the order in which
    they are written. *)
Definition written_value (x : Written) : json :=
  if content_first x
  then JObj [(js "content", JStr (s_content (w_record x)));
             (js "title", JStr (s_title (w_record x)))]
  else slide_value (w_record x).

(** The elements of a slides array, separated by commas. *)
Fixpoint elements_text (l : list Written) : jsstring :=
  match l with
  | [] => []
  | x :: l' =>
      match l' with
      | [] => element_text x
      | _ :: _ => element_text x ++ COMMA :: elements_text l'
      end
  end.

(** A batch as it is written: the white space after the opening brace,
    between the key and the colon, between the colon and the bracket,
    after the bracket, and between the closing bracket and the closing
    brace, and its slides. *)
Record WrittenBatch := {
  b_lead : jsstring;
  b_key_gap : jsstring;
  b_colon_gap : jsstring;
  b_pad : jsstring;
  b_slides : list Written;
  b_trail : jsstring
}.

(** The text of a batch up to the opening bracket of its array, and the
    whole text. *)
Definition batch_head (b : WrittenBatch) : jsstring :=
  LBRACE :: b_lead b ++ QUOTE :: js "slides" ++ QUOTE :: b_key_gap b
  ++ COLON :: b_colon_gap b ++ [LBRACKET].

Definition written_batch_text (b : WrittenBatch) : jsstring :=
  batch_head b ++ b_pad b ++ elements_text (b_slides b)
  ++ RBRACKET :: b_trail b ++ [RBRACE].

Definition batch_ok (b : WrittenBatch) : bool :=
  is_ws (b_lead b) && is_ws (b_key_gap b) && is_ws (b_colon_gap b)
  && is_ws (b_pad b) && is_ws (b_trail b) && forallb written_ok (b_slides b).

Definition written_batch_value (b : WrittenBatch) : json :=
  JObj [(js "slides", JArr (map written_value (b_slides b)))].

(** What may stand between two batches, before the first and after the
    last: any text without quotes, backslashes and braces. *)
Definition is_gap (g : jsstring) : bool := forallb is_neutral g.

(** A stream: batches, each with the text before it, and the text after
    the last one. *)
Definition written_stream (items : list (jsstring * WrittenBatch)) (tail : jsstring)
  : jsstring :=
  flat_map (fun gb => fst gb ++ written_batch_text (snd gb)) items ++ tail.

Definition stream_ok (items : list (jsstring * WrittenBatch)) (tail : jsstring) : bool :=
  forallb (fun gb => is_gap (fst gb) && batch_ok (snd gb)) items && is_gap tail.

(** The slides of the batches of a stream. *)
Definition stream_slides (items : list (jsstring * WrittenBatch)) : list Written :=
  flat_map (fun gb => b_slides (snd gb)) items.

(** ** Buffers that end inside the content of a slide, in any layout *)




(** The closed slides of the open batch: each is followed by the comma
    that announces the next slide. *)
Definition closed_elements (l : list Written) : jsstring :=
  flat_map (fun x => element_text x ++ [COMMA]) l.


(** The closed slides that the second scan takes: those with their
    fields and a title that no record seen so far has. *)
Fixpoint take_written (seen : list SlideRecord) (l : list Written) : list Written :=
  match l with
  | [] => []
  | x :: l' =>
      if has_fields (w_record x) && negb (title_seen seen (s_title (w_record x)))
      then x :: take_written (seen ++ [w_record x]) l'
      else take_written seen l'
  end.

(** A content that the three replacements give back as it was: it has
    no control character other than the newline, and no backslash that
    is followed by the letter n. *)
Fixpoint is_previewable (c : jsstring) : bool :=
  match c with
  | [] => true
  | x :: c' =>
      (negb (N.ltb x 32) || N.eqb x 10)
      && negb (N.eqb x BACKSLASH
               && match c' with
                  | y :: _ => N.eqb y 110 (* n *)
                  | [] => false
                  end)
      && is_previewable c'
  end.



(** The text of a batch after the opening bracket of its array. *)
Definition array_rest (b : WrittenBatch) : jsstring :=
  b_pad b ++ elements_text (b_slides b) ++ RBRACKET :: b_trail b ++ [RBRACE].


(** A character of a marker that is cut: a backtick or one of the
    letters j, s, o. *)
Definition is_marker_char (c : char) : bool :=
  N.eqb c BACKTICK || N.eqb c 106 || N.eqb c 115 || N.eqb c 111.

(** A character that a cut marker or white space leaves at the end of
    the cleaned buffer. *)
Definition is_residue (c : char) : bool := is_marker_char c || is_js_space c.

(** A batch without slides, in its compact text. *)
Definition empty_batch : WrittenBatch :=
  {| b_lead := []; b_key_gap := []; b_colon_gap := []; b_pad := [];
     b_slides := []; b_trail := [] |}.

End Wire.
Import Wire.

(* ================================================================== *)
(** * services/gemini.ts: the text of a response *)
(* ================================================================== *)

Module GeminiService.

(** [s.replace(/^p/, r)] with an empty [r], for a literal [p]. *)
Definition remove_at_start (p s : jsstring) : jsstring :=
  if starts_with p s then skipn (length p) s else s.

(** [s.endsWith(p)] *)
Definition ends_with (p s : jsstring) : bool := starts_with (rev p) (rev s).

(** [s.replace(/p$/, r)] with an empty [r], for a literal [p]: the only
    match is the one that ends the text. *)
Definition remove_at_end (p s : jsstring) : jsstring :=
  if ends_with p s then firstn (length s - length p) s else s.

Definition cleanJsonString (text : jsstring) : jsstring :=
  let clean := trim text in
  if starts_with (js "```json") clean then
    remove_at_end (js "```") (remove_at_start (js "```json") clean)
  else if starts_with (js "```") clean then
    remove_at_end (js "```") (remove_at_start (js "```") clean)
  else clean.

End GeminiService.
Import GeminiService.

(* ================================================================== *)
(** * The vocabulary of the properties of the transforms *)
(* ================================================================== *)

Module Shapes.

(** The code units of a JavaScript string are below 2^16. *)
Definition code_units (s : jsstring) : bool := forallb (fun c => N.ltb c 65536) s.

(** What [raw.replace(/_/g, " ")] does to one character. *)
Definition underscore_to_space (c : char) : char :=
  if N.eqb c UNDERSCORE then SPACE else c.

(** Well-formed UTF-16: every high surrogate is followed by a low one,
    and every low surrogate follows a high one. *)
Fixpoint well_formed_utf16 (s : jsstring) : bool :=
  match s with
  | [] => true
  | c :: s1 =>
      if is_high_surrogate c then
        match s1 with
        | d :: s2 => is_low_surrogate d && well_formed_utf16 s2
        | [] => false
        end
      else negb (is_low_surrogate c) && well_formed_utf16 s1
  end.

End Shapes.
Import Shapes.

(* ================================================================== *)
(** * views/Generator/Index.tsx: the loop over the chunks and the deck *)
(* ================================================================== *)

Module Generator.

(** [error.message && error.message.includes(429)]: whether the error
    opens the rate-limit dialog. *)
Definition handleApiError (error : JsError) : bool :=
  match message error with
  | [] => false
  | _ :: _ => includes (js "429") (message error)
  end.

(** What [handleFinalGeneration] keeps while the chunks arrive. *)
Record GenerationState := {
  fullResponse : jsstring;
  generatedSlides : list json;
  inProgressSlideHtml : jsstring;
  finalCompleteSlides : list json
}.

Definition generation_start : GenerationState :=
  {| fullResponse := [];
     generatedSlides := [];
     inProgressSlideHtml := [];
     finalCompleteSlides := [] |}.

(** The body of the loop [for await (const chunk of stream)]. *)
Definition on_chunk (st : GenerationState) (chunk : GenerationChunk)
  : GenerationState :=
  let fullResponse := fullResponse st ++ text chunk in
  let r := parseLiveStream fullResponse (isComplete chunk) in
  {| fullResponse := fullResponse;
     generatedSlides := completeSlides r;
     inProgressSlideHtml := inProgressHtml r;
     finalCompleteSlides := completeSlides r |}.

Definition consume (chunks : list GenerationChunk) : GenerationState :=
  fold_left on_chunk chunks generation_start.

(** A slide of the deck: the title as it was parsed ([None] is
    undefined) and the content after the final transforms. *)
Record DeckSlide := {
  deck_title : option json;
  deck_content : jsstring
}.

(** The final transforms on one parsed slide and the slide the deck
    gets.  [None] is what is thrown: the TypeError of a slide that is
    null or whose content is no string, or the URIError of one of the
    transforms. *)
Definition deck_slide (apiKey : jsstring) (slide : json) : option DeckSlide :=
  match get_member slide (js "content") with
  | Some (Some (JStr content)) =>
      match transformPollinationsURLs content apiKey with
      | Some content1 =>
          match convertQuickChartTags content1 with
          | Some content2 =>
              match get_member slide (js "title") with
              | Some title =>
                  Some {| deck_title := title; deck_content := content2 |}
              | None => None
              end
          | None => None
          end
      | None => None
      end
  | _ => None
  end.

(** [finalCompleteSlides.map(...)], then the slides of [newDeck]: the
    first slide that throws ends it all. *)
Fixpoint deck_slides (apiKey : jsstring) (slides : list json)
  : option (list DeckSlide) :=
  match slides with
  | [] => Some []
  | slide :: rest =>
      match deck_slide apiKey slide with
      | Some s =>
          match deck_slides apiKey rest with
          | Some l => Some (s :: l)
          | None => None
          end
      | None => None
      end
  end.

End Generator.
Import Generator.

(* ================================================================== *)
(** * The vocabulary of the properties of the generation flow *)
(* ================================================================== *)

Module Flow.

(** The slide of the deck for a slide record that the transforms leave
    alone. *)
Definition deck_of_record (r : SlideRecord) : DeckSlide :=
  {| deck_title := Some (JStr (s_title r)); deck_content := s_content r |}.

(** The content holds neither a URL of the image service nor the word
    config. *)
Definition plain_content (r : SlideRecord) : bool :=
  negb (has_match match_url (s_content r))
  && negb (includes (js "config") (s_content r)).

(** The text a response stream adds to the buffer: a chunk without a
    text adds nothing. *)
Definition stream_texts (rs : ResponseStream) : jsstring :=
  concat (map (fun c => match c with Some t => t | None => [] end) (chunks rs)).

End Flow.
Import Flow.

(* ================================================================== *)
(** * services/gemini.ts: the images behind placeholders *)
(* ================================================================== *)

Module Images.

Definition DOLLAR : char := 36%N.
Definition AMPERSAND : char := 38%N.

(** The replacement text of [String.prototype.replace] for a pattern
    without groups: two dollar signs give one, a dollar sign and an
    ampersand the match, a dollar sign and a backtick the text before
    the match, a dollar sign and an apostrophe the text after it; any
    other dollar sign stands for itself. *)
Fixpoint get_substitution (matched before after template : jsstring) : jsstring :=
  match template with
  | [] => []
  | c :: t =>
      if N.eqb c DOLLAR then
        match t with
        | d :: t' =>
            if N.eqb d DOLLAR then
              DOLLAR :: get_substitution matched before after t'
            else if N.eqb d AMPERSAND then
              matched ++ get_substitution matched before after t'
            else if N.eqb d BACKTICK then
              before ++ get_substitution matched before after t'
            else if N.eqb d APOSTROPHE then
              after ++ get_substitution matched before after t'
            else DOLLAR :: get_substitution matched before after t
        | [] => [DOLLAR]
        end
      else c :: get_substitution matched before after t
  end.

(** [s.replace(p, r)] for a string [p]: the first occurrence only.
    [before] is the text already passed. *)
Fixpoint replace_string (p r before s : jsstring) : jsstring :=
  if starts_with p s then
    get_substitution p before (skipn (length p) s) r ++ skipn (length p) s
  else
    match s with
    | [] => []
    | c :: s' => c :: replace_string p r (before ++ [c]) s'
    end.

(** [s.replace(new RegExp(escaped, g), r)] where [escaped] is the
    non-empty text [p] with every special character of an expression
    escaped: the expression matches [p] itself.  Matches are taken
    leftmost first and do not overlap; [skip] counts the characters of
    the current match that are still to be dropped. *)
Fixpoint replace_literal (p r before : jsstring) (skip : nat) (s : jsstring)
  : jsstring :=
  match s with
  | [] => []
  | c :: s' =>
      match skip with
      | S k => replace_literal p r (before ++ [c]) k s'
      | O =>
          if starts_with p s
          then get_substitution p before (skipn (length p) s) r
               ++ replace_literal p r (before ++ [c]) (length p - 1) s'
          else c :: replace_literal p r (before ++ [c]) 0 s'
      end
  end.

(** ** The image expression *)

(** The classes of the expression: anything but a greater-than sign,
    anything but a quote of either kind. *)
Definition not_gt (c : char) : bool := negb (N.eqb c GT).

Definition is_quote (c : char) : bool := N.eqb c QUOTE || N.eqb c APOSTROPHE.

Definition not_quote (c : char) : bool := negb (is_quote c).

(** What follows the first class: the literal src= under the
    ignore-case flag, a quote, the group (the longest non-empty run
    without a quote), a quote, the longest run without a greater-than
    sign, and that sign.  A shorter run of one of the two classes is
    followed by a character of the class, so that only the longest can
    be completed.  The result is the length of the group and of the last
    run. *)
Definition match_src (s : jsstring) : option (nat * nat) :=
  if starts_with_ci (js "src=") s then
    match skipn 4 s with
    | q :: s1 =>
        if is_quote q then
          match count_while not_quote s1 with
          | O => None
          | S m' =>
              let m := S m' in
              match skipn m s1 with
              | q2 :: s2 =>
                  if is_quote q2 then
                    let t := count_while not_gt s2 in
                    match skipn t s2 with
                    | g :: _ => if N.eqb g GT then Some (m, t) else None
                    | [] => None
                    end
                  else None
              | [] => None
              end
          end
        else None
    | [] => None
    end
  else None.

(** The first class is greedy: its longest run is tried first, then
    each shorter one down to a single character. *)
Fixpoint backtrack (k : nat) (r : jsstring) : option (nat * nat * nat) :=
  match k with
  | O => None
  | S k' =>
      match match_src (skipn k r) with
      | Some (m, t) => Some (k, m, t)
      | None => backtrack k' r
      end
  end.

(** The anchored matcher of the image expression.  The result is the
    length of the text before the group, the length of the group and the
    length of the match. *)
Definition match_img (s : jsstring) : option (nat * nat * nat) :=
  if starts_with_ci (js "<img") s then
    let r := skipn 4 s in
    match backtrack (count_while not_gt r) r with
    | Some (k, m, t) => Some (4 + k + 5, m, 4 + k + 5 + m + 1 + t + 1)
    | None => None
    end
  else None.

(** ** replaceImagesWithPlaceholders *)

(** A [Map] from strings to strings: its entries in the order in which
    the keys were first set. *)
Fixpoint map_set (m : list (jsstring * jsstring)) (k v : jsstring)
  : list (jsstring * jsstring) :=
  match m with
  | [] => [(k, v)]
  | (k', v') :: m' =>
      if str_eqb k' k then (k', v) :: m' else (k', v') :: map_set m' k v
  end.

(** What the callback shares between its calls. *)
Record Tokens := {
  imgCounter : nat;
  imageMap : list (jsstring * jsstring)
}.

(** The placeholder with number [n]: the template literal writes the
    number in decimal after the prefix. *)
Definition placeholder_at (prefix : jsstring) (n : nat) : jsstring :=
  prefix ++ show_nat n.

Definition PLACEHOLDER : jsstring := js "https://placeholder.img/id-".

(** The callback of the replacement, on the match and its group. *)
Definition tokenize (matched src : jsstring) (st : Tokens) : jsstring * Tokens :=
  if negb (starts_with (js "https") src) then
    let placeholder := placeholder_at PLACEHOLDER (imgCounter st) in
    (replace_string src placeholder [] matched,
     {| imgCounter := S (imgCounter st);
        imageMap := map_set (imageMap st) placeholder src |})
  else (matched, st).

(** [html.replace(expression, callback)] with the global flag. *)
Fixpoint replace_images
    (callback : jsstring -> jsstring -> Tokens -> jsstring * Tokens)
    (skip : nat) (s : jsstring) (st : Tokens) : jsstring * Tokens :=
  match s with
  | [] => ([], st)
  | c :: s1 =>
      match skip with
      | S k => replace_images callback k s1 st
      | O =>
          match match_img s with
          | Some (pre, m, len) =>
              let matched := firstn len s in
              let (r, st1) := callback matched (firstn m (skipn pre matched)) st in
              let (rest, st2) := replace_images callback (len - 1) s1 st1 in
              (r ++ rest, st2)
          | None =>
              let (rest, st1) := replace_images callback 0 s1 st in
              (c :: rest, st1)
          end
      end
  end.

(** The result is the pair of [cleanedHtml] and [imageMap]. *)
Definition replaceImagesWithPlaceholders (html : jsstring)
  : jsstring * list (jsstring * jsstring) :=
  let (cleanedHtml, st) :=
    replace_images tokenize 0 html {| imgCounter := 0; imageMap := [] |} in
  (cleanedHtml, imageMap st).

(** ** restoreImages *)

(** The callback of the inner [convertQuickChartTags]: the address and
    the other attributes are written without quotes. *)
Definition convertTagInner (matched : jsstring) : option jsstring :=
  let attributesString := skipn (length TAG_OPEN) (removelast matched) in
  let cleanedAttributesString :=
    replace_all [BACKSLASH; APOSTROPHE] [APOSTROPHE]
      (replace_all [BACKSLASH; QUOTE] [QUOTE] attributesString) in
  let attributes := scan_attrs 0 cleanedAttributesString [] in
  match attr_get attributes (js "config") with
  | None => Some matched
  | Some [] => Some matched
  | Some config =>
      match encodeURIComponent (replace_all [APOSTROPHE] [QUOTE] config) with
      | None => None
      | Some encodedConfig =>
          let chartUrl := js "https://quickchart.io/chart?c=" ++ encodedConfig in
          let imgTag := js "<img src=" ++ chartUrl in
          let imgTag :=
            fold_left
              (fun acc kv =>
                 if negb (str_eqb (fst kv) (js "config")) then
                   acc ++ [SPACE] ++ fst kv ++ [EQUALS] ++ snd kv
                 else acc)
              (for_in_order attributes) imgTag in
          Some (imgTag ++ [GT])
      end
  end.

(** The loop over the entries of the map, in the order of insertion. *)
Definition restore_entries (imageMap : list (jsstring * jsstring))
    (restoredHtml : jsstring) : jsstring :=
  fold_left
    (fun restoredHtml entry =>
       replace_literal (fst entry) (snd entry) [] 0 restoredHtml)
    imageMap restoredHtml.

(** [key] is what the template writes for the key of the image service,
    a constant of a module that is not part of the sources.  [None] is
    the URIError of one of the two transforms. *)
Definition restoreImages (key html : jsstring)
    (imageMap : list (jsstring * jsstring)) : option jsstring :=
  match transformPollinationsURLs html key with
  | Some html1 =>
      match regex_replace match_tag convertTagInner 0 html1 with
      | Some restoredHtml => Some (restore_entries imageMap restoredHtml)
      | None => None
      end
  | None => None
  end.

End Images.
Import Images.

(* ================================================================== *)
(** * The vocabulary of the properties of the placeholders *)
(* ================================================================== *)

Module Pieces.

(** A text cut at the sources that were replaced: each piece is the
    text before a source and the source; [tail] is what follows the
    last one. *)
Fixpoint with_sources (pieces : list (jsstring * jsstring)) (tail : jsstring)
  : jsstring :=
  match pieces with
  | [] => tail
  | (c, src) :: ps => c ++ src ++ with_sources ps tail
  end.

(** The same text with the placeholders of a prefix, numbered from
    [n], in the place of the sources. *)
Fixpoint with_placeholders (prefix : jsstring) (n : nat)
    (pieces : list (jsstring * jsstring)) (tail : jsstring) : jsstring :=
  match pieces with
  | [] => tail
  | (c, _) :: ps =>
      c ++ placeholder_at prefix n ++ with_placeholders prefix (S n) ps tail
  end.

(** The entries of the map for these pieces. *)
Fixpoint entries (prefix : jsstring) (n : nat)
    (pieces : list (jsstring * jsstring)) : list (jsstring * jsstring) :=
  match pieces with
  | [] => []
  | (_, src) :: ps => (placeholder_at prefix n, src) :: entries prefix (S n) ps
  end.

(** The group of a match: not empty and without a quote of either
    kind. *)
Definition image_source (src : jsstring) : bool :=
  negb (str_eqb src []) && forallb not_quote src.

(** A source that [replaceImagesWithPlaceholders] replaces does not
    start with https. *)
Definition tokenized_source (src : jsstring) : bool :=
  image_source src && negb (starts_with (js "https") src).

Definition no_dollar (s : jsstring) : bool :=
  forallb (fun c => negb (N.eqb c DOLLAR)) s.

End Pieces.
Import Pieces.

(* ================================================================== *)
(** * services/gemini.ts: editContent *)
(* ================================================================== *)

Module Edit.

(** What [editContent] ends with: the new content, or the Error it
    makes from whatever it caught. *)
Inductive edited :=
| Edited (html : jsstring)
| EditFailed.

Definition DEFAULT_EDIT_REPLY : jsstring := jsq "'" "{ 'html': '' }".

(** From the text of the response to the new content.  [None] is what
    is thrown: the SyntaxError of [JSON.parse], the TypeError of a
    property read on null or of a new content that is no string, the
    URIError of a transform.  The key html is no property of a
    prototype either. *)
Definition read_edit_reply (key currentContent : jsstring)
    (imageMap : list (jsstring * jsstring)) (responseText : option jsstring)
  : option jsstring :=
  let text :=
    match responseText with
    | Some (c :: t) => c :: t
    | _ => DEFAULT_EDIT_REPLY
    end in
  match JSON_parse (cleanJsonString text) with
  | Some data =>
      match get_member data (js "html") with
      | Some html =>
          if truthy html then
            match html with
            | Some (JStr newHtml) => restoreImages key newHtml imageMap
            | _ => None
            end
          else restoreImages key currentContent imageMap
      | None => None
      end
  | None => None
  end.

(** [generateContent] gives the outcome of each call of the model,
    numbered by the calls made so far: the text of the response
    ([None] for undefined) or the error of the rejection. *)
Definition editContent (generateContent : nat -> outcome (option jsstring))
    (key currentContent : jsstring) (w : World) : edited * World :=
  let (cleanedHtml, imageMap) := replaceImagesWithPlaceholders currentContent in
  match _withRetry generateContent MAX_RETRIES w with
  | (Resolved responseText, w1) =>
      match read_edit_reply key currentContent imageMap responseText with
      | Some newHtml => (Edited newHtml, w1)
      | None => (EditFailed, w1)
      end
  | (Rejected _, w1) => (EditFailed, w1)
  end.

(** The reply that gives back the text [html]. *)
Definition html_reply (html : jsstring) : jsstring :=
  jsq "'" "{'html':" ++ quoted html ++ [RBRACE].

End Edit.
Import Edit.

(* ================================================================== *)
(** * services/gemini.ts: restyleDeck *)
(* ================================================================== *)

Module Restyle.

Record Slide := {
  slide_id : jsstring;
  slide_title : jsstring;
  slide_content : jsstring
}.

Definition GLOBAL_PLACEHOLDER : jsstring := js "https://placeholder.img/global-id-".

(** The callback of the replacement in [restyleDeck]: every source is
    replaced. *)
Definition tokenize_global (matched src : jsstring) (st : Tokens)
  : jsstring * Tokens :=
  let placeholder := placeholder_at GLOBAL_PLACEHOLDER (imgCounter st) in
  (replace_string src placeholder [] matched,
   {| imgCounter := S (imgCounter st);
      imageMap := map_set (imageMap st) placeholder src |}).

(** [slides.map(...)] with the counter and the map shared by all
    slides. *)
Fixpoint tokenize_slides (slides : list Slide) (st : Tokens)
  : list Slide * Tokens :=
  match slides with
  | [] => ([], st)
  | slide :: rest =>
      let (cleaned, st1) :=
        replace_images tokenize_global 0 (slide_content slide) st in
      let (rest1, st2) := tokenize_slides rest st1 in
      ({| slide_id := slide_id slide;
          slide_title := slide_title slide;
          slide_content := cleaned |} :: rest1, st2)
  end.

(** What one message is built from (the prompt texts are in a module
    that is not part of the sources). *)
Record RestyleMessage := {
  firstBatch : bool;
  batch : list Slide
}.

(** The chat handle: the outcome of each call of [sendMessage],
    numbered by the calls made so far, with the text of the result
    ([None] for undefined). *)
Definition RestyleChat := nat -> RestyleMessage -> outcome (option jsstring).

(** [batch.map((s) => ({ title: s.title, content: s.content }))] *)
Definition fallback_slide (s : Slide) : json :=
  JObj [(js "title", JStr (slide_title s)); (js "content", JStr (slide_content s))].

Definition is_array (v : option json) : bool :=
  match v with
  | Some (JArr _) => true
  | _ => false
  end.

(** The slides a result brings.  [None] is the fallback: of the [else]
    branch, or of the [catch] after the TypeError of [trim] on
    undefined or of a property read on null, or the SyntaxError of
    [JSON.parse]. *)
Definition reply_slides (text : option jsstring) : option (list json) :=
  match text with
  | Some t =>
      match JSON_parse (cleanJsonString t) with
      | Some data =>
          match get_member data (js "slides") with
          | Some slides =>
              if truthy slides && is_array slides then
                match slides with
                | Some (JArr l) => Some l
                | _ => None
                end
              else None
          | None => None
          end
      | None => None
      end
  | None => None
  end.

(** The loop over the batches from index [i]; [rest] is the list of
    the slides with placeholders from [i] on. *)
Fixpoint restyle_batches (chat : RestyleChat) (rest : list Slide) (i : nat)
    (restyledSlidesAccumulator : list json) (w : World) : list json * World :=
  match rest with
  | [] => (restyledSlidesAccumulator, w)
  | _ :: _ =>
      let batch := firstn BATCH_SIZE rest in
      let message := {| firstBatch := (i =? 0)%nat; batch := batch |} in
      let (result, w1) := _withRetry (fun n => chat n message) MAX_RETRIES w in
      let added :=
        match result with
        | Resolved text =>
            match reply_slides text with
            | Some slides => slides
            | None => map fallback_slide batch
            end
        | Rejected _ => map fallback_slide batch
        end in
      match rest with
      | _ :: _ :: _ :: _ :: rest1 =>
          restyle_batches chat rest1 (i + BATCH_SIZE)
            (restyledSlidesAccumulator ++ added) w1
      | _ => (restyledSlidesAccumulator ++ added, w1)
      end
  end.

(** A slide of the result: the title is whatever the restyled slide
    has under that key ([None] for undefined). *)
Record Restyled := {
  restyled_id : jsstring;
  restyled_title : option json;
  restyled_content : jsstring
}.

Definition unchanged (originalSlide : Slide) : Restyled :=
  {| restyled_id := slide_id originalSlide;
     restyled_title := Some (JStr (slide_title originalSlide));
     restyled_content := slide_content originalSlide |}.

(** The callback of the last [slides.map]; [restyledSlide] is the
    element of the accumulator at the index of the slide.  [None] is
    what is thrown: the TypeError of a content that is no string, or the
    URIError of a transform. *)
Definition merge_slide (key : jsstring) (globalImageMap : list (jsstring * jsstring))
    (originalSlide : Slide) (restyledSlide : option json) : option Restyled :=
  if negb (truthy restyledSlide) then Some (unchanged originalSlide)
  else
    match restyledSlide with
    | Some v =>
        match get_member v (js "content") with
        | Some (Some (JStr content)) =>
            match restoreImages key content globalImageMap with
            | Some contentWithRestoredImages =>
                match get_member v (js "title") with
                | Some title =>
                    Some {| restyled_id := slide_id originalSlide;
                            restyled_title := title;
                            restyled_content := contentWithRestoredImages |}
                | None => None
                end
            | None => None
            end
        | _ => None
        end
    | None => None
    end.

(** [slides.map((originalSlide, i) => ...)] from index [i] on: the
    first slide that throws ends it all. *)
Fixpoint merge_slides (key : jsstring) (globalImageMap : list (jsstring * jsstring))
    (restyledSlidesAccumulator : list json) (slides : list Slide) (i : nat)
  : option (list Restyled) :=
  match slides with
  | [] => Some []
  | originalSlide :: rest =>
      match merge_slide key globalImageMap originalSlide
              (nth_error restyledSlidesAccumulator i) with
      | Some s =>
          match merge_slides key globalImageMap restyledSlidesAccumulator rest (S i) with
          | Some l => Some (s :: l)
          | None => None
          end
      | None => None
      end
  end.

(** [None] is what the promise is rejected with. *)
Definition restyleDeck (chat : RestyleChat) (key : jsstring) (slides : list Slide)
    (w : World) : option (list Restyled) * World :=
  let (slidesWithPlaceholders, st) :=
    tokenize_slides slides {| imgCounter := 0; imageMap := [] |} in
  let (restyledSlidesAccumulator, w1) :=
    restyle_batches chat slidesWithPlaceholders 0 [] w in
  (merge_slides key (imageMap st) restyledSlidesAccumulator slides 0, w1).

End Restyle.
Import Restyle.

(* ================================================================== *)
(** * The vocabulary of the properties of the restyled deck *)
(* ================================================================== *)

Module Deck.

(** The contents of the slides, each cut at its sources: the cleaned
    contents carry the placeholders numbered from [n] across the
    slides. *)
Fixpoint cleaned_from (prefix : jsstring) (n : nat)
    (cuts : list (list (jsstring * jsstring) * jsstring)) : list jsstring :=
  match cuts with
  | [] => []
  | (ps, tl) :: rest =>
      with_placeholders prefix n ps tl :: cleaned_from prefix (n + length ps) rest
  end.

(** Every call of the chat fails, or brings no list of slides. *)
Definition no_reply (chat : RestyleChat) : Prop :=
  forall n m,
    match chat n m with
    | Resolved text => reply_slides text = None
    | Rejected _ => True
    end.

(** The message of batch number [j]. *)
Definition restyle_message (slidesWithPlaceholders : list Slide) (j : nat)
  : RestyleMessage :=
  {| firstBatch := (j =? 0)%nat;
     batch := firstn 4 (skipn (4 * j) slidesWithPlaceholders) |}.

(** A slide of the deck and the record found at its index, if there is
    one: the slide keeps its id and takes the title of the record and
    its content after [restoreImages]. *)
Definition merged (key : jsstring) (globalImageMap : list (jsstring * jsstring))
    (s : Slide) (r : option SlideRecord) : option Restyled :=
  match r with
  | Some r =>
      match restoreImages key (s_content r) globalImageMap with
      | Some content =>
          Some {| restyled_id := slide_id s;
                  restyled_title := Some (JStr (s_title r));
                  restyled_content := content |}
      | None => None
      end
  | None => Some (unchanged s)
  end.

(** The slides of the deck with the records taken by position. *)
Fixpoint by_position (key : jsstring) (globalImageMap : list (jsstring * jsstring))
    (slides : list Slide) (records : list SlideRecord) : option (list Restyled) :=
  match slides with
  | [] => Some []
  | s :: slides1 =>
      match merged key globalImageMap s (hd_error records) with
      | Some x =>
          match by_position key globalImageMap slides1 (tl records) with
          | Some l => Some (x :: l)
          | None => None
          end
      | None => None
      end
  end.

End Deck.
Import Deck.

(* ================================================================== *)
(** * views/Generator/Index.tsx: the title of the deck *)
(* ================================================================== *)

Module DeckTitle.

(** The anchored matcher of the expression of the split: a colon and
    the longest run of white space after it. *)
Definition match_colon (s : jsstring) : option nat :=
  match s with
  | c :: s1 => if N.eqb c COLON then Some (1 + count_space s1) else None
  | [] => None
  end.

(** [s.split(expression)]: the texts between the matches, which are
    taken leftmost first.  [piece] is the text since the last match and
    [skip] counts the characters of the current match that are still to
    be dropped. *)
Fixpoint split_colon (skip : nat) (s piece : jsstring) : list jsstring :=
  match s with
  | [] => [piece]
  | c :: s1 =>
      match skip with
      | S k => split_colon k s1 piece
      | O =>
          match match_colon s with
          | Some len => piece :: split_colon (len - 1) s1 []
          | None => split_colon 0 s1 (piece ++ [c])
          end
      end
  end.

Definition UNTITLED : jsstring := js "Untitled Presentation".

(** The title that [handleFinalGeneration] gives the deck: the last
    part of the title of the first outline item, or the default when
    there is no item or that part is empty. *)
Definition deck_title_of (outline : list OutlineItem) : jsstring :=
  match outline with
  | [] => UNTITLED
  | item :: _ =>
      match last (split_colon 0 (title item) []) [] with
      | [] => UNTITLED
      | c :: t => c :: t
      end
  end.

Definition no_colon (s : jsstring) : bool :=
  forallb (fun c => negb (N.eqb c COLON)) s.

End DeckTitle.
Import DeckTitle.

(* ================================================================== *)
(** * The retry policy of [_withRetry] *)
(* ================================================================== *)

Section Retry.

Context {T : Type}.
Variable fn : nat -> outcome T.

Lemma transient_failures_at n k j :
  transient_failures fn n k -> j < k ->
  exists e, fn (n + j) = Rejected e /\ is_rate_limit e = false.
Proof. intros H Hj. exact (H j Hj). Qed.

(** One iteration of the loop that meets a transient failure: the error
    is kept, the delay of the iteration is waited for, and the loop goes
    on. *)
Lemma retry_from_transient maxRetries k i lastError w e :
  fn (calls w) = Rejected e -> is_rate_limit e = false ->
  retry_from fn maxRetries (S k) i lastError w =
  retry_from fn maxRetries k (i + 1) (Some e)
    {| calls := S (calls w); slept := slept w ++ [(1000 * (Z.of_nat i + 1))%Z] |}.
Proof. intros He Hr. simpl. rewrite He, Hr. reflexivity. Qed.

Lemma retry_from_resolved maxRetries k i lastError w v :
  fn (calls w) = Resolved v ->
  retry_from fn maxRetries (S k) i lastError w =
  (Resolved v, {| calls := S (calls w); slept := slept w |}).
Proof. intros He. simpl. rewrite He. reflexivity. Qed.

Lemma retry_from_rate_limit maxRetries k i lastError w e :
  fn (calls w) = Rejected e -> is_rate_limit e = true ->
  retry_from fn maxRetries (S k) i lastError w =
  (Rejected e, {| calls := S (calls w); slept := slept w |}).
Proof. intros He Hr. simpl. rewrite He, Hr. reflexivity. Qed.

(** The loop makes at most [k] more calls. *)
Lemma retry_from_calls maxRetries : forall k i lastError w,
  calls (snd (retry_from fn maxRetries k i lastError w)) <= calls w + k.
Proof.
  induction k as [|k IH]; intros i lastError w; simpl.
  - lia.
  - destruct (fn (calls w)) as [v|e]; simpl; [lia|].
    destruct (is_rate_limit e); simpl; [lia|].
    eapply Nat.le_trans; [apply IH|]. simpl. lia.
Qed.

End Retry.

(** [starts_with] and [includes] say that the literal is at the head of
    the text, and somewhere in it. *)
Lemma starts_with_true_iff : forall p s,
  starts_with p s = true <-> exists b, s = p ++ b.
Proof.
  induction p as [|x p IH]; intros s; simpl.
  - split; [intros _; exists s; reflexivity|reflexivity].
  - destruct s as [|y s].
    + split; [discriminate|intros [b Hb]; discriminate].
    + rewrite andb_true_iff, N.eqb_eq, IH. split.
      * intros [-> [b ->]]. exists b. reflexivity.
      * intros [b Hb]. injection Hb as -> ->. split; [reflexivity|exists b; reflexivity].
Qed.

Lemma includes_true_iff p : forall s,
  includes p s = true <-> exists a b, s = a ++ p ++ b.
Proof.
  induction s as [|c s IH].
  - simpl. rewrite orb_false_r, starts_with_true_iff. split.
    + intros [b Hb]. exists [], b. exact Hb.
    + intros [a [b Hb]]. destruct a as [|x a]; [|discriminate]. exists b. exact Hb.
  - cbn [includes]. rewrite orb_true_iff, starts_with_true_iff, IH. split.
    + intros [[b Hb]|[a [b Hb]]].
      * exists [], b. exact Hb.
      * exists (c :: a), b. rewrite Hb. reflexivity.
    + intros [a [b Hb]]. destruct a as [|x a].
      * left. exists b. exact Hb.
      * right. injection Hb as _ Hb. exists a, b. exact Hb.
Qed.

(** The test of the code on a caught error holds exactly of the errors
    that carry the 429 signal. *)
Lemma is_rate_limit_carries_429 e : is_rate_limit e = true <-> carries_429 e.
Proof.
  unfold is_rate_limit, carries_429. rewrite orb_true_iff. split.
  - intros [H|H].
    + left. destruct (message e) as [|c m]; [discriminate|].
      apply includes_true_iff. exact H.
    + right. destruct (code e) as [c|]; [|discriminate].
      apply Z.eqb_eq in H. subst c. reflexivity.
  - intros [[a [b H]]|H].
    + left. rewrite H.
      destruct (a ++ js "429" ++ b) as [|c m] eqn:E.
      * destruct a; discriminate E.
      * rewrite <- E. apply includes_true_iff. exists a, b. reflexivity.
    + right. rewrite H. reflexivity.
Qed.

Lemma without_429_not_rate_limit e : ~ carries_429 e -> is_rate_limit e = false.
Proof.
  intros H. destruct (is_rate_limit e) eqn:E; [|reflexivity].
  exfalso. apply H. apply is_rate_limit_carries_429. exact E.
Qed.

Lemma not_rate_limit_without_429 e : is_rate_limit e = false -> ~ carries_429 e.
Proof.
  intros H Hc. apply is_rate_limit_carries_429 in Hc. congruence.
Qed.

Lemma failures_without_429_transient (T : Type) (fn : nat -> outcome T) n k :
  failures_without_429 fn n k -> transient_failures fn n k.
Proof.
  intros H j Hj. destruct (H j Hj) as [e [He Hn]].
  exists e. split; [exact He|]. apply without_429_not_rate_limit. exact Hn.
Qed.

(** The head of the loop when the calls made so far are the first of
    [j + 1] transient failures. *)
Ltac transient H j :=
  let e := fresh "e" in
  let He := fresh "He" in
  let Hr := fresh "Hr" in
  destruct (transient_failures_at _ _ _ j H) as [e [He Hr]];
  [lia
  |erewrite retry_from_transient;
   [|simpl; rewrite <- He; f_equal; lia|exact Hr]].

(** C10: [_withRetry] with its attempt cap of 3.  Whatever the wrapped
    call does, at most three calls are made.  When the first [k < 3]
    calls fail with errors that do not carry the 429 signal (no 429 in
    the message, no code 429), the delays waited for are 1000, 2000, ...
    milliseconds, one after each failure, and the next call decides: its
    value is returned, or, when its error carries the 429 signal, that
    very error is thrown at once, with no further call and no further
    delay.  When all three calls fail without the signal, a new error
    reporting the exhaustion and the last message is thrown. *)
Theorem withRetry_policy (T : Type) (fn : nat -> outcome T) (w : World) :
  calls (snd (_withRetry fn MAX_RETRIES w)) <= calls w + MAX_RETRIES
  /\ (forall k, k < MAX_RETRIES -> failures_without_429 fn (calls w) k ->
      (forall v, fn (calls w + k) = Resolved v ->
         _withRetry fn MAX_RETRIES w =
         (Resolved v,
          {| calls := calls w + k + 1; slept := slept w ++ backoff k |}))
      /\ (forall e, fn (calls w + k) = Rejected e -> carries_429 e ->
         _withRetry fn MAX_RETRIES w =
         (Rejected e,
          {| calls := calls w + k + 1; slept := slept w ++ backoff k |})))
  /\ (failures_without_429 fn (calls w) MAX_RETRIES ->
      exists e, fn (calls w + 2) = Rejected e
        /\ _withRetry fn MAX_RETRIES w =
           (Rejected (exhausted MAX_RETRIES (Some e)),
            {| calls := calls w + MAX_RETRIES;
               slept := slept w ++ backoff MAX_RETRIES |})).
Proof.
  unfold _withRetry. split; [apply retry_from_calls|]. split.
  - intros k Hk Hf. apply failures_without_429_transient in Hf.
    unfold MAX_RETRIES in *.
    destruct k as [|[|[|k]]]; try lia; split.
    + intros v Hv.
      erewrite retry_from_resolved by (rewrite <- Hv; f_equal; lia).
      simpl. rewrite app_nil_r. f_equal. f_equal. lia.
    + intros e He Hr. apply is_rate_limit_carries_429 in Hr.
      erewrite retry_from_rate_limit;
        [|rewrite <- He; f_equal; lia|exact Hr].
      simpl. rewrite app_nil_r. f_equal. f_equal. lia.
    + intros v Hv. transient Hf 0.
      erewrite retry_from_resolved by (simpl; rewrite <- Hv; f_equal; lia).
      simpl. f_equal. f_equal. lia.
    + intros e He Hr. apply is_rate_limit_carries_429 in Hr. transient Hf 0.
      erewrite retry_from_rate_limit;
        [|simpl; rewrite <- He; f_equal; lia|exact Hr].
      simpl. f_equal. f_equal. lia.
    + intros v Hv. transient Hf 0. transient Hf 1.
      erewrite retry_from_resolved by (simpl; rewrite <- Hv; f_equal; lia).
      simpl. rewrite <- app_assoc. f_equal. f_equal. lia.
    + intros e He Hr. apply is_rate_limit_carries_429 in Hr.
      transient Hf 0. transient Hf 1.
      erewrite retry_from_rate_limit;
        [|simpl; rewrite <- He; f_equal; lia|exact Hr].
      simpl. rewrite <- app_assoc. f_equal. f_equal. lia.
  - intros Hf. apply failures_without_429_transient in Hf.
    unfold MAX_RETRIES in *.
    transient Hf 0. transient Hf 1.
    destruct (transient_failures_at _ _ _ 2 Hf) as [e2 [He2 Hr2]]; [lia|].
    erewrite retry_from_transient;
      [|simpl; rewrite <- He2; f_equal; lia|exact Hr2].
    exists e2. split; [exact He2|].
    simpl. rewrite <- !app_assoc. f_equal. f_equal. lia.
Qed.

(** A call that is refused twice for overload and then answered with a
    rate-limit error, once by its message and once by its code: the
    error is thrown after the third call, and only the two delays of the
    overload failures were waited for.  And a call that is overloaded
    three times: the cap is reached. *)
Lemma withRetry_policy_witness :
  (_withRetry
     (fun n => if (n <? 2)%nat
               then Rejected {| message := js "overloaded"; code := Some 503%Z |}
               else @Rejected nat {| message := js "429 Too Many Requests"; code := None |})
     MAX_RETRIES world0
   = (Rejected {| message := js "429 Too Many Requests"; code := None |},
      {| calls := 3; slept := [1000; 2000]%Z |}))
  /\ (_withRetry
        (fun n => @Rejected nat {| message := js "quota"; code := Some 429%Z |})
        MAX_RETRIES world0
      = (Rejected {| message := js "quota"; code := Some 429%Z |},
         {| calls := 1; slept := [] |}))
  /\ (_withRetry
        (fun n => @Rejected nat {| message := js "overloaded"; code := Some 503%Z |})
        MAX_RETRIES world0
      = (Rejected
           {| message := js "AI service failed after 3 attempts. Last error: overloaded";
              code := None |},
         {| calls := 3; slept := [1000; 2000; 3000]%Z |})).
Proof.
  assert (H503 : ~ carries_429 {| message := js "overloaded"; code := Some 503%Z |}).
  { apply not_rate_limit_without_429. reflexivity. }
  split; [|split].
  - destruct (withRetry_policy nat
                (fun n => if (n <? 2)%nat
                          then Rejected {| message := js "overloaded"; code := Some 503%Z |}
                          else Rejected {| message := js "429 Too Many Requests";
                                           code := None |}) world0) as [_ [H _]].
    destruct (H 2%nat) as [_ He].
    + unfold MAX_RETRIES. lia.
    + intros j Hj. exists {| message := js "overloaded"; code := Some 503%Z |}.
      destruct j as [|[|j]]; [split; [reflexivity|exact H503]
                             |split; [reflexivity|exact H503]|lia].
    + apply (He {| message := js "429 Too Many Requests"; code := None |} eq_refl).
      left. exists [], (js " Too Many Requests"). reflexivity.
  - destruct (withRetry_policy nat
                (fun n => Rejected {| message := js "quota"; code := Some 429%Z |})
                world0) as [_ [H _]].
    destruct (H 0%nat) as [_ He].
    + unfold MAX_RETRIES. lia.
    + intros j Hj. lia.
    + apply (He {| message := js "quota"; code := Some 429%Z |} eq_refl).
      right. reflexivity.
  - destruct (withRetry_policy nat
                (fun n => Rejected {| message := js "overloaded"; code := Some 503%Z |})
                world0) as [_ [_ H]].
    destruct H as [e [He1 He]].
    + intros j Hj. exists {| message := js "overloaded"; code := Some 503%Z |}.
      split; [reflexivity|exact H503].
    + injection He1 as <-. exact He.
Defined.

(* ================================================================== *)
(** * The turns of [generatePresentationStream] *)
(* ================================================================== *)

Lemma yields_of_isComplete isLastBatch cs y :
  In y (yields_of isLastBatch cs) -> isComplete y = isLastBatch.
Proof.
  unfold yields_of. rewrite in_flat_map. intros [c [_ Hy]].
  destruct c as [[|x t]|]; simpl in Hy; try contradiction.
  destruct Hy as [<-|[]]. reflexivity.
Qed.

(** Every turn starts at a multiple of the batch size inside the
    outline, and marks its chunks by whether it is the last one. *)
Lemma turns_from_flags chat len : forall n rest i w,
  length rest <= n ->
  i + length rest = len ->
  i mod BATCH_SIZE = 0 ->
  forall i' ys, In (i', ys) (fst (fst (turns_from chat len rest i w))) ->
  i' mod BATCH_SIZE = 0 /\ i' < len
  /\ forall y, In y ys -> isComplete y = (len <=? i' + BATCH_SIZE)%nat.
Proof.
  induction n as [|n IH]; intros rest i w Hn Hlen Hmod i' ys Hin.
  - destruct rest; [simpl in Hin; contradiction|simpl in Hn; lia].
  - destruct rest as [|a rest]; [simpl in Hin; contradiction|].
    assert (Hflag : (len <=? Nat.min (i + BATCH_SIZE) len)%nat
                    = (len <=? i + BATCH_SIZE)%nat).
    { destruct (Nat.leb_spec len (i + BATCH_SIZE));
      destruct (Nat.leb_spec len (Nat.min (i + BATCH_SIZE) len)); lia. }
    cbn [turns_from] in Hin.
    destruct (_withRetry _ MAX_RETRIES w) as [[stream|e] w1];
      [|simpl in Hin; contradiction].
    assert (Hthis : forall i0 ys0,
              (i0, ys0) = (i, yields_of (len <=? Nat.min (i + BATCH_SIZE) len)%nat
                                (chunks stream)) ->
              i0 mod BATCH_SIZE = 0 /\ i0 < len
              /\ forall y, In y ys0 -> isComplete y = (len <=? i0 + BATCH_SIZE)%nat).
    { intros i0 ys0 Heq. injection Heq as -> ->.
      split; [exact Hmod|]. split; [simpl in Hlen; lia|].
      intros y Hy. rewrite <- Hflag. eapply yields_of_isComplete; eauto. }
    destruct (failure stream) as [e|].
    + simpl in Hin. destruct Hin as [Heq|[]]. apply Hthis. symmetry. exact Heq.
    + destruct rest as [|b [|c [|d rest']]];
        try (simpl in Hin; destruct Hin as [Heq|[]]; apply Hthis; symmetry; exact Heq).
      destruct (turns_from chat len rest' (i + BATCH_SIZE) w1) as [[turns c0] w2] eqn:Hrec.
      simpl in Hin. destruct Hin as [Heq|Hin].
      * apply Hthis. symmetry. exact Heq.
      * apply (IH rest' (i + BATCH_SIZE) w1).
        -- simpl in Hn. lia.
        -- simpl in Hlen. unfold BATCH_SIZE. lia.
        -- unfold BATCH_SIZE in *.
           rewrite <- Nat.Div0.add_mod_idemp_l, Hmod. reflexivity.
        -- rewrite Hrec. exact Hin.
Qed.

(** C8, as the code has it: the chunks the generator yields are those
    of its turns, in order; every chunk yielded by the turn that starts
    at outline index [i] has [isComplete] true exactly when that turn is
    the final batch, that is when [i + 4] reaches the length of the
    outline.  All the chunks of the final batch carry the flag, not only
    the one that concludes it. *)
Theorem isComplete_marks_final_batch chat outline w :
  fst (fst (generatePresentationStream chat outline w))
  = concat (map snd (fst (fst (turns_from chat (length outline) outline 0 w))))
  /\ forall i ys,
       In (i, ys) (fst (fst (turns_from chat (length outline) outline 0 w))) ->
       i mod BATCH_SIZE = 0 /\ i < length outline
       /\ forall y, In y ys ->
            (isComplete y = true <-> length outline <= i + BATCH_SIZE).
Proof.
  split.
  - unfold generatePresentationStream.
    destruct (turns_from chat (length outline) outline 0 w) as [[turns c] w'].
    reflexivity.
  - intros i ys Hin.
    destruct (turns_from_flags chat (length outline) (length outline) outline 0 w
                (le_n _) eq_refl eq_refl i ys Hin) as [Hm [Hlt Hy]].
    split; [exact Hm|]. split; [exact Hlt|].
    intros y Hyin. rewrite (Hy y Hyin). apply Nat.leb_le.
Qed.

Lemma isComplete_marks_final_batch_witness :
  isComplete {| text := js "b"; isComplete := true |} = true <-> 5 <= 4 + BATCH_SIZE.
Proof.
  pose (item := {| id := js "1"; title := js "Slide"; points := [] |}).
  pose (chat := (fun _ _ => Resolved {| chunks := [Some (js "a"); Some (js "b")];
                                         failure := None |}) : Chat).
  destruct (isComplete_marks_final_batch chat [item; item; item; item; item] world0)
    as [_ H].
  destruct (H 4 [{| text := js "a"; isComplete := true |};
                 {| text := js "b"; isComplete := true |}]) as [_ [_ Hy]].
  - right. left. reflexivity.
  - apply Hy. right. left. reflexivity.
Defined.

(** C8, as the claim has it, fails: with a final batch whose response
    comes in two chunks, the first of them is not the chunk that
    concludes the batch and yet has [isComplete] true. *)
Lemma isComplete_on_every_chunk_of_final_batch :
  ~ (forall (chat : Chat) (outline : list OutlineItem) (w : World) (n : nat)
            (y : GenerationChunk),
       nth_error (fst (fst (generatePresentationStream chat outline w))) n = Some y ->
       isComplete y = true ->
       S n = length (fst (fst (generatePresentationStream chat outline w)))).
Proof.
  intros H.
  specialize (H (fun _ _ => Resolved {| chunks := [Some (js "a"); Some (js "b")];
                                        failure := None |})
                [{| id := js "1"; title := js "Slide"; points := [] |}]
                world0 0 {| text := js "a"; isComplete := true |}
                eq_refl eq_refl).
  discriminate H.
Qed.

(* ================================================================== *)
(** * Where the code does not do what a claim says *)
(* ================================================================== *)

(** C1, as the claim has it, fails: a batch is valid JSON when one of its
    fields holds a fenced-code marker, and the cleaning step removes the
    marker from the field. *)
Lemma fence_inside_a_field_is_removed :
  let r := {| s_title := js "A"; s_content := js "```" |} in
  JSON_parse (batch_text [r]) = Some (JObj [(js "slides", JArr [slide_value r])])
  /\ completeSlides (parseLiveStream (stream_text [[r]]) true)
     = [slide_value {| s_title := js "A"; s_content := [] |}]
  /\ completeSlides (parseLiveStream (stream_text [[r]]) true)
     <> map slide_value (concat [[r]]).
Proof.
  vm_compute. repeat split; try reflexivity. discriminate.
Qed.



(** C4, as the claim has it, fails: a marker put in right before the
    letters json joins them into the longer marker, and the letters are
    removed with it. *)
Lemma fence_before_json_changes_content :
  let buffer := batch_text [{| s_title := js "A"; s_content := js "json" |}] in
  completeSlides (parseLiveStream buffer true)
  = [slide_value {| s_title := js "A"; s_content := js "json" |}]
  /\ insert_at 35 FENCE buffer
     = batch_text [{| s_title := js "A"; s_content := js "```json" |}]
  /\ completeSlides (parseLiveStream (insert_at 35 FENCE buffer) true)
     = [slide_value {| s_title := js "A"; s_content := [] |}].
Proof.
  vm_compute. repeat split; reflexivity.
Qed.


(** C6, as the claim has it, fails: an attribute value may carry the
    text of a chart tag, which the first pass copies into the image tag
    and the second pass converts. *)
Lemma convertQuickChartTags_not_idempotent :
  let s := jsq "~" "<quickchart config=~a~ x=~<quickchart config='b' ~>" in
  convertQuickChartTags s
  = Some (jsq "~" "<img src=~https://quickchart.io/chart?c=a~ x=~<quickchart config='b' ~>")
  /\ convertQuickChartTags
       (jsq "~" "<img src=~https://quickchart.io/chart?c=a~ x=~<quickchart config='b' ~>")
     = Some (jsq "~" "<img src=~https://quickchart.io/chart?c=a~ x=~<img src=~https://quickchart.io/chart?c=b~>").
Proof.
  vm_compute. split; reflexivity.
Qed.

(* ================================================================== *)
(** * The final content transforms *)
(* ================================================================== *)

(** A global replace leaves a text without a match as it is. *)
Lemma regex_replace_no_match m callback : forall s,
  has_match m s = false -> regex_replace m callback 0 s = Some s.
Proof.
  induction s as [|c s IH]; intros H; [reflexivity|].
  simpl in *. destruct (m (c :: s)); [discriminate|].
  rewrite (IH H). reflexivity.
Qed.

Lemma has_match_url_len s :
  has_match match_url s = false -> has_match match_url_len s = false.
Proof.
  induction s as [|c s IH]; [intros _; reflexivity|].
  cbn [has_match]. unfold match_url_len at 1.
  destruct (match_url (c :: s)) as [[? ?]|]; [discriminate|]. exact IH.
Qed.

(** The tag pattern starts with the literal opener. *)
Lemma match_tag_needs_opener s :
  starts_with TAG_OPEN s = false -> match_tag s = None.
Proof. intros H. unfold match_tag. rewrite H. reflexivity. Qed.

Lemma no_opener_no_tag : forall s,
  includes TAG_OPEN s = false -> has_match match_tag s = false.
Proof.
  induction s as [|c s IH]; intros H.
  - reflexivity.
  - cbn [includes] in H. apply orb_false_iff in H. destruct H as [H1 H2].
    cbn [has_match]. rewrite (match_tag_needs_opener _ H1). apply IH, H2.
Qed.

(** C6, as the code has it: the chart tag of the example becomes an
    image tag whose query parameter [c] decodes to the configuration, and
    a second pass leaves that image tag as it is; so does a second pass
    on any converted text in which no opener of a chart tag is left.  The
    transform is not idempotent on every input. *)
Theorem convertQuickChartTags_example_and_second_pass :
  (let config := jsq "~" "{~type~:~bar~}" in
   let encoded := js "%7B%22type%22%3A%22bar%22%7D" in
   let img := jsq "~" "<img src=~https://quickchart.io/chart?c=" ++ encoded ++ jsq "~" "~>" in
   convertQuickChartTags (jsq "~" "<quickchart config='{~type~:~bar~}'>") = Some img
   /\ decodeURIComponent encoded = Some config
   /\ convertQuickChartTags img = Some img)
  /\ forall s s1,
       convertQuickChartTags s = Some s1 ->
       includes TAG_OPEN s1 = false ->
       convertQuickChartTags s1 = Some s1.
Proof.
  split.
  - vm_compute. repeat split; reflexivity.
  - intros s s1 _ H. unfold convertQuickChartTags.
    apply regex_replace_no_match, no_opener_no_tag, H.
Qed.

Lemma convertQuickChartTags_example_and_second_pass_witness :
  convertQuickChartTags
    (jsq "~" "<img src=~https://quickchart.io/chart?c=a~ width=~300~>")
  = Some (jsq "~" "<img src=~https://quickchart.io/chart?c=a~ width=~300~>").
Proof.
  destruct convertQuickChartTags_example_and_second_pass as [_ H].
  apply (H (jsq "~" "<quickchart config=~a~ width=~300~>")).
  - vm_compute. reflexivity.
  - vm_compute. reflexivity.
Defined.

(* ================================================================== *)
(** * The cleaning step *)
(* ================================================================== *)

(** A pattern that starts with a backtick has no match that starts in a
    text without backticks. *)
Lemma replace_from_no_backtick p r : forall u x,
  no_backtick u = true ->
  replace_from (BACKTICK :: p) r 0 (u ++ x) = u ++ replace_from (BACKTICK :: p) r 0 x.
Proof.
  induction u as [|c u IH]; intros x H; [reflexivity|].
  simpl in H. apply andb_true_iff in H. destruct H as [Hc Hu].
  cbn [app replace_from starts_with].
  apply negb_true_iff in Hc. rewrite N.eqb_sym in Hc. rewrite Hc. simpl.
  rewrite (IH x Hu). reflexivity.
Qed.

Lemma replace_all_no_backtick p r u :
  no_backtick u = true ->
  replace_all (BACKTICK :: p) r u = u.
Proof.
  intros H. unfold replace_all.
  rewrite <- (app_nil_r u) at 1. rewrite replace_from_no_backtick by exact H.
  simpl. apply app_nil_r.
Qed.

Lemma no_backtick_app u v :
  no_backtick (u ++ v) = true ->
  no_backtick u = true
  /\ no_backtick v = true.
Proof. unfold no_backtick. rewrite forallb_app. apply andb_true_iff. Qed.

Lemma cleanStreamOf_no_backtick s :
  no_backtick s = true ->
  cleanStreamOf s = trim s.
Proof.
  intros H. unfold cleanStreamOf, FENCE, FENCE_JSON.
  change (js "```json") with (BACKTICK :: js "``json").
  change (js "```") with (BACKTICK :: js "``").
  rewrite (replace_all_no_backtick (js "``json") [] s H).
  rewrite (replace_all_no_backtick (js "``") [] s H). reflexivity.
Qed.

Lemma cleanStreamOf_insert_fence_json u v :
  no_backtick (u ++ v) = true ->
  cleanStreamOf (u ++ FENCE_JSON ++ v) = cleanStreamOf (u ++ v).
Proof.
  intros H. rewrite (cleanStreamOf_no_backtick _ H).
  destruct (no_backtick_app _ _ H) as [Hu Hv].
  unfold cleanStreamOf. f_equal.
  assert (E : replace_all FENCE_JSON [] (u ++ FENCE_JSON ++ v) = u ++ v).
  { unfold replace_all, FENCE_JSON.
    change (js "```json") with (BACKTICK :: js "``json").
    rewrite replace_from_no_backtick by exact Hu.
    f_equal. cbn.
    change (replace_from _ [] 0 v) with (replace_all (BACKTICK :: js "``json") [] v).
    apply replace_all_no_backtick, Hv. }
  rewrite E. unfold FENCE. change (js "```") with (BACKTICK :: js "``").
  apply replace_all_no_backtick, H.
Qed.

Lemma replace_from_no_match_here p r c s :
  starts_with p (c :: s) = false ->
  replace_from p r 0 (c :: s) = c :: replace_from p r 0 s.
Proof. intros H. cbn [replace_from]. rewrite H. reflexivity. Qed.

Lemma starts_with_backtick_head p v :
  no_backtick v = true -> starts_with (BACKTICK :: p) v = false.
Proof.
  destruct v as [|c v]; [reflexivity|]. intros H. simpl in H.
  apply andb_true_iff in H. destruct H as [Hc _]. apply negb_true_iff in Hc.
  cbn [starts_with]. rewrite N.eqb_sym, Hc. reflexivity.
Qed.

(** The three backticks of the short marker are kept by the first
    replacement when the letters json do not follow them. *)
Lemma replace_fence_json_at_fence v :
  no_backtick v = true ->
  starts_with (js "json") v = false ->
  replace_from FENCE_JSON [] 0 (FENCE ++ v) = FENCE ++ v.
Proof.
  intros Hv Hj.
  change (FENCE ++ v) with (BACKTICK :: BACKTICK :: BACKTICK :: v).
  rewrite replace_from_no_match_here.
  2:{ change (starts_with FENCE_JSON (BACKTICK :: BACKTICK :: BACKTICK :: v))
        with (starts_with (js "json") v). exact Hj. }
  rewrite replace_from_no_match_here.
  2:{ change (starts_with FENCE_JSON (BACKTICK :: BACKTICK :: v))
        with (starts_with (BACKTICK :: js "json") v).
      apply starts_with_backtick_head, Hv. }
  rewrite replace_from_no_match_here.
  2:{ change (starts_with FENCE_JSON (BACKTICK :: v))
        with (starts_with (BACKTICK :: BACKTICK :: js "json") v).
      apply starts_with_backtick_head, Hv. }
  do 3 f_equal.
  apply (replace_all_no_backtick (js "``json") [] v Hv).
Qed.

Lemma cleanStreamOf_insert_fence u v :
  no_backtick (u ++ v) = true ->
  starts_with (js "json") v = false ->
  cleanStreamOf (u ++ FENCE ++ v) = cleanStreamOf (u ++ v).
Proof.
  intros H Hj. rewrite (cleanStreamOf_no_backtick _ H).
  destruct (no_backtick_app _ _ H) as [Hu Hv].
  unfold cleanStreamOf. f_equal.
  assert (E : replace_all FENCE_JSON [] (u ++ FENCE ++ v) = u ++ FENCE ++ v).
  { unfold replace_all. change FENCE_JSON with (BACKTICK :: js "``json") at 1.
    rewrite replace_from_no_backtick by exact Hu.
    f_equal. apply replace_fence_json_at_fence; assumption. }
  rewrite E. unfold replace_all. change FENCE with (BACKTICK :: js "``") at 1.
  rewrite replace_from_no_backtick by exact Hu.
  f_equal. change (FENCE ++ v) with (BACKTICK :: BACKTICK :: BACKTICK :: v).
  cbn. apply (replace_all_no_backtick (js "``") [] v Hv).
Qed.

(** C4, as the code has it: in a buffer without backticks, a [```json]
    marker put in at any position, or a [```] marker put in at any
    position that is not right before the letters json, is removed again
    by the cleaning step, and the result of the parser is the one of the
    buffer without the marker. *)
Theorem parseLiveStream_ignores_inserted_fence
    (buffer : jsstring) (p : nat) (isStreamComplete : bool) :
  no_backtick buffer = true ->
  parseLiveStream (insert_at p FENCE_JSON buffer) isStreamComplete
  = parseLiveStream buffer isStreamComplete
  /\ (starts_with (js "json") (skipn p buffer) = false ->
      parseLiveStream (insert_at p FENCE buffer) isStreamComplete
      = parseLiveStream buffer isStreamComplete).
Proof.
  intros H. rewrite <- (firstn_skipn p buffer) in H.
  unfold insert_at, parseLiveStream. split.
  - rewrite (cleanStreamOf_insert_fence_json _ _ H).
    rewrite (firstn_skipn p buffer). reflexivity.
  - intros Hj. rewrite (cleanStreamOf_insert_fence _ _ H Hj).
    rewrite (firstn_skipn p buffer). reflexivity.
Qed.

Lemma parseLiveStream_ignores_inserted_fence_witness :
  let buffer := batch_text [{| s_title := js "A"; s_content := js "<div>x</div>" |}] in
  parseLiveStream (insert_at 20 FENCE_JSON buffer) true = parseLiveStream buffer true
  /\ parseLiveStream (insert_at 20 FENCE buffer) true = parseLiveStream buffer true.
Proof.
  intros buffer.
  destruct (parseLiveStream_ignores_inserted_fence buffer 20 true) as [H1 H2].
  - vm_compute. reflexivity.
  - split; [exact H1|]. apply H2. vm_compute. reflexivity.
Defined.

(* ================================================================== *)
(** * [JSON.parse] on the text of slides and batches *)
(* ================================================================== *)

(** The escaped form of a character is read back as the character. *)
Lemma parse_string_body_escape_char c rest :
  parse_string_body (escape_char c ++ rest)
  = match parse_string_body rest with
    | Some (s, r) => Some (c :: s, r)
    | None => None
    end.
Proof.
  unfold escape_char.
  destruct (N.eqb_spec c 34) as [->|H34]; [reflexivity|].
  destruct (N.eqb_spec c 92) as [->|H92]; [reflexivity|].
  destruct (N.eqb_spec c 8) as [->|H8]; [reflexivity|].
  destruct (N.eqb_spec c 12) as [->|H12]; [reflexivity|].
  destruct (N.eqb_spec c 10) as [->|H10]; [reflexivity|].
  destruct (N.eqb_spec c 13) as [->|H13]; [reflexivity|].
  destruct (N.eqb_spec c 9) as [->|H9]; [reflexivity|].
  destruct (N.ltb_spec c 32) as [Hlt|Hge].
  - destruct c as [|p]; [reflexivity|].
    do 5 (try destruct p as [p|p|]); try (exfalso; lia); try reflexivity;
      exfalso; congruence.
  - cbn [app parse_string_body]. unfold QUOTE, BACKSLASH.
    destruct (N.eqb_spec c 34); [contradiction|].
    destruct (N.eqb_spec c 92); [contradiction|].
    destruct (N.ltb_spec c 32); [lia|]. reflexivity.
Qed.

Lemma parse_string_body_escape : forall s rest,
  parse_string_body (json_escape s ++ QUOTE :: rest) = Some (s, rest).
Proof.
  induction s as [|c s IH]; intros rest; [reflexivity|].
  unfold json_escape in *. cbn [flat_map]. rewrite <- app_assoc.
  rewrite parse_string_body_escape_char, IH. reflexivity.
Qed.

Lemma parse_value_quoted f s rest :
  parse_value (S f) (quoted s ++ rest) = Some (JStr s, rest).
Proof.
  unfold quoted. cbn [app parse_value]. cbn [N.eqb QUOTE LBRACE LBRACKET Pos.eqb].
  rewrite <- app_assoc. cbn [app].
  rewrite parse_string_body_escape. reflexivity.
Qed.

(** The texts with their literal parts written out. *)
Lemma slide_text_app r rest :
  slide_text r ++ rest
  = (123 :: 34 :: 116 :: 105 :: 116 :: 108 :: 101 :: 34 :: 58 :: 34
     :: json_escape (s_title r)
     ++ 34 :: 44 :: 34 :: 99 :: 111 :: 110 :: 116 :: 101 :: 110 :: 116
     :: 34 :: 58 :: 34
     :: json_escape (s_content r) ++ 34 :: 125 :: rest)%N.
Proof.
  unfold slide_text, quoted.
  change (jsq "'" "{'title':") with [123; 34; 116; 105; 116; 108; 101; 34; 58]%N.
  change (jsq "'" ",'content':")
    with [44; 34; 99; 111; 110; 116; 101; 110; 116; 34; 58]%N.
  unfold QUOTE, RBRACE.
  repeat (rewrite <- ?app_assoc; cbn [app]). reflexivity.
Qed.

Lemma parse_string_body_escape_lit s rest :
  parse_string_body (json_escape s ++ 34%N :: rest) = Some (s, rest).
Proof. exact (parse_string_body_escape s rest). Qed.

Lemma parse_value_slide f r rest :
  parse_value (S (S (S (S f)))) (slide_text r ++ rest) = Some (slide_value r, rest).
Proof.
  rewrite slide_text_app. simpl.
  rewrite parse_string_body_escape_lit. simpl.
  rewrite parse_string_body_escape_lit. simpl.
  reflexivity.
Qed.

Lemma length_slide_text r : 25 <= length (slide_text r).
Proof.
  rewrite <- (app_nil_r (slide_text r)), slide_text_app.
  simpl. rewrite !length_app. simpl. rewrite !length_app. simpl. lia.
Qed.

Lemma JSON_parse_slide r : JSON_parse (slide_text r) = Some (slide_value r).
Proof.
  unfold JSON_parse.
  assert (Hws : skip_ws (slide_text r) = slide_text r).
  { rewrite <- (app_nil_r (slide_text r)), slide_text_app. reflexivity. }
  rewrite Hws.
  pose proof (length_slide_text r) as Hlen.
  destruct (length (slide_text r)) as [|[|n]]; try lia.
  replace (2 * S (S n) + 2) with (S (S (S (S (2 * n + 2))))) by lia.
  rewrite <- (app_nil_r (slide_text r)) at 1.
  rewrite parse_value_slide. reflexivity.
Qed.

(** The elements of the slides array. *)
Lemma slides_text_cons r l :
  slides_text (r :: l)
  = match l with
    | [] => slide_text r
    | _ :: _ => slide_text r ++ COMMA :: slides_text l
    end.
Proof. reflexivity. Qed.

Lemma skip_ws_slide_text r rest :
  skip_ws (slide_text r ++ rest) = slide_text r ++ rest.
Proof. rewrite slide_text_app. reflexivity. Qed.

Lemma parse_elements_slides : forall l r f rest,
  parse_elements (length l + 5 + f) (slides_text (r :: l) ++ RBRACKET :: rest)
  = Some (map slide_value (r :: l), rest).
Proof.
  induction l as [|r' l IH]; intros r f rest.
  - cbn [slides_text length Nat.add parse_elements].
    rewrite parse_value_slide. reflexivity.
  - rewrite slides_text_cons. rewrite <- app_assoc. cbn [app length Nat.add].
    cbn [parse_elements].
    replace (length l + 5 + f) with (S (S (S (S (length l + 1 + f))))) at 1 by lia.
    rewrite parse_value_slide.
    cbn [skip_ws is_json_ws COMMA N.eqb Pos.eqb orb RBRACKET].
    assert (Hws : skip_ws (slides_text (r' :: l) ++ RBRACKET :: rest)
                  = slides_text (r' :: l) ++ RBRACKET :: rest).
    { rewrite slides_text_cons. destruct l.
      - apply skip_ws_slide_text.
      - rewrite <- app_assoc. apply skip_ws_slide_text. }
    rewrite Hws, IH. reflexivity.
Qed.

Lemma batch_text_app b rest :
  batch_text b ++ rest
  = (123 :: 34 :: 115 :: 108 :: 105 :: 100 :: 101 :: 115 :: 34 :: 58 :: 91
     :: slides_text b ++ 93 :: 125 :: rest)%N.
Proof.
  unfold batch_text.
  change SLIDES_OPEN
    with [123; 34; 115; 108; 105; 100; 101; 115; 34; 58; 91]%N.
  change (js "]}") with [93; 125]%N.
  repeat (rewrite <- ?app_assoc; cbn [app]). reflexivity.
Qed.

Lemma slides_text_head r l rest :
  exists t, slides_text (r :: l) ++ rest = 123%N :: t.
Proof.
  rewrite slides_text_cons. destruct l.
  - rewrite slide_text_app. eexists. reflexivity.
  - rewrite <- app_assoc, slide_text_app. eexists. reflexivity.
Qed.

Lemma parse_value_batch b f rest :
  parse_value (length b + 8 + f) (batch_text b ++ rest) = Some (batch_value b, rest).
Proof.
  rewrite batch_text_app.
  replace (length b + 8 + f) with (S (S (S (length b + 5 + f)))) by lia.
  destruct b as [|r l].
  - reflexivity.
  - cbn [parse_value]. cbn [N.eqb Pos.eqb LBRACE skip_ws is_json_ws orb RBRACE].
    cbn [parse_members]. cbn [N.eqb Pos.eqb QUOTE parse_string_body BACKSLASH N.ltb N.compare Pos.compare Pos.compare_cont].
    cbn [skip_ws is_json_ws orb N.eqb Pos.eqb COLON].
    cbn [parse_value]. cbn [N.eqb Pos.eqb LBRACE LBRACKET].
    destruct (slides_text_head r l (93 :: 125 :: rest)%N) as [t Ht].
    rewrite Ht. cbn [skip_ws is_json_ws orb N.eqb Pos.eqb RBRACKET].
    pose proof (parse_elements_slides l r (S f) (125%N :: rest)) as P.
    unfold RBRACKET in P. rewrite Ht in P.
    cbn [length]. replace (S (length l) + 5 + f) with (length l + 5 + S f) by lia.
    rewrite P. reflexivity.
Qed.

Lemma length_slides_text : forall b, length b <= length (slides_text b).
Proof.
  induction b as [|r l IH]; [simpl; lia|].
  rewrite slides_text_cons. pose proof (length_slide_text r).
  destruct l; [simpl; lia|].
  rewrite length_app. cbn [length] in *. lia.
Qed.

Lemma JSON_parse_batch b : JSON_parse (batch_text b) = Some (batch_value b).
Proof.
  unfold JSON_parse.
  assert (Hws : skip_ws (batch_text b) = batch_text b).
  { rewrite <- (app_nil_r (batch_text b)), batch_text_app. reflexivity. }
  rewrite Hws.
  assert (Hlen : length (batch_text b) = 13 + length (slides_text b)).
  { rewrite <- (app_nil_r (batch_text b)), batch_text_app.
    simpl. rewrite length_app. simpl. lia. }
  pose proof (length_slides_text b) as Hb.
  replace (2 * length (batch_text b) + 2)
    with (length b + 8 + (2 * length (batch_text b) + 2 - length b - 8)) by lia.
  rewrite <- (app_nil_r (batch_text b)) at 2.
  rewrite parse_value_batch. reflexivity.
Qed.

Lemma batch_slides_batch_value b : batch_slides (batch_value b) = map slide_value b.
Proof. reflexivity. Qed.

(* ================================================================== *)
(** * Phase 1 on the text of batches *)
(* ================================================================== *)

(** One turn of the loop on a character that is no backslash. *)
Lemma scan_batches_step cs c rest i st :
  c <> BACKSLASH ->
  scan_batches cs (c :: rest) i st
  = scan_batches cs rest (i + 1) (batch_step cs i c st).
Proof.
  intros Hc. cbn [scan_batches].
  destruct (N.eqb_spec c BACKSLASH) as [E|_]; [contradiction|].
  destruct rest; reflexivity.
Qed.

(** One turn of the loop on a backslash that is not the last
    character: the character after it is not looked at. *)
Lemma scan_batches_escape cs d rest i st :
  scan_batches cs (BACKSLASH :: d :: rest) i st = scan_batches cs rest (i + 2) st.
Proof. reflexivity. Qed.

Lemma batch_step_in_string cs i c st :
  BatchScan.inString st = true -> c <> QUOTE -> batch_step cs i c st = st.
Proof.
  intros Hs Hc. unfold batch_step.
  destruct (N.eqb_spec c QUOTE) as [E|_]; [contradiction|].
  destruct st; simpl in *; subst; reflexivity.
Qed.

Lemma batch_step_plain cs i c st :
  BatchScan.inString st = false ->
  c <> QUOTE -> c <> LBRACE -> c <> RBRACE ->
  batch_step cs i c st = st.
Proof.
  intros Hs Hq Hl Hr. unfold batch_step.
  destruct (N.eqb_spec c QUOTE) as [E|_]; [contradiction|].
  destruct (N.eqb_spec c LBRACE) as [E|_]; [contradiction|].
  destruct (N.eqb_spec c RBRACE) as [E|_]; [contradiction|].
  destruct st; simpl in *; subst; reflexivity.
Qed.

Lemma batch_step_quote cs i st :
  batch_step cs i QUOTE st = set_inString (negb (BatchScan.inString st)) st.
Proof.
  unfold batch_step. cbn [N.eqb QUOTE Pos.eqb].
  destruct (BatchScan.inString st); reflexivity.
Qed.

(** The escaped form of a character, scanned inside a string: nothing
    changes. *)
Lemma scan_batches_escape_char cs c rest i st :
  BatchScan.inString st = true ->
  scan_batches cs (escape_char c ++ rest) i st
  = scan_batches cs rest (i + length (escape_char c)) st.
Proof.
  intros Hs. unfold escape_char.
  destruct (N.eqb_spec c 34) as [->|H34]; [reflexivity|].
  destruct (N.eqb_spec c 92) as [->|H92]; [reflexivity|].
  destruct (N.eqb_spec c 8) as [->|H8]; [reflexivity|].
  destruct (N.eqb_spec c 12) as [->|H12]; [reflexivity|].
  destruct (N.eqb_spec c 10) as [->|H10]; [reflexivity|].
  destruct (N.eqb_spec c 13) as [->|H13]; [reflexivity|].
  destruct (N.eqb_spec c 9) as [->|H9]; [reflexivity|].
  destruct (N.ltb_spec c 32) as [Hlt|Hge].
  - cbn [app]. rewrite scan_batches_escape. cbn [length].
    assert (Hh : forall n, (n < 16)%N -> hex_lower n <> QUOTE /\ hex_lower n <> BACKSLASH).
    { intros n Hn. unfold hex_lower, QUOTE, BACKSLASH.
      destruct (N.ltb_spec n 10); split; lia. }
    destruct (Hh (c / 16)%N) as [Ha1 Ha2].
    { apply N.Div0.div_lt_upper_bound. lia. }
    destruct (Hh (c mod 16)%N) as [Hb1 Hb2].
    { apply N.mod_lt. lia. }
    rewrite scan_batches_step by (unfold BACKSLASH; lia).
    rewrite batch_step_in_string by (try assumption; unfold QUOTE; lia).
    rewrite scan_batches_step by (unfold BACKSLASH; lia).
    rewrite batch_step_in_string by (try assumption; unfold QUOTE; lia).
    rewrite scan_batches_step by assumption.
    rewrite batch_step_in_string by assumption.
    rewrite scan_batches_step by assumption.
    rewrite batch_step_in_string by assumption.
    f_equal. lia.
  - cbn [app length].
    rewrite scan_batches_step by (unfold BACKSLASH; lia).
    rewrite batch_step_in_string by (try assumption; unfold QUOTE; lia).
    reflexivity.
Qed.

(** A whole escaped string with its closing quote, scanned inside a
    string: the flag is cleared and nothing else changes. *)
Lemma scan_batches_in_string cs : forall s rest i st,
  BatchScan.inString st = true ->
  scan_batches cs (json_escape s ++ 34%N :: rest) i st
  = scan_batches cs rest (i + length (json_escape s) + 1) (set_inString false st).
Proof.
  induction s as [|c s IH]; intros rest i st Hs.
  - cbn [json_escape flat_map app length].
    change 34%N with QUOTE. rewrite scan_batches_step by discriminate.
    rewrite batch_step_quote, Hs. f_equal. lia.
  - unfold json_escape in *. cbn [flat_map]. rewrite <- app_assoc.
    rewrite scan_batches_escape_char by exact Hs.
    rewrite IH by exact Hs. rewrite length_app. f_equal. lia.
Qed.

Lemma set_inString_same st :
  set_inString (BatchScan.inString st) st = st.
Proof. destruct st; reflexivity. Qed.

(** A quoted string scanned outside a string leaves the state as it
    is. *)
Lemma scan_batches_quoted cs s rest i st :
  BatchScan.inString st = false ->
  scan_batches cs (34%N :: json_escape s ++ 34%N :: rest) i st
  = scan_batches cs rest (i + (length (json_escape s) + 2)) st.
Proof.
  intros Hs. change 34%N with QUOTE at 1.
  rewrite scan_batches_step by discriminate.
  rewrite batch_step_quote, Hs. cbn [negb].
  rewrite scan_batches_in_string by reflexivity.
  replace (set_inString false (set_inString true st)) with st
    by (destruct st; simpl in *; subst; reflexivity).
  f_equal. lia.
Qed.

(** A key written as a literal is a quoted string. *)
Lemma scan_batches_key cs (k : jsstring) rest i st :
  json_escape k = k ->
  BatchScan.inString st = false ->
  scan_batches cs (34%N :: k ++ 34%N :: rest) i st
  = scan_batches cs rest (i + (length k + 2)) st.
Proof.
  intros Hk Hs. rewrite <- Hk at 1. rewrite scan_batches_quoted by exact Hs.
  rewrite Hk. reflexivity.
Qed.

Lemma batch_step_open_nested cs i st :
  BatchScan.inString st = false -> (BatchScan.braceCount st <> 0)%Z ->
  batch_step cs i LBRACE st = with_braceCount (BatchScan.braceCount st + 1) st.
Proof.
  intros Hs Hd. unfold batch_step. cbn [N.eqb QUOTE LBRACE Pos.eqb].
  rewrite Hs. destruct (Z.eqb_spec (BatchScan.braceCount st) 0); [contradiction|].
  destruct st; simpl in *; subst; reflexivity.
Qed.

Lemma batch_step_close_nested cs i st :
  BatchScan.inString st = false -> (BatchScan.braceCount st <> 1)%Z ->
  batch_step cs i RBRACE st = with_braceCount (BatchScan.braceCount st - 1) st.
Proof.
  intros Hs Hd. unfold batch_step. cbn [N.eqb QUOTE LBRACE RBRACE Pos.eqb].
  rewrite Hs.
  destruct (Z.eqb_spec (BatchScan.braceCount st - 1) 0); [lia|].
  destruct st; simpl in *; subst; reflexivity.
Qed.

(** The text of a slide scanned inside an object leaves the state as it
    is. *)
Lemma scan_batches_slide cs r rest i st :
  BatchScan.inString st = false -> (1 <= BatchScan.braceCount st)%Z ->
  scan_batches cs (slide_text r ++ rest) i st
  = scan_batches cs rest (i + length (slide_text r)) st.
Proof.
  intros Hs Hd.
  assert (Hlen : length (slide_text r)
                 = 25 + length (json_escape (s_title r))
                   + length (json_escape (s_content r))).
  { rewrite <- (app_nil_r (slide_text r)), slide_text_app.
    simpl. rewrite !length_app. simpl. rewrite !length_app. simpl. lia. }
  rewrite slide_text_app, Hlen.
  change 123%N with LBRACE. rewrite scan_batches_step by discriminate.
  rewrite batch_step_open_nested by (try assumption; lia).
  change (34 :: 116 :: 105 :: 116 :: 108 :: 101 :: 34 :: ?x)%N
    with (34%N :: [116; 105; 116; 108; 101]%N ++ 34%N :: x).
  rewrite scan_batches_key by (reflexivity || exact Hs).
  rewrite scan_batches_step by discriminate.
  rewrite batch_step_plain by (try discriminate; exact Hs).
  rewrite scan_batches_quoted by exact Hs.
  rewrite scan_batches_step by discriminate.
  rewrite batch_step_plain by (try discriminate; exact Hs).
  change (34 :: 99 :: 111 :: 110 :: 116 :: 101 :: 110 :: 116 :: 34 :: ?x)%N
    with (34%N :: [99; 111; 110; 116; 101; 110; 116]%N ++ 34%N :: x).
  rewrite scan_batches_key by (reflexivity || exact Hs).
  rewrite scan_batches_step by discriminate.
  rewrite batch_step_plain by (try discriminate; exact Hs).
  rewrite scan_batches_quoted by exact Hs.
  change 125%N with RBRACE. rewrite scan_batches_step by discriminate.
  rewrite batch_step_close_nested by (simpl; try assumption; lia).
  replace (with_braceCount _ _) with st
    by (destruct st; unfold with_braceCount; simpl in *; f_equal; lia).
  f_equal. simpl. lia.
Qed.

Lemma scan_batches_slides cs : forall l rest i st,
  BatchScan.inString st = false -> (1 <= BatchScan.braceCount st)%Z ->
  scan_batches cs (slides_text l ++ rest) i st
  = scan_batches cs rest (i + length (slides_text l)) st.
Proof.
  induction l as [|r l IH]; intros rest i st Hs Hd.
  - simpl. f_equal. lia.
  - rewrite slides_text_cons. destruct l as [|r' l].
    + apply scan_batches_slide; assumption.
    + rewrite <- app_assoc. rewrite scan_batches_slide by assumption.
      cbn [app]. rewrite scan_batches_step by discriminate.
      rewrite batch_step_plain by (try discriminate; exact Hs).
      rewrite IH by assumption. rewrite length_app. cbn [length].
      f_equal. lia.
Qed.

Lemma substring_middle (pre t post : jsstring) :
  substring (pre ++ t ++ post) (Z.of_nat (length pre))
    (Z.of_nat (length pre + length t)) = t.
Proof.
  unfold substring, clamp. rewrite !Nat2Z.id, !length_app.
  replace (Nat.min (length pre) (length pre + (length t + length post)))
    with (length pre) by lia.
  replace (Nat.min (length pre + length t) (length pre + (length t + length post)))
    with (length pre + length t) by lia.
  replace (Nat.min (length pre) (length pre + length t)) with (length pre) by lia.
  replace (Nat.max (length pre) (length pre + length t) - length pre)
    with (length t) by lia.
  rewrite skipn_app, skipn_all, Nat.sub_diag. cbn [app skipn].
  rewrite firstn_app, firstn_all, Nat.sub_diag. cbn [firstn]. apply app_nil_r.
Qed.

Lemma length_batch_text b : length (batch_text b) = 13 + length (slides_text b).
Proof.
  rewrite <- (app_nil_r (batch_text b)), batch_text_app.
  simpl. rewrite length_app. simpl. lia.
Qed.

(** The text of a batch, scanned between two top-level objects: its
    slides are appended and the end cursor is moved past it. *)
Lemma scan_batches_batch pre b post lastEnd slides :
  scan_batches (pre ++ batch_text b ++ post) (batch_text b ++ post) (length pre)
    (between_batches lastEnd slides)
  = scan_batches (pre ++ batch_text b ++ post) post (length pre + length (batch_text b))
      (between_batches (Z.of_nat (length pre + length (batch_text b)))
         (slides ++ map slide_value b)).
Proof.
  set (cs := pre ++ batch_text b ++ post).
  rewrite length_batch_text. rewrite batch_text_app.
  change 123%N with LBRACE. rewrite scan_batches_step by discriminate.
  set (st1 := batch_step cs (length pre) LBRACE (between_batches lastEnd slides)).
  assert (Hst1 : st1 = {| BatchScan.braceCount := 1;
                          BatchScan.inString := false;
                          BatchScan.currentObjectStartIndex := Z.of_nat (length pre);
                          BatchScan.lastValidBatchEndIndex := lastEnd;
                          BatchScan.completeSlides := slides |}) by reflexivity.
  clearbody st1. subst st1.
  change (34 :: 115 :: 108 :: 105 :: 100 :: 101 :: 115 :: 34 :: ?x)%N
    with (34%N :: [115; 108; 105; 100; 101; 115]%N ++ 34%N :: x).
  rewrite scan_batches_key by reflexivity.
  rewrite scan_batches_step by discriminate.
  rewrite batch_step_plain by (try discriminate; reflexivity).
  rewrite scan_batches_step by discriminate.
  rewrite batch_step_plain by (try discriminate; reflexivity).
  rewrite scan_batches_slides by (simpl; try reflexivity; lia).
  rewrite scan_batches_step by discriminate.
  rewrite batch_step_plain by (try discriminate; reflexivity).
  change 125%N with RBRACE. rewrite scan_batches_step by discriminate.
  f_equal; [simpl; lia|].
  unfold batch_step. cbn [N.eqb QUOTE LBRACE RBRACE Pos.eqb BatchScan.inString
                          BatchScan.braceCount BatchScan.currentObjectStartIndex
                          BatchScan.lastValidBatchEndIndex BatchScan.completeSlides
                          Z.sub Z.add Z.opp Z.pos_sub Z.eqb andb].
  destruct (Z.eqb_spec (Z.of_nat (length pre)) (-1)) as [E|_]; [lia|].
  cbn [negb].
  match goal with
  | |- context [(Z.of_nat ?n + 1)%Z] =>
      replace (Z.of_nat n + 1)%Z with (Z.of_nat (length pre + length (batch_text b)))
        by (rewrite length_batch_text; simpl; lia)
  end.
  unfold cs. rewrite substring_middle, JSON_parse_batch, batch_slides_batch_value.
  unfold between_batches. rewrite length_batch_text. reflexivity.
Qed.

Lemma stream_text_cons b bs : stream_text (b :: bs) = batch_text b ++ stream_text bs.
Proof. reflexivity. Qed.

(** A stream of batches, scanned from between two top-level objects:
    all the slides are appended, in order, and the end cursor is at the
    end of the stream. *)
Lemma scan_batches_stream : forall bs pre post slides,
  scan_batches (pre ++ stream_text bs ++ post) (stream_text bs ++ post) (length pre)
    (between_batches (Z.of_nat (length pre)) slides)
  = scan_batches (pre ++ stream_text bs ++ post) post
      (length pre + length (stream_text bs))
      (between_batches (Z.of_nat (length pre + length (stream_text bs)))
         (slides ++ map slide_value (concat bs))).
Proof.
  induction bs as [|b bs IH]; intros pre post slides.
  - cbn [stream_text map concat app length]. rewrite app_nil_r, Nat.add_0_r.
    reflexivity.
  - rewrite stream_text_cons. rewrite <- !app_assoc.
    rewrite scan_batches_batch.
    specialize (IH (pre ++ batch_text b) post (slides ++ map slide_value b)).
    rewrite <- !app_assoc, length_app in IH. rewrite IH.
    rewrite length_app. cbn [concat]. rewrite map_app, !app_assoc, !Nat.add_assoc.
    reflexivity.
Qed.

Lemma scan_batches_whole_stream bs :
  scan_batches (stream_text bs) (stream_text bs) 0 batch_init
  = between_batches (Z.of_nat (length (stream_text bs)))
      (map slide_value (concat bs)).
Proof.
  pose proof (scan_batches_stream bs [] [] []) as H.
  cbn [app length Nat.add] in H. rewrite app_nil_r in H. exact H.
Qed.

(* ================================================================== *)
(** * The cleaning step on the text of batches *)
(* ================================================================== *)

Lemma escape_char_plain c : is_plain c = true -> escape_char c = [c].
Proof.
  unfold is_plain, escape_char, QUOTE, BACKSLASH. intros H.
  apply andb_true_iff in H. destruct H as [H H92].
  apply andb_true_iff in H. destruct H as [H32 H34].
  apply negb_true_iff in H32, H34, H92.
  rewrite H34, H92, H32.
  apply N.ltb_ge in H32.
  destruct (N.eqb_spec c 8); [lia|]. destruct (N.eqb_spec c 12); [lia|].
  destruct (N.eqb_spec c 10); [lia|]. destruct (N.eqb_spec c 13); [lia|].
  destruct (N.eqb_spec c 9); [lia|]. reflexivity.
Qed.

(** The escaped form of a character that is not plain starts with a
    backslash and holds no backtick. *)
Lemma escape_char_not_plain c :
  is_plain c = false ->
  exists t, escape_char c = BACKSLASH :: t /\ no_backtick (BACKSLASH :: t) = true.
Proof.
  unfold is_plain, escape_char, QUOTE. intros H.
  destruct (N.eqb_spec c 34) as [E|H34]; [subst c; eexists; split; reflexivity|].
  destruct (N.eqb_spec c 92) as [E|H92]; [subst c; eexists; split; reflexivity|].
  destruct (N.eqb_spec c 8) as [E|H8]; [subst c; eexists; split; reflexivity|].
  destruct (N.eqb_spec c 12) as [E|H12]; [subst c; eexists; split; reflexivity|].
  destruct (N.eqb_spec c 10) as [E|H10]; [subst c; eexists; split; reflexivity|].
  destruct (N.eqb_spec c 13) as [E|H13]; [subst c; eexists; split; reflexivity|].
  destruct (N.eqb_spec c 9) as [E|H9]; [subst c; eexists; split; reflexivity|].
  destruct (N.ltb_spec c 32) as [Hlt|Hge].
  - destruct c as [|p]; [eexists; split; reflexivity|].
    do 5 (try destruct p as [p|p|]); try (exfalso; lia);
      eexists; split; reflexivity.
  - exfalso. unfold BACKSLASH in H.
    destruct (N.eqb_spec c 92); [contradiction|].
    destruct (N.ltb_spec c 32); [lia|]. simpl in H. discriminate.
Qed.

Lemma json_escape_plain : forall p, forallb is_plain p = true -> json_escape p = p.
Proof.
  induction p as [|c p IH]; intros H; [reflexivity|].
  simpl in H. apply andb_true_iff in H. destruct H as [Hc Hp].
  unfold json_escape in *. cbn [flat_map].
  rewrite (escape_char_plain _ Hc), (IH Hp). reflexivity.
Qed.

Lemma json_escape_app a b : json_escape (a ++ b) = json_escape a ++ json_escape b.
Proof. unfold json_escape. apply flat_map_app. Qed.

Lemma is_plain_not_quote c : is_plain c = true -> c <> QUOTE /\ c <> BACKSLASH.
Proof.
  unfold is_plain. intros H.
  apply andb_true_iff in H. destruct H as [H H92].
  apply andb_true_iff in H. destruct H as [_ H34].
  apply negb_true_iff in H34, H92.
  split; apply N.eqb_neq; assumption.
Qed.

(** A pattern of plain characters matches at the head of an escaped
    string exactly when it matches at the head of the string. *)
Lemma starts_with_escape : forall p s rest,
  forallb is_plain p = true ->
  starts_with p (json_escape s ++ QUOTE :: rest) = starts_with p s.
Proof.
  induction p as [|x p IH]; intros s rest Hp; [reflexivity|].
  simpl in Hp. apply andb_true_iff in Hp. destruct Hp as [Hx Hp].
  destruct (is_plain_not_quote _ Hx) as [Hq Hb].
  destruct s as [|c s].
  - cbn [json_escape flat_map app starts_with].
    destruct (N.eqb_spec x QUOTE); [contradiction|]. reflexivity.
  - unfold json_escape. cbn [flat_map]. fold (json_escape s).
    destruct (is_plain c) eqn:Hc.
    + rewrite (escape_char_plain _ Hc). cbn [app starts_with].
      rewrite (IH s rest Hp). reflexivity.
    + destruct (escape_char_not_plain _ Hc) as [t [Ht _]]. rewrite Ht.
      cbn [app starts_with].
      destruct (N.eqb_spec x BACKSLASH); [contradiction|].
      destruct (N.eqb_spec x c) as [->|_]; [congruence|]. reflexivity.
Qed.

Lemma starts_with_split : forall p s,
  starts_with p s = true -> s = p ++ skipn (length p) s.
Proof.
  induction p as [|x p IH]; intros s H; [reflexivity|].
  destruct s as [|c s]; [discriminate|].
  cbn [starts_with] in H. apply andb_true_iff in H. destruct H as [Hx Hp].
  apply N.eqb_eq in Hx. subst c. cbn [length skipn app].
  f_equal. apply IH, Hp.
Qed.

Lemma starts_with_refl : forall p x, starts_with p (p ++ x) = true.
Proof.
  induction p as [|c p IH]; intros x; [reflexivity|].
  cbn [app starts_with]. rewrite N.eqb_refl. apply IH.
Qed.

Lemma replace_from_skip p r : forall u x,
  replace_from p r (length u) (u ++ x) = replace_from p r 0 x.
Proof.
  induction u as [|c u IH]; intros x; [reflexivity|].
  cbn [length app replace_from]. apply IH.
Qed.

(** At a match the pattern is replaced and the scan goes on after it. *)
Lemma replace_from_at_match c p r x :
  replace_from (c :: p) r 0 ((c :: p) ++ x) = r ++ replace_from (c :: p) r 0 x.
Proof.
  cbn [app]. cbn [replace_from].
  change (c :: p ++ x) with ((c :: p) ++ x). rewrite starts_with_refl.
  replace (length (c :: p) - 1) with (length p) by (simpl; lia).
  rewrite replace_from_skip. reflexivity.
Qed.

(** Removing a pattern of plain characters that starts with a backtick
    from an escaped string is escaping the string without the pattern;
    no match runs over the closing quote. *)
Lemma replace_from_escape p : forall n s rest,
  length s <= n ->
  forallb is_plain (BACKTICK :: p) = true ->
  replace_from (BACKTICK :: p) [] 0 (json_escape s ++ QUOTE :: rest)
  = json_escape (replace_from (BACKTICK :: p) [] 0 s)
    ++ QUOTE :: replace_from (BACKTICK :: p) [] 0 rest.
Proof.
  induction n as [|n IH]; intros s rest Hn Hp.
  - destruct s; [|simpl in Hn; lia]. reflexivity.
  - destruct s as [|c s]; [reflexivity|].
    destruct (starts_with (BACKTICK :: p) (c :: s)) eqn:Hm.
    + pose proof (starts_with_split _ _ Hm) as Hs.
      set (s' := skipn (length (BACKTICK :: p)) (c :: s)) in *.
      assert (Hlen : length s' <= n).
      { apply (f_equal (@length _)) in Hs. rewrite length_app in Hs.
        simpl in Hs, Hn. lia. }
      rewrite Hs. rewrite json_escape_app, (json_escape_plain _ Hp).
      rewrite <- app_assoc. rewrite !replace_from_at_match.
      cbn [app]. apply IH; assumption.
    + rewrite replace_from_no_match_here by exact Hm.
      assert (Hm' : starts_with (BACKTICK :: p) (json_escape (c :: s) ++ QUOTE :: rest)
                    = false).
      { rewrite starts_with_escape by exact Hp. exact Hm. }
      unfold json_escape in *. cbn [flat_map] in *.
      fold (json_escape s) in *.
      fold (json_escape (replace_from (BACKTICK :: p) [] 0 s)).
      destruct (is_plain c) eqn:Hc.
      * rewrite (escape_char_plain _ Hc) in *. cbn [app] in *.
        rewrite replace_from_no_match_here by exact Hm'.
        f_equal. apply IH; [simpl in Hn; lia|exact Hp].
      * destruct (escape_char_not_plain _ Hc) as [t [Ht Hnb]]. rewrite Ht.
        rewrite <- app_assoc.
        rewrite replace_from_no_backtick by exact Hnb.
        rewrite <- app_assoc. f_equal.
        apply IH; [simpl in Hn; lia|exact Hp].
Qed.

Section Pass.

(** One replacement of the cleaning step: a pattern of plain characters
    that starts with a backtick, replaced by nothing. *)
Variable p : jsstring.
Hypothesis plain_p : forallb is_plain (BACKTICK :: p) = true.

Local Abbreviation pass := (replace_from (BACKTICK :: p) [] 0).

Lemma pass_escape s rest :
  pass (json_escape s ++ 34%N :: rest)
  = json_escape (pass s) ++ 34%N :: pass rest.
Proof. apply (replace_from_escape p (length s)); [lia|exact plain_p]. Qed.

Lemma pass_literal u x : no_backtick u = true -> pass (u ++ x) = u ++ pass x.
Proof. apply replace_from_no_backtick. Qed.

Lemma pass_slide_text r rest :
  pass (slide_text r ++ rest) = slide_text (map_fields pass r) ++ pass rest.
Proof.
  rewrite !slide_text_app. cbn [map_fields s_title s_content].
  change (123 :: 34 :: 116 :: 105 :: 116 :: 108 :: 101 :: 34 :: 58 :: 34 :: ?x)%N
    with ([123; 34; 116; 105; 116; 108; 101; 34; 58; 34]%N ++ x).
  rewrite pass_literal by reflexivity. f_equal.
  rewrite pass_escape. f_equal. f_equal.
  change (44 :: 34 :: 99 :: 111 :: 110 :: 116 :: 101 :: 110 :: 116 :: 34 :: 58 :: 34 :: ?x)%N
    with ([44; 34; 99; 111; 110; 116; 101; 110; 116; 34; 58; 34]%N ++ x).
  rewrite pass_literal by reflexivity. f_equal.
  rewrite pass_escape. reflexivity.
Qed.

Lemma pass_slides_text : forall l rest,
  pass (slides_text l ++ rest)
  = slides_text (map (map_fields pass) l) ++ pass rest.
Proof.
  induction l as [|r l IH]; intros rest; [reflexivity|].
  cbn [map]. rewrite !slides_text_cons. destruct l as [|r' l].
  - apply pass_slide_text.
  - cbn [map]. rewrite <- !app_assoc. rewrite pass_slide_text. f_equal.
    cbn [app].
    change (pass (COMMA :: slides_text (r' :: l) ++ rest))
      with (COMMA :: pass (slides_text (r' :: l) ++ rest)).
    f_equal. apply (IH rest).
Qed.

Lemma pass_batch_text b rest :
  pass (batch_text b ++ rest)
  = batch_text (map (map_fields pass) b) ++ pass rest.
Proof.
  rewrite !batch_text_app.
  change (123 :: 34 :: 115 :: 108 :: 105 :: 100 :: 101 :: 115 :: 34 :: 58 :: 91 :: ?x)%N
    with ([123; 34; 115; 108; 105; 100; 101; 115; 34; 58; 91]%N ++ x).
  rewrite pass_literal by reflexivity. f_equal.
  rewrite pass_slides_text. reflexivity.
Qed.

Lemma pass_stream_text : forall bs,
  pass (stream_text bs) = stream_text (map (map (map_fields pass)) bs).
Proof.
  induction bs as [|b bs IH]; [reflexivity|].
  cbn [map]. rewrite !stream_text_cons, pass_batch_text, IH. reflexivity.
Qed.

End Pass.

Lemma map_fields_compose f g r :
  map_fields f (map_fields g r) = map_fields (fun s => f (g s)) r.
Proof. reflexivity. Qed.

Lemma batch_text_last b : exists u, batch_text b = u ++ [125%N].
Proof.
  exists (SLIDES_OPEN ++ slides_text b ++ [93%N]).
  unfold batch_text. change (js "]}") with ([93%N] ++ [125%N]).
  rewrite <- !app_assoc. reflexivity.
Qed.

(** The stream of batches starts with an opening brace and ends with
    the closing brace of its last batch. *)
Lemma stream_text_shape : forall bs,
  stream_text bs = []
  \/ exists t u, stream_text bs = 123%N :: t /\ stream_text bs = u ++ [125%N].
Proof.
  induction bs as [|b bs IH]; [left; reflexivity|]. right.
  rewrite stream_text_cons.
  destruct IH as [E|[t [u [_ Hu]]]].
  - rewrite E, app_nil_r. destruct (batch_text_last b) as [u Hu].
    pose proof (batch_text_app b []) as Hb. rewrite app_nil_r in Hb.
    eexists. exists u. split; [exact Hb|exact Hu].
  - rewrite batch_text_app. eexists. exists (batch_text b ++ u).
    split; [reflexivity|]. rewrite <- batch_text_app, Hu, app_assoc. reflexivity.
Qed.

Lemma trim_braces t u :
  123%N :: t = u ++ [125%N] -> trim (123%N :: t) = 123%N :: t.
Proof.
  intros H. unfold trim. cbn [trim_start is_js_space N.leb N.eqb N.compare
                              Pos.compare Pos.compare_cont Pos.eqb andb orb].
  unfold trim_end. rewrite H, rev_app_distr. cbn [rev app trim_start].
  cbn [is_js_space N.leb N.eqb N.compare Pos.compare Pos.compare_cont Pos.eqb andb orb].
  change (125%N :: rev u) with (rev [125%N] ++ rev u).
  rewrite <- rev_app_distr, rev_involutive. reflexivity.
Qed.

Lemma trim_stream_text bs : trim (stream_text bs) = stream_text bs.
Proof.
  destruct (stream_text_shape bs) as [E|[t [u [Ht Hu]]]].
  - rewrite E. reflexivity.
  - rewrite Ht in *. apply (trim_braces t u). exact Hu.
Qed.

(** The cleaning step on a stream of batches cleans the fields of its
    slides and nothing else. *)
Lemma cleanStreamOf_stream_text bs :
  cleanStreamOf (stream_text bs) = stream_text (map (map strip_slide) bs).
Proof.
  unfold cleanStreamOf, replace_all.
  change FENCE_JSON with (BACKTICK :: js "``json").
  change FENCE with (BACKTICK :: js "``").
  rewrite (pass_stream_text (js "``json")) by reflexivity.
  rewrite (pass_stream_text (js "``")) by reflexivity.
  rewrite trim_stream_text, map_map.
  f_equal. apply map_ext. intros b. rewrite map_map. reflexivity.
Qed.

(* ================================================================== *)
(** * The parser on a stream of complete batches *)
(* ================================================================== *)

Lemma substring_from_end (s : jsstring) :
  substring_from s (Z.of_nat (length s)) = [].
Proof.
  unfold substring_from, clamp. rewrite Nat2Z.id, Nat.min_id. apply skipn_all.
Qed.

(** On a stream of complete batches the first scan finds every slide,
    the remainder is empty and nothing is in progress. *)
Lemma parseLiveStream_complete bs flag :
  parseLiveStream (stream_text bs) flag
  = {| completeSlides := map slide_value (map strip_slide (concat bs));
       inProgressHtml := [] |}.
Proof.
  unfold parseLiveStream, parsePhases. rewrite cleanStreamOf_stream_text.
  rewrite scan_batches_whole_stream.
  cbn [BatchScan.lastValidBatchEndIndex BatchScan.completeSlides between_batches].
  rewrite substring_from_end. cbn [regex_search].
  change (match_key_open (js "slides") LBRACKET []) with (@None nat).
  cbn iota. f_equal. f_equal. symmetry. apply concat_map.
Qed.

(* ================================================================== *)
(** * Phase 2 on the text of slides *)
(* ================================================================== *)

Lemma scan_slides_step ss c rest j st :
  c <> BACKSLASH ->
  scan_slides ss (c :: rest) j st
  = scan_slides ss rest (j + 1) (slide_step ss j c st).
Proof.
  intros Hc. cbn [scan_slides].
  destruct (N.eqb_spec c BACKSLASH) as [E|_]; [contradiction|]. reflexivity.
Qed.

(** In the second scan too a backslash hides the character after it. *)
Lemma scan_slides_escape ss d rest j st :
  scan_slides ss (BACKSLASH :: d :: rest) j st = scan_slides ss rest (j + 2) st.
Proof. reflexivity. Qed.

Lemma slide_step_in_string ss j c st :
  SlideScan.slideInString st = true -> c <> QUOTE -> slide_step ss j c st = st.
Proof.
  intros Hs Hc. unfold slide_step.
  destruct (N.eqb_spec c QUOTE) as [E|_]; [contradiction|].
  destruct st; simpl in *; subst; reflexivity.
Qed.

Lemma slide_step_plain ss j c st :
  SlideScan.slideInString st = false ->
  c <> QUOTE -> c <> LBRACE -> c <> RBRACE ->
  slide_step ss j c st = st.
Proof.
  intros Hs Hq Hl Hr. unfold slide_step.
  destruct (N.eqb_spec c QUOTE) as [E|_]; [contradiction|].
  destruct (N.eqb_spec c LBRACE) as [E|_]; [contradiction|].
  destruct (N.eqb_spec c RBRACE) as [E|_]; [contradiction|].
  destruct st; simpl in *; subst; reflexivity.
Qed.

Lemma slide_step_quote ss j st :
  slide_step ss j QUOTE st
  = set_slideInString (negb (SlideScan.slideInString st)) st.
Proof.
  unfold slide_step. cbn [N.eqb QUOTE Pos.eqb].
  destruct (SlideScan.slideInString st); reflexivity.
Qed.

Lemma scan_slides_escape_char ss c rest j st :
  SlideScan.slideInString st = true ->
  scan_slides ss (escape_char c ++ rest) j st
  = scan_slides ss rest (j + length (escape_char c)) st.
Proof.
  intros Hs. unfold escape_char.
  destruct (N.eqb_spec c 34) as [->|H34]; [reflexivity|].
  destruct (N.eqb_spec c 92) as [->|H92]; [reflexivity|].
  destruct (N.eqb_spec c 8) as [->|H8]; [reflexivity|].
  destruct (N.eqb_spec c 12) as [->|H12]; [reflexivity|].
  destruct (N.eqb_spec c 10) as [->|H10]; [reflexivity|].
  destruct (N.eqb_spec c 13) as [->|H13]; [reflexivity|].
  destruct (N.eqb_spec c 9) as [->|H9]; [reflexivity|].
  destruct (N.ltb_spec c 32) as [Hlt|Hge].
  - cbn [app]. rewrite scan_slides_escape. cbn [length].
    assert (Hh : forall n, (n < 16)%N -> hex_lower n <> QUOTE /\ hex_lower n <> BACKSLASH).
    { intros n Hn. unfold hex_lower, QUOTE, BACKSLASH.
      destruct (N.ltb_spec n 10); split; lia. }
    destruct (Hh (c / 16)%N) as [Ha1 Ha2].
    { apply N.Div0.div_lt_upper_bound. lia. }
    destruct (Hh (c mod 16)%N) as [Hb1 Hb2].
    { apply N.mod_lt. lia. }
    rewrite scan_slides_step by (unfold BACKSLASH; lia).
    rewrite slide_step_in_string by (try assumption; unfold QUOTE; lia).
    rewrite scan_slides_step by (unfold BACKSLASH; lia).
    rewrite slide_step_in_string by (try assumption; unfold QUOTE; lia).
    rewrite scan_slides_step by assumption.
    rewrite slide_step_in_string by assumption.
    rewrite scan_slides_step by assumption.
    rewrite slide_step_in_string by assumption.
    f_equal. lia.
  - cbn [app length].
    rewrite scan_slides_step by (unfold BACKSLASH; lia).
    rewrite slide_step_in_string by (try assumption; unfold QUOTE; lia).
    reflexivity.
Qed.

Lemma scan_slides_in_string ss : forall s rest j st,
  SlideScan.slideInString st = true ->
  scan_slides ss (json_escape s ++ 34%N :: rest) j st
  = scan_slides ss rest (j + length (json_escape s) + 1) (set_slideInString false st).
Proof.
  induction s as [|c s IH]; intros rest j st Hs.
  - cbn [json_escape flat_map app length].
    change 34%N with QUOTE. rewrite scan_slides_step by discriminate.
    rewrite slide_step_quote, Hs. f_equal. lia.
  - unfold json_escape in *. cbn [flat_map]. rewrite <- app_assoc.
    rewrite scan_slides_escape_char by exact Hs.
    rewrite IH by exact Hs. rewrite length_app. f_equal. lia.
Qed.

Lemma scan_slides_quoted ss s rest j st :
  SlideScan.slideInString st = false ->
  scan_slides ss (34%N :: json_escape s ++ 34%N :: rest) j st
  = scan_slides ss rest (j + (length (json_escape s) + 2)) st.
Proof.
  intros Hs. change 34%N with QUOTE at 1.
  rewrite scan_slides_step by discriminate.
  rewrite slide_step_quote, Hs. cbn [negb].
  rewrite scan_slides_in_string by reflexivity.
  replace (set_slideInString false (set_slideInString true st)) with st
    by (destruct st; simpl in *; subst; reflexivity).
  f_equal. lia.
Qed.

Lemma scan_slides_key ss (k : jsstring) rest j st :
  json_escape k = k ->
  SlideScan.slideInString st = false ->
  scan_slides ss (34%N :: k ++ 34%N :: rest) j st
  = scan_slides ss rest (j + (length k + 2)) st.
Proof.
  intros Hk Hs. rewrite <- Hk at 1. rewrite scan_slides_quoted by exact Hs.
  rewrite Hk. reflexivity.
Qed.

(** ** The test on a closed slide *)

Lemma get_member_title r :
  get_member (slide_value r) (js "title") = Some (Some (JStr (s_title r))).
Proof. reflexivity. Qed.

Lemma get_member_content r :
  get_member (slide_value r) (js "content") = Some (Some (JStr (s_content r))).
Proof. reflexivity. Qed.

Lemma some_title_eq_records : forall seen t,
  some_title_eq (map slide_value seen) (Some (JStr t)) = Some (title_seen seen t).
Proof.
  induction seen as [|r seen IH]; intros t; [reflexivity|].
  cbn [map some_title_eq]. rewrite get_member_title. cbn [strict_eq].
  unfold title_seen in *. cbn [existsb].
  destruct (str_eqb (s_title r) t); [reflexivity|]. apply IH.
Qed.

(** The [try] block on the text of a slide record. *)
Lemma try_slide_record seen r j lastEnd :
  try_slide (map slide_value seen) (slide_text r) j lastEnd
  = (map slide_value (take_slide seen r),
     if has_fields r then (Z.of_nat j + 1)%Z else lastEnd).
Proof.
  unfold try_slide, take_slide, has_fields.
  rewrite JSON_parse_slide, get_member_title, get_member_content.
  cbn [truthy]. destruct (s_title r) as [|x t] eqn:Ht; [reflexivity|].
  destruct (s_content r) as [|y c] eqn:Hc; [reflexivity|].
  rewrite some_title_eq_records. cbn [andb].
  destruct (title_seen seen (x :: t)); cbn [negb].
  - reflexivity.
  - rewrite map_app. reflexivity.
Qed.

Lemma length_slide_text_eq r :
  length (slide_text r)
  = 25 + length (json_escape (s_title r)) + length (json_escape (s_content r)).
Proof.
  rewrite <- (app_nil_r (slide_text r)), slide_text_app.
  simpl. rewrite !length_app. simpl. rewrite !length_app. simpl. lia.
Qed.

(** The text of a slide up to its closing brace, scanned between two
    slide objects: the object is open, nothing else has changed. *)
Lemma scan_slides_slide_open ss r rest j lastEnd slides :
  scan_slides ss
    (123 :: 34 :: 116 :: 105 :: 116 :: 108 :: 101 :: 34 :: 58 :: 34
     :: json_escape (s_title r)
     ++ 34 :: 44 :: 34 :: 99 :: 111 :: 110 :: 116 :: 101 :: 110 :: 116
     :: 34 :: 58 :: 34
     :: json_escape (s_content r) ++ 34 :: rest)%N j
    (between_slides lastEnd slides)
  = scan_slides ss rest (j + (length (slide_text r) - 1))
      {| SlideScan.slideBraceCount := 1;
         SlideScan.slideInString := false;
         SlideScan.slideStartIndex := Z.of_nat j;
         SlideScan.lastParsedSlideEnd := lastEnd;
         SlideScan.completeSlides := slides |}.
Proof.
  rewrite length_slide_text_eq.
  change 123%N with LBRACE. rewrite scan_slides_step by discriminate.
  set (st1 := slide_step ss j LBRACE (between_slides lastEnd slides)).
  assert (Hst1 : st1 = {| SlideScan.slideBraceCount := 1;
                          SlideScan.slideInString := false;
                          SlideScan.slideStartIndex := Z.of_nat j;
                          SlideScan.lastParsedSlideEnd := lastEnd;
                          SlideScan.completeSlides := slides |}) by reflexivity.
  clearbody st1. subst st1.
  change (34 :: 116 :: 105 :: 116 :: 108 :: 101 :: 34 :: ?x)%N
    with (34%N :: [116; 105; 116; 108; 101]%N ++ 34%N :: x).
  rewrite scan_slides_key by reflexivity.
  rewrite scan_slides_step by discriminate.
  rewrite slide_step_plain by (try discriminate; reflexivity).
  rewrite scan_slides_quoted by reflexivity.
  rewrite scan_slides_step by discriminate.
  rewrite slide_step_plain by (try discriminate; reflexivity).
  change (34 :: 99 :: 111 :: 110 :: 116 :: 101 :: 110 :: 116 :: 34 :: ?x)%N
    with (34%N :: [99; 111; 110; 116; 101; 110; 116]%N ++ 34%N :: x).
  rewrite scan_slides_key by reflexivity.
  rewrite scan_slides_step by discriminate.
  rewrite slide_step_plain by (try discriminate; reflexivity).
  rewrite scan_slides_quoted by reflexivity.
  f_equal. simpl. lia.
Qed.

(** The text of a slide, scanned between two slide objects: the slide
    is put to the test. *)
Lemma scan_slides_slide pre r rest seen lastEnd :
  scan_slides (pre ++ slide_text r ++ rest) (slide_text r ++ rest) (length pre)
    (between_slides lastEnd (map slide_value seen))
  = scan_slides (pre ++ slide_text r ++ rest) rest (length pre + length (slide_text r))
      (between_slides
         (if has_fields r then Z.of_nat (length pre + length (slide_text r))
          else lastEnd)
         (map slide_value (take_slide seen r))).
Proof.
  set (ss := pre ++ slide_text r ++ rest).
  pose proof (length_slide_text r) as Hlen.
  rewrite slide_text_app. rewrite scan_slides_slide_open.
  change 125%N with RBRACE. rewrite scan_slides_step by discriminate.
  f_equal; [lia|].
  unfold slide_step.
  cbn [N.eqb QUOTE LBRACE RBRACE Pos.eqb SlideScan.slideInString
       SlideScan.slideBraceCount SlideScan.slideStartIndex
       SlideScan.lastParsedSlideEnd SlideScan.completeSlides
       Z.sub Z.add Z.opp Z.pos_sub Z.eqb andb].
  destruct (Z.eqb_spec (Z.of_nat (length pre)) (-1)) as [E|_]; [lia|].
  cbn [negb].
  replace (Z.of_nat (length pre + (length (slide_text r) - 1)) + 1)%Z
    with (Z.of_nat (length pre + length (slide_text r))) by lia.
  unfold ss. rewrite substring_middle, try_slide_record.
  replace (Z.of_nat (length pre + (length (slide_text r) - 1)) + 1)%Z
    with (Z.of_nat (length pre + length (slide_text r))) by lia.
  reflexivity.
Qed.

Lemma closed_text_cons r rs :
  closed_text (r :: rs) = slide_text r ++ COMMA :: closed_text rs.
Proof. unfold closed_text. cbn [flat_map]. rewrite <- app_assoc. reflexivity. Qed.

(** The closed slides of an open batch: each is put to the test in
    turn. *)
Lemma scan_slides_closed : forall rs pre rest seen lastEnd,
  scan_slides (pre ++ closed_text rs ++ rest) (closed_text rs ++ rest) (length pre)
    (between_slides lastEnd (map slide_value seen))
  = scan_slides (pre ++ closed_text rs ++ rest) rest
      (length pre + length (closed_text rs))
      (between_slides (last_parsed_end (length pre) lastEnd rs)
         (map slide_value (take_slides seen rs))).
Proof.
  induction rs as [|r rs IH]; intros pre rest seen lastEnd.
  - cbn [closed_text flat_map app length last_parsed_end take_slides fold_left].
    rewrite Nat.add_0_r. reflexivity.
  - rewrite closed_text_cons. rewrite <- !app_assoc. cbn [app].
    rewrite scan_slides_slide.
    rewrite scan_slides_step by discriminate.
    rewrite slide_step_plain by (try discriminate; reflexivity).
    specialize (IH (pre ++ slide_text r ++ [COMMA]) rest (take_slide seen r)
                  (if has_fields r
                   then Z.of_nat (length pre + length (slide_text r))
                   else lastEnd)).
    rewrite <- !app_assoc in IH. cbn [app] in IH.
    rewrite !length_app in IH. cbn [length] in IH.
    replace (length pre + length (slide_text r) + 1)
      with (length pre + (length (slide_text r) + 1)) by lia.
    rewrite IH. cbn [last_parsed_end take_slides fold_left].
    rewrite length_app. cbn [length].
    replace (length pre + length (slide_text r) + 1)
      with (length pre + (length (slide_text r) + 1)) by lia.
    f_equal. lia.
Qed.

(* ================================================================== *)
(** * The scans on a growing text *)
(* ================================================================== *)

(** A substring inside the common prefix of two texts is the same in
    both. *)
Lemma substring_agree n (cs cs' : jsstring) a b :
  firstn n cs = firstn n cs' ->
  (a <= Z.of_nat n)%Z -> (b <= Z.of_nat n)%Z ->
  substring cs a b = substring cs' a b.
Proof.
  intros Hag Ha Hb.
  destruct (Nat.le_gt_cases n (length cs)) as [H1|H1].
  - assert (H2 : n <= length cs').
    { apply (f_equal (@length _)) in Hag. rewrite !length_firstn in Hag. lia. }
    unfold substring, clamp.
    replace (Nat.min (Z.to_nat a) (length cs)) with (Z.to_nat a) by lia.
    replace (Nat.min (Z.to_nat b) (length cs)) with (Z.to_nat b) by lia.
    replace (Nat.min (Z.to_nat a) (length cs')) with (Z.to_nat a) by lia.
    replace (Nat.min (Z.to_nat b) (length cs')) with (Z.to_nat b) by lia.
    set (m := Nat.min (Z.to_nat a) (Z.to_nat b)).
    set (M := Nat.max (Z.to_nat a) (Z.to_nat b)).
    assert (HM : M <= n) by lia. assert (Hm : m <= M) by lia.
    rewrite !firstn_skipn_comm.
    replace (m + (M - m)) with M by lia.
    replace (firstn M cs) with (firstn M (firstn n cs))
      by (rewrite firstn_firstn; f_equal; lia).
    replace (firstn M cs') with (firstn M (firstn n cs'))
      by (rewrite firstn_firstn; f_equal; lia).
    rewrite Hag. reflexivity.
  - assert (E : cs = cs').
    { rewrite (firstn_all2 (n := n) cs) in Hag by lia.
      assert (length cs' < n).
      { apply (f_equal (@length _)) in Hag. rewrite length_firstn in Hag. lia. }
      rewrite firstn_all2 in Hag by lia. exact Hag. }
    rewrite E. reflexivity.
Qed.

Lemma firstn_agree_le n m (cs cs' : jsstring) :
  firstn n cs = firstn n cs' -> m <= n -> firstn m cs = firstn m cs'.
Proof.
  intros H Hm.
  replace (firstn m cs) with (firstn m (firstn n cs))
    by (rewrite firstn_firstn; f_equal; lia).
  replace (firstn m cs') with (firstn m (firstn n cs'))
    by (rewrite firstn_firstn; f_equal; lia).
  rewrite H. reflexivity.
Qed.

(** ** The first scan *)

Lemma batch_later_refl st : batch_later st st.
Proof. split; [exists []; symmetry; apply app_nil_r|lia]. Qed.

Lemma batch_later_trans a b c : batch_later a b -> batch_later b c -> batch_later a c.
Proof.
  intros [[l1 H1] L1] [[l2 H2] L2]. split; [|lia].
  exists (l1 ++ l2). rewrite H2, H1, app_assoc. reflexivity.
Qed.

Lemma batch_within_le i j st : batch_within i st -> i <= j -> batch_within j st.
Proof. intros [H1 H2] Hij. split; lia. Qed.

Lemma batch_step_backslash cs i st : batch_step cs i BACKSLASH st = st.
Proof.
  unfold batch_step. cbn [N.eqb BACKSLASH QUOTE LBRACE RBRACE Pos.eqb].
  destruct st as [d [|] s e l]; reflexivity.
Qed.

(** One turn of the loop adds slides at most, moves the end cursor
    forward at most, and keeps the offsets within the index. *)
Lemma batch_step_later cs i c st :
  batch_within i st ->
  batch_later st (batch_step cs i c st) /\ batch_within (i + 1) (batch_step cs i c st).
Proof.
  intros [Hl Hs]. unfold batch_step, batch_later, batch_within.
  destruct st as [d s0 start e l].
  cbn [BatchScan.braceCount BatchScan.inString BatchScan.currentObjectStartIndex
       BatchScan.lastValidBatchEndIndex BatchScan.completeSlides] in *.
  destruct (if (c =? QUOTE)%N then negb s0 else s0).
  { cbn. split; [split; [exists []; symmetry; apply app_nil_r|lia]|split; lia]. }
  destruct (c =? LBRACE)%N.
  { cbn. split; [split; [exists []; symmetry; apply app_nil_r|lia]|].
    destruct (d =? 0)%Z; split; lia. }
  destruct (c =? RBRACE)%N.
  2:{ cbn. split; [split; [exists []; symmetry; apply app_nil_r|lia]|split; lia]. }
  destruct ((d - 1 =? 0)%Z && negb (start =? -1)%Z).
  2:{ cbn. split; [split; [exists []; symmetry; apply app_nil_r|lia]|split; lia]. }
  destruct (JSON_parse _) as [batch|].
  - cbn. split; [split; [eexists; reflexivity|lia]|split; lia].
  - cbn. split; [split; [exists []; symmetry; apply app_nil_r|lia]|split; lia].
Qed.

Lemma scan_batches_later cs : forall n rest i st,
  length rest <= n ->
  batch_within i st ->
  batch_later st (scan_batches cs rest i st).
Proof.
  induction n as [|n IH]; intros rest i st Hn Hw.
  - destruct rest; [apply batch_later_refl|simpl in Hn; lia].
  - destruct rest as [|c rest]; [apply batch_later_refl|].
    destruct (N.eqb_spec c BACKSLASH) as [->|Hc].
    + destruct rest as [|d rest].
      * cbn [scan_batches]. rewrite batch_step_backslash. apply batch_later_refl.
      * rewrite scan_batches_escape. apply IH; [simpl in Hn; lia|].
        eapply batch_within_le; [exact Hw|lia].
    + rewrite scan_batches_step by exact Hc.
      destruct (batch_step_later cs i c st Hw) as [Hl Hw'].
      eapply batch_later_trans; [exact Hl|].
      apply IH; [simpl in Hn; lia|exact Hw'].
Qed.

Lemma batch_step_agree n cs cs' i c st :
  firstn n cs = firstn n cs' -> i + 1 <= n -> batch_within i st ->
  batch_step cs i c st = batch_step cs' i c st.
Proof.
  intros Hag Hi [_ Hs]. unfold batch_step.
  rewrite (substring_agree n cs cs' _ _ Hag) by lia. reflexivity.
Qed.

(** The scan of a text that is cut short is an earlier state of the
    scan of the whole text. *)
Lemma scan_batches_prefix cs cs' : forall n X Y i st,
  length X <= n ->
  firstn (i + length X) cs = firstn (i + length X) cs' ->
  batch_within i st ->
  batch_later (scan_batches cs' X i st) (scan_batches cs (X ++ Y) i st).
Proof.
  induction n as [|n IH]; intros X Y i st Hn Hag Hw.
  - destruct X; [|simpl in Hn; lia]. cbn [app scan_batches].
    apply (scan_batches_later cs (length Y)); [lia|exact Hw].
  - destruct X as [|c X].
    { cbn [app scan_batches].
      apply (scan_batches_later cs (length Y)); [lia|exact Hw]. }
    destruct (N.eqb_spec c BACKSLASH) as [->|Hc].
    + destruct X as [|d X].
      * cbn [scan_batches]. rewrite batch_step_backslash. cbn [app].
        apply (scan_batches_later cs (S (length Y))); [simpl; lia|exact Hw].
      * cbn [app]. rewrite !scan_batches_escape.
        apply IH; [simpl in Hn; lia| |eapply batch_within_le; [exact Hw|lia]].
        cbn [length] in Hag.
        replace (i + 2 + length X) with (i + S (S (length X))) by lia. exact Hag.
    + cbn [app]. rewrite !scan_batches_step by exact Hc.
      rewrite (batch_step_agree (i + length (c :: X)) cs cs' i c st Hag)
        by (cbn [length]; try lia; exact Hw).
      destruct (batch_step_later cs' i c st Hw) as [_ Hw'].
      apply IH; [simpl in Hn; lia| |exact Hw'].
      cbn [length] in Hag.
      replace (i + 1 + length X) with (i + S (length X)) by lia. exact Hag.
Qed.

(** ** The second scan *)

Lemma slide_later_refl st : slide_later st st.
Proof. split; [exists []; symmetry; apply app_nil_r|lia]. Qed.

Lemma slide_later_trans a b c : slide_later a b -> slide_later b c -> slide_later a c.
Proof.
  intros [[l1 H1] L1] [[l2 H2] L2]. split; [|lia].
  exists (l1 ++ l2). rewrite H2, H1, app_assoc. reflexivity.
Qed.

Lemma slide_within_le i j st : slide_within i st -> i <= j -> slide_within j st.
Proof. intros [H1 H2] Hij. split; lia. Qed.

(** The [try] block adds one slide at most and moves the end offset to
    the index after the slide at most. *)
Lemma try_slide_later slides str j lastEnd :
  (lastEnd <= Z.of_nat j)%Z ->
  (exists l, fst (try_slide slides str j lastEnd) = slides ++ l /\ length l <= 1)
  /\ (lastEnd <= snd (try_slide slides str j lastEnd) <= Z.of_nat j + 1)%Z.
Proof.
  intros Hl. unfold try_slide.
  assert (Hsame : (exists l : list json, slides = slides ++ l /\ length l <= 1)
                  /\ (lastEnd <= lastEnd <= Z.of_nat j + 1)%Z).
  { split; [exists []; split; [symmetry; apply app_nil_r|simpl; lia]|lia]. }
  destruct (JSON_parse str) as [slide|]; [|exact Hsame].
  destruct (get_member slide (js "title")) as [title|]; [|exact Hsame].
  destruct (truthy title); [|exact Hsame].
  destruct (get_member slide (js "content")) as [content|]; [|exact Hsame].
  destruct (truthy content); [|exact Hsame].
  destruct (some_title_eq slides title) as [[|]|]; [| |exact Hsame]; cbn [fst snd].
  - split; [exists []; split; [symmetry; apply app_nil_r|simpl; lia]|lia].
  - split; [exists [slide]; split; [reflexivity|simpl; lia]|lia].
Qed.

Lemma slide_step_later ss j c st :
  slide_within j st ->
  slide_later st (slide_step ss j c st) /\ slide_within (j + 1) (slide_step ss j c st)
  /\ length (SlideScan.completeSlides (slide_step ss j c st))
     <= length (SlideScan.completeSlides st)
        + (if N.eqb c RBRACE then 1 else 0).
Proof.
  intros [Hl Hs]. unfold slide_step, slide_later, slide_within.
  destruct st as [d s0 start e l].
  cbn [SlideScan.slideBraceCount SlideScan.slideInString SlideScan.slideStartIndex
       SlideScan.lastParsedSlideEnd SlideScan.completeSlides] in *.
  destruct (if (c =? QUOTE)%N then negb s0 else s0).
  { cbn. split; [split; [exists []; symmetry; apply app_nil_r|lia]|split; [split; lia|lia]]. }
  destruct (N.eqb_spec c LBRACE) as [->|Hc].
  { cbn. split; [split; [exists []; symmetry; apply app_nil_r|lia]|].
    split; [destruct (d =? 0)%Z; split; lia|lia]. }
  destruct (c =? RBRACE)%N.
  2:{ cbn. split; [split; [exists []; symmetry; apply app_nil_r|lia]|split; [split; lia|lia]]. }
  destruct ((d - 1 =? 0)%Z && negb (start =? -1)%Z).
  2:{ cbn. split; [split; [exists []; symmetry; apply app_nil_r|lia]|split; [split; lia|lia]]. }
  destruct (try_slide_later l (substring ss start (Z.of_nat j + 1)) j e Hl)
    as [[l' [H1 Hlen]] H2].
  destruct (try_slide l _ j e) as [slides' lastEnd'].
  cbn [fst snd] in *. cbn.
  split; [split; [exists l'; exact H1|lia]|].
  split; [split; lia|]. rewrite H1, length_app. lia.
Qed.

Lemma scan_slides_later ss : forall n rest j st,
  length rest <= n ->
  slide_within j st ->
  slide_later st (scan_slides ss rest j st).
Proof.
  induction n as [|n IH]; intros rest j st Hn Hw.
  - destruct rest; [apply slide_later_refl|simpl in Hn; lia].
  - destruct rest as [|c rest]; [apply slide_later_refl|].
    destruct (N.eqb_spec c BACKSLASH) as [->|Hc].
    + destruct rest as [|d rest].
      * apply slide_later_refl.
      * rewrite scan_slides_escape. apply IH; [simpl in Hn; lia|].
        eapply slide_within_le; [exact Hw|lia].
    + rewrite scan_slides_step by exact Hc.
      destruct (slide_step_later ss j c st Hw) as [Hl [Hw' _]].
      eapply slide_later_trans; [exact Hl|].
      apply IH; [simpl in Hn; lia|exact Hw'].
Qed.

Lemma slide_step_agree n ss ss' j c st :
  firstn n ss = firstn n ss' -> j + 1 <= n -> slide_within j st ->
  slide_step ss j c st = slide_step ss' j c st.
Proof.
  intros Hag Hi [_ Hs]. unfold slide_step.
  rewrite (substring_agree n ss ss' _ _ Hag) by lia. reflexivity.
Qed.

Lemma scan_slides_prefix ss ss' : forall n X Y j st,
  length X <= n ->
  firstn (j + length X) ss = firstn (j + length X) ss' ->
  slide_within j st ->
  slide_later (scan_slides ss' X j st) (scan_slides ss (X ++ Y) j st).
Proof.
  induction n as [|n IH]; intros X Y j st Hn Hag Hw.
  - destruct X; [|simpl in Hn; lia]. cbn [app scan_slides].
    apply (scan_slides_later ss (length Y)); [lia|exact Hw].
  - destruct X as [|c X].
    { cbn [app scan_slides].
      apply (scan_slides_later ss (length Y)); [lia|exact Hw]. }
    destruct (N.eqb_spec c BACKSLASH) as [->|Hc].
    + destruct X as [|d X].
      * cbn [app].
        change (scan_slides ss' [BACKSLASH] j st) with st.
        apply (scan_slides_later ss (S (length Y))); [simpl; lia|exact Hw].
      * cbn [app]. rewrite !scan_slides_escape.
        apply IH; [simpl in Hn; lia| |eapply slide_within_le; [exact Hw|lia]].
        cbn [length] in Hag.
        replace (j + 2 + length X) with (j + S (S (length X))) by lia. exact Hag.
    + cbn [app]. rewrite !scan_slides_step by exact Hc.
      rewrite (slide_step_agree (j + length (c :: X)) ss ss' j c st Hag)
        by (cbn [length]; try lia; exact Hw).
      destruct (slide_step_later ss' j c st Hw) as [_ [Hw' _]].
      apply IH; [simpl in Hn; lia| |exact Hw'].
      cbn [length] in Hag.
      replace (j + 1 + length X) with (j + S (length X)) by lia. exact Hag.
Qed.

(* ================================================================== *)
(** * The parser on a stream that is cut inside a batch *)
(* ================================================================== *)

(** The text of a batch up to its closing brace, scanned between two
    top-level objects: the object is open, nothing else has changed. *)
Lemma scan_batches_batch_open cs b rest i lastEnd slides :
  scan_batches cs
    (123 :: 34 :: 115 :: 108 :: 105 :: 100 :: 101 :: 115 :: 34 :: 58 :: 91
     :: slides_text b ++ 93 :: rest)%N i (between_batches lastEnd slides)
  = scan_batches cs rest (i + (length (batch_text b) - 1))
      {| BatchScan.braceCount := 1;
         BatchScan.inString := false;
         BatchScan.currentObjectStartIndex := Z.of_nat i;
         BatchScan.lastValidBatchEndIndex := lastEnd;
         BatchScan.completeSlides := slides |}.
Proof.
  rewrite length_batch_text.
  change 123%N with LBRACE. rewrite scan_batches_step by discriminate.
  set (st1 := batch_step cs i LBRACE (between_batches lastEnd slides)).
  assert (Hst1 : st1 = {| BatchScan.braceCount := 1;
                          BatchScan.inString := false;
                          BatchScan.currentObjectStartIndex := Z.of_nat i;
                          BatchScan.lastValidBatchEndIndex := lastEnd;
                          BatchScan.completeSlides := slides |}) by reflexivity.
  clearbody st1. subst st1.
  change (34 :: 115 :: 108 :: 105 :: 100 :: 101 :: 115 :: 34 :: ?x)%N
    with (34%N :: [115; 108; 105; 100; 101; 115]%N ++ 34%N :: x).
  rewrite scan_batches_key by reflexivity.
  rewrite scan_batches_step by discriminate.
  rewrite batch_step_plain by (try discriminate; reflexivity).
  rewrite scan_batches_step by discriminate.
  rewrite batch_step_plain by (try discriminate; reflexivity).
  rewrite scan_batches_slides by (simpl; try reflexivity; lia).
  rewrite scan_batches_step by discriminate.
  rewrite batch_step_plain by (try discriminate; reflexivity).
  f_equal. simpl. lia.
Qed.

Lemma extends_both {A : Type} (a b : list A) :
  (exists l, b = a ++ l) -> (exists l, a = b ++ l) -> b = a.
Proof.
  intros [l1 H1] [l2 H2].
  assert (length l1 = 0).
  { apply (f_equal (@length _)) in H1, H2. rewrite length_app in H1, H2. lia. }
  destruct l1; [|discriminate]. rewrite app_nil_r in H1. exact H1.
Qed.

(** A text that stops inside a batch, before its closing brace. *)
Lemma cut_before_last {A : Type} (q y t : list A) (x : A) :
  q ++ y = t ++ [x] -> y <> [] -> exists y', t = q ++ y'.
Proof.
  intros H Hy. destruct (exists_last Hy) as [y' [z Hz]]. subst y.
  rewrite app_assoc in H. apply app_inj_tail in H. destruct H as [H _].
  exists y'. symmetry. exact H.
Qed.

(** Phase 1 on complete batches followed by the beginning of a batch:
    the slides of the complete batches, and the end cursor after the
    last of them. *)
Lemma scan_batches_truncated done b q y :
  batch_text b = q ++ y -> y <> [] ->
  let P := stream_text done ++ q in
  BatchScan.completeSlides (scan_batches P P 0 batch_init)
  = map slide_value (concat done)
  /\ BatchScan.lastValidBatchEndIndex (scan_batches P P 0 batch_init)
     = Z.of_nat (length (stream_text done)).
Proof.
  intros Hq Hy P.
  pose proof (scan_batches_stream done [] q []) as H1.
  cbn [app length Nat.add] in H1. fold P in H1.
  change (between_batches (Z.of_nat 0) []) with batch_init in H1.
  set (D := stream_text done) in *.
  set (st := between_batches (Z.of_nat (length D)) (map slide_value (concat done))) in *.
  rewrite H1.
  assert (Hw : batch_within (length D) st) by (split; simpl; lia).
  pose proof (scan_batches_later P (length q) q (length D) st (le_n _) Hw) as [Hlo1 Hlo2].
  destruct (batch_text_last b) as [t Ht].
  rewrite Ht in Hq. symmetry in Hq.
  destruct (cut_before_last q y t 125%N Hq Hy) as [y' Hy'].
  pose proof (scan_batches_prefix (D ++ t) P (length q) q y' (length D) st (le_n _)) as Hup.
  assert (Hag : firstn (length D + length q) (D ++ t)
                = firstn (length D + length q) P).
  { unfold P. rewrite Hy', app_assoc.
    rewrite <- length_app, firstn_app, Nat.sub_diag, !firstn_all. cbn [firstn].
    apply app_nil_r. }
  specialize (Hup Hag Hw). rewrite <- Hy' in Hup.
  assert (Hfull : scan_batches (D ++ t) t (length D) st
                  = {| BatchScan.braceCount := 1;
                       BatchScan.inString := false;
                       BatchScan.currentObjectStartIndex := Z.of_nat (length D);
                       BatchScan.lastValidBatchEndIndex := Z.of_nat (length D);
                       BatchScan.completeSlides := map slide_value (concat done) |}).
  { assert (Et : t = (123 :: 34 :: 115 :: 108 :: 105 :: 100 :: 101 :: 115 :: 34
                       :: 58 :: 91 :: slides_text b ++ [93])%N).
    { pose proof (batch_text_app b []) as Hb. rewrite app_nil_r, Ht in Hb.
      replace (slides_text b ++ [93; 125]%N)
        with ((slides_text b ++ [93%N]) ++ [125%N]) in Hb
        by (rewrite <- app_assoc; reflexivity).
      change (123 :: 34 :: 115 :: 108 :: 105 :: 100 :: 101 :: 115 :: 34 :: 58 :: 91
              :: (slides_text b ++ [93]) ++ [125])%N
        with ((123 :: 34 :: 115 :: 108 :: 105 :: 100 :: 101 :: 115 :: 34 :: 58 :: 91
              :: slides_text b ++ [93])%N ++ [125%N]) in Hb.
      apply app_inj_tail in Hb. apply Hb. }
    rewrite Et at 2. unfold st. rewrite scan_batches_batch_open. reflexivity. }
  rewrite Hfull in Hup. destruct Hup as [Hup1 Hup2].
  cbn [BatchScan.completeSlides BatchScan.lastValidBatchEndIndex] in Hup1, Hup2.
  destruct Hlo1 as [l1 Hl1]. destruct Hup1 as [l2 Hl2].
  split.
  - apply extends_both; [exists l1; exact Hl1|exists l2; exact Hl2].
  - assert (E : BatchScan.lastValidBatchEndIndex st = Z.of_nat (length D))
      by reflexivity.
    lia.
Qed.

Lemma substring_from_app (a b : jsstring) :
  substring_from (a ++ b) (Z.of_nat (length a)) = b.
Proof.
  unfold substring_from, clamp. rewrite Nat2Z.id, length_app.
  replace (Nat.min (length a) (length a + length b)) with (length a) by lia.
  rewrite skipn_app, skipn_all, Nat.sub_diag. reflexivity.
Qed.

(** Before the bracket of the slides array has arrived the pattern of
    the array has no match. *)
Lemma regex_search_slides_short k :
  k < 11 ->
  regex_search (match_key_open (js "slides") LBRACKET) (firstn k SLIDES_OPEN) 0 = None.
Proof.
  intros Hk.
  do 11 (destruct k as [|k]; [vm_compute; reflexivity|]). lia.
Qed.

(** Once it has arrived the match is the key of the open batch. *)
Lemma regex_search_slides_open q :
  regex_search (match_key_open (js "slides") LBRACKET) (SLIDES_OPEN ++ q) 0
  = Some (1, 10).
Proof. reflexivity. Qed.

Lemma batch_text_open b : batch_text b = SLIDES_OPEN ++ slides_text b ++ js "]}".
Proof. reflexivity. Qed.

(** The parser on complete batches followed by the beginning of a batch
    in which the slides array is not open yet. *)
Lemma parsePhases_before_array done b k flag :
  k < 11 ->
  parsePhases (stream_text done ++ firstn k (batch_text b)) flag
  = {| completeSlides := map slide_value (concat done); inProgressHtml := [] |}.
Proof.
  intros Hk.
  assert (Hq : batch_text b = firstn k (batch_text b) ++ skipn k (batch_text b))
    by (symmetry; apply firstn_skipn).
  assert (Hy : skipn k (batch_text b) <> []).
  { intros E. apply (f_equal (@length _)) in E. rewrite length_skipn in E.
    rewrite length_batch_text in E. cbn [length] in E. lia. }
  destruct (scan_batches_truncated done b _ _ Hq Hy) as [Hs Hl].
  unfold parsePhases. rewrite Hs, Hl, substring_from_app.
  rewrite batch_text_open, firstn_app.
  replace (k - length SLIDES_OPEN) with 0 by (simpl; lia).
  cbn [firstn]. rewrite app_nil_r, regex_search_slides_short by exact Hk.
  reflexivity.
Qed.

(** The parser on complete batches followed by a batch that is cut
    inside its slides array: the second scan runs on what has arrived of
    the array. *)
Lemma parsePhases_inside_array done b q' y flag :
  slides_text b ++ js "]}" = q' ++ y -> y <> [] ->
  parsePhases (stream_text done ++ SLIDES_OPEN ++ q') flag
  = let p2 := scan_slides q' q' 0 (slide_init (map slide_value (concat done))) in
    {| completeSlides := SlideScan.completeSlides p2;
       inProgressHtml :=
         if flag then []
         else extractInProgress
                (substring_from q' (SlideScan.lastParsedSlideEnd p2)) |}.
Proof.
  intros Hq Hy.
  assert (Hq' : batch_text b = (SLIDES_OPEN ++ q') ++ y).
  { rewrite batch_text_open, Hq, app_assoc. reflexivity. }
  destruct (scan_batches_truncated done b _ _ Hq' Hy) as [Hs Hl].
  unfold parsePhases. rewrite Hs, Hl, substring_from_app.
  rewrite regex_search_slides_open.
  change (Z.of_nat (1 + 10)) with (Z.of_nat (length SLIDES_OPEN)).
  rewrite substring_from_app. reflexivity.
Qed.

(* ================================================================== *)
(** * The number of slides on a growing buffer *)
(* ================================================================== *)

Lemma firstn_le_split {A : Type} (n m : nat) (l : list A) :
  n <= m -> firstn m l = firstn n l ++ firstn (m - n) (skipn n l).
Proof.
  intros H. rewrite <- (firstn_skipn n l) at 1.
  rewrite firstn_app, firstn_firstn, length_firstn.
  replace (Nat.min m n) with n by lia.
  destruct (Nat.le_gt_cases n (length l)).
  - replace (Nat.min n (length l)) with n by lia. reflexivity.
  - rewrite skipn_all2 by lia. rewrite !firstn_nil. reflexivity.
Qed.

Lemma slide_init_within slides : slide_within 0 (slide_init slides).
Proof. split; simpl; lia. Qed.

Lemma batch_init_within : batch_within 0 batch_init.
Proof. split; simpl; lia. Qed.

(** The parser returns at least the slides of the complete batches the
    buffer starts with. *)
Lemma parsePhases_at_least done x flag :
  length (concat done)
  <= length (completeSlides (parsePhases (stream_text done ++ x) flag)).
Proof.
  unfold parsePhases.
  pose proof (scan_batches_stream done [] x []) as H1.
  cbn [app length Nat.add] in H1.
  change (between_batches (Z.of_nat 0) []) with batch_init in H1.
  set (P := stream_text done ++ x) in *.
  rewrite H1.
  set (st := between_batches _ _).
  assert (Hw : batch_within (length (stream_text done)) st) by (split; simpl; lia).
  destruct (scan_batches_later P (length x) x _ st (le_n _) Hw) as [[l Hl] _].
  set (p1 := scan_batches P x (length (stream_text done)) st) in *.
  assert (Hp1 : length (concat done) <= length (BatchScan.completeSlides p1)).
  { rewrite Hl. unfold st. cbn [BatchScan.completeSlides between_batches].
    rewrite length_app, length_map. lia. }
  destruct (regex_search _ _ 0) as [[index len]|]; cbn [completeSlides]; [|exact Hp1].
  set (ss := substring_from _ _).
  destruct (scan_slides_later ss (length ss) ss 0
              (slide_init (BatchScan.completeSlides p1)) (le_n _)
              (slide_init_within _)) as [[l' Hl'] _].
  rewrite Hl'. cbn [SlideScan.completeSlides slide_init].
  rewrite length_app. lia.
Qed.

Lemma slides_text_snoc : forall rs r,
  slides_text (rs ++ [r]) = closed_text rs ++ slide_text r.
Proof.
  induction rs as [|r0 rs IH]; intros r; [reflexivity|].
  rewrite closed_text_cons. cbn [app]. rewrite slides_text_cons.
  destruct (rs ++ [r]) eqn:E; [destruct rs; discriminate|].
  rewrite <- E, IH, <- app_assoc. reflexivity.
Qed.

Lemma take_slides_snoc seen rs r :
  take_slides seen (rs ++ [r]) = take_slide (take_slides seen rs) r.
Proof. unfold take_slides. rewrite fold_left_app. reflexivity. Qed.

Lemma length_take_slide seen r : length (take_slide seen r) <= length seen + 1.
Proof.
  unfold take_slide. destruct (_ && _); [rewrite length_app; simpl|]; lia.
Qed.

Lemma length_take_slides : forall rs seen,
  length (take_slides seen rs) <= length seen + length rs.
Proof.
  induction rs as [|r rs IH]; intros seen; [simpl; lia|].
  unfold take_slides in *. cbn [fold_left length].
  pose proof (IH (take_slide seen r)). pose proof (length_take_slide seen r). lia.
Qed.

(** The second scan on the whole slides array of a batch. *)
Lemma scan_slides_whole_array b seen :
  SlideScan.completeSlides
    (scan_slides (slides_text b ++ js "]}") (slides_text b ++ js "]}") 0
       (slide_init (map slide_value seen)))
  = map slide_value (take_slides seen b).
Proof.
  destruct b as [|r0 b']; [reflexivity|].
  destruct (@exists_last _ (r0 :: b')) as [rs [r E]]; [discriminate|].
  rewrite E. clear E r0 b'.
  - rewrite slides_text_snoc, take_slides_snoc. rewrite <- app_assoc.
    pose proof (scan_slides_closed rs [] (slide_text r ++ js "]}") seen 0) as H1.
    cbn [app length Nat.add] in H1.
    change (between_slides 0 (map slide_value seen))
      with (slide_init (map slide_value seen)) in H1.
    rewrite H1.
    pose proof (scan_slides_slide (closed_text rs) r (js "]}") (take_slides seen rs)
                  (last_parsed_end 0 0 rs)) as H2.
    rewrite H2. reflexivity.
Qed.

(** A batch cut after the bracket of its slides array. *)
Lemma batch_text_cut b k :
  11 <= k -> k < length (batch_text b) ->
  firstn k (batch_text b)
  = SLIDES_OPEN ++ firstn (k - 11) (slides_text b ++ js "]}")
  /\ skipn (k - 11) (slides_text b ++ js "]}") <> [].
Proof.
  intros H1 H2. split.
  - rewrite batch_text_open. rewrite firstn_app.
    rewrite firstn_all2 by (simpl; lia). reflexivity.
  - intros E. apply (f_equal (@length _)) in E. rewrite length_skipn in E.
    rewrite batch_text_open, length_app in H2. cbn [length] in E, H2.
    change (length SLIDES_OPEN) with 11 in H2. lia.
Qed.

(** Within one batch, more of the text gives at least as many slides. *)
Lemma parsePhases_same_batch done b k1 k2 f1 f2 :
  k1 <= k2 -> k2 < length (batch_text b) ->
  length (completeSlides (parsePhases (stream_text done ++ firstn k1 (batch_text b)) f1))
  <= length (completeSlides (parsePhases (stream_text done ++ firstn k2 (batch_text b)) f2)).
Proof.
  intros H12 H2.
  destruct (Nat.lt_ge_cases k1 11) as [Hk|Hk].
  - rewrite parsePhases_before_array by exact Hk. cbn [completeSlides].
    rewrite length_map. apply parsePhases_at_least.
  - destruct (batch_text_cut b k1 Hk) as [E1 Y1]; [lia|].
    destruct (batch_text_cut b k2) as [E2 Y2]; [lia|lia|].
    rewrite E1, E2.
    rewrite (parsePhases_inside_array done b _ _ f1
               (eq_sym (firstn_skipn (k1 - 11) _)) Y1).
    rewrite (parsePhases_inside_array done b _ _ f2
               (eq_sym (firstn_skipn (k2 - 11) _)) Y2).
    cbn [completeSlides].
    set (full := slides_text b ++ js "]}").
    set (st := slide_init (map slide_value (concat done))).
    assert (Hsplit : firstn (k2 - 11) full
                     = firstn (k1 - 11) full
                       ++ firstn (k2 - 11 - (k1 - 11)) (skipn (k1 - 11) full))
      by (apply firstn_le_split; lia).
    set (q1 := firstn (k1 - 11) full) in *.
    set (y := firstn (k2 - 11 - (k1 - 11)) (skipn (k1 - 11) full)) in *.
    pose proof (scan_slides_prefix (q1 ++ y) q1 (length q1) q1 y 0 st (le_n _)) as Hp.
    rewrite Hsplit.
    destruct Hp as [[l Hl] _].
    + cbn [Nat.add]. rewrite firstn_app, Nat.sub_diag, !firstn_all. cbn [firstn].
      apply app_nil_r.
    + apply slide_init_within.
    + rewrite Hl, length_app. lia.
Qed.

(** A batch that is cut gives no more slides than it holds. *)
Lemma parsePhases_batch_bound done b k f :
  k < length (batch_text b) ->
  length (completeSlides (parsePhases (stream_text done ++ firstn k (batch_text b)) f))
  <= length (concat done) + length b.
Proof.
  intros H2.
  destruct (Nat.lt_ge_cases k 11) as [Hk|Hk].
  - rewrite parsePhases_before_array by exact Hk. cbn [completeSlides].
    rewrite length_map. lia.
  - destruct (batch_text_cut b k Hk H2) as [E1 Y1]. rewrite E1.
    rewrite (parsePhases_inside_array done b _ _ f
               (eq_sym (firstn_skipn (k - 11) _)) Y1).
    cbn [completeSlides].
    set (full := slides_text b ++ js "]}") in *.
    set (st := slide_init (map slide_value (concat done))).
    set (q1 := firstn (k - 11) full).
    pose proof (scan_slides_prefix full q1 (length q1) q1 (skipn (k - 11) full)
                  0 st (le_n _)) as Hp.
    destruct Hp as [[l Hl] _].
    + cbn [Nat.add]. unfold q1. rewrite firstn_all, length_firstn.
      f_equal. rewrite length_batch_text in H2. unfold full.
      rewrite length_app. cbn [length js list_ascii_of_string map]. lia.
    + apply slide_init_within.
    + unfold q1 in Hl. rewrite firstn_skipn in Hl. unfold full, st in Hl.
      rewrite scan_slides_whole_array in Hl.
      apply (f_equal (@length _)) in Hl.
      rewrite length_map, length_app in Hl.
      pose proof (length_take_slides b (concat done)).
      unfold q1, st, full. lia.
Qed.

Lemma parsePhases_complete bs flag :
  parsePhases (stream_text bs) flag
  = {| completeSlides := map slide_value (concat bs); inProgressHtml := [] |}.
Proof.
  unfold parsePhases. rewrite scan_batches_whole_stream.
  cbn [BatchScan.lastValidBatchEndIndex BatchScan.completeSlides between_batches].
  rewrite substring_from_end. reflexivity.
Qed.

Lemma stream_text_snoc done b :
  stream_text (done ++ [b]) = stream_text done ++ batch_text b.
Proof.
  unfold stream_text. rewrite map_app, concat_app. cbn [map concat].
  rewrite app_nil_r. reflexivity.
Qed.

Lemma firstn_app_short {A : Type} (k : nat) (t r : list A) :
  k <= length t -> firstn k (t ++ r) = firstn k t.
Proof.
  intros H. rewrite firstn_app. replace (k - length t) with 0 by lia.
  cbn [firstn]. apply app_nil_r.
Qed.

Lemma firstn_app_long {A : Type} (k : nat) (t r : list A) :
  length t <= k -> firstn k (t ++ r) = t ++ firstn (k - length t) r.
Proof.
  intros H. rewrite firstn_app, firstn_all2 by lia. reflexivity.
Qed.

(** On the beginnings of a stream of batches, a longer beginning gives
    at least as many slides. *)
Lemma parsePhases_prefix_mono : forall rest done k1 k2 f1 f2,
  k1 <= k2 ->
  length (completeSlides
            (parsePhases (stream_text done ++ firstn k1 (stream_text rest)) f1))
  <= length (completeSlides
               (parsePhases (stream_text done ++ firstn k2 (stream_text rest)) f2)).
Proof.
  induction rest as [|b rest IH]; intros done k1 k2 f1 f2 H12.
  - cbn [stream_text map concat]. rewrite !firstn_nil, app_nil_r.
    rewrite !parsePhases_complete. cbn [completeSlides]. lia.
  - rewrite stream_text_cons.
    destruct (Nat.lt_ge_cases k2 (length (batch_text b))) as [Hk2|Hk2].
    + rewrite !firstn_app_short by lia.
      apply parsePhases_same_batch; assumption.
    + destruct (Nat.lt_ge_cases k1 (length (batch_text b))) as [Hk1|Hk1].
      * rewrite (firstn_app_short k1) by lia.
        rewrite (firstn_app_long k2) by lia.
        rewrite (app_assoc (stream_text done)), <- stream_text_snoc.
        pose proof (parsePhases_batch_bound done b k1 f1 Hk1) as Hlo.
        pose proof (parsePhases_at_least (done ++ [b])
                      (firstn (k2 - length (batch_text b)) (stream_text rest)) f2)
          as Hhi.
        rewrite concat_app, length_app in Hhi. cbn [concat length] in Hhi.
        rewrite app_nil_r in Hhi. lia.
      * rewrite !firstn_app_long by lia.
        rewrite !(app_assoc (stream_text done)), <- stream_text_snoc.
        apply IH. lia.
Qed.

(** ** White space at the end of the buffer *)

Lemma length_trim_start : forall s, length (trim_start s) <= length s.
Proof.
  induction s as [|c s IH]; [simpl; lia|].
  cbn [trim_start]. destruct (is_js_space c); cbn [length]; lia.
Qed.

Lemma trim_start_suffix : forall s, exists w, s = w ++ trim_start s.
Proof.
  induction s as [|c s [w IH]]; [exists []; reflexivity|].
  cbn [trim_start]. destruct (is_js_space c).
  - exists (c :: w). cbn [app]. f_equal. exact IH.
  - exists []. reflexivity.
Qed.

Lemma length_trim_start_app : forall a b,
  length (trim_start b) <= length (trim_start (a ++ b)).
Proof.
  induction a as [|c a IH]; intros b; [simpl; lia|].
  cbn [app trim_start]. destruct (is_js_space c); [apply IH|].
  cbn [length]. rewrite length_app. pose proof (length_trim_start b). lia.
Qed.

(** [trim_end] keeps a beginning of the text. *)
Lemma trim_end_prefix s : trim_end s = firstn (length (trim_end s)) s.
Proof.
  unfold trim_end. destruct (trim_start_suffix (rev s)) as [w Hw].
  assert (E : s = rev (trim_start (rev s)) ++ rev w).
  { rewrite <- rev_app_distr, <- Hw, rev_involutive. reflexivity. }
  rewrite E at 3. rewrite firstn_app, Nat.sub_diag, firstn_all. cbn [firstn].
  symmetry. apply app_nil_r.
Qed.

Lemma length_trim_end_mono (s e : jsstring) :
  length (trim_end s) <= length (trim_end (s ++ e)).
Proof.
  unfold trim_end. rewrite !length_rev, rev_app_distr.
  apply length_trim_start_app.
Qed.

(** The cleaning step on a beginning of a text without backticks that
    starts with a brace: a beginning of the text, which grows with the
    buffer. *)
Lemma trim_prefix_brace (t : jsstring) n :
  trim (firstn n (123%N :: t)) = trim_end (firstn n (123%N :: t)).
Proof.
  unfold trim. destruct n; reflexivity.
Qed.

Lemma length_trim_end s : length (trim_end s) <= length s.
Proof.
  unfold trim_end. rewrite length_rev.
  pose proof (length_trim_start (rev s)) as H. rewrite length_rev in H. exact H.
Qed.

Lemma no_backtick_firstn n s : no_backtick s = true -> no_backtick (firstn n s) = true.
Proof.
  intros H. rewrite <- (firstn_skipn n s) in H.
  apply no_backtick_app in H. apply H.
Qed.

(* ================================================================== *)
(** * The buffer that is cut inside the content of a slide *)
(* ================================================================== *)

(** ** The key of the content *)

Lemma regex_search_miss m c s idx :
  m (c :: s) = None -> regex_search m (c :: s) idx = regex_search m s (S idx).
Proof. intros H. cbn [regex_search]. rewrite H. reflexivity. Qed.

Lemma quotes_escaped_app : forall a b prev,
  quotes_escaped prev a = true ->
  (forall prev', quotes_escaped prev' b = true) ->
  quotes_escaped prev (a ++ b) = true.
Proof.
  induction a as [|c a IH]; intros b prev Ha Hb; [apply Hb|].
  cbn [app quotes_escaped] in *. apply andb_true_iff in Ha.
  destruct Ha as [H1 H2]. rewrite H1. apply IH; assumption.
Qed.

Lemma quotes_escaped_escape_char c prev :
  quotes_escaped prev (escape_char c) = true.
Proof.
  unfold escape_char.
  destruct (N.eqb_spec c 34) as [->|H34]; [reflexivity|].
  destruct (N.eqb_spec c 92) as [->|H92]; [reflexivity|].
  destruct (N.eqb_spec c 8) as [->|H8]; [reflexivity|].
  destruct (N.eqb_spec c 12) as [->|H12]; [reflexivity|].
  destruct (N.eqb_spec c 10) as [->|H10]; [reflexivity|].
  destruct (N.eqb_spec c 13) as [->|H13]; [reflexivity|].
  destruct (N.eqb_spec c 9) as [->|H9]; [reflexivity|].
  destruct (N.ltb_spec c 32) as [Hlt|Hge].
  - destruct c as [|p]; [reflexivity|].
    do 5 (try destruct p as [p|p|]); try (exfalso; lia); reflexivity.
  - cbn [quotes_escaped]. unfold QUOTE.
    destruct (N.eqb_spec c 34); [contradiction|]. reflexivity.
Qed.

(** In an escaped string every quote comes right after a backslash. *)
Lemma quotes_escaped_json_escape : forall t prev,
  quotes_escaped prev (json_escape t) = true.
Proof.
  induction t as [|c t IH]; intros prev; [reflexivity|].
  unfold json_escape. cbn [flat_map]. fold (json_escape t).
  apply quotes_escaped_app; [apply quotes_escaped_escape_char|exact IH].
Qed.

(** A quoted key that ends where the text has a quote that is not
    escaped is the whole text up to that quote. *)
Lemma starts_with_key_closes : forall key prev y tail,
  prev <> BACKSLASH ->
  forallb (fun c => negb (N.eqb c QUOTE) && negb (N.eqb c BACKSLASH)) key = true ->
  quotes_escaped prev y = true ->
  starts_with (key ++ [QUOTE]) (y ++ QUOTE :: tail) = true ->
  y = key.
Proof.
  induction key as [|k key IH]; intros prev y tail Hp Hk Hq Hs.
  - destruct y as [|c y]; [reflexivity|]. exfalso.
    cbn [app starts_with quotes_escaped] in *.
    apply andb_true_iff in Hs. destruct Hs as [Hc _]. apply N.eqb_eq in Hc. subst c.
    apply andb_true_iff in Hq. destruct Hq as [Hq _].
    cbn in Hq. apply N.eqb_eq in Hq. contradiction.
  - cbn [forallb] in Hk. apply andb_true_iff in Hk. destruct Hk as [Hk1 Hk].
    apply andb_true_iff in Hk1. destruct Hk1 as [Hkq Hkb].
    apply negb_true_iff, N.eqb_neq in Hkq, Hkb.
    destruct y as [|c y].
    + exfalso. cbn [app starts_with] in Hs.
      apply andb_true_iff in Hs. destruct Hs as [Hc _].
      apply N.eqb_eq in Hc. contradiction.
    + cbn [app starts_with quotes_escaped] in *.
      apply andb_true_iff in Hs. destruct Hs as [Hc Hs].
      apply N.eqb_eq in Hc. subst c.
      apply andb_true_iff in Hq. destruct Hq as [_ Hq].
      f_equal. apply (IH k y tail Hkb Hk Hq Hs).
Qed.

(** The pattern of the content key has no match that starts at a quote
    of a string which is followed by a comma. *)
Lemma match_content_at_string y tail :
  quotes_escaped QUOTE y = true ->
  match_key_open (js "content") QUOTE (QUOTE :: y ++ QUOTE :: COMMA :: tail) = None.
Proof.
  intros Hq. unfold match_key_open.
  destruct (starts_with (QUOTE :: js "content" ++ [QUOTE])
              (QUOTE :: y ++ QUOTE :: COMMA :: tail)) eqn:Hs; [|reflexivity].
  cbn [starts_with] in Hs. apply andb_true_iff in Hs. destruct Hs as [_ Hs].
  assert (Hy : y = js "content").
  { apply (starts_with_key_closes (js "content") QUOTE y (COMMA :: tail));
      [discriminate|reflexivity|exact Hq|exact Hs]. }
  subst y. reflexivity.
Qed.

(** No match of the pattern starts inside an escaped string that is
    followed by its closing quote and a comma. *)
Lemma regex_search_content_in_string : forall y prev tail idx,
  quotes_escaped prev y = true ->
  regex_search (match_key_open (js "content") QUOTE) (y ++ QUOTE :: COMMA :: tail) idx
  = regex_search (match_key_open (js "content") QUOTE) (QUOTE :: COMMA :: tail)
      (idx + length y).
Proof.
  induction y as [|c y IH]; intros prev tail idx Hq.
  - cbn [app length]. rewrite Nat.add_0_r. reflexivity.
  - cbn [quotes_escaped] in Hq. apply andb_true_iff in Hq. destruct Hq as [Hc Hq].
    cbn [app]. rewrite regex_search_miss.
    + rewrite (IH c tail (S idx) Hq). cbn [length]. f_equal. lia.
    + destruct (N.eqb_spec c QUOTE) as [->|Hne].
      * apply match_content_at_string. exact Hq.
      * unfold match_key_open. cbn [starts_with app].
        destruct (N.eqb_spec QUOTE c) as [E|_]; [congruence|]. reflexivity.
Qed.

Lemma open_slide_text_app t partial :
  open_slide_text t partial
  = (123 :: 34 :: 116 :: 105 :: 116 :: 108 :: 101 :: 34 :: 58 :: 34
     :: json_escape t
     ++ 34 :: 44 :: 34 :: 99 :: 111 :: 110 :: 116 :: 101 :: 110 :: 116
     :: 34 :: 58 :: 34 :: partial)%N.
Proof.
  unfold open_slide_text, quoted.
  change (jsq "'" "{'title':") with [123; 34; 116; 105; 116; 108; 101; 34; 58]%N.
  change (jsq "'" ",'content':'")
    with [44; 34; 99; 111; 110; 116; 101; 110; 116; 34; 58; 34]%N.
  unfold QUOTE.
  repeat (rewrite <- ?app_assoc; cbn [app]). reflexivity.
Qed.

(** In the text of the slide that is cut, the first match of the pattern
    is the key of its content. *)
Lemma regex_search_content_open_slide t partial idx :
  regex_search (match_key_open (js "content") QUOTE) (open_slide_text t partial) idx
  = Some (idx + 12 + length (json_escape t), 11).
Proof.
  rewrite open_slide_text_app.
  do 9 (rewrite regex_search_miss by reflexivity).
  change (34 :: json_escape t ++ 34 :: 44 :: ?x)%N
    with (QUOTE :: json_escape t ++ QUOTE :: COMMA :: x).
  rewrite regex_search_miss
    by (apply match_content_at_string, quotes_escaped_json_escape).
  rewrite (regex_search_content_in_string _ QUOTE)
    by apply quotes_escaped_json_escape.
  do 2 (rewrite regex_search_miss by reflexivity).
  cbn [regex_search].
  change (match_key_open (js "content") QUOTE
            (34 :: 99 :: 111 :: 110 :: 116 :: 101 :: 110 :: 116 :: 34 :: 58 :: 34
             :: partial)%N) with (Some 11).
  cbn iota. f_equal. f_equal. lia.
Qed.

Lemma length_open_slide_text t partial :
  length (open_slide_text t partial) = 23 + length (json_escape t) + length partial.
Proof.
  rewrite open_slide_text_app. simpl. rewrite length_app. simpl. lia.
Qed.

Lemma open_slide_text_partial t partial :
  open_slide_text t partial = open_slide_text t [] ++ partial.
Proof.
  unfold open_slide_text. rewrite app_nil_r, <- !app_assoc. reflexivity.
Qed.

(** The HTML in progress of the slide that is cut, when the active part
    starts at that slide or at the comma before it. *)
Lemma extractInProgress_open_slide t partial :
  extractInProgress (open_slide_text t partial) = previewOf (unescapePartial partial)
  /\ extractInProgress (COMMA :: open_slide_text t partial)
     = previewOf (unescapePartial partial).
Proof.
  unfold extractInProgress. split.
  - rewrite regex_search_content_open_slide.
    rewrite open_slide_text_partial at 1.
    replace (0 + 12 + length (json_escape t) + 11)
      with (length (open_slide_text t [])) by (rewrite length_open_slide_text; simpl; lia).
    rewrite substring_from_app. reflexivity.
  - rewrite regex_search_miss by reflexivity.
    rewrite regex_search_content_open_slide.
    rewrite open_slide_text_partial at 1.
    replace (1 + 12 + length (json_escape t) + 11)
      with (length (COMMA :: open_slide_text t []))
      by (cbn [length]; rewrite length_open_slide_text; simpl; lia).
    change (COMMA :: open_slide_text t [] ++ partial)
      with ((COMMA :: open_slide_text t []) ++ partial).
    rewrite substring_from_app. reflexivity.
Qed.

(** ** The second scan on the open batch *)

Lemma last_parsed_end_le : forall rs pos lastEnd,
  (lastEnd <= Z.of_nat pos)%Z ->
  (last_parsed_end pos lastEnd rs <= Z.of_nat (pos + length (closed_text rs)))%Z.
Proof.
  induction rs as [|r rs IH]; intros pos lastEnd H.
  - cbn [last_parsed_end closed_text flat_map length]. lia.
  - cbn [last_parsed_end]. rewrite closed_text_cons, length_app. cbn [length].
    replace (pos + (length (slide_text r) + S (length (closed_text rs))))
      with (pos + length (slide_text r) + 1 + length (closed_text rs)) by lia.
    apply IH. destruct (has_fields r); lia.
Qed.

(** After the last closed slide, when it has its fields, the end offset
    is right after it: at the comma. *)
Lemma last_parsed_end_fields : forall rs pos lastEnd,
  (forall r, In r rs -> has_fields r = true) ->
  last_parsed_end pos lastEnd rs
  = match rs with
    | [] => lastEnd
    | _ :: _ => Z.of_nat (pos + length (closed_text rs) - 1)
    end.
Proof.
  induction rs as [|r rs IH]; intros pos lastEnd H; [reflexivity|].
  cbn [last_parsed_end]. rewrite (H r (or_introl eq_refl)).
  rewrite IH by (intros r' Hr'; apply H; right; exact Hr').
  rewrite closed_text_cons, length_app. cbn [length].
  destruct rs as [|r' rs]; [cbn [closed_text flat_map length]; f_equal; lia|].
  f_equal. rewrite closed_text_cons, length_app. cbn [length]. lia.
Qed.

Lemma slide_text_open r :
  slide_text r = open_slide_text (s_title r) (json_escape (s_content r)) ++ [QUOTE; RBRACE].
Proof.
  rewrite <- (app_nil_r (slide_text r)), slide_text_app, open_slide_text_app.
  repeat (rewrite <- ?app_assoc; cbn [app]). reflexivity.
Qed.

(** The second scan on closed slides followed by a slide that is cut
    inside its content: the closed slides are put to the test and the
    slide that is cut changes nothing. *)
Lemma scan_slides_open_batch seen closed t c partial rest :
  json_escape c = partial ++ rest ->
  let ss := closed_text closed ++ open_slide_text t partial in
  let p2 := scan_slides ss ss 0 (slide_init (map slide_value seen)) in
  SlideScan.completeSlides p2 = map slide_value (take_slides seen closed)
  /\ SlideScan.lastParsedSlideEnd p2 = last_parsed_end 0 0 closed.
Proof.
  intros Hc ss p2.
  pose proof (scan_slides_closed closed [] (open_slide_text t partial) seen 0) as H1.
  cbn [app length Nat.add] in H1.
  change (between_slides 0 (map slide_value seen))
    with (slide_init (map slide_value seen)) in H1.
  fold ss in H1. unfold p2. rewrite H1. clear H1 p2.
  set (j := length (closed_text closed)).
  set (st := between_slides (last_parsed_end 0 0 closed)
               (map slide_value (take_slides seen closed))).
  set (X := open_slide_text t partial).
  assert (Hw : slide_within j st).
  { split; simpl; [|lia]. apply (last_parsed_end_le closed 0 0). lia. }
  destruct (scan_slides_later ss (length X) X j st (le_n _) Hw) as [[l1 Hl1] Hlo].
  set (O := open_slide_text t (json_escape c) ++ [QUOTE]).
  assert (HO : O = X ++ rest ++ [QUOTE]).
  { unfold O, X. rewrite (open_slide_text_partial t (json_escape c)), Hc.
    rewrite (open_slide_text_partial t partial), <- !app_assoc. reflexivity. }
  pose proof (scan_slides_prefix (closed_text closed ++ O) ss (length X) X
                (rest ++ [QUOTE]) j st (le_n _)) as Hup.
  assert (Hag : firstn (j + length X) (closed_text closed ++ O)
                = firstn (j + length X) ss).
  { unfold ss, j. rewrite HO.
    replace (closed_text closed ++ X ++ rest ++ [QUOTE])
      with ((closed_text closed ++ X) ++ rest ++ [QUOTE])
      by (rewrite <- app_assoc; reflexivity).
    rewrite <- length_app, firstn_app, Nat.sub_diag, !firstn_all. cbn [firstn].
    apply app_nil_r. }
  specialize (Hup Hag Hw). rewrite <- HO in Hup.
  assert (Hfull : scan_slides (closed_text closed ++ O) O j st
                  = {| SlideScan.slideBraceCount := 1;
                       SlideScan.slideInString := false;
                       SlideScan.slideStartIndex := Z.of_nat j;
                       SlideScan.lastParsedSlideEnd := last_parsed_end 0 0 closed;
                       SlideScan.completeSlides :=
                         map slide_value (take_slides seen closed) |}).
  { unfold O. rewrite open_slide_text_app.
    repeat (rewrite <- ?app_assoc; cbn [app]).
    pose proof (scan_slides_slide_open (closed_text closed ++ O)
                  {| s_title := t; s_content := c |} [] j
                  (last_parsed_end 0 0 closed)
                  (map slide_value (take_slides seen closed))) as H.
    cbn [s_title s_content] in H. unfold O in H. rewrite open_slide_text_app in H.
    repeat (rewrite <- ?app_assoc in H; cbn [app] in H).
    exact H. }
  rewrite Hfull in Hup. destruct Hup as [[l2 Hl2] Hhi].
  cbn [SlideScan.completeSlides SlideScan.lastParsedSlideEnd] in Hl2, Hhi.
  split.
  - apply extends_both; [exists l1; exact Hl1|exists l2; exact Hl2].
  - assert (E : SlideScan.lastParsedSlideEnd st = last_parsed_end 0 0 closed)
      by reflexivity.
    lia.
Qed.

(** ** The cleaning step on the buffer *)

Lemma trim_start_app_stop : forall a c b,
  is_js_space c = false -> trim_start (a ++ c :: b) = trim_start a ++ c :: b.
Proof.
  induction a as [|x a IH]; intros c b Hc.
  - cbn [app trim_start]. rewrite Hc. reflexivity.
  - cbn [app trim_start]. destruct (is_js_space x); [apply IH, Hc|reflexivity].
Qed.

Lemma trim_end_after_nonspace u c p :
  is_js_space c = false -> trim_end (u ++ c :: p) = u ++ c :: trim_end p.
Proof.
  intros Hc. unfold trim_end.
  rewrite rev_app_distr. cbn [rev]. rewrite <- app_assoc. cbn [app].
  rewrite trim_start_app_stop by exact Hc.
  rewrite rev_app_distr. cbn [rev]. rewrite rev_involutive, <- app_assoc.
  reflexivity.
Qed.

Lemma truncated_text_partial done closed t :
  exists u, forall partial,
    truncated_text done closed t partial = u ++ QUOTE :: partial.
Proof.
  exists (stream_text done ++ SLIDES_OPEN ++ closed_text closed
          ++ [123; 34; 116; 105; 116; 108; 101; 34; 58; 34]%N ++ json_escape t
          ++ [34; 44; 34; 99; 111; 110; 116; 101; 110; 116; 34; 58]%N).
  intros partial. unfold truncated_text. rewrite open_slide_text_app.
  repeat (rewrite <- ?app_assoc; cbn [app]). reflexivity.
Qed.

Lemma truncated_text_head done closed t partial :
  exists x, truncated_text done closed t partial = 123%N :: x.
Proof.
  unfold truncated_text.
  destruct (stream_text_shape done) as [E|[x [_ [Hx _]]]].
  - rewrite E. eexists. reflexivity.
  - rewrite Hx. eexists. reflexivity.
Qed.

(** The cleaning step on a buffer without backticks that is cut inside
    a content removes the white space the buffer ends with. *)
Lemma cleanStreamOf_truncated done closed t partial :
  no_backtick (truncated_text done closed t partial) = true ->
  cleanStreamOf (truncated_text done closed t partial)
  = truncated_text done closed t (trim_end partial).
Proof.
  intros Hb. rewrite (cleanStreamOf_no_backtick _ Hb).
  destruct (truncated_text_head done closed t partial) as [x Hx].
  assert (Ht : trim (truncated_text done closed t partial)
               = trim_end (truncated_text done closed t partial)).
  { rewrite Hx. reflexivity. }
  destruct (truncated_text_partial done closed t) as [u Hu].
  rewrite Ht, !Hu.
  apply trim_end_after_nonspace. reflexivity.
Qed.

Lemma closed_text_last : forall rs,
  rs <> [] -> exists v, closed_text rs = v ++ [COMMA].
Proof.
  intros rs H. destruct (exists_last H) as [rs' [r E]]. subst rs.
  exists (closed_text rs' ++ slide_text r).
  unfold closed_text. rewrite flat_map_app. cbn [flat_map].
  rewrite app_nil_r, app_assoc. reflexivity.
Qed.

(** The part of the slides array that is still active when the closed
    slides have their fields: the slide that is cut, with the comma
    before it if there is one. *)
Lemma active_part closed o :
  (forall r, In r closed -> has_fields r = true) ->
  substring_from (closed_text closed ++ o) (last_parsed_end 0 0 closed)
  = match closed with
    | [] => o
    | _ :: _ => COMMA :: o
    end.
Proof.
  intros H. rewrite (last_parsed_end_fields closed 0 0 H).
  destruct closed as [|r rs]; [reflexivity|].
  destruct (closed_text_last (r :: rs)) as [v Hv]; [discriminate|].
  rewrite Hv, length_app. cbn [length Nat.add].
  replace (length v + 1 - 1) with (length v) by lia.
  rewrite <- app_assoc. apply substring_from_app.
Qed.

(** The parser on a buffer cut inside the content of a slide: the slides
    of the complete batches, the closed slides of the open batch, and
    the preview of the partial content. *)
Lemma parseLiveStream_open_batch
    (done : list Batch) (closed : list SlideRecord)
    (t c partial rest : jsstring) :
  json_escape c = partial ++ rest ->
  no_backtick (truncated_text done closed t partial) = true ->
  (forall r, In r closed -> has_fields r = true) ->
  parseLiveStream (truncated_text done closed t partial) false
  = {| completeSlides := map slide_value (take_slides (concat done) closed);
       inProgressHtml := previewOf (unescapePartial (trim_end partial)) |}.
Proof.
  intros Hc Hb Hf. unfold parseLiveStream.
  rewrite (cleanStreamOf_truncated done closed t partial Hb).
  set (partial' := trim_end partial).
  assert (Hc' : exists rest', json_escape c = partial' ++ rest').
  { exists (skipn (length partial') partial ++ rest).
    rewrite app_assoc. unfold partial'. rewrite (trim_end_prefix partial) at 1.
    rewrite firstn_skipn. exact Hc. }
  destruct Hc' as [rest' Hc'].
  unfold truncated_text.
  set (q' := closed_text closed ++ open_slide_text t partial').
  assert (Hq : slides_text (closed ++ [{| s_title := t; s_content := c |}]) ++ js "]}"
               = q' ++ rest' ++ [QUOTE; RBRACE] ++ js "]}").
  { rewrite slides_text_snoc, slide_text_open. cbn [s_title s_content].
    rewrite (open_slide_text_partial t (json_escape c)), Hc'.
    unfold q'. rewrite (open_slide_text_partial t partial'), <- !app_assoc.
    reflexivity. }
  assert (Hy : rest' ++ [QUOTE; RBRACE] ++ js "]}" <> []).
  { destruct rest'; discriminate. }
  rewrite (parsePhases_inside_array done _ q' _ false Hq Hy).
  destruct (scan_slides_open_batch (concat done) closed t c partial' rest' Hc')
    as [Hs Hl].
  fold q' in Hs, Hl. cbn zeta. rewrite Hs, Hl. f_equal.
  unfold q'. rewrite (active_part closed _ Hf).
  destruct (extractInProgress_open_slide t partial') as [E1 E2].
  destruct closed; rewrite ?E1, ?E2; reflexivity.
Qed.

(* ================================================================== *)
(** * Phase 1 on any text that [JSON.parse] accepts *)
(* ================================================================== *)

(** ** Balanced texts *)

Lemma balanced_nil : balanced [].
Proof. intros cs rest i st _ _. cbn [app length]. rewrite Nat.add_0_r. reflexivity. Qed.

Lemma balanced_app a b : balanced a -> balanced b -> balanced (a ++ b).
Proof.
  intros Ha Hb cs rest i st Hs Hd. rewrite <- app_assoc.
  rewrite Ha by assumption. rewrite Hb by assumption.
  rewrite length_app. f_equal. lia.
Qed.

Lemma balanced_char x :
  x <> QUOTE -> x <> BACKSLASH -> x <> LBRACE -> x <> RBRACE -> balanced [x].
Proof.
  intros Hq Hb Hl Hr cs rest i st Hs Hd. cbn [app length].
  rewrite scan_batches_step by exact Hb.
  rewrite batch_step_plain by assumption. reflexivity.
Qed.

Lemma balanced_cons x c :
  x <> QUOTE -> x <> BACKSLASH -> x <> LBRACE -> x <> RBRACE ->
  balanced c -> balanced (x :: c).
Proof.
  intros. change (x :: c) with ([x] ++ c).
  apply balanced_app; [apply balanced_char|]; assumption.
Qed.

Lemma balanced_string c : scans_as_string c -> balanced (QUOTE :: c ++ [QUOTE]).
Proof.
  intros Hc cs rest i st Hs Hd. cbn [app]. rewrite <- app_assoc. cbn [app].
  rewrite scan_batches_step by discriminate.
  rewrite batch_step_quote, Hs. cbn [negb].
  rewrite Hc by reflexivity.
  replace (set_inString false (set_inString true st)) with st
    by (destruct st; simpl in *; subst; reflexivity).
  f_equal. cbn [length]. rewrite length_app. cbn [length]. lia.
Qed.

Lemma balanced_braces c : balanced c -> balanced (LBRACE :: c ++ [RBRACE]).
Proof.
  intros Hc cs rest i st Hs Hd. cbn [app]. rewrite <- app_assoc. cbn [app].
  rewrite scan_batches_step by discriminate.
  rewrite batch_step_open_nested by (try assumption; lia).
  rewrite Hc by (simpl; try assumption; lia).
  rewrite scan_batches_step by discriminate.
  rewrite batch_step_close_nested by (simpl; try assumption; lia).
  replace (with_braceCount _ _) with st
    by (destruct st; unfold with_braceCount; simpl in *; f_equal; lia).
  f_equal. cbn [length]. rewrite length_app. cbn [length]. lia.
Qed.

Lemma scans_as_string_nil : scans_as_string [].
Proof.
  intros cs rest i st Hs. cbn [app length].
  rewrite scan_batches_step by discriminate.
  rewrite batch_step_quote, Hs. f_equal. lia.
Qed.

Lemma scans_as_string_cons x c :
  x <> QUOTE -> x <> BACKSLASH -> scans_as_string c -> scans_as_string (x :: c).
Proof.
  intros Hq Hb Hc cs rest i st Hs. cbn [app length].
  rewrite scan_batches_step by exact Hb.
  rewrite batch_step_in_string by assumption.
  rewrite Hc by exact Hs. f_equal. lia.
Qed.

(** A backslash and the character after it, whatever it is. *)
Lemma scans_as_string_escape e c :
  scans_as_string c -> scans_as_string (BACKSLASH :: e :: c).
Proof.
  intros Hc cs rest i st Hs. cbn [app length].
  rewrite scan_batches_escape. rewrite Hc by exact Hs. f_equal. lia.
Qed.

Lemma hex_value_plain h v : hex_value h = Some v -> h <> QUOTE /\ h <> BACKSLASH.
Proof.
  unfold hex_value, QUOTE, BACKSLASH. intros H.
  destruct (N.leb_spec 48 h); destruct (N.leb_spec h 57); cbn [andb] in H;
    try (split; lia);
  destruct (N.leb_spec 65 h); destruct (N.leb_spec h 70); cbn [andb] in H;
    try (split; lia);
  destruct (N.leb_spec 97 h); destruct (N.leb_spec h 102); cbn [andb] in H;
    try (split; lia); discriminate.
Qed.

(** What [parse_string_body] reads is the inside of a string for the
    scan. *)
Lemma parse_string_body_scan : forall n s str r,
  length s <= n ->
  parse_string_body s = Some (str, r) ->
  exists c, s = c ++ QUOTE :: r /\ scans_as_string c.
Proof.
  induction n as [|n IH]; intros s str r Hn H.
  - destruct s; [discriminate|simpl in Hn; lia].
  - destruct s as [|c s1]; [discriminate|].
    cbn [parse_string_body] in H.
    destruct (N.eqb_spec c QUOTE) as [->|Hq].
    { injection H as <- <-. exists []. split; [reflexivity|apply scans_as_string_nil]. }
    destruct (N.eqb_spec c BACKSLASH) as [->|Hb].
    + destruct s1 as [|e s2]; [discriminate|].
      destruct (N.eqb_spec e 117) as [->|He].
      * destruct s2 as [|h1 [|h2 [|h3 [|h4 s3]]]]; try discriminate.
        unfold hex4 in H.
        destruct (hex_value h1) eqn:E1; [|discriminate].
        destruct (hex_value h2) eqn:E2; [|discriminate].
        destruct (hex_value h3) eqn:E3; [|discriminate].
        destruct (hex_value h4) eqn:E4; [|discriminate].
        destruct (parse_string_body s3) as [[str' r']|] eqn:E; [|discriminate].
        injection H as <- <-.
        destruct (IH s3 str' r') as [c' [Hc' Hs']]; [simpl in Hn; lia|exact E|].
        exists (BACKSLASH :: 117%N :: h1 :: h2 :: h3 :: h4 :: c').
        split; [rewrite Hc'; reflexivity|].
        apply scans_as_string_escape.
        destruct (hex_value_plain _ _ E1), (hex_value_plain _ _ E2),
                 (hex_value_plain _ _ E3), (hex_value_plain _ _ E4).
        repeat (apply scans_as_string_cons; [assumption|assumption|]).
        exact Hs'.
      * destruct (simple_escape e); [|discriminate].
        destruct (parse_string_body s2) as [[str' r']|] eqn:E; [|discriminate].
        injection H as <- <-.
        destruct (IH s2 str' r') as [c' [Hc' Hs']]; [simpl in Hn; lia|exact E|].
        exists (BACKSLASH :: e :: c').
        split; [rewrite Hc'; reflexivity|].
        apply scans_as_string_escape, Hs'.
    + destruct (N.ltb c 32); [discriminate|].
      destruct (parse_string_body s1) as [[str' r']|] eqn:E; [|discriminate].
      injection H as <- <-.
      destruct (IH s1 str' r') as [c' [Hc' Hs']]; [simpl in Hn; lia|exact E|].
      exists (c :: c'). split; [rewrite Hc'; reflexivity|].
      apply scans_as_string_cons; assumption.
Qed.

(** ** What the parser reads is balanced *)

Lemma reads_refl r : reads r r.
Proof. exists []. split; [reflexivity|apply balanced_nil]. Qed.

Lemma reads_trans s m r : reads s m -> reads m r -> reads s r.
Proof.
  intros [a [-> Ha]] [b [-> Hb]]. exists (a ++ b).
  split; [apply app_assoc|apply balanced_app; assumption].
Qed.

Lemma reads_cons x s r : neutral x -> reads s r -> reads (x :: s) r.
Proof.
  intros (Hq & Hb & Hl & Hr) [c [-> Hc]]. exists (x :: c).
  split; [reflexivity|apply balanced_cons; assumption].
Qed.

Lemma reads_length s r : reads s r -> length r <= length s.
Proof. intros [c [-> _]]. rewrite length_app. lia. Qed.

Ltac char_facts :=
  repeat match goal with
  | H : (_ && _)%bool = true |- _ => apply andb_prop in H; destruct H
  | H : (_ || _)%bool = true |- _ => apply orb_prop in H; destruct H
  | H : (_ =? _)%N = true |- _ => apply N.eqb_eq in H
  | H : (_ <=? _)%N = true |- _ => apply N.leb_le in H
  | H : N.eqb _ _ = true |- _ => apply N.eqb_eq in H
  | H : is_true _ |- _ => unfold is_true in H
  end.

Ltac neutral_char :=
  unfold is_json_ws, is_digit in *; char_facts;
  unfold neutral, QUOTE, BACKSLASH, LBRACE, RBRACE, LBRACKET, RBRACKET,
         COLON, COMMA in *;
  subst; repeat split; (lia || discriminate).

Lemma skip_ws_reads s : reads s (skip_ws s).
Proof.
  induction s as [|c s IH]; [apply reads_refl|].
  cbn [skip_ws]. destruct (is_json_ws c) eqn:E; [|apply reads_refl].
  apply reads_cons; [neutral_char|exact IH].
Qed.

Lemma take_digits_reads s : reads s (snd (take_digits s)).
Proof.
  induction s as [|c s IH]; [apply reads_refl|].
  cbn [take_digits]. destruct (is_digit c) eqn:E; [|apply reads_refl].
  destruct (take_digits s) as [ds r]. cbn [snd] in *.
  apply reads_cons; [neutral_char|exact IH].
Qed.

Lemma take_digits_reads_eq s ds r : take_digits s = (ds, r) -> reads s r.
Proof. intros H. pose proof (take_digits_reads s) as R. rewrite H in R. exact R. Qed.

Lemma parse_number_reads s n r : parse_number s = Some (n, r) -> reads s r.
Proof.
  unfold parse_number. intros H.
  assert (Hsign : exists neg s1,
            match s with
            | c :: s' => if N.eqb c 45 then (true, s') else (false, s)
            | [] => (false, s)
            end = (neg, s1) /\ reads s s1).
  { destruct s as [|c s']; [exists false, []; split; [reflexivity|apply reads_refl]|].
    destruct (N.eqb c 45) eqn:E.
    - exists true, s'. split; [reflexivity|].
      apply reads_cons; [neutral_char|apply reads_refl].
    - exists false, (c :: s'). split; [reflexivity|apply reads_refl]. }
  destruct Hsign as (neg & s1 & Es & R1). rewrite Es in H. clear Es.
  apply (reads_trans _ _ _ R1). clear R1 s.
  destruct s1 as [|d s2]; [discriminate|].
  destruct (is_digit d) eqn:Ed; [|discriminate].
  apply reads_cons; [neutral_char|].
  assert (Hint : exists ints r1,
            (if N.eqb d 48 then ([0%Z], s2)
             else let '(ds, r) := take_digits s2 in (Z.of_N (d - 48) :: ds, r))
            = (ints, r1) /\ reads s2 r1).
  { destruct (N.eqb d 48).
    - exists [0%Z], s2. split; [reflexivity|apply reads_refl].
    - destruct (take_digits s2) as [ds r0] eqn:E.
      exists (Z.of_N (d - 48) :: ds), r0. split; [reflexivity|].
      eapply take_digits_reads_eq, E. }
  destruct Hint as (ints & r1 & Ei & R2). rewrite Ei in H. clear Ei.
  apply (reads_trans _ _ _ R2). clear R2 s2 Ed.
  assert (Hfrac : forall fs r3,
            match r1 with
            | p :: r2 =>
                if N.eqb p 46 then
                  match take_digits r2 with
                  | ([], _) => None
                  | (fs, r3) => Some (fs, r3)
                  end
                else Some ([], r1)
            | [] => Some ([], r1)
            end = Some (fs, r3) -> reads r1 r3).
  { intros fs r3 E. destruct r1 as [|p r2].
    - injection E as <- <-. apply reads_refl.
    - destruct (N.eqb p 46) eqn:Ep.
      + destruct (take_digits r2) as [[|f0 fs0] r0] eqn:Et; [discriminate|].
        injection E as <- <-.
        apply reads_cons; [neutral_char|]. eapply take_digits_reads_eq, Et.
      + injection E as <- <-. apply reads_refl. }
  match type of H with
  | match ?frac with _ => _ end = _ => destruct frac as [[fs r3]|] eqn:Ef; [|discriminate]
  end.
  apply (reads_trans _ _ _ (Hfrac _ _ eq_refl)). clear Hfrac Ef r1.
  assert (Hex : forall e r6,
            match r3 with
            | e :: r4 =>
                if N.eqb e 101 || N.eqb e 69 then
                  let '(eneg, r5) :=
                    match r4 with
                    | sg :: r' =>
                        if N.eqb sg 45 then (true, r')
                        else if N.eqb sg 43 then (false, r')
                        else (false, r4)
                    | [] => (false, r4)
                    end in
                  match take_digits r5 with
                  | ([], _) => None
                  | (es, r6) =>
                      Some ((if eneg then - digits_value es else digits_value es)%Z, r6)
                  end
                else Some (0%Z, r3)
            | [] => Some (0%Z, r3)
            end = Some (e, r6) -> reads r3 r6).
  { intros e r6 E. destruct r3 as [|x r4].
    - injection E as <- <-. apply reads_refl.
    - destruct (N.eqb x 101 || N.eqb x 69) eqn:Ex.
      + apply reads_cons; [neutral_char|].
        assert (Hsg : exists eneg r5,
                  match r4 with
                  | sg :: r' =>
                      if N.eqb sg 45 then (true, r')
                      else if N.eqb sg 43 then (false, r')
                      else (false, r4)
                  | [] => (false, r4)
                  end = (eneg, r5) /\ reads r4 r5).
        { destruct r4 as [|sg r']; [exists false, []; split; [reflexivity|apply reads_refl]|].
          destruct (N.eqb sg 45) eqn:E1.
          - exists true, r'. split; [reflexivity|].
            apply reads_cons; [neutral_char|apply reads_refl].
          - destruct (N.eqb sg 43) eqn:E2.
            + exists false, r'. split; [reflexivity|].
              apply reads_cons; [neutral_char|apply reads_refl].
            + exists false, (sg :: r'). split; [reflexivity|apply reads_refl]. }
        destruct Hsg as (eneg & r5 & Hsg & R5). rewrite Hsg in E.
        apply (reads_trans _ _ _ R5).
        destruct (take_digits r5) as [[|e0 es] r0] eqn:Et; [discriminate|].
        injection E as <- <-. eapply take_digits_reads_eq, Et.
      + injection E as <- <-. apply reads_refl. }
  match type of H with
  | match ?ex with _ => _ end = _ => destruct ex as [[e r6]|] eqn:Ee; [|discriminate]
  end.
  injection H as <- <-. eapply Hex. reflexivity.
Qed.

Lemma reads_literal p s :
  Forall neutral p -> starts_with p s = true -> reads s (skipn (length p) s).
Proof.
  intros Hp H. apply starts_with_split in H.
  rewrite H at 1. clear H. generalize (skipn (length p) s). intros t.
  induction Hp as [|x p Hx Hp IH]; [apply reads_refl|].
  cbn [app]. apply reads_cons; assumption.
Qed.

Lemma reads_string s str r :
  parse_string_body s = Some (str, r) -> reads (QUOTE :: s) r.
Proof.
  intros H. destruct (parse_string_body_scan _ s str r (le_n _) H) as [c [-> Hc]].
  exists (QUOTE :: c ++ [QUOTE]).
  split; [cbn [app]; rewrite <- app_assoc; reflexivity|apply balanced_string, Hc].
Qed.

(** A text read up to a closing brace that is not part of it. *)
Lemma reads_close s m r : reads s m -> m = RBRACE :: r ->
  exists c, s = c ++ RBRACE :: r /\ balanced c.
Proof. intros [c [-> Hc]] ->. exists c. split; [reflexivity|exact Hc]. Qed.

Lemma reads_object s r :
  (exists c, s = c ++ RBRACE :: r /\ balanced c) -> reads (LBRACE :: s) r.
Proof.
  intros [c [-> Hc]]. exists (LBRACE :: c ++ [RBRACE]).
  split; [cbn [app]; rewrite <- app_assoc; reflexivity|apply balanced_braces, Hc].
Qed.

Lemma closes_after s m r :
  reads s m -> (exists c, m = c ++ RBRACE :: r /\ balanced c) ->
  exists c, s = c ++ RBRACE :: r /\ balanced c.
Proof.
  intros [a [-> Ha]] [b [-> Hb]]. exists (a ++ b).
  split; [apply app_assoc|apply balanced_app; assumption].
Qed.

(** The three parsers read balanced texts; the members of an object are
    read up to the brace that closes it. *)
Lemma parse_reads : forall fuel,
  (forall s v r, parse_value fuel s = Some (v, r) -> reads s r)
  /\ (forall s vs r, parse_elements fuel s = Some (vs, r) -> reads s r)
  /\ (forall s ms r, parse_members fuel s = Some (ms, r) ->
        exists c, s = c ++ RBRACE :: r /\ balanced c).
Proof.
  induction fuel as [|f (IHv & IHe & IHm)]; [repeat split; discriminate|].
  split; [|split].
  - intros s v r H. cbn [parse_value] in H.
    destruct s as [|c s1]; [discriminate|].
    destruct (N.eqb_spec c LBRACE) as [->|Hl].
    { apply reads_object. apply (closes_after _ _ _ (skip_ws_reads s1)).
      destruct (skip_ws s1) as [|d s2]; [discriminate|].
      destruct (N.eqb_spec d RBRACE) as [->|Hd].
      - injection H as <- <-. exists []. split; [reflexivity|apply balanced_nil].
      - destruct (parse_members f (d :: s2)) as [[ms r0]|] eqn:E; [|discriminate].
        injection H as <- <-. eapply IHm, E. }
    destruct (N.eqb_spec c LBRACKET) as [->|Hk].
    { apply reads_cons; [neutral_char|].
      apply (reads_trans _ _ _ (skip_ws_reads s1)).
      destruct (skip_ws s1) as [|d s2]; [discriminate|].
      destruct (N.eqb_spec d RBRACKET) as [->|Hd].
      - injection H as <- <-. apply reads_cons; [neutral_char|apply reads_refl].
      - destruct (parse_elements f (d :: s2)) as [[vs r0]|] eqn:E; [|discriminate].
        injection H as <- <-. eapply IHe, E. }
    destruct (N.eqb_spec c QUOTE) as [->|Hq].
    { destruct (parse_string_body s1) as [[str r0]|] eqn:E; [|discriminate].
      injection H as <- <-. eapply reads_string, E. }
    destruct (starts_with (js "true") (c :: s1)) eqn:Et.
    { injection H as <- <-.
      apply (reads_literal (js "true")); [|exact Et].
      repeat constructor; discriminate. }
    destruct (starts_with (js "false") (c :: s1)) eqn:Ef.
    { injection H as <- <-.
      apply (reads_literal (js "false")); [|exact Ef].
      repeat constructor; discriminate. }
    destruct (starts_with (js "null") (c :: s1)) eqn:En.
    { injection H as <- <-.
      apply (reads_literal (js "null")); [|exact En].
      repeat constructor; discriminate. }
    destruct (parse_number (c :: s1)) as [[n r0]|] eqn:E; [|discriminate].
    injection H as <- <-. eapply parse_number_reads, E.
  - intros s vs r H. cbn [parse_elements] in H.
    destruct (parse_value f s) as [[v r0]|] eqn:Ev; [|discriminate].
    apply (reads_trans _ _ _ (IHv _ _ _ Ev)).
    apply (reads_trans _ _ _ (skip_ws_reads r0)).
    destruct (skip_ws r0) as [|d r2]; [discriminate|].
    destruct (N.eqb_spec d COMMA) as [->|Hc].
    + apply reads_cons; [neutral_char|].
      apply (reads_trans _ _ _ (skip_ws_reads r2)).
      destruct (parse_elements f (skip_ws r2)) as [[vs0 r3]|] eqn:E; [|discriminate].
      injection H as <- <-. eapply IHe, E.
    + destruct (N.eqb_spec d RBRACKET) as [->|Hd]; [|discriminate].
      injection H as <- <-. apply reads_cons; [neutral_char|apply reads_refl].
  - intros s ms r H. cbn [parse_members] in H.
    destruct s as [|q s1]; [discriminate|].
    destruct (N.eqb_spec q QUOTE) as [->|Hq]; [|discriminate].
    destruct (parse_string_body s1) as [[k r0]|] eqn:Ek; [|discriminate].
    apply (closes_after _ _ _ (reads_string _ _ _ Ek)).
    apply (closes_after _ _ _ (skip_ws_reads r0)).
    destruct (skip_ws r0) as [|col r1]; [discriminate|].
    destruct (N.eqb_spec col COLON) as [->|Hc]; [|discriminate].
    apply (closes_after _ (skip_ws r1) _).
    { apply reads_cons; [neutral_char|apply skip_ws_reads]. }
    destruct (parse_value f (skip_ws r1)) as [[v r2]|] eqn:Ev; [|discriminate].
    apply (closes_after _ _ _ (IHv _ _ _ Ev)).
    apply (closes_after _ _ _ (skip_ws_reads r2)).
    destruct (skip_ws r2) as [|d r3]; [discriminate|].
    destruct (N.eqb_spec d COMMA) as [->|Hd].
    + apply (closes_after _ (skip_ws r3) _).
      { apply reads_cons; [neutral_char|apply skip_ws_reads]. }
      destruct (parse_members f (skip_ws r3)) as [[ms0 r4]|] eqn:E; [|discriminate].
      injection H as <- <-. eapply IHm, E.
    + destruct (N.eqb_spec d RBRACE) as [->|Hb]; [|discriminate].
      injection H as <- <-. exists []. split; [reflexivity|apply balanced_nil].
Qed.

(** ** Object texts *)

Lemma parse_value_object fuel s v r :
  parse_value fuel (LBRACE :: s) = Some (v, r) ->
  exists c, s = c ++ RBRACE :: r /\ balanced c.
Proof.
  destruct fuel as [|f]; [discriminate|]. intros H.
  cbn [parse_value] in H. rewrite N.eqb_refl in H.
  apply (closes_after _ _ _ (skip_ws_reads s)).
  destruct (skip_ws s) as [|d s2]; [discriminate|].
  destruct (N.eqb_spec d RBRACE) as [->|Hd].
  - injection H as <- <-. exists []. split; [reflexivity|apply balanced_nil].
  - destruct (parse_members f (d :: s2)) as [[ms r0]|] eqn:E; [|discriminate].
    injection H as <- <-. eapply (proj2 (proj2 (parse_reads f))), E.
Qed.

Lemma skip_ws_all_last : forall r,
  skip_ws r = [] -> r <> [] -> is_json_ws (last r 0%N) = true.
Proof.
  induction r as [|x r IH]; intros H Hr; [contradiction|].
  cbn [skip_ws] in H. destruct (is_json_ws x) eqn:E; [|discriminate].
  destruct r as [|y r]; [exact E|].
  change (last (x :: y :: r) 0%N) with (last (y :: r) 0%N).
  apply IH; [exact H|discriminate].
Qed.

Lemma last_app_nonempty (a b : jsstring) d :
  b <> [] -> last (a ++ b) d = last b d.
Proof.
  intros Hb. induction a as [|x a IH]; [reflexivity|].
  cbn [app]. destruct (a ++ b) eqn:E; [|exact IH].
  apply app_eq_nil in E. destruct E as [_ E]. contradiction.
Qed.

(** The text of an object is an opening brace, a balanced text and the
    closing brace. *)
Lemma object_text_shape text v :
  is_object_text text v ->
  exists c, text = LBRACE :: c ++ [RBRACE] /\ balanced c.
Proof.
  intros (Hp & Hh & Hl). destruct text as [|x t]; [discriminate|].
  injection Hh as ->. unfold JSON_parse in Hp.
  change (skip_ws (LBRACE :: t)) with (LBRACE :: t) in Hp.
  destruct (parse_value _ (LBRACE :: t)) as [[v0 r]|] eqn:E; [|discriminate].
  destruct (parse_value_object _ _ _ _ E) as [c [-> Hc]].
  exists c. split; [|exact Hc].
  destruct r as [|y r]; [reflexivity|exfalso].
  destruct (skip_ws (y :: r)) eqn:Ew; [|discriminate].
  pose proof (skip_ws_all_last (y :: r) Ew ltac:(discriminate)) as W.
  assert (L : last (LBRACE :: c ++ RBRACE :: y :: r) 0%N = last (y :: r) 0%N).
  { change (LBRACE :: c ++ RBRACE :: y :: r)
      with ((LBRACE :: c ++ [RBRACE]) ++ (y :: r)) at 1 || idtac.
    replace (LBRACE :: c ++ RBRACE :: y :: r)
      with ((LBRACE :: c ++ [RBRACE]) ++ (y :: r))
      by (cbn [app]; rewrite <- app_assoc; reflexivity).
    apply last_app_nonempty. discriminate. }
  rewrite L in Hl. rewrite Hl in W. discriminate.
Qed.

(** The first scan over the text of an object at the top level: the
    slides of its value are added and the end cursor moves past it. *)
Lemma scan_batches_object pre text v post lastEnd slides :
  is_object_text text v ->
  scan_batches (pre ++ text ++ post) (text ++ post) (length pre)
    (between_batches lastEnd slides)
  = scan_batches (pre ++ text ++ post) post (length pre + length text)
      (between_batches (Z.of_nat (length pre + length text))
         (slides ++ batch_slides v)).
Proof.
  intros Ho. destruct (object_text_shape _ _ Ho) as [c [E Hc]].
  destruct Ho as (Hp & _ & _).
  set (cs := pre ++ text ++ post).
  assert (Hlen : length text = length c + 2).
  { rewrite E. cbn [length]. rewrite length_app. cbn [length]. lia. }
  replace (text ++ post) with (LBRACE :: c ++ RBRACE :: post)
    by (rewrite E; cbn [app]; rewrite <- app_assoc; reflexivity).
  rewrite scan_batches_step by discriminate.
  set (st1 := batch_step cs (length pre) LBRACE (between_batches lastEnd slides)).
  assert (Hst1 : st1 = {| BatchScan.braceCount := 1;
                          BatchScan.inString := false;
                          BatchScan.currentObjectStartIndex := Z.of_nat (length pre);
                          BatchScan.lastValidBatchEndIndex := lastEnd;
                          BatchScan.completeSlides := slides |}) by reflexivity.
  clearbody st1. subst st1.
  rewrite Hc by (simpl; try reflexivity; lia).
  rewrite scan_batches_step by discriminate.
  f_equal; [lia|].
  unfold batch_step. cbn [N.eqb QUOTE LBRACE RBRACE Pos.eqb BatchScan.inString
                          BatchScan.braceCount BatchScan.currentObjectStartIndex
                          BatchScan.lastValidBatchEndIndex BatchScan.completeSlides
                          Z.sub Z.add Z.opp Z.pos_sub Z.eqb andb].
  destruct (Z.eqb_spec (Z.of_nat (length pre)) (-1)) as [F|_]; [lia|].
  cbn [negb].
  match goal with
  | |- context [(Z.of_nat ?n + 1)%Z] =>
      replace (Z.of_nat n + 1)%Z with (Z.of_nat (length pre + length text)) by lia
  end.
  unfold cs. rewrite substring_middle, Hp. reflexivity.
Qed.

(** The same over any number of object texts one after the other. *)
Lemma scan_batches_objects : forall texts vs,
  Forall2 is_object_text texts vs ->
  forall pre post slides,
  scan_batches (pre ++ concat texts ++ post) (concat texts ++ post) (length pre)
    (between_batches (Z.of_nat (length pre)) slides)
  = scan_batches (pre ++ concat texts ++ post) post
      (length pre + length (concat texts))
      (between_batches (Z.of_nat (length pre + length (concat texts)))
         (slides ++ flat_map batch_slides vs)).
Proof.
  induction 1 as [|text v texts vs Ho _ IH]; intros pre post slides.
  - cbn [concat flat_map app length]. rewrite app_nil_r, Nat.add_0_r. reflexivity.
  - cbn [concat flat_map]. rewrite <- !app_assoc.
    rewrite (scan_batches_object pre text v (concat texts ++ post) _ slides Ho).
    specialize (IH (pre ++ text) post (slides ++ batch_slides v)).
    rewrite <- !app_assoc, length_app in IH. rewrite IH.
    rewrite length_app, !app_assoc, !Nat.add_assoc. reflexivity.
Qed.

Lemma concat_objects_shape : forall texts vs,
  Forall2 is_object_text texts vs ->
  concat texts = []
  \/ exists t u, concat texts = 123%N :: t /\ concat texts = u ++ [125%N].
Proof.
  induction 1 as [|text v texts vs Ho _ IH]; [left; reflexivity|]. right.
  destruct (object_text_shape _ _ Ho) as [c [E _]]. cbn [concat].
  destruct IH as [E0|[t [u [_ Hu]]]].
  - rewrite E0, app_nil_r, E. exists (c ++ [RBRACE]), (LBRACE :: c).
    split; reflexivity.
  - rewrite Hu, E. exists ((c ++ [RBRACE]) ++ u ++ [125%N]),
      ((LBRACE :: c ++ [RBRACE]) ++ u).
    split; [reflexivity|]. rewrite <- app_assoc. reflexivity.
Qed.

(** The parser on any number of object texts one after the other, none
    with a backtick: the slides arrays of the values, in order; an
    object without a slides array brings nothing and stops nothing. *)
Lemma parseLiveStream_objects texts vs flag :
  Forall2 is_object_text texts vs ->
  no_backtick (concat texts) = true ->
  parseLiveStream (concat texts) flag
  = {| completeSlides := flat_map batch_slides vs; inProgressHtml := [] |}.
Proof.
  intros Ho Hb. unfold parseLiveStream. rewrite cleanStreamOf_no_backtick by exact Hb.
  assert (Ht : trim (concat texts) = concat texts).
  { destruct (concat_objects_shape _ _ Ho) as [E|[t [u [Et Eu]]]].
    - rewrite E. reflexivity.
    - rewrite Et in *. apply (trim_braces t u). exact Eu. }
  rewrite Ht. unfold parsePhases.
  pose proof (scan_batches_objects texts vs Ho [] [] []) as H.
  cbn [app length Nat.add] in H. rewrite app_nil_r in H.
  change (between_batches (Z.of_nat 0) []) with batch_init in H. rewrite H.
  cbn [BatchScan.lastValidBatchEndIndex BatchScan.completeSlides between_batches].
  rewrite substring_from_end. cbn [regex_search].
  change (match_key_open (js "slides") LBRACKET []) with (@None nat).
  reflexivity.
Qed.

(** ** The fuel of [JSON_parse] is enough *)

Lemma length_skip_ws s : length (skip_ws s) <= length s.
Proof. apply reads_length, skip_ws_reads. Qed.

Lemma length_after_cons (s : jsstring) d r : skip_ws s = d :: r -> length r < length s.
Proof. intros H. pose proof (length_skip_ws s) as L. rewrite H in L. simpl in L. lia. Qed.

(** A parse that succeeds with some fuel succeeds, with the same result,
    with any fuel above twice the length of the text. *)
Lemma parse_fuel : forall fuel,
  (forall s x, parse_value fuel s = Some x ->
     forall fuel', 2 * length s + 1 <= fuel' -> parse_value fuel' s = Some x)
  /\ (forall s x, parse_elements fuel s = Some x ->
        forall fuel', 2 * length s + 2 <= fuel' -> parse_elements fuel' s = Some x)
  /\ (forall s x, parse_members fuel s = Some x ->
        forall fuel', 2 * length s + 2 <= fuel' -> parse_members fuel' s = Some x).
Proof.
  induction fuel as [|f (IHv & IHe & IHm)]; [repeat split; discriminate|].
  destruct (parse_reads f) as (Rv & Re & Rm).
  split; [|split].
  - intros s x H [|g] Hg; [lia|]. cbn [parse_value] in *.
    destruct s as [|c s1]; [discriminate|]. cbn [length] in Hg.
    destruct (N.eqb c LBRACE).
    { destruct (skip_ws s1) as [|d s2] eqn:Ew; [discriminate|].
      destruct (N.eqb d RBRACE); [exact H|].
      destruct (parse_members f (d :: s2)) as [[ms r0]|] eqn:E; [|discriminate].
      rewrite (IHm _ _ E g); [exact H|].
      pose proof (length_skip_ws s1) as L. rewrite Ew in L. lia. }
    destruct (N.eqb c LBRACKET).
    { destruct (skip_ws s1) as [|d s2] eqn:Ew; [discriminate|].
      destruct (N.eqb d RBRACKET); [exact H|].
      destruct (parse_elements f (d :: s2)) as [[vs r0]|] eqn:E; [|discriminate].
      rewrite (IHe _ _ E g); [exact H|].
      pose proof (length_skip_ws s1) as L. rewrite Ew in L. lia. }
    exact H.
  - intros s x H [|g] Hg; [lia|]. cbn [parse_elements] in *.
    destruct (parse_value f s) as [[v r0]|] eqn:Ev; [|discriminate].
    rewrite (IHv _ _ Ev g) by lia.
    destruct (skip_ws r0) as [|d r2] eqn:Ew; [discriminate|].
    destruct (N.eqb d COMMA); [|exact H].
    destruct (parse_elements f (skip_ws r2)) as [[vs r3]|] eqn:E; [|discriminate].
    rewrite (IHe _ _ E g); [exact H|].
    pose proof (reads_length _ _ (Rv _ _ _ Ev)).
    pose proof (length_after_cons _ _ _ Ew). pose proof (length_skip_ws r2). lia.
  - intros s x H [|g] Hg; [lia|]. cbn [parse_members] in *.
    destruct s as [|q s1]; [discriminate|]. cbn [length] in Hg.
    destruct (N.eqb q QUOTE); [|discriminate].
    destruct (parse_string_body s1) as [[k r0]|] eqn:Ek; [|discriminate].
    pose proof (reads_length _ _ (reads_string _ _ _ Ek)) as Lk. cbn [length] in Lk.
    destruct (skip_ws r0) as [|col r1] eqn:Ew; [discriminate|].
    pose proof (length_after_cons _ _ _ Ew) as L1.
    destruct (N.eqb col COLON); [|discriminate].
    pose proof (length_skip_ws r1) as L2.
    destruct (parse_value f (skip_ws r1)) as [[v r2]|] eqn:Ev; [|discriminate].
    rewrite (IHv _ _ Ev g) by lia.
    pose proof (reads_length _ _ (Rv _ _ _ Ev)) as L3.
    destruct (skip_ws r2) as [|d r3] eqn:Ew2; [discriminate|].
    pose proof (length_after_cons _ _ _ Ew2) as L4.
    destruct (N.eqb d COMMA); [|exact H].
    pose proof (length_skip_ws r3) as L5.
    destruct (parse_members f (skip_ws r3)) as [[ms r4]|] eqn:E; [|discriminate].
    rewrite (IHm _ _ E g) by lia. exact H.
Qed.

(** [JSON_parse] accepts every text that the grammar accepts with some
    fuel. *)
Lemma parse_value_fuel fuel text v r :
  parse_value fuel (skip_ws text) = Some (v, r) -> skip_ws r = [] ->
  JSON_parse text = Some v.
Proof.
  intros H Hr. unfold JSON_parse.
  rewrite (proj1 (parse_fuel fuel) _ _ H).
  - rewrite Hr. reflexivity.
  - pose proof (length_skip_ws text). lia.
Qed.

(* ================================================================== *)
(** * Complete batches, stray objects and escaped quotes *)
(* ================================================================== *)

Lemma batch_slides_array v l :
  get_member v (js "slides") = Some (Some (JArr l)) -> batch_slides v = l.
Proof.
  intros H. unfold batch_slides. rewrite H.
  destruct v; try discriminate; reflexivity.
Qed.


Lemma flat_map_batch_slides k : forall vs slides,
  Forall2 (fun v l => get_member v (js "slides") = Some (Some (JArr l))
                      /\ length l = k) vs slides ->
  flat_map batch_slides vs = concat slides
  /\ length (concat slides) = length vs * k.
Proof.
  induction 1 as [|v l vs slides [Hv Hl] _ [IH1 IH2]]; [split; reflexivity|].
  cbn [flat_map concat length]. rewrite (batch_slides_array v l Hv), IH1.
  split; [reflexivity|]. rewrite length_app, IH2, Hl. simpl. reflexivity.
Qed.

(** C1, as the code has it.  The buffer is made of the texts of N JSON
    objects, one after the other with nothing between them, each with a
    slides array of k elements, and it holds no backtick: then
    [parseLiveStream] with the flag on returns the N times k elements of
    the arrays in the order of the input, and an empty HTML in progress.
    When the buffer is the compact text of batches of slide records that
    may hold backticks, the returned slides are those of the input in
    order with the fenced-code markers taken out of their fields. *)
Theorem parseLiveStream_complete_batches :
  (forall (texts : list jsstring) (vs : list json) (slides : list (list json))
          (k : nat),
      Forall2 is_object_text texts vs ->
      Forall2 (fun v l => get_member v (js "slides") = Some (Some (JArr l))
                          /\ length l = k) vs slides ->
      no_backtick (concat texts) = true ->
      parseLiveStream (concat texts) true
      = {| completeSlides := concat slides; inProgressHtml := [] |}
      /\ length (concat slides) = length texts * k)
  /\ (forall bs : list Batch,
        parseLiveStream (stream_text bs) true
        = {| completeSlides := map slide_value (map strip_slide (concat bs));
             inProgressHtml := [] |}).
Proof.
  split.
  - intros texts vs slides k Ho Hs Hb.
    destruct (flat_map_batch_slides k vs slides Hs) as [E L].
    rewrite (parseLiveStream_objects texts vs true Ho Hb), E.
    split; [reflexivity|]. rewrite L. f_equal. symmetry.
    eapply Forall2_length, Ho.
  - intros bs. apply parseLiveStream_complete.
Qed.

Lemma parseLiveStream_complete_batches_witness :
  let a := JObj [(js "title", JStr (js "A")); (js "content", JStr (js "<div>x</div>"))] in
  let b := JObj [(js "title", JStr (js "B")); (js "content", JStr (js "<div>y</div>"))] in
  parseLiveStream
    (concat [jsq "'" "{'slides':[{'title':'A','content':'<div>x</div>'}]}";
             jsq "'" "{'slides':[{'title':'B','content':'<div>y</div>'}]}"])
    true
  = {| completeSlides := concat [[a]; [b]]; inProgressHtml := [] |}
  /\ length (concat [[a]; [b]]) = 2 * 1.
Proof.
  intros a b.
  apply (proj1 parseLiveStream_complete_batches
           [jsq "'" "{'slides':[{'title':'A','content':'<div>x</div>'}]}";
            jsq "'" "{'slides':[{'title':'B','content':'<div>y</div>'}]}"]
           [JObj [(js "slides", JArr [a])]; JObj [(js "slides", JArr [b])]]
           [[a]; [b]] 1).
  - repeat constructor; vm_compute; reflexivity.
  - repeat constructor; vm_compute; reflexivity.
  - vm_compute. reflexivity.
Defined.



Lemma json_escape_quote c1 c2 :
  json_escape (c1 ++ QUOTE :: c2)
  = json_escape c1 ++ [BACKSLASH; QUOTE] ++ json_escape c2.
Proof.
  rewrite json_escape_app. reflexivity.
Qed.

Lemma no_backtick_strip s : no_backtick s = true -> strip s = s.
Proof.
  intros H. unfold strip, FENCE, FENCE_JSON.
  change (js "```json") with (BACKTICK :: js "``json").
  change (js "```") with (BACKTICK :: js "``").
  rewrite (replace_all_no_backtick (js "``json") [] s H).
  apply (replace_all_no_backtick (js "``") [] s H).
Qed.

(** On a stream of complete batches without a backtick the cleaning step
    changes nothing and the slides come back as they are. *)
Lemma parseLiveStream_complete_plain bs flag :
  no_backtick (stream_text bs) = true ->
  parseLiveStream (stream_text bs) flag
  = {| completeSlides := map slide_value (concat bs); inProgressHtml := [] |}.
Proof.
  intros Hb. unfold parseLiveStream, parsePhases.
  rewrite (cleanStreamOf_no_backtick _ Hb), trim_stream_text.
  rewrite scan_batches_whole_stream.
  cbn [BatchScan.lastValidBatchEndIndex BatchScan.completeSlides between_batches].
  rewrite substring_from_end. cbn [regex_search].
  change (match_key_open (js "slides") LBRACKET []) with (@None nat).
  reflexivity.
Qed.

(** C7.  In both scans a backslash takes the character after it with
    it, whatever the state, so that this character neither opens or
    closes a string nor counts as a brace.  A quote inside a content is
    written as a backslash and a quote; a slide with such a content,
    in a stream of complete batches or closed in the batch that is still
    open, comes back as one slide with its whole content. *)
Theorem escaped_quote_does_not_split :
  (forall cs d rest i st,
      scan_batches cs (BACKSLASH :: d :: rest) i st
      = scan_batches cs rest (i + 2) st)
  /\ (forall ss d rest j st,
        scan_slides ss (BACKSLASH :: d :: rest) j st
        = scan_slides ss rest (j + 2) st)
  /\ (forall c1 c2,
        json_escape (c1 ++ QUOTE :: c2)
        = json_escape c1 ++ [BACKSLASH; QUOTE] ++ json_escape c2)
  /\ (forall (bs : list Batch) (t c1 c2 : jsstring) (flag : bool),
        In {| s_title := t; s_content := c1 ++ QUOTE :: c2 |} (concat bs) ->
        no_backtick (stream_text bs) = true ->
        completeSlides (parseLiveStream (stream_text bs) flag)
        = map slide_value (concat bs))
  /\ (forall (done : list Batch) (t0 c1 c2 t c partial rest : jsstring),
        let r := {| s_title := t0; s_content := c1 ++ QUOTE :: c2 |} in
        t0 <> [] ->
        title_seen (concat done) t0 = false ->
        json_escape c = partial ++ rest ->
        no_backtick (truncated_text done [r] t partial) = true ->
        completeSlides (parseLiveStream (truncated_text done [r] t partial) false)
        = map slide_value (concat done ++ [r])).
Proof.
  split; [exact scan_batches_escape|].
  split; [exact scan_slides_escape|].
  split; [exact json_escape_quote|].
  split.
  - intros bs t c1 c2 flag _ Hb.
    rewrite (parseLiveStream_complete_plain bs flag Hb). reflexivity.
  - intros done t0 c1 c2 t c partial rest r Ht Hs Hc Hb.
    assert (Hf : has_fields r = true).
    { unfold has_fields, r. cbn [s_title s_content].
      destruct t0; [contradiction|]. destruct c1; reflexivity. }
    rewrite (parseLiveStream_open_batch done [r] t c partial rest Hc Hb).
    + cbn [completeSlides]. unfold take_slides. cbn [fold_left].
      unfold take_slide. rewrite Hf. change (s_title r) with t0. rewrite Hs.
      reflexivity.
    + intros r' [<-|[]]. exact Hf.
Qed.

Lemma escaped_quote_does_not_split_witness :
  let r := {| s_title := js "A"; s_content := jsq "'" "<p class='x'>hi</p>" |} in
  completeSlides (parseLiveStream (stream_text [[r]]) true) = map slide_value (concat [[r]])
  /\ completeSlides
       (parseLiveStream (truncated_text [] [r] (js "B") (js "<div>par")) false)
     = map slide_value (concat [] ++ [r]).
Proof.
  intros r.
  destruct escaped_quote_does_not_split as (_ & _ & _ & H1 & H2).
  split.
  - apply (H1 [[r]] (js "A") (js "<p class=") (jsq "'" "x'>hi</p>") true).
    + left. reflexivity.
    + vm_compute. reflexivity.
  - apply (H2 [] (js "A") (js "<p class=") (jsq "'" "x'>hi</p>") (js "B")
              (js "<div>partial</div>") (js "<div>par") (js "tial</div>")).
    + discriminate.
    + reflexivity.
    + vm_compute. reflexivity.
    + vm_compute. reflexivity.
Defined.

(* ================================================================== *)
(** * [_withRetry] for any attempt cap *)
(* ================================================================== *)

Lemma backoff_snoc k : backoff (S k) = backoff k ++ [(1000 * (Z.of_nat k + 1))%Z].
Proof. unfold backoff. rewrite seq_S, map_app. reflexivity. Qed.

(** The loop after [j] transient failures: [j] calls were made, the
    delays of the iterations were waited for, and the last error is
    kept. *)
Lemma retry_from_failures (T : Type) (fn : nat -> outcome T) maxRetries :
  forall j k i lastError w,
  transient_failures fn (calls w) j ->
  retry_from fn maxRetries (j + k) i lastError w
  = retry_from fn maxRetries k (i + j) (last_error fn (calls w) j lastError)
      {| calls := calls w + j;
         slept := slept w
                  ++ map (fun t => 1000 * (Z.of_nat (i + t) + 1))%Z (seq 0 j) |}.
Proof.
  induction j as [|j IH]; intros k i lastError w Hf.
  - cbn [Nat.add seq map last_error]. rewrite app_nil_r, !Nat.add_0_r.
    destruct w; reflexivity.
  - replace (S j + k) with (j + S k) by lia.
    rewrite IH by (intros t Ht; apply Hf; lia).
    destruct (Hf j ltac:(lia)) as [e [He Hr]].
    erewrite retry_from_transient; [|cbn [calls]; exact He|exact Hr].
    cbn [calls slept last_error]. rewrite He.
    rewrite seq_S, map_app, app_assoc. cbn [map Nat.add].
    f_equal; [lia|]. f_equal. lia.
Qed.

(** [_withRetry] with an attempt cap [n] of any size.  After [k < n]
    failures whose errors do not carry the 429 signal (no 429 in the
    message, no code 429) the next call decides: its value is returned,
    or, when its error carries the signal, that very error is thrown at
    once; the delays waited for are 1000, 2000, ..., 1000 k
    milliseconds.  After [n] such failures the delays are 1000, ...,
    1000 n and the error thrown reports the exhaustion and the last
    error.  With a cap of 0 no call is made and the error reports no
    last error. *)
Theorem withRetry_any_cap (T : Type) (fn : nat -> outcome T) (n : nat) (w : World) :
  (forall k, k < n -> failures_without_429 fn (calls w) k ->
      (forall v, fn (calls w + k) = Resolved v ->
         _withRetry fn n w =
         (Resolved v,
          {| calls := calls w + k + 1; slept := slept w ++ backoff k |}))
      /\ (forall e, fn (calls w + k) = Rejected e -> carries_429 e ->
         _withRetry fn n w =
         (Rejected e,
          {| calls := calls w + k + 1; slept := slept w ++ backoff k |})))
  /\ (failures_without_429 fn (calls w) n ->
      _withRetry fn n w =
      (Rejected (exhausted n (last_error fn (calls w) n None)),
       {| calls := calls w + n; slept := slept w ++ backoff n |})).
Proof.
  unfold _withRetry. split.
  - intros k Hk Hf. apply failures_without_429_transient in Hf.
    replace n with (k + S (n - k - 1)) at 1 2 by lia.
    split.
    + intros v Hv. replace (k + S (n - k - 1)) with n by lia.
      replace n with (k + S (n - k - 1)) at 2 by lia.
      rewrite (retry_from_failures T fn n k _ 0 None w Hf).
      erewrite retry_from_resolved by (cbn [calls]; exact Hv).
      cbn [calls slept]. f_equal. f_equal. lia.
    + intros e He Hr. apply is_rate_limit_carries_429 in Hr.
      replace (k + S (n - k - 1)) with n by lia.
      replace n with (k + S (n - k - 1)) at 2 by lia.
      rewrite (retry_from_failures T fn n k _ 0 None w Hf).
      erewrite retry_from_rate_limit; [|cbn [calls]; exact He|exact Hr].
      cbn [calls slept]. f_equal. f_equal. lia.
  - intros Hf. apply failures_without_429_transient in Hf.
    replace n with (n + 0) at 2 by lia.
    rewrite (retry_from_failures T fn n n 0 0 None w Hf). reflexivity.
Qed.

(** With a cap of 5: four timeouts, then an error whose message holds
    429, which is thrown after the fifth call; a first error with the
    code 429, thrown after one call; and five timeouts, which reach the
    cap. *)
Lemma withRetry_any_cap_witness :
  (_withRetry
     (fun n => if (n <? 4)%nat
               then Rejected {| message := js "timeout"; code := None |}
               else @Rejected nat {| message := js "HTTP 429: slow down"; code := None |})
     5 world0
   = (Rejected {| message := js "HTTP 429: slow down"; code := None |},
      {| calls := 5; slept := [1000; 2000; 3000; 4000]%Z |}))
  /\ (_withRetry
        (fun n => @Rejected nat {| message := []; code := Some 429%Z |}) 5 world0
      = (Rejected {| message := []; code := Some 429%Z |},
         {| calls := 1; slept := [] |}))
  /\ (_withRetry
        (fun n => @Rejected nat {| message := js "timeout"; code := None |}) 5 world0
      = (Rejected
           {| message := js "AI service failed after 5 attempts. Last error: timeout";
              code := None |},
         {| calls := 5; slept := [1000; 2000; 3000; 4000; 5000]%Z |})).
Proof.
  assert (Ht : ~ carries_429 {| message := js "timeout"; code := None |}).
  { apply not_rate_limit_without_429. reflexivity. }
  split; [|split].
  - refine (proj2 (proj1 (withRetry_any_cap nat _ 5 world0) 4 _ _)
              {| message := js "HTTP 429: slow down"; code := None |} eq_refl _).
    + lia.
    + intros j Hj. exists {| message := js "timeout"; code := None |}.
      split; [|exact Ht].
      destruct j as [|[|[|[|j]]]]; try reflexivity. lia.
    + left. exists (js "HTTP "), (js ": slow down"). reflexivity.
  - refine (proj2 (proj1 (withRetry_any_cap nat _ 5 world0) 0 _ _)
              {| message := []; code := Some 429%Z |} eq_refl _).
    + lia.
    + intros j Hj. lia.
    + right. reflexivity.
  - apply (proj2 (withRetry_any_cap nat
                    (fun n => Rejected {| message := js "timeout"; code := None |})
                    5 world0)).
    intros j Hj. exists {| message := js "timeout"; code := None |}.
    split; [reflexivity|exact Ht].
Defined.

(* ================================================================== *)
(** * The turns of the generator for any outline *)
(* ================================================================== *)

Lemma turn_count_lt n j : j < turn_count n <-> 4 * j < n.
Proof.
  unfold turn_count.
  pose proof (Nat.div_mod (n + 3) 4 ltac:(lia)).
  pose proof (Nat.mod_upper_bound (n + 3) 4 ltac:(lia)). lia.
Qed.

Lemma skipn_skipn_add {A} (l : list A) a b : skipn a (skipn b l) = skipn (b + a) l.
Proof.
  revert l. induction b as [|b IH]; intros l; [reflexivity|].
  destruct l as [|x l]; [rewrite !skipn_nil; reflexivity|]. cbn [skipn Nat.add]. apply IH.
Qed.

(** One turn that is answered by a stream without an error: its chunks
    are yielded and the loop goes on with the outline after the batch. *)
Lemma turns_from_step chat n rest i w rs w1 :
  rest <> [] ->
  _withRetry
    (fun k => chat k {| firstRequest := (i =? 0)%nat;
                        startSlide := i + 1;
                        endSlide := Nat.min (i + BATCH_SIZE) n;
                        batchOutlineItems := firstn BATCH_SIZE rest |})
    MAX_RETRIES w = (Resolved rs, w1) ->
  failure rs = None ->
  turns_from chat n rest i w
  = let '(turns, c, w2) := turns_from chat n (skipn 4 rest) (i + BATCH_SIZE) w1 in
    ((i, yields_of (n <=? Nat.min (i + BATCH_SIZE) n)%nat (chunks rs)) :: turns, c, w2).
Proof.
  intros Hr Hw Hf. destruct rest as [|a rest]; [contradiction|].
  cbn [turns_from]. rewrite Hw, Hf.
  destruct rest as [|b [|c [|d rest]]]; reflexivity.
Qed.

Lemma turn_message_eq outline j :
  {| firstRequest := (4 * j =? 0)%nat;
     startSlide := 4 * j + 1;
     endSlide := Nat.min (4 * j + BATCH_SIZE) (length outline);
     batchOutlineItems := firstn BATCH_SIZE (skipn (4 * j) outline) |}
  = turn_message outline j.
Proof.
  unfold turn_message, BATCH_SIZE. f_equal.
  destruct j; reflexivity.
Qed.

Lemma skipn_nonempty {A} (l : list A) k : k < length l -> skipn k l <> [].
Proof.
  intros H E. pose proof (length_skipn k l) as L. rewrite E in L. simpl in L. lia.
Qed.

(** [m] healthy turns from turn number [j] on. *)
Lemma turns_from_healthy chat outline n0 : forall m j w,
  calls w = n0 + j ->
  (forall t, j <= t < j + m -> t < turn_count (length outline)
                               /\ healthy_turn chat outline n0 t) ->
  turns_from chat (length outline) (skipn (4 * j) outline) (4 * j) w
  = let '(turns, c, w') :=
      turns_from chat (length outline) (skipn (4 * (j + m)) outline) (4 * (j + m))
        {| calls := calls w + m; slept := slept w |} in
    (map (fun t => (4 * t, turn_yields chat outline n0 t)) (seq j m) ++ turns, c, w').
Proof.
  induction m as [|m IH]; intros j w Hc Hh.
  - rewrite !Nat.add_0_r. cbn [seq map app].
    replace {| calls := calls w; slept := slept w |} with w by (destruct w; reflexivity).
    destruct (turns_from _ _ _ _ _) as [[turns c] w']. reflexivity.
  - destruct (Hh j ltac:(lia)) as [Hj [rs [Hrs Hfail]]].
    apply turn_count_lt in Hj.
    rewrite (turns_from_step chat (length outline) _ (4 * j) w rs (called w)).
    + replace (skipn 4 (skipn (4 * j) outline)) with (skipn (4 * (j + 1)) outline)
        by (rewrite skipn_skipn_add; f_equal; lia).
      replace (4 * j + BATCH_SIZE) with (4 * (j + 1)) by (unfold BATCH_SIZE; lia).
      rewrite (IH (j + 1) (called w)).
      * cbn [calls slept called].
        replace (j + 1 + m) with (j + S m) by lia.
        replace (S (calls w) + m) with (calls w + S m) by lia.
        destruct (turns_from _ _ _ _ _) as [[turns c] w'].
        cbn [seq map app]. replace (j + 1) with (S j) by lia.
        f_equal. f_equal. f_equal. f_equal.
        unfold turn_yields. rewrite Hrs. f_equal.
        destruct (Nat.leb_spec (length outline) (Nat.min (4 * S j) (length outline)));
          destruct (Nat.leb_spec (length outline) (4 * j + 4)); try reflexivity; lia.
      * cbn [calls called]. lia.
      * intros t Ht. apply Hh. lia.
    + apply skipn_nonempty. exact Hj.
    + rewrite turn_message_eq. unfold _withRetry, MAX_RETRIES.
      erewrite retry_from_resolved by (rewrite Hc; exact Hrs).
      destruct w; reflexivity.
    + exact Hfail.
Qed.

Lemma generator_healthy
    (chat : Chat) (outline : list OutlineItem) (w : World) :
  (forall j, j < turn_count (length outline) ->
             healthy_turn chat outline (calls w) j) ->
  generatePresentationStream chat outline w
  = (concat (map (turn_yields chat outline (calls w))
               (seq 0 (turn_count (length outline)))),
     Returned,
     {| calls := calls w + turn_count (length outline); slept := slept w |}).
Proof.
  intros Hh. unfold generatePresentationStream.
  pose proof (turns_from_healthy chat outline (calls w)
                (turn_count (length outline)) 0 w ltac:(lia)) as H.
  change (4 * 0) with 0 in H. cbn [skipn Nat.add] in H.
  rewrite H by (intros t Ht; split; [lia|apply Hh; lia]). clear H.
  assert (E : skipn (4 * turn_count (length outline)) outline = []).
  { apply skipn_all2.
    destruct (Nat.le_gt_cases (length outline) (4 * turn_count (length outline)))
      as [L|L]; [exact L|].
    apply turn_count_lt in L. lia. }
  rewrite E. cbn [turns_from]. rewrite app_nil_r, map_map. cbn [snd].
  reflexivity.
Qed.


(** With a backend that answers every turn at the first attempt, the
    generator makes one call for each batch of four outline items, in
    order, waits for no delay, yields the chunks of the turns in order
    and returns. *)
Theorem generatePresentationStream_healthy
    (chat : Chat) (outline : list OutlineItem) (w : World) :
  (forall j, j < turn_count (length outline) ->
             healthy_turn chat outline (calls w) j) ->
  generatePresentationStream chat outline w
  = (concat (map (turn_yields chat outline (calls w))
               (seq 0 (turn_count (length outline)))),
     Returned,
     {| calls := calls w + turn_count (length outline); slept := slept w |}).
Proof. exact (generator_healthy chat outline w). Qed.

Lemma generatePresentationStream_healthy_witness :
  let item := {| id := js "s"; title := js "T"; points := [] |} in
  let chat : Chat :=
    fun _ _ => Resolved {| chunks := [Some (js "x"); None]; failure := None |} in
  generatePresentationStream chat [item; item; item; item; item] world0
  = ([{| text := js "x"; isComplete := false |};
      {| text := js "x"; isComplete := true |}],
     Returned, {| calls := 2; slept := [] |}).
Proof.
  intros item chat.
  apply (generatePresentationStream_healthy chat [item; item; item; item; item] world0).
  intros j Hj. eexists. split; reflexivity.
Defined.

Lemma turns_from_rejected chat n rest i w e w1 :
  rest <> [] ->
  _withRetry
    (fun k => chat k {| firstRequest := (i =? 0)%nat;
                        startSlide := i + 1;
                        endSlide := Nat.min (i + BATCH_SIZE) n;
                        batchOutlineItems := firstn BATCH_SIZE rest |})
    MAX_RETRIES w = (Rejected e, w1) ->
  turns_from chat n rest i w = ([], Threw e, w1).
Proof.
  intros Hr Hw. destruct rest as [|a rest]; [contradiction|].
  cbn [turns_from]. rewrite Hw. reflexivity.
Qed.

Lemma turns_from_stream_failure chat n rest i w rs e w1 :
  rest <> [] ->
  _withRetry
    (fun k => chat k {| firstRequest := (i =? 0)%nat;
                        startSlide := i + 1;
                        endSlide := Nat.min (i + BATCH_SIZE) n;
                        batchOutlineItems := firstn BATCH_SIZE rest |})
    MAX_RETRIES w = (Resolved rs, w1) ->
  failure rs = Some e ->
  turns_from chat n rest i w
  = ([(i, yields_of (n <=? Nat.min (i + BATCH_SIZE) n)%nat (chunks rs))], Threw e, w1).
Proof.
  intros Hr Hw Hf. destruct rest as [|a rest]; [contradiction|].
  cbn [turns_from]. rewrite Hw, Hf. reflexivity.
Qed.

(** The generator after [j] healthy turns, in terms of the loop from
    turn number [j] on. *)
Lemma generatePresentationStream_after chat outline w j :
  (forall t, t < j -> t < turn_count (length outline)
                      /\ healthy_turn chat outline (calls w) t) ->
  generatePresentationStream chat outline w
  = let '(turns, c, w') :=
      turns_from chat (length outline) (skipn (4 * j) outline) (4 * j)
        {| calls := calls w + j; slept := slept w |} in
    (concat (map (turn_yields chat outline (calls w)) (seq 0 j))
     ++ concat (map snd turns), c, w').
Proof.
  intros Hh. unfold generatePresentationStream.
  pose proof (turns_from_healthy chat outline (calls w) j 0 w ltac:(lia)) as H.
  change (4 * 0) with 0 in H. cbn [skipn Nat.add] in H.
  rewrite H by (intros t Ht; apply Hh; lia). clear H.
  destruct (turns_from _ _ _ _ _) as [[turns c] w'].
  rewrite map_app, concat_app, map_map. reflexivity.
Qed.

(** The first turn that fails ends the generator: the chunks of the
    turns before it, and those the failing stream gave before its error,
    have been yielded, the error is thrown, and no later batch is asked
    for.  A rejection with the rate-limit signal is thrown after one
    call and no delay; three rejections without it after three calls and
    the delays 1000, 2000, 3000. *)
Theorem generatePresentationStream_stops_at_failure
    (chat : Chat) (outline : list OutlineItem) (w : World) (j : nat) :
  j < turn_count (length outline) ->
  (forall t, t < j -> healthy_turn chat outline (calls w) t) ->
  let before := concat (map (turn_yields chat outline (calls w)) (seq 0 j)) in
  let m := turn_message outline j in
  (forall e, chat (calls w + j) m = Rejected e -> is_rate_limit e = true ->
     generatePresentationStream chat outline w
     = (before, Threw e, {| calls := calls w + j + 1; slept := slept w |}))
  /\ (forall rs e, chat (calls w + j) m = Resolved rs -> failure rs = Some e ->
        generatePresentationStream chat outline w
        = (before ++ yields_of (length outline <=? 4 * j + 4)%nat (chunks rs),
           Threw e, {| calls := calls w + j + 1; slept := slept w |}))
  /\ (transient_failures (fun k => chat k m) (calls w + j) MAX_RETRIES ->
        generatePresentationStream chat outline w
        = (before,
           Threw (exhausted MAX_RETRIES
                    (last_error (fun k => chat k m) (calls w + j) MAX_RETRIES None)),
           {| calls := calls w + j + MAX_RETRIES;
              slept := slept w ++ backoff MAX_RETRIES |})).
Proof.
  intros Hj Hh before m.
  assert (Hafter := generatePresentationStream_after chat outline w j
                      ltac:(intros t Ht; split; [lia|apply Hh; exact Ht])).
  assert (Hne : skipn (4 * j) outline <> []).
  { apply skipn_nonempty, turn_count_lt, Hj. }
  split; [|split].
  - intros e He Hr. rewrite Hafter.
    erewrite turns_from_rejected; [|exact Hne|].
    + cbn [map concat]. rewrite app_nil_r. reflexivity.
    + rewrite turn_message_eq. unfold _withRetry, MAX_RETRIES.
      erewrite retry_from_rate_limit; [|cbn [calls]; exact He|exact Hr].
      cbn [calls slept]. f_equal. f_equal. lia.
  - intros rs e Hrs Hf. rewrite Hafter.
    erewrite turns_from_stream_failure; [|exact Hne| |exact Hf].
    + cbn [map concat snd]. rewrite app_nil_r. f_equal. f_equal. f_equal. f_equal.
      unfold BATCH_SIZE.
      destruct (Nat.leb_spec (length outline) (Nat.min (4 * j + 4) (length outline)));
        destruct (Nat.leb_spec (length outline) (4 * j + 4)); try reflexivity; lia.
    + rewrite turn_message_eq. unfold _withRetry, MAX_RETRIES.
      erewrite retry_from_resolved by (cbn [calls]; exact Hrs).
      cbn [calls slept]. f_equal. f_equal. lia.
  - intros Hf. rewrite Hafter.
    erewrite turns_from_rejected; [|exact Hne|].
    + cbn [map concat]. rewrite app_nil_r. reflexivity.
    + rewrite turn_message_eq. unfold _withRetry.
      exact (retry_from_failures _ (fun k => chat k m) MAX_RETRIES MAX_RETRIES 0 0
               None {| calls := calls w + j; slept := slept w |} Hf).
Qed.

Lemma generatePresentationStream_stops_at_failure_witness :
  let item := {| id := js "s"; title := js "T"; points := [] |} in
  let busy := {| message := js "429 Too Many Requests"; code := None |} in
  let chat : Chat :=
    fun n _ => if (n =? 0)%nat
               then Resolved {| chunks := [Some (js "x")]; failure := None |}
               else Rejected busy in
  generatePresentationStream chat [item; item; item; item; item; item; item; item; item]
    world0
  = ([{| text := js "x"; isComplete := false |}], Threw busy,
     {| calls := 2; slept := [] |}).
Proof.
  intros item busy chat.
  refine (proj1 (generatePresentationStream_stops_at_failure chat
                   [item; item; item; item; item; item; item; item; item]
                   world0 1 _ _) busy _ _).
  - vm_compute. lia.
  - intros t Ht. assert (t = 0) as -> by lia. eexists. split; reflexivity.
  - reflexivity.
  - reflexivity.
Defined.

(* ================================================================== *)
(** * What the parser returns on any buffer *)
(* ================================================================== *)

Lemma starts_with_app_l : forall p s t,
  starts_with p s = true -> starts_with p (s ++ t) = true.
Proof.
  induction p as [|x p IH]; intros s t H; [reflexivity|].
  destruct s as [|y s]; [discriminate|]. cbn [starts_with app] in *.
  apply andb_true_iff in H. destruct H as [H1 H2].
  rewrite H1, (IH _ _ H2). reflexivity.
Qed.

Lemma includes_app_l p : forall s t,
  includes p s = true -> includes p (s ++ t) = true.
Proof.
  induction s as [|c s IH]; intros t H.
  - cbn [includes] in H. rewrite orb_false_r in H.
    destruct p; [|discriminate]. destruct t; reflexivity.
  - cbn [includes app] in *. apply orb_true_iff in H. destruct H as [H|H].
    + change (c :: s ++ t) with ((c :: s) ++ t).
      rewrite (starts_with_app_l _ _ t H). reflexivity.
    + rewrite (IH t H). apply orb_true_r.
Qed.

Lemma includes_app_r p : forall s, includes p (s ++ p) = true.
Proof.
  induction s as [|c s IH].
  - cbn [app]. destruct p as [|x p]; [reflexivity|].
    cbn [includes]. rewrite <- (app_nil_r (x :: p)) at 2.
    rewrite (starts_with_refl (x :: p) []). reflexivity.
  - cbn [app includes]. rewrite IH. apply orb_true_r.
Qed.

Lemma previewOf_renderable p :
  previewOf p = []
  \/ (includes [GT] (previewOf p) = true /\ includes CLOSE_DIV (previewOf p) = true).
Proof.
  unfold previewOf. destruct (includes [GT] p) eqn:Eg; [|left; reflexivity].
  right. destruct (includes CLOSE_DIV p) eqn:Ed; cbn [negb].
  - split; assumption.
  - split; [apply includes_app_l; exact Eg|apply includes_app_r].
Qed.

(** Whatever the buffer is, the HTML in progress is empty when the
    completion flag is on; when it is not empty it holds a greater-than
    sign and a closing div tag. *)
Theorem inProgressHtml_renderable (stream : jsstring) (flag : bool) :
  inProgressHtml (parseLiveStream stream true) = []
  /\ (inProgressHtml (parseLiveStream stream flag) = []
      \/ (includes [GT] (inProgressHtml (parseLiveStream stream flag)) = true
          /\ includes CLOSE_DIV (inProgressHtml (parseLiveStream stream flag)) = true)).
Proof.
  unfold parseLiveStream, parsePhases.
  destruct (regex_search _ _ _) as [[index len]|]; cbn [inProgressHtml];
    [|split; [reflexivity|left; reflexivity]].
  split; [reflexivity|].
  destruct flag; [left; reflexivity|].
  unfold extractInProgress.
  destruct (regex_search _ _ _) as [[index' len']|]; [|left; reflexivity].
  apply previewOf_renderable.
Qed.

(** ** The slides of the open batch *)

Lemma fresh_slides_snoc : forall extra seen s,
  fresh_slides seen (extra ++ [s])
  = fresh_slides seen extra && fresh_slides (seen ++ extra) [s].
Proof.
  induction extra as [|x extra IH]; intros seen s.
  - rewrite app_nil_r. reflexivity.
  - cbn [app fresh_slides].
    destruct (get_member x (js "title")) as [t|]; [|reflexivity].
    destruct (get_member x (js "content")) as [c|]; [|reflexivity].
    rewrite IH, <- app_assoc. cbn [app].
    rewrite !andb_assoc. reflexivity.
Qed.

(** The [try] block adds at most one slide, and only a fresh one. *)
Lemma try_slide_fresh base extra str j lastEnd :
  fresh_slides base extra = true ->
  exists extra',
    fst (try_slide (base ++ extra) str j lastEnd) = base ++ extra'
    /\ fresh_slides base extra' = true.
Proof.
  intros H. unfold try_slide.
  destruct (JSON_parse str) as [slide|]; [|exists extra; split; [reflexivity|exact H]].
  destruct (get_member slide (js "title")) as [t|] eqn:Et;
    [|exists extra; split; [reflexivity|exact H]].
  destruct (truthy t) eqn:Tt; [|exists extra; split; [reflexivity|exact H]].
  destruct (get_member slide (js "content")) as [c|] eqn:Ec;
    [|exists extra; split; [reflexivity|exact H]].
  destruct (truthy c) eqn:Tc; [|exists extra; split; [reflexivity|exact H]].
  destruct (some_title_eq (base ++ extra) t) as [[|]|] eqn:Es;
    try (exists extra; split; [reflexivity|exact H]).
  exists (extra ++ [slide]). cbn [fst]. split; [symmetry; apply app_assoc|].
  rewrite fresh_slides_snoc, H. cbn [fresh_slides andb].
  rewrite Et, Ec, Tt, Tc, Es. reflexivity.
Qed.

Lemma slide_step_fresh ss j c st base extra :
  SlideScan.completeSlides st = base ++ extra ->
  fresh_slides base extra = true ->
  exists extra',
    SlideScan.completeSlides (slide_step ss j c st) = base ++ extra'
    /\ fresh_slides base extra' = true.
Proof.
  intros Hs H. unfold slide_step.
  destruct (if N.eqb c QUOTE then _ else _);
    [exists extra; split; [exact Hs|exact H]|].
  destruct (N.eqb c LBRACE); [exists extra; split; [exact Hs|exact H]|].
  destruct (N.eqb c RBRACE); [|exists extra; split; [exact Hs|exact H]].
  destruct (_ && _); [|exists extra; split; [exact Hs|exact H]].
  rewrite Hs.
  destruct (try_slide_fresh base extra
              (substring ss (SlideScan.slideStartIndex st) (Z.of_nat j + 1)) j
              (SlideScan.lastParsedSlideEnd st) H) as [extra' [E F]].
  destruct (try_slide _ _ _ _) as [slides' lastEnd']. cbn [fst] in E.
  exists extra'. split; [exact E|exact F].
Qed.

Lemma scan_slides_fresh ss base : forall n rest j st extra,
  length rest <= n ->
  SlideScan.completeSlides st = base ++ extra ->
  fresh_slides base extra = true ->
  exists extra',
    SlideScan.completeSlides (scan_slides ss rest j st) = base ++ extra'
    /\ fresh_slides base extra' = true.
Proof.
  induction n as [|n IH]; intros rest j st extra Hn Hs H.
  - destruct rest; [|simpl in Hn; lia]. exists extra. split; assumption.
  - destruct rest as [|c rest]; [exists extra; split; assumption|].
    cbn [scan_slides]. cbn [length] in Hn.
    destruct (N.eqb c BACKSLASH).
    + destruct rest as [|d rest]; [exists extra; split; assumption|].
      apply (IH rest (j + 2) st extra); [simpl in Hn; lia|exact Hs|exact H].
    + destruct (slide_step_fresh ss j c st base extra Hs H) as [extra1 [E1 F1]].
      apply (IH rest (j + 1) _ extra1); [lia|exact E1|exact F1].
Qed.

(** The tests of the parser against the wording of the specification. *)
Lemma double_eqb_eq a b : double_eqb a b = true <-> a = b.
Proof.
  destruct a as [|n1 m1 e1|n1], b as [|n2 m2 e2|n2]; cbn [double_eqb];
    try (split; [discriminate|discriminate]); try (split; reflexivity).
  - rewrite !andb_true_iff, Bool.eqb_true_iff, !Z.eqb_eq. split.
    + intros [[-> ->] ->]. reflexivity.
    + intros H. injection H as -> -> ->. repeat split.
  - rewrite Bool.eqb_true_iff. split; [intros ->; reflexivity|intros H; injection H; auto].
Qed.

Lemma str_eqb_iff : forall a b, str_eqb a b = true <-> a = b.
Proof.
  induction a as [|x a IH]; intros [|y b]; cbn [str_eqb];
    try (split; [discriminate|discriminate]); try (split; reflexivity).
  rewrite andb_true_iff, N.eqb_eq, IH. split.
  - intros [-> ->]. reflexivity.
  - intros H. injection H as -> ->. split; reflexivity.
Qed.

Lemma truthy_counts_as_true v : truthy (Some v) = true <-> counts_as_true v.
Proof.
  destruct v as [|b|n|s|l|o]; cbn [truthy counts_as_true];
    try (split; [discriminate|contradiction]); try (split; [auto|reflexivity]).
  - split; auto.
  - rewrite negb_true_iff. split.
    + intros H E. rewrite E in H. discriminate H.
    + intros H. destruct (double_eqb (to_double n) DZero) eqn:E; [|reflexivity].
      apply double_eqb_eq in E. contradiction.
  - destruct s; split; try discriminate; try reflexivity; try congruence.
Qed.

Lemma strict_eq_same_title a b :
  strict_eq (Some a) (Some b) = true <-> same_title a b.
Proof.
  destruct a as [|x|x|x|x|x], b as [|y|y|y|y|y]; cbn [strict_eq same_title];
    try (split; [discriminate|contradiction]); try (split; [auto|reflexivity]).
  - apply Bool.eqb_true_iff.
  - unfold num_eqb. apply double_eqb_eq.
  - apply str_eqb_iff.
Qed.

(** A title that counts as true is defined, so a slide of the result
    has it as a field. *)
Lemma truthy_defined t : truthy t = true -> exists v, t = Some v.
Proof. destruct t as [v|]; [exists v; reflexivity|discriminate]. Qed.

Lemma get_member_field s k v :
  get_member s k = Some (Some v) -> field s k = Some v.
Proof.
  destruct s; cbn [get_member field]; try discriminate.
  intros H. injection H as H. exact H.
Qed.

Lemma some_title_eq_none_same : forall seen t,
  some_title_eq seen (Some t) = Some false ->
  forall s', In s' seen ->
    s' <> JNull /\ forall t', field s' (js "title") = Some t' -> ~ same_title t' t.
Proof.
  induction seen as [|s seen IH]; intros t H s' Hin; [contradiction|].
  cbn [some_title_eq] in H.
  destruct (get_member s (js "title")) as [t0|] eqn:Eg; [|discriminate].
  destruct (strict_eq t0 (Some t)) eqn:Es; [discriminate|].
  destruct Hin as [<-|Hin]; [|apply (IH t H s' Hin)].
  split; [intros ->; discriminate Eg|].
  intros t' Ht' Hsame. apply strict_eq_same_title in Hsame.
  destruct s; cbn [get_member field] in Eg, Ht'; try discriminate.
  injection Eg as Eg. rewrite Ht' in Eg. subst t0. congruence.
Qed.

Lemma fresh_slides_fresh_after : forall extra seen,
  fresh_slides seen extra = true ->
  forall a s b, extra = a ++ s :: b -> fresh_after (seen ++ a) s.
Proof.
  induction extra as [|x extra IH]; intros seen H a s b E.
  - destruct a; discriminate E.
  - cbn [fresh_slides] in H.
    destruct (get_member x (js "title")) as [t|] eqn:Et; [|discriminate].
    destruct (get_member x (js "content")) as [c|] eqn:Ec; [|discriminate].
    apply andb_true_iff in H. destruct H as [H Hrest].
    apply andb_true_iff in H. destruct H as [H Hsome].
    apply andb_true_iff in H. destruct H as [Tt Tc].
    destruct a as [|y a]; cbn [app] in E; injection E as -> E.
    + rewrite app_nil_r.
      destruct (truthy_defined _ Tt) as [tv ->].
      destruct (truthy_defined _ Tc) as [cv ->].
      exists tv, cv.
      split; [apply get_member_field; exact Et|].
      split; [apply get_member_field; exact Ec|].
      split; [apply truthy_counts_as_true; exact Tt|].
      split; [apply truthy_counts_as_true; exact Tc|].
      apply some_title_eq_none_same.
      destruct (some_title_eq seen (Some tv)) as [[|]|]; try discriminate. reflexivity.
    + replace (seen ++ y :: a) with ((seen ++ [y]) ++ a)
        by (rewrite <- app_assoc; reflexivity).
      apply (IH _ Hrest a _ b E).
Qed.

(** Whatever the buffer is, the slides returned are those of the
    complete batches followed by slides of the open batch.  Each of the
    latter is an object with a title and a content that count as true,
    and no slide before it in the result is null or has the same title;
    so the string titles of two slides taken from the open batch are
    different. *)
Theorem open_batch_slides_are_fresh (stream : jsstring) (flag : bool) :
  exists extra,
    completeSlides (parseLiveStream stream flag) = phase1_slides stream ++ extra
    /\ (forall a s b, extra = a ++ s :: b ->
          fresh_after (phase1_slides stream ++ a) s)
    /\ (forall a s1 m s2 b t1 t2,
          extra = a ++ s1 :: m ++ s2 :: b ->
          field s1 (js "title") = Some (JStr t1) ->
          field s2 (js "title") = Some (JStr t2) ->
          t1 <> t2).
Proof.
  assert (H : exists extra,
             completeSlides (parseLiveStream stream flag) = phase1_slides stream ++ extra
             /\ fresh_slides (phase1_slides stream) extra = true).
  { unfold parseLiveStream, parsePhases, phase1_slides.
    destruct (regex_search _ _ _) as [[index len]|]; cbn [completeSlides].
    - eapply (scan_slides_fresh _ _ _ _ _ _ [] (le_n _)).
      + cbn [slide_init SlideScan.completeSlides]. symmetry. apply app_nil_r.
      + reflexivity.
    - exists []. split; [symmetry; apply app_nil_r|reflexivity]. }
  destruct H as [extra [E F]]. exists extra. split; [exact E|].
  pose proof (fresh_slides_fresh_after extra _ F) as G.
  split; [exact G|].
  intros a s1 m s2 b t1 t2 Hx H1 H2 Heq.
  destruct (G (a ++ s1 :: m) s2 b) as [t [c [Ht [_ [_ [_ Hseen]]]]]].
  { rewrite Hx, <- app_assoc. reflexivity. }
  rewrite H2 in Ht. injection Ht as <-.
  destruct (Hseen s1) as [_ Hs1].
  { apply in_or_app. right. apply in_or_app. right. left. reflexivity. }
  apply (Hs1 (JStr t1) H1). cbn [same_title]. exact Heq.
Qed.

(** A slide whose title rounds to the Number 0 is not taken, and a
    title that is the same Number as an earlier one is a duplicate. *)
Example open_batch_numeric_titles :
  completeSlides
    (parseLiveStream
       (jsq "'" "{'slides':[{'title':1e-400,'content':'a'},{'title':9007199254740992,'content':'b'},{'title':9007199254740993,'content':'c'},{'title':'9007199254740993','content':'d'},")
       false)
  = [JObj [(js "title", JNum {| mant := 9007199254740992; expo := 0 |});
           (js "content", JStr (js "b"))];
     JObj [(js "title", JStr (js "9007199254740993"));
           (js "content", JStr (js "d"))]].
Proof. vm_compute. reflexivity. Qed.

(* ================================================================== *)
(** * Buffers with any number of fenced-code markers *)
(* ================================================================== *)

Lemma starts_with_before_backtick : forall q p rest,
  no_backtick q = true ->
  rest = [] \/ (exists r, rest = BACKTICK :: r) ->
  starts_with q p = false ->
  starts_with q (p ++ rest) = false.
Proof.
  induction q as [|x q IH]; intros p rest Hq Hr H; [discriminate|].
  simpl in Hq. apply andb_true_iff in Hq. destruct Hq as [Hx Hq].
  apply negb_true_iff in Hx.
  destruct p as [|y p].
  - cbn [app]. destruct Hr as [->|[r ->]]; [reflexivity|].
    cbn [starts_with]. rewrite Hx. reflexivity.
  - cbn [app starts_with] in *. destruct (N.eqb x y); [|reflexivity].
    cbn [andb] in *. apply IH; assumption.
Qed.

Lemma starts_with_backtick_cons q c p v :
  no_backtick (c :: p) = true -> starts_with (BACKTICK :: q) ((c :: p) ++ v) = false.
Proof.
  intros H. simpl in H. apply andb_true_iff in H. destruct H as [Hc _].
  apply negb_true_iff in Hc. cbn [app starts_with]. rewrite N.eqb_sym, Hc. reflexivity.
Qed.

Lemma flat_map_fence_piece_head tail :
  flat_map fence_piece tail = []
  \/ exists r, flat_map fence_piece tail = FENCE ++ r.
Proof.
  destruct tail as [|[[|] p] tail]; [left; reflexivity| |]; right; cbn [flat_map].
  - exists (js "json" ++ p ++ flat_map fence_piece tail). reflexivity.
  - exists (p ++ flat_map fence_piece tail). unfold fence_piece. cbn [fst snd].
    rewrite <- app_assoc. reflexivity.
Qed.

(** The first replacement keeps a short marker that is followed by a
    text without backticks that does not start with json, whatever
    markers come after that text. *)
Lemma replace_fence_json_keeps_fence p rest :
  no_backtick p = true ->
  starts_with (js "json") p = false ->
  rest = [] \/ (exists r, rest = FENCE ++ r) ->
  replace_from FENCE_JSON [] 0 (FENCE ++ p ++ rest)
  = FENCE ++ p ++ replace_from FENCE_JSON [] 0 rest.
Proof.
  intros Hp Hj Hr.
  assert (Hr' : rest = [] \/ (exists r, rest = BACKTICK :: r)).
  { destruct Hr as [->|[r ->]]; [left; reflexivity|right; eexists; reflexivity]. }
  change (FENCE ++ p ++ rest) with (BACKTICK :: BACKTICK :: BACKTICK :: p ++ rest).
  rewrite replace_from_no_match_here.
  2:{ change (starts_with FENCE_JSON (BACKTICK :: BACKTICK :: BACKTICK :: p ++ rest))
        with (starts_with (js "json") (p ++ rest)).
      apply starts_with_before_backtick; [reflexivity|exact Hr'|exact Hj]. }
  rewrite replace_from_no_match_here.
  2:{ change (starts_with FENCE_JSON (BACKTICK :: BACKTICK :: p ++ rest))
        with (starts_with (BACKTICK :: js "json") (p ++ rest)).
      destruct p as [|c p]; [|apply (starts_with_backtick_cons _ c p); exact Hp].
      destruct Hr as [->|[r ->]]; reflexivity. }
  rewrite replace_from_no_match_here.
  2:{ change (starts_with FENCE_JSON (BACKTICK :: p ++ rest))
        with (starts_with (BACKTICK :: BACKTICK :: js "json") (p ++ rest)).
      destruct p as [|c p]; [|apply (starts_with_backtick_cons _ c p); exact Hp].
      destruct Hr as [->|[r ->]]; reflexivity. }
  change FENCE_JSON with (BACKTICK :: js "``json").
  rewrite replace_from_no_backtick by exact Hp. reflexivity.
Qed.

(** The first replacement on markers and texts: the long markers go. *)
Lemma replace_fence_json_pieces : forall tail,
  forallb (fun x : bool * jsstring =>
             no_backtick (snd x)
             && (fst x || negb (starts_with (js "json") (snd x)))) tail = true ->
  replace_from FENCE_JSON [] 0 (flat_map fence_piece tail)
  = flat_map (fun x : bool * jsstring => (if fst x then [] else FENCE) ++ snd x) tail.
Proof.
  induction tail as [|[j p] tail IH]; intros H; [reflexivity|].
  cbn [forallb fst snd] in H. apply andb_true_iff in H. destruct H as [H Ht].
  apply andb_true_iff in H. destruct H as [Hp Hj].
  cbn [flat_map fst snd]. unfold fence_piece at 1. cbn [fst snd].
  rewrite <- app_assoc. destruct j.
  - change FENCE_JSON with (BACKTICK :: js "``json") at 1 2.
    rewrite replace_from_at_match. cbn [app].
    rewrite replace_from_no_backtick by exact Hp.
    change (BACKTICK :: js "``json") with FENCE_JSON. rewrite (IH Ht). reflexivity.
  - cbn [orb] in Hj. apply negb_true_iff in Hj.
    rewrite replace_fence_json_keeps_fence;
      [|exact Hp|exact Hj|apply flat_map_fence_piece_head].
    rewrite (IH Ht), <- app_assoc. reflexivity.
Qed.

(** The second replacement on what the first one leaves: the short
    markers go. *)
Lemma replace_fence_pieces : forall tail,
  forallb (fun x : bool * jsstring =>
             no_backtick (snd x)
             && (fst x || negb (starts_with (js "json") (snd x)))) tail = true ->
  replace_from FENCE [] 0
    (flat_map (fun x : bool * jsstring => (if fst x then [] else FENCE) ++ snd x) tail)
  = flat_map snd tail.
Proof.
  induction tail as [|[j p] tail IH]; intros H; [reflexivity|].
  cbn [forallb fst snd] in H. apply andb_true_iff in H. destruct H as [H Ht].
  apply andb_true_iff in H. destruct H as [Hp _].
  cbn [flat_map fst snd]. rewrite <- app_assoc. destruct j.
  - cbn [app]. change FENCE with (BACKTICK :: js "``") at 1.
    rewrite replace_from_no_backtick by exact Hp.
    change (BACKTICK :: js "``") with FENCE. rewrite (IH Ht). reflexivity.
  - change FENCE with (BACKTICK :: js "``") at 1 2.
    rewrite replace_from_at_match. cbn [app].
    rewrite replace_from_no_backtick by exact Hp.
    change (BACKTICK :: js "``") with FENCE. rewrite (IH Ht). reflexivity.
Qed.

Lemma no_backtick_unfenced head tail :
  fence_free head tail = true -> no_backtick (unfenced head tail) = true.
Proof.
  unfold fence_free, unfenced. intros H. apply andb_true_iff in H.
  destruct H as [Hh Ht]. unfold no_backtick in *. rewrite forallb_app, Hh. cbn [andb].
  induction tail as [|[j p] tail IH]; [reflexivity|].
  cbn [forallb fst snd flat_map] in *. apply andb_true_iff in Ht. destruct Ht as [H Ht].
  apply andb_true_iff in H. destruct H as [Hp _].
  rewrite forallb_app, Hp, (IH Ht). reflexivity.
Qed.

Lemma cleanStreamOf_fenced head tail :
  fence_free head tail = true ->
  cleanStreamOf (fenced head tail) = cleanStreamOf (unfenced head tail).
Proof.
  intros H. rewrite (cleanStreamOf_no_backtick _ (no_backtick_unfenced _ _ H)).
  unfold fence_free in H. apply andb_true_iff in H. destruct H as [Hh Ht].
  unfold cleanStreamOf, fenced, unfenced, replace_all. f_equal.
  change FENCE_JSON with (BACKTICK :: js "``json") at 1.
  rewrite replace_from_no_backtick by exact Hh.
  change (BACKTICK :: js "``json") with FENCE_JSON.
  rewrite (replace_fence_json_pieces tail Ht).
  change FENCE with (BACKTICK :: js "``") at 1.
  rewrite replace_from_no_backtick by exact Hh.
  change (BACKTICK :: js "``") with FENCE.
  rewrite (replace_fence_pieces tail Ht). reflexivity.
Qed.

(** A buffer made of texts without backticks with fenced-code markers
    between them, long or short, none of the short ones right before
    the letters json, gives the result of the buffer without the
    markers: so does a response wrapped in a fence. *)
Theorem parseLiveStream_ignores_fences
    (head : jsstring) (tail : list (bool * jsstring)) (flag : bool) :
  fence_free head tail = true ->
  parseLiveStream (fenced head tail) flag = parseLiveStream (unfenced head tail) flag.
Proof.
  intros H. unfold parseLiveStream. rewrite (cleanStreamOf_fenced head tail H).
  reflexivity.
Qed.

Lemma parseLiveStream_ignores_fences_witness :
  let body := jsq "'" "{'slides':[{'title':'A','content':'<div>x</div>'}]}" in
  parseLiveStream (FENCE_JSON ++ ([10%N] ++ body ++ [10%N]) ++ FENCE ++ []) true
  = parseLiveStream ([10%N] ++ body ++ [10%N]) true.
Proof.
  intros body.
  pose proof (parseLiveStream_ignores_fences []
                [(true, [10%N] ++ body ++ [10%N]); (false, [])] true) as H.
  unfold fenced, unfenced, fence_piece in H. cbn [flat_map fst snd app] in H.
  rewrite !app_nil_r in H. rewrite app_nil_r. apply H.
  vm_compute. reflexivity.
Defined.

(* ================================================================== *)
(** * Batches with text between them *)
(* ================================================================== *)

Lemma is_neutral_neutral x : is_neutral x = true -> neutral x.
Proof.
  unfold is_neutral, neutral. intros H.
  repeat (apply andb_true_iff in H; destruct H as [H ?]).
  repeat match goal with
         | E : negb (N.eqb _ _) = true |- _ =>
             apply negb_true_iff, N.eqb_neq in E
         end.
  repeat split; assumption.
Qed.

(** A text of neutral characters changes nothing outside a string, at
    any depth. *)
Lemma scan_batches_neutral cs : forall f rest i st,
  forallb is_neutral f = true ->
  BatchScan.inString st = false ->
  scan_batches cs (f ++ rest) i st = scan_batches cs rest (i + length f) st.
Proof.
  induction f as [|x f IH]; intros rest i st Hf Hs.
  - cbn [app length]. rewrite Nat.add_0_r. reflexivity.
  - cbn [forallb] in Hf. apply andb_true_iff in Hf. destruct Hf as [Hx Hf].
    destruct (is_neutral_neutral x Hx) as (Hq & Hb & Hl & Hr).
    cbn [app length]. rewrite scan_batches_step by exact Hb.
    rewrite batch_step_plain by assumption.
    rewrite IH by assumption. f_equal. lia.
Qed.

(** A text in braces that [JSON.parse] refuses, met between two
    batches, changes nothing. *)
Lemma scan_batches_fragment pre c post lastEnd slides :
  forallb is_neutral c = true ->
  JSON_parse (LBRACE :: c ++ [RBRACE]) = None ->
  let f := LBRACE :: c ++ [RBRACE] in
  scan_batches (pre ++ f ++ post) (f ++ post) (length pre)
    (between_batches lastEnd slides)
  = scan_batches (pre ++ f ++ post) post (length pre + length f)
      (between_batches lastEnd slides).
Proof.
  intros Hc Hp f. set (cs := pre ++ f ++ post).
  assert (Hlen : length f = length c + 2).
  { unfold f. cbn [length]. rewrite length_app. cbn [length]. lia. }
  replace (f ++ post) with (LBRACE :: c ++ RBRACE :: post)
    by (unfold f; cbn [app]; rewrite <- app_assoc; reflexivity).
  rewrite scan_batches_step by discriminate.
  set (st1 := batch_step cs (length pre) LBRACE (between_batches lastEnd slides)).
  assert (Hst1 : st1 = {| BatchScan.braceCount := 1;
                          BatchScan.inString := false;
                          BatchScan.currentObjectStartIndex := Z.of_nat (length pre);
                          BatchScan.lastValidBatchEndIndex := lastEnd;
                          BatchScan.completeSlides := slides |}) by reflexivity.
  clearbody st1. subst st1.
  rewrite scan_batches_neutral by (try exact Hc; reflexivity).
  rewrite scan_batches_step by discriminate.
  f_equal; [lia|].
  unfold batch_step. cbn [N.eqb QUOTE LBRACE RBRACE Pos.eqb BatchScan.inString
                          BatchScan.braceCount BatchScan.currentObjectStartIndex
                          BatchScan.lastValidBatchEndIndex BatchScan.completeSlides
                          Z.sub Z.add Z.opp Z.pos_sub Z.eqb andb].
  destruct (Z.eqb_spec (Z.of_nat (length pre)) (-1)) as [F|_]; [lia|].
  cbn [negb].
  match goal with
  | |- context [(Z.of_nat ?n + 1)%Z] =>
      replace (Z.of_nat n + 1)%Z with (Z.of_nat (length pre + length f)) by lia
  end.
  unfold cs. rewrite substring_middle. fold f in Hp. rewrite Hp. reflexivity.
Qed.

Lemma filler_cases f :
  is_filler f = true ->
  forallb is_neutral f = true
  \/ exists c, f = LBRACE :: c ++ [RBRACE] /\ forallb is_neutral c = true
               /\ JSON_parse f = None.
Proof.
  unfold is_filler. intros H. apply orb_true_iff in H.
  destruct H as [H|H]; [left; exact H|right].
  destruct f as [|x r]; [discriminate|].
  repeat (apply andb_true_iff in H; destruct H as [H ?]).
  apply N.eqb_eq in H. subst x.
  destruct r as [|y r]; [discriminate|].
  exists (removelast (y :: r)). split; [|split].
  - f_equal. rewrite (app_removelast_last 0%N (l := y :: r)) at 1 by discriminate.
    f_equal. f_equal. apply N.eqb_eq. assumption.
  - assumption.
  - destruct (JSON_parse _); [discriminate|reflexivity].
Qed.

Lemma scan_batches_filler pre f post lastEnd slides :
  is_filler f = true ->
  scan_batches (pre ++ f ++ post) (f ++ post) (length pre)
    (between_batches lastEnd slides)
  = scan_batches (pre ++ f ++ post) post (length pre + length f)
      (between_batches lastEnd slides).
Proof.
  intros H. destruct (filler_cases f H) as [Hn|[c [-> [Hc Hp]]]].
  - apply scan_batches_neutral; [exact Hn|reflexivity].
  - apply scan_batches_fragment; assumption.
Qed.

Lemma scan_batches_fillers : forall fs pre post lastEnd slides,
  forallb is_filler fs = true ->
  scan_batches (pre ++ concat fs ++ post) (concat fs ++ post) (length pre)
    (between_batches lastEnd slides)
  = scan_batches (pre ++ concat fs ++ post) post (length pre + length (concat fs))
      (between_batches lastEnd slides).
Proof.
  induction fs as [|f fs IH]; intros pre post lastEnd slides H.
  - cbn [concat app length]. rewrite Nat.add_0_r. reflexivity.
  - cbn [forallb] in H. apply andb_true_iff in H. destruct H as [Hf Hfs].
    cbn [concat]. rewrite <- !app_assoc.
    rewrite (scan_batches_filler pre f (concat fs ++ post) lastEnd slides Hf).
    specialize (IH (pre ++ f) post lastEnd slides Hfs).
    rewrite <- !app_assoc, length_app in IH. rewrite IH.
    rewrite length_app, Nat.add_assoc. reflexivity.
Qed.

(** The first scan over a batch with fillers before it. *)
Lemma scan_batches_item pre it post lastEnd slides :
  forallb is_filler (gap it) = true ->
  is_object_text (item_text it) (item_value it) ->
  scan_batches (pre ++ item_whole it ++ post) (item_whole it ++ post) (length pre)
    (between_batches lastEnd slides)
  = scan_batches (pre ++ item_whole it ++ post) post
      (length pre + length (item_whole it))
      (between_batches (Z.of_nat (length pre + length (item_whole it)))
         (slides ++ batch_slides (item_value it))).
Proof.
  intros Hg Ho. unfold item_whole. rewrite <- !app_assoc.
  rewrite (scan_batches_fillers (gap it) pre _ lastEnd slides Hg).
  pose proof (scan_batches_object (pre ++ concat (gap it)) (item_text it)
                (item_value it) post lastEnd slides Ho) as Hobj.
  rewrite <- !app_assoc, length_app in Hobj. rewrite Hobj.
  rewrite !length_app, !Nat.add_assoc. reflexivity.
Qed.

Lemma scan_batches_items : forall items pre post slides,
  Forall (fun it => forallb is_filler (gap it) = true
                    /\ is_object_text (item_text it) (item_value it)) items ->
  scan_batches (pre ++ flat_map item_whole items ++ post)
    (flat_map item_whole items ++ post) (length pre)
    (between_batches (Z.of_nat (length pre)) slides)
  = scan_batches (pre ++ flat_map item_whole items ++ post) post
      (length pre + length (flat_map item_whole items))
      (between_batches (Z.of_nat (length pre + length (flat_map item_whole items)))
         (slides ++ flat_map (fun it => batch_slides (item_value it)) items)).
Proof.
  induction items as [|it items IH]; intros pre post slides H.
  - cbn [flat_map app length]. rewrite app_nil_r, Nat.add_0_r. reflexivity.
  - inversion H as [|x l [Hg Ho] Hrest]; subst.
    cbn [flat_map]. rewrite <- !app_assoc.
    rewrite (scan_batches_item pre it (flat_map item_whole items ++ post) _ slides Hg Ho).
    specialize (IH (pre ++ item_whole it) post (slides ++ batch_slides (item_value it))
                  Hrest).
    rewrite <- !app_assoc, length_app in IH. rewrite IH.
    rewrite length_app, !app_assoc, !Nat.add_assoc. reflexivity.
Qed.

Lemma trim_start_spaces : forall w s,
  forallb is_js_space w = true -> trim_start (w ++ s) = trim_start s.
Proof.
  induction w as [|c w IH]; intros s H; [reflexivity|].
  cbn [forallb] in H. apply andb_true_iff in H. destruct H as [Hc Hw].
  cbn [app trim_start]. rewrite Hc. apply IH, Hw.
Qed.

Lemma trim_end_spaces w s :
  forallb is_js_space w = true -> trim_end (s ++ w) = trim_end s.
Proof.
  intros H. unfold trim_end. rewrite rev_app_distr.
  rewrite trim_start_spaces; [reflexivity|].
  rewrite forallb_forall in *. intros x Hx. apply H, in_rev, Hx.
Qed.

Lemma trim_around w1 w2 t u :
  forallb is_js_space w1 = true -> forallb is_js_space w2 = true ->
  123%N :: t = u ++ [125%N] ->
  trim (w1 ++ (123%N :: t) ++ w2) = 123%N :: t.
Proof.
  intros H1 H2 E. unfold trim. rewrite trim_start_spaces by exact H1.
  change (trim_start ((123%N :: t) ++ w2)) with ((123%N :: t) ++ w2).
  rewrite trim_end_spaces by exact H2.
  pose proof (trim_braces t u E) as T. unfold trim in T.
  change (trim_start (123%N :: t)) with (123%N :: t) in T. exact T.
Qed.

Lemma items_core_shape text0 v0 items :
  is_object_text text0 v0 ->
  Forall (fun it => forallb is_filler (gap it) = true
                    /\ is_object_text (item_text it) (item_value it)) items ->
  exists t u, text0 ++ flat_map item_whole items = 123%N :: t
              /\ text0 ++ flat_map item_whole items = u ++ [125%N].
Proof.
  intros H0 H.
  destruct (object_text_shape _ _ H0) as [c0 [E0 _]].
  exists (c0 ++ [RBRACE] ++ flat_map item_whole items).
  destruct items as [|it0 items0] using rev_ind.
  - exists (LBRACE :: c0). cbn [flat_map]. rewrite !app_nil_r.
    split; exact E0.
  - clear IHitems0. apply Forall_app in H. destruct H as [_ H].
    inversion H as [|x l [_ Ho] _]; subst x l.
    destruct (object_text_shape _ _ Ho) as [c [E _]].
    exists (text0 ++ flat_map item_whole items0 ++ concat (gap it0) ++ LBRACE :: c).
    split.
    + rewrite E0 at 1. cbn [app]. rewrite <- app_assoc. reflexivity.
    + rewrite flat_map_app. cbn [flat_map]. rewrite app_nil_r.
      unfold item_whole at 2. rewrite E. rewrite <- !app_assoc. reflexivity.
Qed.

(** Batches with white space around the buffer and, between them, text
    without quotes, backslashes and braces, or such text in braces that
    [JSON.parse] refuses: when no backtick is there, the result is the
    slides of the batches in order, and nothing in progress. *)
Theorem parseLiveStream_separated_batches
    (w1 w2 text0 : jsstring) (v0 : json) (items : list Item) (flag : bool) :
  forallb is_js_space w1 = true ->
  forallb is_js_space w2 = true ->
  is_object_text text0 v0 ->
  Forall (fun it => forallb is_filler (gap it) = true
                    /\ is_object_text (item_text it) (item_value it)) items ->
  no_backtick (w1 ++ (text0 ++ flat_map item_whole items) ++ w2) = true ->
  parseLiveStream (w1 ++ (text0 ++ flat_map item_whole items) ++ w2) flag
  = {| completeSlides :=
         batch_slides v0 ++ flat_map (fun it => batch_slides (item_value it)) items;
       inProgressHtml := [] |}.
Proof.
  intros H1 H2 H0 Hi Hb. unfold parseLiveStream.
  rewrite cleanStreamOf_no_backtick by exact Hb.
  destruct (items_core_shape text0 v0 items H0 Hi) as [t [u [Et Eu]]].
  rewrite Et. rewrite (trim_around w1 w2 t u H1 H2) by (rewrite <- Et; exact Eu).
  rewrite <- Et. unfold parsePhases.
  set (core := text0 ++ flat_map item_whole items).
  assert (Hscan : scan_batches core core 0 batch_init
                  = between_batches (Z.of_nat (length core))
                      (batch_slides v0
                       ++ flat_map (fun it => batch_slides (item_value it)) items)).
  { unfold core.
    pose proof (scan_batches_object [] text0 v0 (flat_map item_whole items) 0 [] H0) as A.
    cbn [app length Nat.add] in A.
    change (between_batches 0 []) with batch_init in A. rewrite A. clear A.
    pose proof (scan_batches_items items text0 [] (batch_slides v0) Hi) as B.
    rewrite app_nil_r in B. cbn [app] in B. rewrite B.
    rewrite length_app. reflexivity. }
  rewrite Hscan.
  cbn [BatchScan.lastValidBatchEndIndex BatchScan.completeSlides between_batches].
  rewrite substring_from_end. cbn [regex_search].
  change (match_key_open (js "slides") LBRACKET []) with (@None nat).
  reflexivity.
Qed.

Lemma parseLiveStream_separated_batches_witness :
  let a := JObj [(js "title", JStr (js "A")); (js "content", JStr (js "<div>x</div>"))] in
  let b := JObj [(js "title", JStr (js "B")); (js "content", JStr (js "<div>y</div>"))] in
  let item :=
    {| gap := [[10%N]; js "{oops}"; js ", "];
       item_text := jsq "'" "{'slides':[{'title':'B','content':'<div>y</div>'}]}";
       item_value := JObj [(js "slides", JArr [b])] |} in
  parseLiveStream
    ([10%N]
     ++ (jsq "'" "{'slides':[{'title':'A','content':'<div>x</div>'}]}"
         ++ flat_map item_whole [item])
     ++ [10%N; 32%N]) false
  = {| completeSlides :=
         batch_slides (JObj [(js "slides", JArr [a])])
         ++ flat_map (fun it => batch_slides (item_value it)) [item];
       inProgressHtml := [] |}.
Proof.
  intros a b item.
  apply (parseLiveStream_separated_batches [10%N] [10%N; 32%N]
           (jsq "'" "{'slides':[{'title':'A','content':'<div>x</div>'}]}")
           (JObj [(js "slides", JArr [a])]) [item] false).
  - reflexivity.
  - reflexivity.
  - vm_compute. repeat split; reflexivity.
  - repeat constructor; vm_compute; reflexivity.
  - vm_compute. reflexivity.
Defined.

(* ================================================================== *)
(** * [cleanJsonString] *)
(* ================================================================== *)

Lemma trim_start_nonspace a t : is_js_space a = false -> trim_start (a :: t) = a :: t.
Proof. intros H. cbn [trim_start]. rewrite H. reflexivity. Qed.

Lemma trim_between w1 w2 a t u z :
  forallb is_js_space w1 = true -> forallb is_js_space w2 = true ->
  is_js_space a = false -> is_js_space z = false ->
  a :: t = u ++ [z] ->
  trim (w1 ++ (a :: t) ++ w2) = a :: t.
Proof.
  intros H1 H2 Ha Hz E. unfold trim. rewrite trim_start_spaces by exact H1.
  change ((a :: t) ++ w2) with (a :: t ++ w2). rewrite trim_start_nonspace by exact Ha.
  change (a :: t ++ w2) with ((a :: t) ++ w2).
  rewrite trim_end_spaces by exact H2.
  unfold trim_end. rewrite E, rev_app_distr. cbn [rev app].
  rewrite trim_start_nonspace by exact Hz.
  change (z :: rev u) with (rev [z] ++ rev u).
  rewrite <- rev_app_distr. apply rev_involutive.
Qed.

Lemma remove_at_start_refl p x : remove_at_start p (p ++ x) = x.
Proof.
  unfold remove_at_start. rewrite starts_with_refl.
  rewrite skipn_app, skipn_all, Nat.sub_diag. reflexivity.
Qed.

Lemma remove_at_end_refl p x : remove_at_end p (x ++ p) = x.
Proof.
  unfold remove_at_end, ends_with. rewrite rev_app_distr, starts_with_refl.
  rewrite length_app, Nat.add_sub, firstn_app, firstn_all, Nat.sub_diag.
  cbn [firstn]. apply app_nil_r.
Qed.

Lemma cleanJsonString_long_fence w1 w2 b :
  forallb is_js_space w1 = true ->
  forallb is_js_space w2 = true ->
  cleanJsonString (w1 ++ (js "```json" ++ b ++ js "```") ++ w2) = b.
Proof.
  intros H1 H2. unfold cleanJsonString.
  change (js "```json" ++ b ++ js "```")
    with (BACKTICK :: js "``json" ++ b ++ js "```").
  rewrite (trim_between w1 w2 BACKTICK (js "``json" ++ b ++ js "```")
             (js "```json" ++ b ++ js "``") BACKTICK H1 H2)
    by (try reflexivity; cbn [app]; rewrite <- !app_assoc; reflexivity).
  change (BACKTICK :: js "``json" ++ b ++ js "```")
    with (js "```json" ++ b ++ js "```").
  rewrite starts_with_refl, remove_at_start_refl. apply remove_at_end_refl.
Qed.

(** [cleanJsonString] takes a fence off a response: white space around
    it, the opening marker, long or short, and the closing marker go,
    and what stands between the markers is returned as it is, white
    space included.  A text that does not start with a marker is only
    trimmed, and keeps a marker it may end with. *)
Theorem cleanJsonString_unwraps (w1 w2 b : jsstring) :
  forallb is_js_space w1 = true ->
  forallb is_js_space w2 = true ->
  cleanJsonString (w1 ++ (js "```json" ++ b ++ js "```") ++ w2) = b
  /\ (starts_with (js "json") b = false ->
      cleanJsonString (w1 ++ (js "```" ++ b ++ js "```") ++ w2) = b)
  /\ (forall text, starts_with (js "```") (trim text) = false ->
      cleanJsonString text = trim text).
Proof.
  intros H1 H2. split; [|split].
  - apply cleanJsonString_long_fence; assumption.
  - intros Hj. unfold cleanJsonString.
    change (js "```" ++ b ++ js "```") with (BACKTICK :: js "``" ++ b ++ js "```").
    rewrite (trim_between w1 w2 BACKTICK (js "``" ++ b ++ js "```")
               (js "```" ++ b ++ js "``") BACKTICK H1 H2)
      by (try reflexivity; cbn [app]; rewrite <- !app_assoc; reflexivity).
    change (BACKTICK :: js "``" ++ b ++ js "```") with (js "```" ++ b ++ js "```").
    assert (E : starts_with (js "```json") (js "```" ++ b ++ js "```") = false).
    { change (starts_with (js "```json") (js "```" ++ b ++ js "```"))
        with (starts_with (js "json") (b ++ js "```")).
      apply starts_with_before_backtick;
        [reflexivity|right; eexists; reflexivity|exact Hj]. }
    rewrite E, starts_with_refl, remove_at_start_refl. apply remove_at_end_refl.
  - intros text H. unfold cleanJsonString. rewrite H.
    destruct (starts_with (js "```json") (trim text)) eqn:E; [|reflexivity].
    exfalso. destruct (trim text) as [|a [|b' [|c r]]];
      cbn [starts_with js map list_ascii_of_string] in *;
      repeat (rewrite ?andb_false_r in E); try discriminate.
    apply andb_true_iff in E. destruct E as [Ea E].
    apply andb_true_iff in E. destruct E as [Eb E].
    apply andb_true_iff in E. destruct E as [Ec _].
    rewrite Ea, Eb, Ec in H. discriminate.
Qed.

Lemma cleanJsonString_unwraps_witness :
  cleanJsonString ([10%N] ++ (js "```json" ++ jsq "'" "{'a':1}" ++ js "```") ++ [10%N])
  = jsq "'" "{'a':1}".
Proof.
  apply (proj1 (cleanJsonString_unwraps [10%N] [10%N] (jsq "'" "{'a':1}")
                  eq_refl eq_refl)).
Defined.

(* ================================================================== *)
(** * [JSON.parse] and white space at the end of the text *)
(* ================================================================== *)

Lemma json_ws_cases c : is_json_ws c = true -> c = 32%N \/ c = 9%N \/ c = 10%N \/ c = 13%N.
Proof.
  unfold is_json_ws. intros H.
  repeat (apply orb_true_iff in H; destruct H as [H|H]);
    apply N.eqb_eq in H; auto.
Qed.

Ltac ws_char H :=
  destruct (json_ws_cases _ H) as [-> | [-> | [-> | ->]]].

Lemma skip_ws_all w : forallb is_json_ws w = true -> skip_ws w = [].
Proof.
  induction w as [|c w IH]; intros H; [reflexivity|].
  cbn [forallb] in H. apply andb_true_iff in H. destruct H as [Hc Hw].
  cbn [skip_ws]. rewrite Hc. apply IH, Hw.
Qed.

Lemma skip_ws_app_ws w : forall s,
  forallb is_json_ws w = true ->
  skip_ws (s ++ w) = match skip_ws s with [] => [] | _ :: _ => skip_ws s ++ w end.
Proof.
  induction s as [|c s IH]; intros H.
  - cbn [app skip_ws]. apply skip_ws_all, H.
  - cbn [app skip_ws]. destruct (is_json_ws c); [apply IH, H|reflexivity].
Qed.

Lemma starts_with_app_ws w : forall p s,
  forallb (fun c => negb (is_json_ws c)) p = true ->
  forallb is_json_ws w = true ->
  starts_with p (s ++ w) = starts_with p s.
Proof.
  induction p as [|x p IH]; intros s Hp Hw; [reflexivity|].
  cbn [forallb] in Hp. apply andb_true_iff in Hp. destruct Hp as [Hx Hp].
  destruct s as [|y s].
  - cbn [app starts_with]. destruct w as [|y w]; [reflexivity|].
    cbn [forallb] in Hw. apply andb_true_iff in Hw. destruct Hw as [Hy _].
    destruct (N.eqb_spec x y) as [->|_]; [|reflexivity].
    rewrite Hy in Hx. discriminate.
  - cbn [app starts_with]. rewrite (IH s Hp Hw). reflexivity.
Qed.

Lemma skipn_literal_app p s (w : jsstring) :
  starts_with p s = true -> skipn (length p) (s ++ w) = skipn (length p) s ++ w.
Proof.
  intros H. apply starts_with_split in H. rewrite H at 1.
  rewrite <- app_assoc, skipn_app, skipn_all, Nat.sub_diag. reflexivity.
Qed.

Lemma parse_string_body_ws w :
  forallb is_json_ws w = true -> parse_string_body w = None.
Proof.
  induction w as [|c w IH]; intros H; [reflexivity|].
  cbn [forallb] in H. apply andb_true_iff in H. destruct H as [Hc Hw].
  cbn [parse_string_body]. rewrite (IH Hw). ws_char Hc; reflexivity.
Qed.

Lemma hex_value_ws c : is_json_ws c = true -> hex_value c = None.
Proof. intros H. ws_char H; reflexivity. Qed.

Lemma hex4_ws_any a b c d :
  is_json_ws a = true \/ is_json_ws b = true \/ is_json_ws c = true
  \/ is_json_ws d = true ->
  hex4 a b c d = None.
Proof.
  unfold hex4. intros [H|[H|[H|H]]]; rewrite (hex_value_ws _ H);
    repeat match goal with
           | |- context [hex_value ?x] => destruct (hex_value x)
           end; reflexivity.
Qed.

Lemma parse_string_body_app_ws w :
  forallb is_json_ws w = true ->
  forall n s, length s <= n ->
  parse_string_body (s ++ w) = followed_by w (parse_string_body s).
Proof.
  intros Hw. induction n as [|n IH]; intros s Hn.
  - destruct s; [|simpl in Hn; lia]. cbn [app parse_string_body followed_by].
    apply parse_string_body_ws, Hw.
  - destruct s as [|c s1].
    { cbn [app parse_string_body followed_by]. apply parse_string_body_ws, Hw. }
    cbn [length] in Hn. cbn [app parse_string_body].
    destruct (N.eqb c QUOTE); [reflexivity|].
    destruct (N.eqb c BACKSLASH).
    + destruct s1 as [|e s2].
      { cbn [app followed_by]. destruct w as [|e w']; [reflexivity|].
        cbn [forallb] in Hw. apply andb_true_iff in Hw. destruct Hw as [He _].
        ws_char He; reflexivity. }
      cbn [app length] in *. destruct (N.eqb e 117).
      * destruct s2 as [|h1 [|h2 [|h3 [|h4 s3]]]]; cbn [app followed_by].
        -- destruct w as [|a [|b [|c' [|d w']]]]; try reflexivity.
           cbn [forallb] in Hw. apply andb_true_iff in Hw. destruct Hw as [Ha _].
           rewrite hex4_ws_any by (left; exact Ha). reflexivity.
        -- destruct w as [|a [|b [|c' w']]]; try reflexivity.
           cbn [forallb] in Hw. apply andb_true_iff in Hw. destruct Hw as [Ha _].
           rewrite hex4_ws_any by (right; left; exact Ha). reflexivity.
        -- destruct w as [|a [|b w']]; try reflexivity.
           cbn [forallb] in Hw. apply andb_true_iff in Hw. destruct Hw as [Ha _].
           rewrite hex4_ws_any by (right; right; left; exact Ha). reflexivity.
        -- destruct w as [|a w']; try reflexivity.
           cbn [forallb] in Hw. apply andb_true_iff in Hw. destruct Hw as [Ha _].
           rewrite hex4_ws_any by (right; right; right; exact Ha). reflexivity.
        -- destruct (hex4 h1 h2 h3 h4); [|reflexivity].
           rewrite (IH s3) by (cbn [length] in Hn; lia).
           destruct (parse_string_body s3) as [[str r]|]; reflexivity.
      * destruct (simple_escape e); [|reflexivity].
        rewrite (IH s2) by lia.
        destruct (parse_string_body s2) as [[str r]|]; reflexivity.
    + destruct (N.ltb c 32); [reflexivity|].
      rewrite (IH s1) by lia.
      destruct (parse_string_body s1) as [[str r]|]; reflexivity.
Qed.

Lemma take_digits_ws w :
  forallb is_json_ws w = true -> take_digits w = ([], w).
Proof.
  destruct w as [|c w]; [reflexivity|]. intros H.
  cbn [forallb] in H. apply andb_true_iff in H. destruct H as [Hc _].
  cbn [take_digits]. ws_char Hc; reflexivity.
Qed.

Lemma take_digits_app_ws w : forall s,
  forallb is_json_ws w = true ->
  take_digits (s ++ w) = (fst (take_digits s), snd (take_digits s) ++ w).
Proof.
  induction s as [|c s IH]; intros H.
  - cbn [app take_digits fst snd]. apply take_digits_ws, H.
  - cbn [app take_digits]. destruct (is_digit c); [|reflexivity].
    rewrite (IH H). destruct (take_digits s) as [ds r]. reflexivity.
Qed.

Lemma parse_number_ws w : forallb is_json_ws w = true -> parse_number w = None.
Proof.
  destruct w as [|c w]; [reflexivity|]. intros H.
  cbn [forallb] in H. apply andb_true_iff in H. destruct H as [Hc _].
  ws_char Hc; reflexivity.
Qed.

Lemma parse_number_app_ws w s :
  forallb is_json_ws w = true ->
  parse_number (s ++ w) = followed_by w (parse_number s).
Proof.
  intros Hw. destruct s as [|c s'].
  { cbn [app]. rewrite (parse_number_ws w Hw). reflexivity. }
  unfold parse_number.
  assert (Hsign : exists neg s1,
            match (c :: s') ++ w with
            | x :: t => if N.eqb x 45 then (true, t) else (false, (c :: s') ++ w)
            | [] => (false, (c :: s') ++ w)
            end = (neg, s1 ++ w)
            /\ match c :: s' with
               | x :: t => if N.eqb x 45 then (true, t) else (false, c :: s')
               | [] => (false, c :: s')
               end = (neg, s1)).
  { cbn [app]. destruct (N.eqb c 45).
    - exists true, s'. split; reflexivity.
    - exists false, (c :: s'). split; reflexivity. }
  destruct Hsign as (neg & s1 & E1 & E2).
  cbn [app] in E1 |- *. rewrite E1, E2. clear E1 E2 c s'.
  destruct s1 as [|d s2].
  { cbn [app followed_by]. destruct w as [|d w']; [reflexivity|].
    cbn [forallb] in Hw. apply andb_true_iff in Hw. destruct Hw as [Hd _].
    ws_char Hd; reflexivity. }
  cbn [app]. destruct (is_digit d); [|reflexivity].
  assert (Hint : (if N.eqb d 48 then ([0%Z], s2 ++ w)
                  else let '(ds, r) := take_digits (s2 ++ w) in
                       (Z.of_N (d - 48) :: ds, r))
                 = (fst (if N.eqb d 48 then ([0%Z], s2)
                         else let '(ds, r) := take_digits s2 in
                              (Z.of_N (d - 48) :: ds, r)),
                    snd (if N.eqb d 48 then ([0%Z], s2)
                         else let '(ds, r) := take_digits s2 in
                              (Z.of_N (d - 48) :: ds, r)) ++ w)).
  { destruct (N.eqb d 48); [reflexivity|].
    rewrite (take_digits_app_ws w s2 Hw).
    destruct (take_digits s2) as [ds r]. reflexivity. }
  rewrite Hint. clear Hint.
  destruct (if N.eqb d 48 then ([0%Z], s2)
            else let '(ds, r) := take_digits s2 in (Z.of_N (d - 48) :: ds, r))
    as [ints r1].
  cbn [fst snd]. clear d s2.
  assert (Hfrac : match r1 ++ w with
                  | p :: r2 =>
                      if N.eqb p 46 then
                        match take_digits r2 with
                        | ([], _) => None
                        | (fs, r3) => Some (fs, r3)
                        end
                      else Some ([], r1 ++ w)
                  | [] => Some ([], r1 ++ w)
                  end
                  = followed_by w
                      match r1 with
                      | p :: r2 =>
                          if N.eqb p 46 then
                            match take_digits r2 with
                            | ([], _) => None
                            | (fs, r3) => Some (fs, r3)
                            end
                          else Some ([], r1)
                      | [] => Some ([], r1)
                      end).
  { destruct r1 as [|p r2].
    - cbn [app followed_by]. destruct w as [|p w']; [reflexivity|].
      assert (Hp : is_json_ws p = true).
      { cbn [forallb] in Hw. apply andb_true_iff in Hw. apply Hw. }
      ws_char Hp; reflexivity.
    - cbn [app]. destruct (N.eqb p 46); [|reflexivity].
      rewrite (take_digits_app_ws w r2 Hw).
      destruct (take_digits r2) as [[|z l] r3]; reflexivity. }
  rewrite Hfrac. clear Hfrac.
  match goal with
  | |- context [followed_by w ?x] => destruct x as [[fs r3]|]
  end; [|reflexivity].
  cbn [followed_by]. clear r1.
  assert (Hex : match r3 ++ w with
                | e :: r4 =>
                    if N.eqb e 101 || N.eqb e 69 then
                      let '(eneg, r5) :=
                        match r4 with
                        | sg :: r' =>
                            if N.eqb sg 45 then (true, r')
                            else if N.eqb sg 43 then (false, r')
                            else (false, r4)
                        | [] => (false, r4)
                        end in
                      match take_digits r5 with
                      | ([], _) => None
                      | (es, r6) =>
                          Some ((if eneg then - digits_value es
                                 else digits_value es)%Z, r6)
                      end
                    else Some (0%Z, r3 ++ w)
                | [] => Some (0%Z, r3 ++ w)
                end
                = followed_by w
                    match r3 with
                    | e :: r4 =>
                        if N.eqb e 101 || N.eqb e 69 then
                          let '(eneg, r5) :=
                            match r4 with
                            | sg :: r' =>
                                if N.eqb sg 45 then (true, r')
                                else if N.eqb sg 43 then (false, r')
                                else (false, r4)
                            | [] => (false, r4)
                            end in
                          match take_digits r5 with
                          | ([], _) => None
                          | (es, r6) =>
                              Some ((if eneg then - digits_value es
                                     else digits_value es)%Z, r6)
                          end
                        else Some (0%Z, r3)
                    | [] => Some (0%Z, r3)
                    end).
  { destruct r3 as [|e r4].
    - cbn [app followed_by]. destruct w as [|e w']; [reflexivity|].
      assert (He : is_json_ws e = true).
      { cbn [forallb] in Hw. apply andb_true_iff in Hw. apply Hw. }
      ws_char He; reflexivity.
    - cbn [app]. destruct (N.eqb e 101 || N.eqb e 69); [|reflexivity].
      destruct r4 as [|sg r'].
      + cbn [app].
        destruct w as [|sg w']; [reflexivity|].
        assert (Hg : is_json_ws sg = true).
        { cbn [forallb] in Hw. apply andb_true_iff in Hw. apply Hw. }
        pose proof (take_digits_ws (sg :: w') Hw) as T.
        ws_char Hg; cbn [N.eqb Pos.eqb]; rewrite T; reflexivity.
      + cbn [app]. destruct (N.eqb sg 45).
        * rewrite (take_digits_app_ws w r' Hw).
          destruct (take_digits r') as [[|z l] r6]; reflexivity.
        * destruct (N.eqb sg 43).
          -- rewrite (take_digits_app_ws w r' Hw).
             destruct (take_digits r') as [[|z l] r6]; reflexivity.
          -- change (sg :: r' ++ w) with ((sg :: r') ++ w).
             rewrite (take_digits_app_ws w (sg :: r') Hw).
             destruct (take_digits (sg :: r')) as [[|z l] r6]; reflexivity. }
  rewrite Hex. clear Hex.
  match goal with
  | |- context [followed_by w ?x] => destruct x as [[e r6]|]
  end; reflexivity.
Qed.

Lemma parse_value_ws fuel w : forallb is_json_ws w = true -> parse_value fuel w = None.
Proof.
  intros Hw. destruct fuel as [|f]; [reflexivity|].
  destruct w as [|c w']; [reflexivity|].
  pose proof (parse_number_ws _ Hw) as Pn.
  cbn [forallb] in Hw. apply andb_true_iff in Hw. destruct Hw as [Hc _].
  cbn [parse_value].
  ws_char Hc; cbn [N.eqb Pos.eqb LBRACE LBRACKET QUOTE]; rewrite Pn; reflexivity.
Qed.

(** White space after the text is left where it is by the three
    parsers. *)
Lemma parse_app_ws w :
  forallb is_json_ws w = true ->
  forall fuel,
  (forall s, parse_value fuel (s ++ w) = followed_by w (parse_value fuel s))
  /\ (forall s, parse_elements fuel (s ++ w) = followed_by w (parse_elements fuel s))
  /\ (forall s, parse_members fuel (s ++ w) = followed_by w (parse_members fuel s)).
Proof.
  intros Hw. induction fuel as [|f (IHv & IHe & IHm)]; [repeat split; reflexivity|].
  split; [|split].
  - intros s. destruct s as [|c s1].
    { cbn [app]. rewrite (parse_value_ws (S f) w Hw). reflexivity. }
    cbn [app parse_value].
    destruct (N.eqb c LBRACE).
    { rewrite (skip_ws_app_ws w s1 Hw).
      destruct (skip_ws s1) as [|d s2]; [reflexivity|]. cbn [app].
      destruct (N.eqb d RBRACE); [reflexivity|].
      change (d :: s2 ++ w) with ((d :: s2) ++ w). rewrite IHm.
      destruct (parse_members f (d :: s2)) as [[ms r]|]; reflexivity. }
    destruct (N.eqb c LBRACKET).
    { rewrite (skip_ws_app_ws w s1 Hw).
      destruct (skip_ws s1) as [|d s2]; [reflexivity|]. cbn [app].
      destruct (N.eqb d RBRACKET); [reflexivity|].
      change (d :: s2 ++ w) with ((d :: s2) ++ w). rewrite IHe.
      destruct (parse_elements f (d :: s2)) as [[vs r]|]; reflexivity. }
    destruct (N.eqb c QUOTE).
    { rewrite (parse_string_body_app_ws w Hw _ s1 (le_n _)).
      destruct (parse_string_body s1) as [[str r]|]; reflexivity. }
    change (c :: s1 ++ w) with ((c :: s1) ++ w).
    rewrite !(starts_with_app_ws w _ (c :: s1)) by (try exact Hw; reflexivity).
    destruct (starts_with (js "true") (c :: s1)) eqn:Et.
    { cbn [followed_by]. f_equal. f_equal.
      apply (skipn_literal_app (js "true") _ w Et). }
    destruct (starts_with (js "false") (c :: s1)) eqn:Ef.
    { cbn [followed_by]. f_equal. f_equal.
      apply (skipn_literal_app (js "false") _ w Ef). }
    destruct (starts_with (js "null") (c :: s1)) eqn:En.
    { cbn [followed_by]. f_equal. f_equal.
      apply (skipn_literal_app (js "null") _ w En). }
    rewrite (parse_number_app_ws w (c :: s1) Hw).
    destruct (parse_number (c :: s1)) as [[n r]|]; reflexivity.
  - intros s. cbn [parse_elements]. rewrite IHv.
    destruct (parse_value f s) as [[v r0]|]; [|reflexivity]. cbn [followed_by].
    rewrite (skip_ws_app_ws w r0 Hw).
    destruct (skip_ws r0) as [|d r2]; [reflexivity|]. cbn [app].
    destruct (N.eqb d COMMA).
    + rewrite (skip_ws_app_ws w r2 Hw).
      destruct (skip_ws r2) as [|x r3] eqn:E.
      * assert (En : parse_elements f [] = None) by (destruct f as [|[|f']]; reflexivity).
        rewrite En. reflexivity.
      * rewrite IHe. destruct (parse_elements f (x :: r3)) as [[vs r]|]; reflexivity.
    + destruct (N.eqb d RBRACKET); reflexivity.
  - intros s. destruct s as [|q s1].
    { cbn [app followed_by parse_members]. destruct w as [|q w']; [reflexivity|].
      assert (Hq : is_json_ws q = true).
      { cbn [forallb] in Hw. apply andb_true_iff in Hw. apply Hw. }
      cbn [parse_members]. ws_char Hq; reflexivity. }
    cbn [app parse_members].
    destruct (N.eqb q QUOTE); [|reflexivity].
    rewrite (parse_string_body_app_ws w Hw _ s1 (le_n _)).
    destruct (parse_string_body s1) as [[k r]|]; [|reflexivity]. cbn [followed_by].
    rewrite (skip_ws_app_ws w r Hw).
    destruct (skip_ws r) as [|col r1]; [reflexivity|]. cbn [app].
    destruct (N.eqb col COLON); [|reflexivity].
    assert (Hv : parse_value f (skip_ws (r1 ++ w))
                 = followed_by w (parse_value f (skip_ws r1))).
    { rewrite (skip_ws_app_ws w r1 Hw).
      destruct (skip_ws r1) as [|x r'] eqn:E; [|apply IHv].
      assert (En : parse_value f [] = None) by (destruct f; reflexivity).
      rewrite En. reflexivity. }
    rewrite Hv. clear Hv.
    destruct (parse_value f (skip_ws r1)) as [[v r2]|]; [|reflexivity].
    cbn [followed_by].
    rewrite (skip_ws_app_ws w r2 Hw).
    destruct (skip_ws r2) as [|d r3]; [reflexivity|]. cbn [app].
    destruct (N.eqb d COMMA).
    + assert (Hm : parse_members f (skip_ws (r3 ++ w))
                   = followed_by w (parse_members f (skip_ws r3))).
      { rewrite (skip_ws_app_ws w r3 Hw).
        destruct (skip_ws r3) as [|x r'] eqn:E; [|apply IHm].
        assert (En : parse_members f [] = None) by (destruct f; reflexivity).
        rewrite En. reflexivity. }
      rewrite Hm. destruct (parse_members f (skip_ws r3)) as [[ms r4]|]; reflexivity.
    + destruct (N.eqb d RBRACE); reflexivity.
Qed.

Lemma parse_value_adequate f f' s :
  2 * length s + 1 <= f -> 2 * length s + 1 <= f' ->
  parse_value f s = parse_value f' s.
Proof.
  intros H H'. destruct (parse_value f s) as [x|] eqn:E.
  - symmetry. apply (proj1 (parse_fuel f) s x E f' H').
  - destruct (parse_value f' s) as [y|] eqn:E'; [|reflexivity].
    rewrite (proj1 (parse_fuel f') s y E' f H) in E. discriminate.
Qed.

Lemma skip_ws_leading w s : forallb is_json_ws w = true -> skip_ws (w ++ s) = skip_ws s.
Proof.
  induction w as [|c w IH]; intros H; [reflexivity|].
  cbn [forallb] in H. apply andb_true_iff in H. destruct H as [Hc Hw].
  cbn [app skip_ws]. rewrite Hc. apply IH, Hw.
Qed.

(** [JSON.parse] reads a text with white space around it as it reads
    the text. *)
Lemma JSON_parse_ws w1 w2 t :
  forallb is_json_ws w1 = true -> forallb is_json_ws w2 = true ->
  JSON_parse (w1 ++ t ++ w2) = JSON_parse t.
Proof.
  intros H1 H2. unfold JSON_parse.
  rewrite (skip_ws_leading w1 _ H1), (skip_ws_app_ws w2 t H2).
  pose proof (length_skip_ws t) as L.
  destruct (skip_ws t) as [|c s] eqn:E.
  - rewrite (parse_value_adequate _ (2 * length t + 2) []) by (simpl; lia).
    reflexivity.
  - rewrite (proj1 (parse_app_ws w2 H2 _)).
    rewrite (parse_value_adequate _ (2 * length t + 2) (c :: s))
      by (rewrite ?length_app; lia).
    destruct (parse_value _ (c :: s)) as [[v r]|]; [|reflexivity].
    cbn [followed_by]. rewrite (skip_ws_app_ws w2 r H2).
    destruct (skip_ws r); reflexivity.
Qed.

(** A response wrapped in a fence, with white space around the fence
    and around the JSON text inside it, is read by
    [JSON.parse(cleanJsonString(text))] as the JSON text alone is read
    by [JSON.parse]: the same value, or the same refusal. *)
Theorem JSON_parse_cleanJsonString_fenced (a b w1 w2 t : jsstring) :
  forallb is_js_space a = true -> forallb is_js_space b = true ->
  forallb is_json_ws w1 = true -> forallb is_json_ws w2 = true ->
  JSON_parse (cleanJsonString (a ++ (js "```json" ++ (w1 ++ t ++ w2) ++ js "```") ++ b))
  = JSON_parse t.
Proof.
  intros Ha Hb H1 H2. rewrite (cleanJsonString_long_fence a b _ Ha Hb).
  apply JSON_parse_ws; assumption.
Qed.

Lemma JSON_parse_cleanJsonString_fenced_witness :
  JSON_parse (cleanJsonString
                ([] ++ (js "```json" ++ ([10%N] ++ jsq "'" "{'outline':[]}" ++ [10%N])
                        ++ js "```") ++ [10%N]))
  = JSON_parse (jsq "'" "{'outline':[]}").
Proof.
  apply (JSON_parse_cleanJsonString_fenced [] [10%N] [10%N] [10%N]
           (jsq "'" "{'outline':[]}")); reflexivity.
Defined.

(* ================================================================== *)
(** * Percent-encoding and decoding *)
(* ================================================================== *)

Ltac divlia := zify; Z.to_euclidean_division_equations; lia.

Lemma hex_value_hex_digit n : (n < 16)%N -> hex_value (hex_digit n) = Some n.
Proof.
  intros H. unfold hex_digit, hex_value.
  destruct (N.ltb_spec n 10).
  - replace ((48 <=? 48 + n) && (48 + n <=? 57))%N with true
      by (symmetry; apply andb_true_iff; split; apply N.leb_le; lia).
    f_equal. lia.
  - replace ((48 <=? 55 + n) && (55 + n <=? 57))%N with false
      by (symmetry; apply andb_false_iff; right; apply N.leb_gt; lia).
    replace ((65 <=? 55 + n) && (55 + n <=? 70))%N with true
      by (symmetry; apply andb_true_iff; split; apply N.leb_le; lia).
    f_equal. lia.
Qed.

Lemma read_percent_byte b r :
  (b < 256)%N -> read_percent (percent_byte b ++ r) = Some (b, r).
Proof.
  intros H. unfold percent_byte. cbn [app read_percent].
  rewrite N.eqb_refl.
  rewrite !hex_value_hex_digit by divlia.
  f_equal. f_equal. divlia.
Qed.

Lemma decode_escape_1 c r :
  (c < 128)%N -> decode_escape (percent_byte c ++ r) = Some ([c], 3).
Proof.
  intros H. unfold decode_escape. rewrite read_percent_byte by lia.
  destruct (N.ltb_spec c 128); [reflexivity|lia].
Qed.

Lemma ltb_false a b : (b <= a)%N -> (a <? b)%N = false.
Proof. intros. apply N.ltb_ge. assumption. Qed.

Lemma ltb_true a b : (a < b)%N -> (a <? b)%N = true.
Proof. intros. apply N.ltb_lt. assumption. Qed.

Lemma continuation_byte x r acc n :
  (x < 64)%N ->
  read_continuation (S n) acc (percent_byte (128 + x) ++ r)
  = read_continuation n (acc * 64 + x)%N r.
Proof.
  intros H. cbn [read_continuation]. rewrite read_percent_byte by lia.
  replace ((128 <=? 128 + x) && (128 + x <=? 191))%N with true
    by (symmetry; apply andb_true_iff; split; apply N.leb_le; lia).
  f_equal. lia.
Qed.

Lemma decode_escape_2 cp r :
  (128 <= cp < 2048)%N ->
  decode_escape (flat_map percent_byte (utf8 cp) ++ r) = Some ([cp], 6).
Proof.
  intros H. unfold utf8.
  rewrite (ltb_false cp 128), (ltb_true cp 2048) by lia.
  cbn [flat_map]. rewrite app_nil_r, <- app_assoc.
  unfold decode_escape. rewrite read_percent_byte by divlia.
  rewrite (ltb_false _ 128), (ltb_false _ 192), (ltb_true _ 224) by divlia.
  rewrite continuation_byte by divlia. cbn [read_continuation].
  replace ((192 + cp / 64 - 192) * 64 + cp mod 64)%N with cp by divlia.
  destruct (N.leb_spec 128 cp); [reflexivity|lia].
Qed.

Lemma decode_escape_3 cp r :
  (2048 <= cp < 65536)%N -> (cp < 55296 \/ 57343 < cp)%N ->
  decode_escape (flat_map percent_byte (utf8 cp) ++ r) = Some ([cp], 9).
Proof.
  intros H Hs. unfold utf8.
  rewrite (ltb_false cp 128), (ltb_false cp 2048), (ltb_true cp 65536) by lia.
  cbn [flat_map]. rewrite app_nil_r, <- !app_assoc.
  unfold decode_escape. rewrite read_percent_byte by divlia.
  rewrite (ltb_false _ 128), (ltb_false _ 192), (ltb_false _ 224), (ltb_true _ 240)
    by divlia.
  rewrite continuation_byte by divlia.
  rewrite continuation_byte by divlia. cbn [read_continuation].
  replace (((224 + cp / 4096 - 224) * 64 + cp / 64 mod 64) * 64 + cp mod 64)%N
    with cp by divlia.
  replace ((2048 <=? cp) && negb ((55296 <=? cp) && (cp <=? 57343)))%N with true;
    [reflexivity|].
  symmetry. apply andb_true_iff. split; [apply N.leb_le; lia|].
  apply negb_true_iff, andb_false_iff.
  destruct Hs; [left; apply N.leb_gt|right; apply N.leb_gt]; lia.
Qed.

Lemma split64 x : (x = 64 * (x / 64) + x mod 64 /\ x mod 64 < 64)%N.
Proof. split; [apply N.div_mod; lia|apply N.mod_lt; lia]. Qed.

Lemma join64 cp :
  ((((cp / 262144) * 64 + (cp / 4096) mod 64) * 64 + (cp / 64) mod 64) * 64
   + cp mod 64 = cp)%N.
Proof.
  replace (cp / 4096)%N with (cp / 64 / 64)%N
    by (rewrite N.Div0.div_div; reflexivity).
  replace (cp / 262144)%N with (cp / 64 / 64 / 64)%N
    by (rewrite !N.Div0.div_div; reflexivity).
  destruct (split64 cp), (split64 (cp / 64)), (split64 (cp / 64 / 64)). lia.
Qed.

Lemma surrogates_of_pair c d :
  (55296 <= c <= 56319)%N -> (56320 <= d <= 57343)%N ->
  let cp := ((c - 55296) * 1024 + (d - 56320) + 65536)%N in
  (55296 + (cp - 65536) / 1024 = c /\ 56320 + (cp - 65536) mod 1024 = d)%N.
Proof.
  intros Hc Hd cp. subst cp.
  replace ((c - 55296) * 1024 + (d - 56320) + 65536 - 65536)%N
    with ((d - 56320) + (c - 55296) * 1024)%N by lia.
  rewrite N.div_add by lia. rewrite N.Div0.mod_add.
  rewrite N.div_small by lia. rewrite N.mod_small by lia. lia.
Qed.

Lemma decode_escape_4 c d r :
  (55296 <= c <= 56319)%N -> (56320 <= d <= 57343)%N ->
  decode_escape
    (flat_map percent_byte (utf8 ((c - 55296) * 1024 + (d - 56320) + 65536)%N) ++ r)
  = Some ([c; d], 12).
Proof.
  intros Hc Hd.
  destruct (surrogates_of_pair c d Hc Hd) as [E1 E2].
  set (cp := ((c - 55296) * 1024 + (d - 56320) + 65536)%N) in *.
  assert (Hcp : (65536 <= cp <= 1114111)%N) by (unfold cp; lia).
  clearbody cp. unfold utf8.
  rewrite (ltb_false cp 128), (ltb_false cp 2048), (ltb_false cp 65536) by lia.
  cbn [flat_map]. rewrite app_nil_r, <- !app_assoc.
  assert (Hq : (cp / 262144 < 5)%N) by divlia.
  remember (cp / 262144)%N as q eqn:Eq.
  unfold decode_escape. rewrite read_percent_byte by lia.
  rewrite (ltb_false _ 128), (ltb_false _ 192), (ltb_false _ 224), (ltb_false _ 240),
    (ltb_true _ 248) by lia.
  rewrite continuation_byte by (apply N.mod_lt; lia).
  rewrite continuation_byte by (apply N.mod_lt; lia).
  rewrite continuation_byte by (apply N.mod_lt; lia).
  cbn [read_continuation].
  replace (240 + q - 240)%N with q by lia.
  rewrite Eq, join64.
  replace ((65536 <=? cp) && (cp <=? 1114111))%N with true
    by (symmetry; apply andb_true_iff; split; apply N.leb_le; lia).
  rewrite E1, E2. reflexivity.
Qed.

Lemma decode_from_skip : forall a r,
  decode_from (length a) (a ++ r) = decode_from 0 r.
Proof.
  induction a as [|c a IH]; intros r; [|cbn [length app decode_from]; apply IH].
  cbn [length app]. reflexivity.
Qed.

(** An escape sequence at the head of the text is replaced by the code
    units it stands for. *)
Lemma decode_from_escape tail units r :
  decode_escape ((PERCENT :: tail) ++ r) = Some (units, S (length tail)) ->
  decode_from 0 ((PERCENT :: tail) ++ r)
  = match decode_from 0 r with
    | Some x => Some (units ++ x)
    | None => None
    end.
Proof.
  intros H. cbn [app decode_from]. rewrite N.eqb_refl.
  cbn [app] in H. rewrite H.
  replace (S (length tail) - 1) with (length tail) by lia.
  rewrite decode_from_skip. reflexivity.
Qed.

Lemma percent_bytes_shape bs :
  bs <> [] ->
  exists tail, flat_map percent_byte bs = PERCENT :: tail
               /\ S (length tail) = 3 * length bs.
Proof.
  destruct bs as [|b bs]; [contradiction|]. intros _.
  cbn [flat_map]. unfold percent_byte at 1. cbn [app].
  eexists. split; [reflexivity|].
  assert (L : length (flat_map percent_byte bs) = 3 * length bs).
  { induction bs as [|x bs IH]; [reflexivity|].
    cbn [flat_map length]. rewrite length_app, IH. cbn [percent_byte length]. lia. }
  cbn [length]. rewrite L. lia.
Qed.

Lemma utf8_length cp :
  length (utf8 cp)
  = if (cp <? 128)%N then 1 else if (cp <? 2048)%N then 2
    else if (cp <? 65536)%N then 3 else 4.
Proof.
  unfold utf8. destruct (cp <? 128)%N; [reflexivity|].
  destruct (cp <? 2048)%N; [reflexivity|].
  destruct (cp <? 65536)%N; reflexivity.
Qed.

Lemma utf8_nonempty cp : utf8 cp <> [].
Proof.
  intros E. pose proof (utf8_length cp) as L. rewrite E in L.
  destruct (cp <? 128)%N; [discriminate|].
  destruct (cp <? 2048)%N; [discriminate|].
  destruct (cp <? 65536)%N; discriminate.
Qed.

Lemma utf8_bytes cp :
  (cp < 2097152)%N -> Forall (fun b => (b < 256)%N) (utf8 cp).
Proof.
  intros H. unfold utf8.
  destruct (N.ltb_spec cp 128); [repeat constructor; lia|].
  destruct (N.ltb_spec cp 2048); [repeat constructor; divlia|].
  destruct (N.ltb_spec cp 65536); [repeat constructor; divlia|].
  repeat constructor; try (pose proof (N.mod_lt (cp / 4096) 64);
                           pose proof (N.mod_lt (cp / 64) 64);
                           pose proof (N.mod_lt cp 64); lia).
  assert (cp / 262144 < 8)%N by divlia. lia.
Qed.

(** The escape sequences of a code point at the head of the text. *)
Lemma decode_from_utf8 cp units r :
  decode_escape (flat_map percent_byte (utf8 cp) ++ r)
  = Some (units, 3 * length (utf8 cp)) ->
  decode_from 0 (flat_map percent_byte (utf8 cp) ++ r)
  = match decode_from 0 r with
    | Some x => Some (units ++ x)
    | None => None
    end.
Proof.
  intros H.
  destruct (percent_bytes_shape (utf8 cp) (utf8_nonempty cp)) as [tail [E L]].
  rewrite E in *. apply decode_from_escape. rewrite L. exact H.
Qed.

Lemma unreserved_small c : is_unreserved c = true -> (c < 128)%N.
Proof.
  unfold is_unreserved, is_alnum. intros H.
  repeat (apply orb_true_iff in H; destruct H as [H|H]);
    repeat (apply andb_true_iff in H; destruct H as [H ?]);
    repeat match goal with
           | E : (_ <=? _)%N = true |- _ => apply N.leb_le in E
           | E : (_ =? _)%N = true |- _ => apply N.eqb_eq in E
           end; lia.
Qed.

Section MapDecode.

(** A change [f] of single characters that leaves the escape sequences
    alone. *)
Variable f : char -> char.
Hypothesis f_percent : f PERCENT = PERCENT.
Hypothesis f_hex : forall n, (n < 16)%N -> f (hex_digit n) = hex_digit n.
Hypothesis f_unreserved : forall c, is_unreserved c = true -> f c <> PERCENT.

Lemma map_percent_bytes : forall bs,
  Forall (fun b => (b < 256)%N) bs ->
  map f (flat_map percent_byte bs) = flat_map percent_byte bs.
Proof.
  induction 1 as [|b bs Hb _ IH]; [reflexivity|].
  cbn [flat_map]. rewrite map_app, IH. f_equal.
  unfold percent_byte. cbn [map]. rewrite f_percent, !f_hex by divlia. reflexivity.
Qed.

(** Decoding what was encoded, after [f] was applied to the encoded
    text, gives the text with [f] applied to its unreserved
    characters. *)
Lemma decode_map_encode : forall n s e,
  length s <= n ->
  code_units s = true ->
  encodeURIComponent s = Some e ->
  decode_from 0 (map f e)
  = Some (map (fun c => if is_unreserved c then f c else c) s).
Proof.
  induction n as [|n IH]; intros s e Hn Hu He.
  - destruct s; [|simpl in Hn; lia]. injection He as <-. reflexivity.
  - destruct s as [|c s1]; [injection He as <-; reflexivity|].
    cbn [length] in Hn. cbn [code_units forallb] in Hu.
    apply andb_true_iff in Hu. destruct Hu as [Hc Hu]. apply N.ltb_lt in Hc.
    cbn [encodeURIComponent] in He. cbn [map].
    destruct (is_unreserved c) eqn:Eu.
    + destruct (encodeURIComponent s1) as [r|] eqn:Er; [|discriminate].
      injection He as <-. cbn [map decode_from].
      destruct (N.eqb_spec (f c) PERCENT) as [E|_];
        [exfalso; exact (f_unreserved c Eu E)|].
      rewrite (IH s1 r) by (try assumption; lia). reflexivity.
    + destruct (is_low_surrogate c) eqn:El; [discriminate|].
      destruct (is_high_surrogate c) eqn:Eh.
      * destruct s1 as [|d s2]; [discriminate|].
        destruct (is_low_surrogate d) eqn:Ed; [|discriminate].
        destruct (encodeURIComponent s2) as [r|] eqn:Er; [|discriminate].
        injection He as <-.
        cbn [code_units forallb] in Hu. apply andb_true_iff in Hu.
        destruct Hu as [_ Hu].
        unfold is_high_surrogate in Eh. unfold is_low_surrogate in Ed.
        apply andb_true_iff in Eh. destruct Eh as [Eh1 Eh2].
        apply andb_true_iff in Ed. destruct Ed as [Ed1 Ed2].
        apply N.leb_le in Eh1, Eh2, Ed1, Ed2.
        set (cp := ((c - 55296) * 1024 + (d - 56320) + 65536)%N).
        assert (Hcp : (65536 <= cp < 2097152)%N) by (unfold cp; lia).
        rewrite map_app, (map_percent_bytes _ (utf8_bytes cp ltac:(lia))).
        rewrite (decode_from_utf8 cp [c; d]).
        2:{ rewrite utf8_length.
            rewrite (ltb_false cp 128), (ltb_false cp 2048), (ltb_false cp 65536)
              by lia.
            apply decode_escape_4; lia. }
        rewrite (IH s2 r) by (try assumption; cbn [length] in Hn; lia).
        cbn [map app].
        destruct (is_unreserved d) eqn:Eud;
          [apply unreserved_small in Eud; lia|reflexivity].
      * destruct (encodeURIComponent s1) as [r|] eqn:Er; [|discriminate].
        injection He as <-.
        unfold is_high_surrogate in Eh. unfold is_low_surrogate in El.
        rewrite map_app, (map_percent_bytes _ (utf8_bytes c ltac:(lia))).
        rewrite (decode_from_utf8 c [c]).
        2:{ rewrite utf8_length.
            destruct (N.ltb_spec c 128).
            - unfold utf8. rewrite (ltb_true c 128) by lia. cbn [flat_map].
              rewrite app_nil_r. apply decode_escape_1. lia.
            - destruct (N.ltb_spec c 2048); [apply decode_escape_2; lia|].
              rewrite (ltb_true c 65536) by lia.
              apply decode_escape_3; [lia|].
              apply andb_false_iff in Eh, El.
              destruct Eh as [Eh|Eh], El as [El|El];
                try apply N.leb_gt in Eh; try apply N.leb_gt in El; lia. }
        rewrite (IH s1 r) by (try assumption; lia). reflexivity.
Qed.

End MapDecode.

(** What was encoded decodes to the text it came from. *)
Lemma decode_encode s e :
  code_units s = true ->
  encodeURIComponent s = Some e ->
  decodeURIComponent e = Some s.
Proof.
  intros Hu He. unfold decodeURIComponent.
  pose proof (decode_map_encode (fun c => c) eq_refl (fun n _ => eq_refl)) as H.
  rewrite <- (map_id e).
  rewrite (H ltac:(intros c Hc E; cbv beta in E; subst c; discriminate)
             (length s) s e (le_n _) Hu He).
  f_equal. rewrite <- (map_id s) at 2. apply map_ext.
  intros c. destruct (is_unreserved c); reflexivity.
Qed.

(* ================================================================== *)
(** * [transformPollinationsURLs] on an encoded description *)
(* ================================================================== *)

Lemma is_unreserved_hex_digit n : (n < 16)%N -> is_unreserved (hex_digit n) = true.
Proof.
  intros H. unfold hex_digit, is_unreserved, is_alnum.
  destruct (N.ltb_spec n 10).
  - replace ((48 <=? 48 + n) && (48 + n <=? 57))%N with true
      by (symmetry; apply andb_true_iff; split; apply N.leb_le; lia).
    reflexivity.
  - replace ((65 <=? 55 + n) && (55 + n <=? 90))%N with true
      by (symmetry; apply andb_true_iff; split; apply N.leb_le; lia).
    rewrite orb_true_r. reflexivity.
Qed.

Lemma percent_bytes_chars : forall bs,
  Forall (fun b => (b < 256)%N) bs ->
  Forall (fun c => is_unreserved c = true \/ c = PERCENT) (flat_map percent_byte bs).
Proof.
  induction 1 as [|b bs Hb _ IH]; [constructor|].
  cbn [flat_map]. apply Forall_app. split; [|exact IH].
  unfold percent_byte.
  constructor; [right; reflexivity|].
  constructor; [left; apply is_unreserved_hex_digit; divlia|].
  constructor; [left; apply is_unreserved_hex_digit; divlia|constructor].
Qed.

(** What [encodeURIComponent] writes: unreserved characters and percent
    signs. *)
Lemma encode_chars : forall n s e,
  length s <= n -> code_units s = true ->
  encodeURIComponent s = Some e ->
  Forall (fun c => is_unreserved c = true \/ c = PERCENT) e
  /\ (s <> [] -> e <> []).
Proof.
  induction n as [|n IH]; intros s e Hn Hu He.
  - destruct s; [|simpl in Hn; lia]. injection He as <-.
    split; [constructor|intros F; contradiction].
  - destruct s as [|c s1].
    { injection He as <-. split; [constructor|intros F; contradiction]. }
    cbn [length] in Hn. cbn [code_units forallb] in Hu.
    apply andb_true_iff in Hu. destruct Hu as [Hc Hu]. apply N.ltb_lt in Hc.
    cbn [encodeURIComponent] in He.
    destruct (is_unreserved c) eqn:Eu.
    + destruct (encodeURIComponent s1) as [r|] eqn:Er; [|discriminate].
      injection He as <-. split; [|discriminate].
      constructor; [left; exact Eu|].
      apply (IH s1 r); try assumption; lia.
    + destruct (is_low_surrogate c) eqn:El; [discriminate|].
      destruct (is_high_surrogate c) eqn:Eh.
      * destruct s1 as [|d s2]; [discriminate|].
        destruct (is_low_surrogate d) eqn:Ed; [|discriminate].
        destruct (encodeURIComponent s2) as [r|] eqn:Er; [|discriminate].
        injection He as <-.
        cbn [code_units forallb] in Hu. apply andb_true_iff in Hu.
        destruct Hu as [_ Hu].
        unfold is_high_surrogate in Eh. unfold is_low_surrogate in Ed.
        apply andb_true_iff in Eh. destruct Eh as [Eh1 Eh2].
        apply andb_true_iff in Ed. destruct Ed as [Ed1 Ed2].
        apply N.leb_le in Eh1, Eh2, Ed1, Ed2.
        set (cp := ((c - 55296) * 1024 + (d - 56320) + 65536)%N).
        assert (Hcp : (cp < 2097152)%N) by (unfold cp; lia).
        split.
        -- apply Forall_app. split;
             [apply percent_bytes_chars, utf8_bytes, Hcp|].
           apply (IH s2 r); try assumption. cbn [length] in Hn. lia.
        -- intros _ E. apply app_eq_nil in E. destruct E as [E _].
           destruct (percent_bytes_shape (utf8 cp) (utf8_nonempty cp)) as [t [Et _]].
           rewrite Et in E. discriminate.
      * destruct (encodeURIComponent s1) as [r|] eqn:Er; [|discriminate].
        injection He as <-. split.
        -- apply Forall_app. split;
             [apply percent_bytes_chars, utf8_bytes; lia|].
           apply (IH s1 r); try assumption; lia.
        -- intros _ E. apply app_eq_nil in E. destruct E as [E _].
           destruct (percent_bytes_shape (utf8 c) (utf8_nonempty c)) as [t [Et _]].
           rewrite Et in E. discriminate.
Qed.

Lemma unreserved_url_char c :
  is_unreserved c = true \/ c = PERCENT -> is_url_char c = true.
Proof.
  intros [H| ->]; [|reflexivity].
  unfold is_unreserved, is_alnum in H. unfold is_url_char, is_js_space.
  repeat (apply orb_true_iff in H; destruct H as [H|H]);
    repeat (apply andb_true_iff in H; destruct H as [H ?]);
    repeat match goal with
           | E : (_ <=? _)%N = true |- _ => apply N.leb_le in E
           | E : (_ =? _)%N = true |- _ => apply N.eqb_eq in E
           end;
    apply negb_true_iff;
    repeat (apply orb_false_iff; split);
    try (apply N.eqb_neq; unfold BACKSLASH, QUOTE, GT; lia);
    try (apply andb_false_iff;
         first [left; apply N.leb_gt; lia|right; apply N.leb_gt; lia]).
Qed.

Lemma count_while_all (p : char -> bool) : forall s,
  Forall (fun c => p c = true) s -> count_while p s = length s.
Proof.
  induction 1 as [|c s Hc _ IH]; [reflexivity|].
  cbn [count_while length]. rewrite Hc, IH. reflexivity.
Qed.

Lemma regex_replace_skip m callback : forall s k,
  length s <= k -> regex_replace m callback k s = Some [].
Proof.
  induction s as [|c s IH]; intros k H; [reflexivity|].
  cbn [length] in H. destruct k as [|k]; [lia|].
  cbn [regex_replace]. apply IH. lia.
Qed.

(** A text that the expression matches as a whole is replaced by what
    the callback makes of it. *)
Lemma regex_replace_whole m callback s :
  s <> [] -> m s = Some (length s) ->
  regex_replace m callback 0 s = callback s.
Proof.
  intros Hs Hm. destruct s as [|c s1]; [contradiction|].
  cbn [regex_replace]. rewrite Hm, firstn_all.
  destruct (callback (c :: s1)) as [r|]; [|reflexivity].
  rewrite regex_replace_skip by (cbn [length]; lia).
  rewrite app_nil_r. reflexivity.
Qed.

(** A pattern of one character is replaced character by character. *)
Lemma replace_all_char x y : forall s,
  replace_all [x] y s = flat_map (fun c => if N.eqb x c then y else [c]) s.
Proof.
  unfold replace_all. induction s as [|c s IH]; [reflexivity|].
  cbn [replace_from flat_map starts_with length Nat.sub]. rewrite andb_true_r.
  destruct (N.eqb x c); rewrite IH; reflexivity.
Qed.

Lemma replace_underscore_map s :
  replace_all [UNDERSCORE] [SPACE] s = map underscore_to_space s.
Proof.
  rewrite replace_all_char. induction s as [|c s IH]; [reflexivity|].
  cbn [flat_map map]. rewrite IH. unfold underscore_to_space.
  rewrite (N.eqb_sym c). destruct (N.eqb UNDERSCORE c); reflexivity.
Qed.

Lemma flat_map_percent_no_underscore : forall bs,
  Forall (fun b => (b < 256)%N) bs ->
  flat_map (fun c => if N.eqb UNDERSCORE c then js "%20" else [c])
    (flat_map percent_byte bs)
  = flat_map percent_byte bs.
Proof.
  induction 1 as [|b bs Hb _ IH]; [reflexivity|].
  cbn [flat_map]. rewrite flat_map_app, IH. f_equal.
  unfold percent_byte. cbn [flat_map].
  assert (H1 : forall n, (n < 16)%N -> N.eqb UNDERSCORE (hex_digit n) = false).
  { intros n Hn. apply N.eqb_neq. unfold hex_digit, UNDERSCORE.
    destruct (N.ltb_spec n 10); lia. }
  rewrite !H1 by divlia. reflexivity.
Qed.

(** Encoding after the underscores were made spaces gives the encoded
    text with each underscore replaced by the escape of a space. *)
Lemma encode_underscores : forall n s e,
  length s <= n -> code_units s = true ->
  encodeURIComponent s = Some e ->
  encodeURIComponent (map underscore_to_space s)
  = Some (replace_all [UNDERSCORE] (js "%20") e).
Proof.
  intros n s e Hn Hu He. rewrite replace_all_char.
  revert s e Hn Hu He.
  induction n as [|n IH]; intros s e Hn Hu He.
  - destruct s; [|simpl in Hn; lia]. injection He as <-. reflexivity.
  - destruct s as [|c s1]; [injection He as <-; reflexivity|].
    cbn [length] in Hn. cbn [code_units forallb] in Hu.
    apply andb_true_iff in Hu. destruct Hu as [Hc Hu]. apply N.ltb_lt in Hc.
    cbn [encodeURIComponent] in He. cbn [map].
    destruct (is_unreserved c) eqn:Eu.
    + destruct (encodeURIComponent s1) as [r|] eqn:Er; [|discriminate].
      injection He as <-. cbn [flat_map].
      unfold underscore_to_space at 1. rewrite (N.eqb_sym UNDERSCORE c).
      destruct (N.eqb_spec c UNDERSCORE) as [->|Hne].
      * cbn [encodeURIComponent]. change (is_unreserved SPACE) with false.
        change (is_low_surrogate SPACE) with false.
        change (is_high_surrogate SPACE) with false. cbn iota.
        rewrite (IH s1 r) by (try assumption; lia). reflexivity.
      * cbn [encodeURIComponent]. rewrite Eu.
        rewrite (IH s1 r) by (try assumption; lia). reflexivity.
    + assert (Hcu : underscore_to_space c = c).
      { unfold underscore_to_space. destruct (N.eqb_spec c UNDERSCORE) as [->|_];
          [discriminate|reflexivity]. }
      rewrite Hcu. cbn [encodeURIComponent]. rewrite Eu.
      destruct (is_low_surrogate c) eqn:El; [discriminate|].
      destruct (is_high_surrogate c) eqn:Eh.
      * destruct s1 as [|d s2]; [discriminate|].
        destruct (is_low_surrogate d) eqn:Ed; [|discriminate].
        destruct (encodeURIComponent s2) as [r|] eqn:Er; [|discriminate].
        injection He as <-.
        cbn [code_units forallb] in Hu. apply andb_true_iff in Hu.
        destruct Hu as [_ Hu].
        assert (Hdu : underscore_to_space d = d).
        { unfold underscore_to_space. destruct (N.eqb_spec d UNDERSCORE) as [->|_];
            [discriminate|reflexivity]. }
        cbn [map]. rewrite Hdu, Ed.
        rewrite (IH s2 r) by (try assumption; cbn [length] in Hn; lia).
        rewrite flat_map_app. f_equal. f_equal. symmetry.
        apply flat_map_percent_no_underscore, utf8_bytes.
        unfold is_high_surrogate in Eh. unfold is_low_surrogate in Ed.
        apply andb_true_iff in Eh. destruct Eh as [Eh1 Eh2].
        apply andb_true_iff in Ed. destruct Ed as [Ed1 Ed2].
        apply N.leb_le in Eh1, Eh2, Ed1, Ed2. lia.
      * destruct (encodeURIComponent s1) as [r|] eqn:Er; [|discriminate].
        injection He as <-.
        rewrite (IH s1 r) by (try assumption; lia).
        rewrite flat_map_app. f_equal. f_equal. symmetry.
        apply flat_map_percent_no_underscore, utf8_bytes. lia.
Qed.

Lemma match_url_secure e :
  e <> [] -> Forall (fun c => is_url_char c = true) e ->
  match_url (js "https" ++ URL_HOST_PATH ++ e) = Some (34, length e).
Proof.
  intros He Hc. unfold match_url.
  change (js "https" ++ URL_HOST_PATH ++ e)
    with (js "http" ++ 115%N :: URL_HOST_PATH ++ e).
  replace (starts_with_ci (js "http") (js "http" ++ 115%N :: URL_HOST_PATH ++ e))
    with true by reflexivity.
  change (skipn 4 (js "http" ++ 115%N :: URL_HOST_PATH ++ e))
    with (115%N :: URL_HOST_PATH ++ e).
  cbv beta iota zeta.
  change (N.eqb (to_lower 115) 115) with true. cbv iota.
  replace (starts_with_ci URL_HOST_PATH (URL_HOST_PATH ++ e)) with true by reflexivity.
  change (skipn (length URL_HOST_PATH) (URL_HOST_PATH ++ e)) with e.
  rewrite (count_while_all _ e Hc).
  destruct e as [|c e']; [contradiction|]. reflexivity.
Qed.

Lemma match_url_plain e :
  e <> [] -> Forall (fun c => is_url_char c = true) e ->
  match_url (js "http" ++ URL_HOST_PATH ++ e) = Some (33, length e).
Proof.
  intros He Hc. unfold match_url.
  replace (starts_with_ci (js "http") (js "http" ++ URL_HOST_PATH ++ e))
    with true by reflexivity.
  change (skipn 4 (js "http" ++ URL_HOST_PATH ++ e)) with (URL_HOST_PATH ++ e).
  change (URL_HOST_PATH ++ e) with (58%N :: js "//gen.pollinations.ai/image/" ++ e) at 1.
  cbv beta iota zeta.
  change (N.eqb (to_lower 58) 115) with false. cbv iota.
  change (58%N :: js "//gen.pollinations.ai/image/" ++ e) with (URL_HOST_PATH ++ e).
  replace (starts_with_ci URL_HOST_PATH (URL_HOST_PATH ++ e)) with true by reflexivity.
  change (skipn (length URL_HOST_PATH) (URL_HOST_PATH ++ e)) with e.
  rewrite (count_while_all _ e Hc).
  destruct e as [|c e']; [contradiction|]. reflexivity.
Qed.

Lemma transform_encoded_description
    (secure : bool) (d e k : jsstring) :
  d <> [] -> code_units d = true -> encodeURIComponent d = Some e ->
  transformPollinationsURLs
    ((if secure then js "https" else js "http") ++ URL_HOST_PATH ++ e) k
  = Some (js "https://gen.pollinations.ai/image/"
          ++ replace_all [UNDERSCORE] (js "%20") e
          ++ js "?model=flux&key=" ++ k).
Proof.
  intros Hd Hu He.
  destruct (encode_chars (length d) d e (le_n _) Hu He) as [Hchars Hne].
  specialize (Hne Hd).
  assert (Hurl : Forall (fun c => is_url_char c = true) e).
  { eapply Forall_impl; [|exact Hchars]. intros c. apply unreserved_url_char. }
  set (s := (if secure then js "https" else js "http") ++ URL_HOST_PATH ++ e).
  assert (Hm : exists pre, match_url s = Some (pre, length e)
                           /\ skipn pre s = e /\ length s = pre + length e).
  { unfold s. destruct secure.
    - exists 34. split; [apply match_url_secure; assumption|].
      split; [reflexivity|]. rewrite !length_app. reflexivity.
    - exists 33. split; [apply match_url_plain; assumption|].
      split; [reflexivity|]. rewrite !length_app. reflexivity. }
  destruct Hm as (pre & Hm & Hraw & Hlen).
  unfold transformPollinationsURLs.
  rewrite regex_replace_whole.
  - rewrite Hm, Hraw, replace_underscore_map.
    unfold decodeURIComponent.
    rewrite (decode_map_encode underscore_to_space eq_refl) with (n := length d) (s := d);
      try assumption; try apply le_n.
    + replace (map (fun c => if is_unreserved c then underscore_to_space c else c) d)
        with (map underscore_to_space d).
      * rewrite (encode_underscores (length d) d e (le_n _) Hu He). reflexivity.
      * apply map_ext. intros c. destruct (is_unreserved c) eqn:E; [reflexivity|].
        unfold underscore_to_space.
        destruct (N.eqb_spec c UNDERSCORE) as [->|_]; [discriminate|reflexivity].
    + intros n Hn. unfold underscore_to_space.
      destruct (N.eqb_spec (hex_digit n) UNDERSCORE) as [E|_]; [|reflexivity].
      unfold hex_digit, UNDERSCORE in E. destruct (N.ltb_spec n 10); lia.
    + intros c Hc. unfold underscore_to_space.
      destruct (N.eqb_spec c UNDERSCORE) as [_|_]; [discriminate|].
      intros E. subst c. discriminate.
  - unfold s. destruct secure; discriminate.
  - unfold match_url_len. rewrite Hm, Hlen. reflexivity.
Qed.


(** A URL of the image service, with either scheme, whose description
    is the percent-encoding of a text: the rewrite gives the URL with
    the secure scheme, the description with each underscore replaced by
    the escape of a space and nothing else changed, and the query with
    the model and the key. *)
Theorem transformPollinationsURLs_encoded_description
    (secure : bool) (d e k : jsstring) :
  d <> [] -> code_units d = true -> encodeURIComponent d = Some e ->
  transformPollinationsURLs
    ((if secure then js "https" else js "http") ++ URL_HOST_PATH ++ e) k
  = Some (js "https://gen.pollinations.ai/image/"
          ++ replace_all [UNDERSCORE] (js "%20") e
          ++ js "?model=flux&key=" ++ k).
Proof. exact (transform_encoded_description secure d e k). Qed.

Lemma transformPollinationsURLs_encoded_description_witness :
  transformPollinationsURLs
    (js "http" ++ URL_HOST_PATH ++ js "a_red_caf%C3%A9") (js "KEY")
  = Some (js "https://gen.pollinations.ai/image/"
          ++ replace_all [UNDERSCORE] (js "%20") (js "a_red_caf%C3%A9")
          ++ js "?model=flux&key=" ++ js "KEY").
Proof.
  apply (transformPollinationsURLs_encoded_description false
           (js "a_red_caf" ++ [233%N]) (js "a_red_caf%C3%A9") (js "KEY")).
  - discriminate.
  - reflexivity.
  - vm_compute. reflexivity.
Defined.

(* ================================================================== *)
(** * [transformPollinationsURLs] on a malformed escape *)
(* ================================================================== *)

Lemma count_while_stop (p : char -> bool) : forall s post,
  Forall (fun c => p c = true) s ->
  match post with [] => True | c :: _ => p c = false end ->
  count_while p (s ++ post) = length s.
Proof.
  induction 1 as [|c s Hc _ IH]; intros Hp.
  - cbn [app length]. destruct post as [|c post]; [reflexivity|].
    cbn [count_while]. rewrite Hp. reflexivity.
  - cbn [app count_while length]. rewrite Hc, (IH Hp). reflexivity.
Qed.

Lemma match_url_secure_in e post :
  e <> [] -> Forall (fun c => is_url_char c = true) e ->
  match post with [] => True | c :: _ => is_url_char c = false end ->
  match_url (js "https" ++ URL_HOST_PATH ++ e ++ post) = Some (34, length e).
Proof.
  intros He Hc Hp. unfold match_url.
  change (js "https" ++ URL_HOST_PATH ++ e ++ post)
    with (js "http" ++ 115%N :: URL_HOST_PATH ++ e ++ post).
  replace (starts_with_ci (js "http")
             (js "http" ++ 115%N :: URL_HOST_PATH ++ e ++ post))
    with true by reflexivity.
  change (skipn 4 (js "http" ++ 115%N :: URL_HOST_PATH ++ e ++ post))
    with (115%N :: URL_HOST_PATH ++ e ++ post).
  cbv beta iota zeta.
  change (N.eqb (to_lower 115) 115) with true. cbv iota.
  replace (starts_with_ci URL_HOST_PATH (URL_HOST_PATH ++ e ++ post))
    with true by reflexivity.
  change (skipn (length URL_HOST_PATH) (URL_HOST_PATH ++ e ++ post)) with (e ++ post).
  rewrite (count_while_stop _ e post Hc Hp).
  destruct e as [|c e']; [contradiction|]. reflexivity.
Qed.

Lemma match_url_plain_in e post :
  e <> [] -> Forall (fun c => is_url_char c = true) e ->
  match post with [] => True | c :: _ => is_url_char c = false end ->
  match_url (js "http" ++ URL_HOST_PATH ++ e ++ post) = Some (33, length e).
Proof.
  intros He Hc Hp. unfold match_url.
  replace (starts_with_ci (js "http") (js "http" ++ URL_HOST_PATH ++ e ++ post))
    with true by reflexivity.
  change (skipn 4 (js "http" ++ URL_HOST_PATH ++ e ++ post))
    with (URL_HOST_PATH ++ e ++ post).
  change (URL_HOST_PATH ++ e ++ post)
    with (58%N :: js "//gen.pollinations.ai/image/" ++ e ++ post) at 1.
  cbv beta iota zeta.
  change (N.eqb (to_lower 58) 115) with false. cbv iota.
  change (58%N :: js "//gen.pollinations.ai/image/" ++ e ++ post)
    with (URL_HOST_PATH ++ e ++ post).
  replace (starts_with_ci URL_HOST_PATH (URL_HOST_PATH ++ e ++ post))
    with true by reflexivity.
  change (skipn (length URL_HOST_PATH) (URL_HOST_PATH ++ e ++ post)) with (e ++ post).
  rewrite (count_while_stop _ e post Hc Hp).
  destruct e as [|c e']; [contradiction|]. reflexivity.
Qed.

Lemma read_percent_underscores r :
  read_percent (PERCENT :: r) = None ->
  read_percent (PERCENT :: map underscore_to_space r) = None.
Proof.
  destruct r as [|h1 [|h2 r]]; try reflexivity.
  cbn [map read_percent]. rewrite N.eqb_refl.
  assert (H : forall h, hex_value h = None -> hex_value (underscore_to_space h) = None).
  { intros h Hh. unfold underscore_to_space.
    destruct (N.eqb h UNDERSCORE); [reflexivity|exact Hh]. }
  destruct (hex_value h1) eqn:E1.
  - destruct (hex_value h2) eqn:E2; [discriminate|]. intros _.
    rewrite (H h2 E2). destruct (hex_value (underscore_to_space h1)); reflexivity.
  - intros _. rewrite (H h1 E1). reflexivity.
Qed.

(** Decoding stops with a URIError at the first percent sign when no two
    hexadecimal digits follow it. *)
Lemma decode_from_bad_percent : forall a r,
  forallb (fun c => negb (N.eqb c PERCENT)) a = true ->
  read_percent (PERCENT :: r) = None ->
  decode_from 0 (a ++ PERCENT :: r) = None.
Proof.
  induction a as [|c a IH]; intros r Ha Hr.
  - cbn [app decode_from]. rewrite N.eqb_refl.
    unfold decode_escape. rewrite Hr. reflexivity.
  - cbn [forallb] in Ha. apply andb_true_iff in Ha. destruct Ha as [Hc Ha].
    apply negb_true_iff in Hc. cbn [app decode_from]. rewrite Hc.
    rewrite (IH r Ha Hr). reflexivity.
Qed.

(** A URL of the image service whose description holds a percent sign,
    the first one, that no two hexadecimal digits follow: the rewrite
    ends with a URIError, whatever comes after the URL. *)
Theorem transformPollinationsURLs_malformed_escape
    (secure : bool) (a r post k : jsstring) :
  forallb (fun c => is_url_char c && negb (N.eqb c PERCENT)) a = true ->
  forallb is_url_char r = true ->
  read_percent (PERCENT :: r) = None ->
  match post with [] => True | c :: _ => is_url_char c = false end ->
  transformPollinationsURLs
    ((if secure then js "https" else js "http") ++ URL_HOST_PATH
     ++ (a ++ PERCENT :: r) ++ post) k
  = None.
Proof.
  intros Ha Hr Hbad Hpost.
  set (raw := a ++ PERCENT :: r).
  assert (Hraw : Forall (fun c => is_url_char c = true) raw).
  { unfold raw. apply Forall_app. split.
    - apply Forall_forall. intros c Hc. rewrite forallb_forall in Ha.
      specialize (Ha c Hc). apply andb_true_iff in Ha. apply Ha.
    - constructor; [reflexivity|].
      apply Forall_forall. intros c Hc. rewrite forallb_forall in Hr. apply Hr, Hc. }
  assert (Hne : raw <> []) by (unfold raw; destruct a; discriminate).
  set (P := (if secure then js "https" else js "http") ++ URL_HOST_PATH).
  assert (Hm : exists pre,
             match_url (P ++ raw ++ post) = Some (pre, length raw)
             /\ match_url (P ++ raw) = Some (pre, length raw)
             /\ pre = length P).
  { unfold P. destruct secure; rewrite <- !app_assoc.
    - exists 34. split; [apply match_url_secure_in; assumption|].
      split; [|reflexivity].
      rewrite <- (app_nil_r raw) at 1. apply match_url_secure_in; trivial.
    - exists 33. split; [apply match_url_plain_in; assumption|].
      split; [|reflexivity].
      rewrite <- (app_nil_r raw) at 1. apply match_url_plain_in; trivial. }
  destruct Hm as (pre & Hm1 & Hm2 & Hpre).
  unfold transformPollinationsURLs.
  replace ((if secure then js "https" else js "http") ++ URL_HOST_PATH ++ raw ++ post)
    with (P ++ raw ++ post) by (unfold P; rewrite <- app_assoc; reflexivity).
  assert (Hs : exists c s1, P ++ raw ++ post = c :: s1).
  { unfold P. destruct secure; eexists; eexists; reflexivity. }
  destruct Hs as (c & s1 & Hs). rewrite Hs. cbn [regex_replace]. rewrite <- Hs.
  unfold match_url_len at 1. rewrite Hm1.
  replace (firstn (pre + length raw) (P ++ raw ++ post)) with (P ++ raw).
  2:{ rewrite app_assoc, firstn_app, Hpre, <- length_app.
      rewrite firstn_all, Nat.sub_diag. cbn [firstn]. symmetry. apply app_nil_r. }
  rewrite Hm2.
  replace (skipn pre (P ++ raw)) with raw
    by (rewrite Hpre, skipn_app, skipn_all, Nat.sub_diag; reflexivity).
  rewrite replace_underscore_map. unfold raw at 1. rewrite map_app. cbn [map].
  change (underscore_to_space PERCENT) with PERCENT.
  unfold decodeURIComponent. rewrite decode_from_bad_percent; [reflexivity| |].
  - rewrite forallb_forall. intros x Hx. apply in_map_iff in Hx.
    destruct Hx as [y [<- Hy]]. rewrite forallb_forall in Ha.
    specialize (Ha y Hy). apply andb_true_iff in Ha. destruct Ha as [_ Ha].
    unfold underscore_to_space. destruct (N.eqb y UNDERSCORE); [reflexivity|exact Ha].
  - apply read_percent_underscores, Hbad.
Qed.

Lemma transformPollinationsURLs_malformed_escape_witness :
  transformPollinationsURLs
    (js "https" ++ URL_HOST_PATH ++ (js "sale_50" ++ PERCENT :: js "_off")
     ++ jsq "'" "' alt='x'>") (js "KEY")
  = None.
Proof.
  apply (transformPollinationsURLs_malformed_escape true
           (js "sale_50") (js "_off") (jsq "'" "' alt='x'>") (js "KEY"));
    reflexivity.
Defined.

(* ================================================================== *)
(** * [convertQuickChartTags] on a tag with a configuration *)
(* ================================================================== *)

Lemma index_of_char_first x : forall a b,
  forallb (fun c => negb (N.eqb c x)) a = true ->
  index_of_char x (a ++ x :: b) = Some (length a).
Proof.
  induction a as [|c a IH]; intros b H.
  - cbn [app index_of_char length]. rewrite N.eqb_refl. reflexivity.
  - cbn [forallb] in H. apply andb_true_iff in H. destruct H as [Hc Ha].
    apply negb_true_iff in Hc. cbn [app index_of_char length].
    rewrite Hc, (IH b Ha). reflexivity.
Qed.

(** A literal pattern whose first character the text does not hold has
    no match in it. *)
Lemma replace_all_absent x p r : forall u,
  forallb (fun c => negb (N.eqb c x)) u = true ->
  replace_all (x :: p) r u = u.
Proof.
  unfold replace_all. induction u as [|c u IH]; intros H; [reflexivity|].
  cbn [forallb] in H. apply andb_true_iff in H. destruct H as [Hc Hu].
  apply negb_true_iff in Hc. cbn [replace_from starts_with].
  rewrite N.eqb_sym, Hc. cbn [andb]. rewrite (IH Hu). reflexivity.
Qed.

Lemma scan_attrs_skip : forall s k attributes,
  length s <= k -> scan_attrs k s attributes = attributes.
Proof.
  induction s as [|c s IH]; intros k attributes H; [reflexivity|].
  cbn [length] in H. destruct k as [|k]; [lia|].
  cbn [scan_attrs]. apply IH. lia.
Qed.

Lemma match_attr_config q cfg :
  q = QUOTE \/ q = APOSTROPHE ->
  forallb (fun c => negb (N.eqb c q)) cfg = true ->
  match_attr (js "config=" ++ q :: cfg ++ [q])
  = Some (length cfg + 9, js "config", cfg).
Proof.
  intros Hq Hc. unfold match_attr.
  change (count_while is_attr_name_char (js "config=" ++ q :: cfg ++ [q])) with 6.
  cbv beta iota zeta.
  change (skipn 6 (js "config=" ++ q :: cfg ++ [q])) with (EQUALS :: q :: cfg ++ [q]).
  change (count_space (EQUALS :: q :: cfg ++ [q])) with 0.
  cbn [skipn]. rewrite N.eqb_refl.
  assert (Hs : count_space (q :: cfg ++ [q]) = 0).
  { destruct Hq as [-> | ->]; reflexivity. }
  rewrite Hs. cbn [skipn].
  assert (Hqq : N.eqb q QUOTE || N.eqb q APOSTROPHE = true).
  { destruct Hq as [-> | ->]; reflexivity. }
  rewrite Hqq, (index_of_char_first q cfg [] Hc).
  rewrite (firstn_app (length cfg) cfg [q]), firstn_all, Nat.sub_diag.
  cbn [firstn]. rewrite app_nil_r.
  f_equal. f_equal. f_equal. lia.
Qed.

Lemma code_units_replace_apostrophe cfg :
  code_units cfg = true -> code_units (replace_all [APOSTROPHE] [QUOTE] cfg) = true.
Proof.
  intros H. rewrite replace_all_char. unfold code_units in *.
  induction cfg as [|c cfg IH]; [reflexivity|].
  cbn [forallb] in H. apply andb_true_iff in H. destruct H as [Hc Hr].
  cbn [flat_map]. rewrite forallb_app, (IH Hr), andb_true_r.
  destruct (N.eqb APOSTROPHE c); [reflexivity|]. cbn [forallb]. rewrite Hc. reflexivity.
Qed.

(** A chart tag with a configuration in quotes of either kind, the
    configuration free of its quote, of backslashes and of greater-than
    signs, becomes an image tag whose address carries the configuration
    percent-encoded, with apostrophes read as double quotes; decoding
    the parameter gives that configuration back. *)
Theorem convertQuickChartTags_config (q : char) (cfg e : jsstring) :
  q = QUOTE \/ q = APOSTROPHE ->
  cfg <> [] ->
  code_units cfg = true ->
  forallb (fun c => negb (N.eqb c q) && negb (N.eqb c GT)
                    && negb (N.eqb c BACKSLASH)) cfg = true ->
  encodeURIComponent (replace_all [APOSTROPHE] [QUOTE] cfg) = Some e ->
  convertQuickChartTags (TAG_OPEN ++ js " config=" ++ q :: cfg ++ [q; GT])
  = Some (js "<img src=" ++ [QUOTE] ++ js "https://quickchart.io/chart?c=" ++ e
          ++ [QUOTE; GT])
  /\ decodeURIComponent e = Some (replace_all [APOSTROPHE] [QUOTE] cfg).
Proof.
  intros Hq Hne Hu Hc He.
  assert (Hcq : forallb (fun c => negb (N.eqb c q)) cfg = true).
  { rewrite forallb_forall in *. intros c Hin. specialize (Hc c Hin).
    apply andb_true_iff in Hc. destruct Hc as [Hc _].
    apply andb_true_iff in Hc. apply Hc. }
  assert (Hcg : forallb (fun c => negb (N.eqb c GT)) cfg = true).
  { rewrite forallb_forall in *. intros c Hin. specialize (Hc c Hin).
    apply andb_true_iff in Hc. destruct Hc as [Hc _].
    apply andb_true_iff in Hc. apply Hc. }
  assert (Hcb : forallb (fun c => negb (N.eqb c BACKSLASH)) cfg = true).
  { rewrite forallb_forall in *. intros c Hin. specialize (Hc c Hin).
    apply andb_true_iff in Hc. apply Hc. }
  split; [|apply decode_encode;
           [apply code_units_replace_apostrophe, Hu|exact He]].
  set (body := js "config=" ++ q :: cfg ++ [q]).
  assert (Etag : TAG_OPEN ++ js " config=" ++ q :: cfg ++ [q; GT]
                 = (TAG_OPEN ++ SPACE :: body) ++ [GT]).
  { unfold body. rewrite <- !app_assoc. cbn [app]. rewrite <- !app_assoc.
    cbn [app]. rewrite <- !app_assoc. reflexivity. }
  rewrite Etag.
  assert (Hq' : q <> GT /\ q <> BACKSLASH) by (destruct Hq as [-> | ->]; split; discriminate).
  assert (Hbody_gt : forallb (fun c => negb (N.eqb c GT)) body = true).
  { unfold body. rewrite forallb_app. apply andb_true_iff. split; [reflexivity|].
    cbn [forallb]. rewrite forallb_app, Hcg. cbn [forallb].
    replace (N.eqb q GT) with false by (symmetry; apply N.eqb_neq, Hq').
    reflexivity. }
  assert (Hbody_bs : forallb (fun c => negb (N.eqb c BACKSLASH)) (SPACE :: body) = true).
  { unfold body. cbn [forallb]. rewrite forallb_app. cbn [forallb andb].
    rewrite forallb_app, Hcb. cbn [forallb].
    replace (N.eqb q BACKSLASH) with false by (symmetry; apply N.eqb_neq, Hq').
    reflexivity. }
  assert (Hlenbody : length body = length cfg + 9).
  { unfold body. rewrite length_app. cbn [length]. rewrite length_app.
    cbn [length]. change (length (js "config=")) with 7. lia. }
  assert (Hm : match_tag ((TAG_OPEN ++ SPACE :: body) ++ [GT])
               = Some (length ((TAG_OPEN ++ SPACE :: body) ++ [GT]))).
  { unfold match_tag. rewrite <- app_assoc. rewrite starts_with_refl.
    rewrite skipn_app, skipn_all, Nat.sub_diag. cbn [skipn app].
    rewrite (index_of_char_first GT body [] Hbody_gt).
    rewrite !length_app. change (length TAG_OPEN) with 11. cbn [length].
    rewrite !length_app. cbn [length]. f_equal; lia. }
  unfold convertQuickChartTags.
  rewrite regex_replace_whole; [|destruct (TAG_OPEN ++ SPACE :: body); discriminate|exact Hm].
  unfold convertTag. rewrite removelast_last.
  rewrite skipn_app, skipn_all, Nat.sub_diag. cbn [skipn app].
  rewrite (replace_all_absent BACKSLASH [QUOTE] [QUOTE] _ Hbody_bs).
  rewrite (replace_all_absent BACKSLASH [APOSTROPHE] [APOSTROPHE] _ Hbody_bs).
  assert (Hscan : scan_attrs 0 (SPACE :: body) [] = [(js "config", cfg)]).
  { cbn [scan_attrs].
    change (match_attr (SPACE :: body)) with (@None (nat * list N * list N)).
    cbv iota.
    pose proof (match_attr_config q cfg Hq Hcq) as Ma. fold body in Ma.
    assert (Eb : exists c t, body = c :: t /\ length t = length cfg + 8).
    { unfold body. exists 99%N, (js "onfig=" ++ q :: cfg ++ [q]).
      split; [reflexivity|].
      rewrite length_app. cbn [length]. rewrite length_app. cbn [length].
      change (length (js "onfig=")) with 6. lia. }
    destruct Eb as (c & t & Eb & Lt). rewrite Eb in *.
    cbn [scan_attrs]. rewrite Ma.
    rewrite scan_attrs_skip by lia. reflexivity. }
  rewrite Hscan.
  change (attr_get [(js "config", cfg)] (js "config")) with (Some cfg).
  destruct cfg as [|c0 cfg']; [contradiction|].
  rewrite He.
  change (for_in_order [(js "config", c0 :: cfg')]) with [(js "config", c0 :: cfg')].
  cbn [fold_left fst snd]. change (str_eqb (js "config") (js "config")) with true.
  cbn [negb]. f_equal. rewrite <- !app_assoc. cbn [app].
  rewrite <- !app_assoc. reflexivity.
Qed.

Lemma convertQuickChartTags_config_witness :
  convertQuickChartTags
    (TAG_OPEN ++ js " config=" ++ QUOTE :: js "{'type':'pie'}" ++ [QUOTE; GT])
  = Some (js "<img src=" ++ [QUOTE] ++ js "https://quickchart.io/chart?c="
          ++ js "%7B%22type%22%3A%22pie%22%7D" ++ [QUOTE; GT])
  /\ decodeURIComponent (js "%7B%22type%22%3A%22pie%22%7D")
     = Some (replace_all [APOSTROPHE] [QUOTE] (js "{'type':'pie'}")).
Proof.
  apply (convertQuickChartTags_config QUOTE (js "{'type':'pie'}")
           (js "%7B%22type%22%3A%22pie%22%7D")).
  - left. reflexivity.
  - discriminate.
  - reflexivity.
  - reflexivity.
  - vm_compute. reflexivity.
Defined.

(* ================================================================== *)
(** * [convertQuickChartTags] on tags without a configuration *)
(* ================================================================== *)

Lemma str_eqb_eq : forall a b, str_eqb a b = true -> a = b.
Proof.
  induction a as [|x a IH]; intros [|y b] H; try discriminate; [reflexivity|].
  cbn [str_eqb] in H. apply andb_true_iff in H. destruct H as [H1 H2].
  apply N.eqb_eq in H1. subst y. f_equal. apply IH, H2.
Qed.

Lemma includes_skipn p : forall n s,
  includes p (skipn n s) = true -> includes p s = true.
Proof.
  induction n as [|n IH]; intros s H; [exact H|].
  destruct s as [|c s]; [exact H|]. cbn [skipn] in H.
  cbn [includes]. rewrite (IH s H). apply orb_true_r.
Qed.

Lemma includes_firstn p n s :
  includes p (firstn n s) = true -> includes p s = true.
Proof.
  intros H. rewrite <- (firstn_skipn n s). apply includes_app_l, H.
Qed.

Lemma includes_removelast p s :
  includes p (removelast s) = true -> includes p s = true.
Proof.
  destruct s as [|c s]; [intros H; exact H|]. intros H.
  rewrite (app_removelast_last 0%N (l := c :: s)) by discriminate.
  apply includes_app_l, H.
Qed.

Lemma includes_tail p c s : includes p (c :: s) = false -> includes p s = false.
Proof. cbn [includes]. intros H. apply orb_false_iff in H. apply H. Qed.

Lemma includes_head p c s :
  includes p (c :: s) = false -> starts_with p (c :: s) = false.
Proof. cbn [includes]. intros H. apply orb_false_iff in H. apply H. Qed.

(** Taking the backslash off each escaped quote makes no new
    occurrence of a text that holds no quote. *)
Lemma starts_with_unescaped q : forall K s,
  forallb (fun c => negb (N.eqb c q)) K = true ->
  starts_with K (replace_from [BACKSLASH; q] [q] 0 s) = true ->
  starts_with K s = true.
Proof.
  induction K as [|k K IH]; intros s HK H; [reflexivity|].
  cbn [forallb] in HK. apply andb_true_iff in HK. destruct HK as [Hk HK].
  apply negb_true_iff in Hk.
  destruct s as [|c s1]; [discriminate|].
  cbn [replace_from] in H.
  destruct (starts_with [BACKSLASH; q] (c :: s1)) eqn:E.
  - cbn [app starts_with] in H. rewrite Hk in H. discriminate.
  - cbn [starts_with] in H |- *. apply andb_true_iff in H. destruct H as [H1 H2].
    rewrite H1, (IH s1 HK H2). reflexivity.
Qed.

Lemma includes_unescaped q K :
  forallb (fun c => negb (N.eqb c q)) K = true ->
  forall n s, length s <= n ->
  includes K (replace_from [BACKSLASH; q] [q] 0 s) = true ->
  includes K s = true.
Proof.
  intros HK. induction n as [|n IH]; intros s Hn H.
  - destruct s; [exact H|simpl in Hn; lia].
  - destruct s as [|c s1]; [exact H|]. cbn [length] in Hn.
    pose proof (starts_with_unescaped q K (c :: s1) HK) as SW.
    cbn [replace_from] in H, SW.
    destruct (starts_with [BACKSLASH; q] (c :: s1)) eqn:E.
    + cbn [length Nat.sub app] in H, SW.
      destruct s1 as [|d s2]; [cbn [starts_with] in E; rewrite andb_false_r in E;
                               discriminate|].
      cbn [replace_from] in H, SW. cbn [includes] in H.
      apply orb_true_iff in H. destruct H as [H|H].
      * cbn [includes]. rewrite (SW H). reflexivity.
      * apply (IH s2) in H; [|cbn [length] in Hn; lia].
        cbn [includes]. rewrite H. rewrite !orb_true_r. reflexivity.
    + cbn [includes] in H. apply orb_true_iff in H. destruct H as [H|H].
      * cbn [includes]. rewrite (SW H). reflexivity.
      * apply (IH s1) in H; [|lia]. cbn [includes]. rewrite H. apply orb_true_r.
Qed.

Lemma starts_with_firstn : forall n (s : jsstring), starts_with (firstn n s) s = true.
Proof.
  induction n as [|n IH]; intros s; [reflexivity|].
  destruct s as [|c s]; [reflexivity|].
  cbn [firstn starts_with]. rewrite N.eqb_refl. apply IH.
Qed.

(** The name of an attribute is read where the match starts. *)
Lemma match_attr_name s len name value :
  match_attr s = Some (len, name, value) -> starts_with name s = true.
Proof.
  unfold match_attr.
  destruct (count_while is_attr_name_char s) as [|k]; [discriminate|].
  cbv zeta.
  destruct (skipn _ (skipn (S k) s)) as [|e s2]; [discriminate|].
  destruct (N.eqb e EQUALS); [|discriminate].
  destruct (skipn _ s2) as [|q s3]; [discriminate|].
  destruct (N.eqb q QUOTE || N.eqb q APOSTROPHE); [|discriminate].
  destruct (index_of_char q s3); [|discriminate].
  intros H. injection H as _ <- _. apply (starts_with_firstn (S k)).
Qed.

Lemma attr_get_put_other K : forall o k v,
  str_eqb k K = false -> attr_get (attr_put o k v) K = attr_get o K.
Proof.
  induction o as [|[k' v'] o IH]; intros k v H.
  - cbn [attr_put attr_get]. rewrite H. reflexivity.
  - cbn [attr_put]. destruct (str_eqb k' k) eqn:E.
    + apply str_eqb_eq in E. subst k'. cbn [attr_get]. rewrite H. reflexivity.
    + cbn [attr_get]. rewrite (IH k v H). reflexivity.
Qed.

Lemma scan_attrs_without K :
  forall n s skip attributes,
  length s <= n ->
  includes K s = false ->
  attr_get attributes K = None ->
  attr_get (scan_attrs skip s attributes) K = None.
Proof.
  induction n as [|n IH]; intros s skip attributes Hn Hi Ha.
  - destruct s; [exact Ha|simpl in Hn; lia].
  - destruct s as [|c s1]; [exact Ha|]. cbn [length] in Hn.
    pose proof (includes_tail _ _ _ Hi) as Hi1.
    cbn [scan_attrs]. destruct skip as [|k]; [|apply IH; [lia|exact Hi1|exact Ha]].
    destruct (match_attr (c :: s1)) as [[[len name] value]|] eqn:E;
      [|apply IH; [lia|exact Hi1|exact Ha]].
    apply IH; [lia|exact Hi1|].
    unfold attr_set. destruct (str_eqb name PROTO); [exact Ha|].
    rewrite attr_get_put_other; [exact Ha|].
    destruct (str_eqb name K) eqn:EK; [|reflexivity].
    apply str_eqb_eq in EK. subst name.
    pose proof (includes_head _ _ _ Hi) as Hh.
    rewrite (match_attr_name _ _ _ _ E) in Hh. discriminate.
Qed.

Lemma includes_false_of (p a b : jsstring) :
  (includes p a = true -> includes p b = true) ->
  includes p b = false -> includes p a = false.
Proof.
  intros H Hb. destruct (includes p a); [|reflexivity].
  rewrite (H eq_refl) in Hb. discriminate.
Qed.

(** The callback on a tag in which the word config does not occur. *)
Lemma convertTag_without matched :
  includes (js "config") matched = false -> convertTag matched = Some matched.
Proof.
  intros H. unfold convertTag.
  set (attributesString := skipn (length TAG_OPEN) (removelast matched)).
  assert (H1 : includes (js "config") attributesString = false).
  { apply (includes_false_of _ _ matched); [|exact H].
    intros E. apply includes_removelast. eapply includes_skipn, E. }
  assert (H2 : includes (js "config")
                 (replace_all [BACKSLASH; QUOTE] [QUOTE] attributesString) = false).
  { apply (includes_false_of _ _ attributesString); [|exact H1].
    apply (includes_unescaped QUOTE (js "config") eq_refl _ _ (le_n _)). }
  assert (H3 : includes (js "config")
                 (replace_all [BACKSLASH; APOSTROPHE] [APOSTROPHE]
                    (replace_all [BACKSLASH; QUOTE] [QUOTE] attributesString))
               = false).
  { apply (includes_false_of _ _
             (replace_all [BACKSLASH; QUOTE] [QUOTE] attributesString)); [|exact H2].
    apply (includes_unescaped APOSTROPHE (js "config") eq_refl _ _ (le_n _)). }
  rewrite (scan_attrs_without (js "config") _ _ 0 [] (le_n _) H3 eq_refl).
  reflexivity.
Qed.

Lemma index_of_char_lt x : forall s k, index_of_char x s = Some k -> k < length s.
Proof.
  induction s as [|c s IH]; intros k H; [discriminate|].
  cbn [index_of_char] in H. destruct (N.eqb c x).
  - injection H as <-. cbn [length]. lia.
  - destruct (index_of_char x s) as [n|]; [|discriminate].
    injection H as <-. cbn [length]. specialize (IH n eq_refl). lia.
Qed.

Lemma match_tag_length s len : match_tag s = Some len -> 1 <= len <= length s.
Proof.
  unfold match_tag. destruct (starts_with TAG_OPEN s) eqn:E; [|discriminate].
  pose proof (length_skipn (length TAG_OPEN) s) as L.
  apply starts_with_split in E.
  assert (Ls : length TAG_OPEN <= length s).
  { rewrite E, length_app. lia. }
  destruct (skipn (length TAG_OPEN) s) as [|c r]; [discriminate|].
  destruct (index_of_char GT r) as [k|] eqn:Ek; [|discriminate].
  intros H. injection H as <-. apply index_of_char_lt in Ek.
  change (length TAG_OPEN) with 11 in *. cbn [length] in L. lia.
Qed.

(** A global replace whose callback gives back every match changes
    nothing. *)
Lemma regex_replace_unchanged m callback K :
  (forall x, includes K x = false -> callback x = Some x) ->
  (forall s len, m s = Some len -> 1 <= len <= length s) ->
  forall n s k, length s <= n -> includes K s = false -> k <= length s ->
  regex_replace m callback k s = Some (skipn k s).
Proof.
  intros Hcb Hm. induction n as [|n IH]; intros s k Hn Hi Hk.
  - destruct s; [|simpl in Hn; lia]. destruct k; reflexivity.
  - destruct s as [|c s1]; [destruct k; reflexivity|].
    cbn [length] in Hn, Hk. pose proof (includes_tail _ _ _ Hi) as Hi1.
    cbn [regex_replace]. destruct k as [|k].
    + destruct (m (c :: s1)) as [len|] eqn:E.
      * destruct (Hm _ _ E) as [L1 L2]. cbn [length] in L2.
        rewrite Hcb.
        2:{ apply (includes_false_of _ _ (c :: s1)); [|exact Hi].
            apply includes_firstn. }
        rewrite (IH s1 (len - 1)) by (try assumption; lia).
        cbn [skipn]. f_equal.
        destruct len as [|len']; [lia|].
        replace (S len' - 1) with len' by lia.
        change (skipn len' s1) with (skipn (S len') (c :: s1)).
        apply firstn_skipn.
      * rewrite (IH s1 0) by (try assumption; lia). reflexivity.
    + cbn [skipn]. apply IH; try assumption; lia.
Qed.

(** A text in which the word config does not occur has no chart tag
    with a configuration: every tag is given back as it is, and the
    text comes back unchanged. *)
Theorem convertQuickChartTags_without_config (htmlString : jsstring) :
  includes (js "config") htmlString = false ->
  convertQuickChartTags htmlString = Some htmlString.
Proof.
  intros H. unfold convertQuickChartTags.
  apply (regex_replace_unchanged match_tag convertTag (js "config")
           convertTag_without match_tag_length (length htmlString) htmlString 0
           (le_n _) H (Nat.le_0_l _)).
Qed.

Lemma convertQuickChartTags_without_config_witness :
  convertQuickChartTags (jsq "'" "<p>a</p><quickchart type='bar' width='300'><p>b</p>")
  = Some (jsq "'" "<p>a</p><quickchart type='bar' width='300'><p>b</p>").
Proof.
  apply convertQuickChartTags_without_config. vm_compute. reflexivity.
Defined.

(* ================================================================== *)
(** * The loop over the chunks *)
(* ================================================================== *)

Lemma completeSlides_flag s f1 f2 :
  completeSlides (parseLiveStream s f1) = completeSlides (parseLiveStream s f2).
Proof.
  unfold parseLiveStream, parsePhases.
  destruct (regex_search _ _ _) as [[index len]|]; reflexivity.
Qed.

Lemma consume_snoc chunks c : consume (chunks ++ [c]) = on_chunk (consume chunks) c.
Proof. unfold consume. rewrite fold_left_app. reflexivity. Qed.

Lemma fullResponse_consume : forall chunks,
  fullResponse (consume chunks) = concat (map text chunks).
Proof.
  intros chunks. induction chunks as [|c l IH] using rev_ind; [reflexivity|].
  rewrite consume_snoc, map_app, concat_app. cbn [on_chunk fullResponse map concat].
  rewrite IH, app_nil_r. reflexivity.
Qed.

(** What the loop holds after the last chunk depends on the chunks only
    through the text they add up to, and on the flag of the last one for
    the HTML in progress: the slides shown and the slides kept for the
    deck are those of one parse of the whole text, however the text was
    cut into chunks. *)
Theorem consume_whole_text (chunks : list GenerationChunk) (flag : bool) :
  fullResponse (consume chunks) = concat (map text chunks)
  /\ finalCompleteSlides (consume chunks)
     = completeSlides (parseLiveStream (concat (map text chunks)) flag)
  /\ generatedSlides (consume chunks) = finalCompleteSlides (consume chunks)
  /\ (forall init c, chunks = init ++ [c] ->
        inProgressSlideHtml (consume chunks)
        = inProgressHtml (parseLiveStream (concat (map text chunks)) (isComplete c))).
Proof.
  split; [apply fullResponse_consume|].
  destruct chunks as [|c0 chunks0] using rev_ind.
  - split; [destruct flag; reflexivity|]. split; [reflexivity|].
    intros init c E. destruct init; discriminate.
  - clear IHchunks0. rewrite consume_snoc.
    assert (E : fullResponse (consume chunks0) ++ text c0
                = concat (map text (chunks0 ++ [c0]))).
    { rewrite fullResponse_consume, map_app, concat_app. cbn [map concat].
      rewrite app_nil_r. reflexivity. }
    cbn [on_chunk finalCompleteSlides generatedSlides inProgressSlideHtml].
    rewrite E. split; [apply completeSlides_flag|]. split; [reflexivity|].
    intros init c Ec. apply app_inj_tail in Ec. destruct Ec as [_ <-]. reflexivity.
Qed.

Lemma consume_whole_text_witness :
  let first := {| text := jsq "'" "{'slides':[{'title':'A','con"; isComplete := false |} in
  let second := {| text := jsq "'" "tent':'<div>x"; isComplete := false |} in
  inProgressSlideHtml (consume [first; second])
  = inProgressHtml
      (parseLiveStream (concat (map text [first; second])) (isComplete second)).
Proof.
  intros first second.
  apply (proj2 (proj2 (proj2 (consume_whole_text [first; second] false)))
           [first] second).
  reflexivity.
Defined.

(* ================================================================== *)
(** * From the chunks to the slides of the deck *)
(* ================================================================== *)

Lemma deck_slide_record key r :
  plain_content r = true ->
  deck_slide key (slide_value r) = Some (deck_of_record r).
Proof.
  unfold plain_content. intros H. apply andb_true_iff in H. destruct H as [H1 H2].
  apply negb_true_iff in H1, H2.
  unfold deck_slide. rewrite get_member_content.
  unfold transformPollinationsURLs.
  rewrite (regex_replace_no_match _ _ _ (has_match_url_len _ H1)).
  unfold convertQuickChartTags.
  rewrite (regex_replace_unchanged match_tag convertTag (js "config")
             convertTag_without match_tag_length (length (s_content r)) (s_content r) 0
             (le_n _) H2 (Nat.le_0_l _)).
  cbn [skipn]. rewrite get_member_title. reflexivity.
Qed.

Lemma deck_slides_records key : forall rs,
  forallb plain_content rs = true ->
  deck_slides key (map slide_value rs) = Some (map deck_of_record rs).
Proof.
  induction rs as [|r rs IH]; intros H; [reflexivity|].
  cbn [forallb] in H. apply andb_true_iff in H. destruct H as [Hr Hrs].
  cbn [map deck_slides]. rewrite (deck_slide_record key r Hr), (IH Hrs). reflexivity.
Qed.

Lemma deck_of_stream_text
    (chunks : list GenerationChunk) (bs : list Batch) (apiKey : jsstring) :
  concat (map text chunks) = stream_text bs ->
  no_backtick (stream_text bs) = true ->
  forallb plain_content (concat bs) = true ->
  deck_slides apiKey (finalCompleteSlides (consume chunks))
  = Some (map deck_of_record (concat bs)).
Proof.
  intros Ht Hb Hp.
  assert (E : finalCompleteSlides (consume chunks)
              = completeSlides (parseLiveStream (concat (map text chunks)) true)).
  { destruct chunks as [|c0 chunks0] using rev_ind; [reflexivity|].
    rewrite consume_snoc. cbn [on_chunk finalCompleteSlides].
    rewrite fullResponse_consume, map_app, concat_app. cbn [map concat].
    rewrite app_nil_r. apply completeSlides_flag. }
  rewrite E, Ht, (parseLiveStream_complete_plain bs true Hb).
  cbn [completeSlides]. apply deck_slides_records, Hp.
Qed.


(** From the chunks to the deck.  When the texts of the chunks add up
    to complete batches of slide records, without a backtick, and no
    content holds a URL of the image service or the word config, the
    deck gets exactly the slides of the batches, in order, with their
    titles and contents as they are, however the text was cut into
    chunks. *)
Theorem deck_of_complete_stream
    (chunks : list GenerationChunk) (bs : list Batch) (apiKey : jsstring) :
  concat (map text chunks) = stream_text bs ->
  no_backtick (stream_text bs) = true ->
  forallb plain_content (concat bs) = true ->
  deck_slides apiKey (finalCompleteSlides (consume chunks))
  = Some (map deck_of_record (concat bs)).
Proof. exact (deck_of_stream_text chunks bs apiKey). Qed.

Lemma deck_of_complete_stream_witness :
  let r := {| s_title := js "A"; s_content := js "<div>x</div>" |} in
  deck_slides (js "KEY")
    (finalCompleteSlides
       (consume [{| text := jsq "'" "{'slides':[{'title':'A','con"; isComplete := true |};
                 {| text := jsq "'" "tent':'<div>x</div>'}]}"; isComplete := true |}]))
  = Some (map deck_of_record (concat [[r]])).
Proof.
  intros r.
  apply (deck_of_complete_stream
           [{| text := jsq "'" "{'slides':[{'title':'A','con"; isComplete := true |};
            {| text := jsq "'" "tent':'<div>x</div>'}]}"; isComplete := true |}]
           [[r]] (js "KEY")).
  - reflexivity.
  - reflexivity.
  - reflexivity.
Defined.

(* ================================================================== *)
(** * The two tests for the rate-limit signal *)
(* ================================================================== *)

Lemma includes_after_prefix x p : forall pre s,
  forallb (fun c => negb (N.eqb x c)) pre = true ->
  includes (x :: p) (pre ++ s) = includes (x :: p) s.
Proof.
  induction pre as [|c pre IH]; intros s H; [reflexivity|].
  cbn [forallb] in H. apply andb_true_iff in H. destruct H as [Hc Hp].
  apply negb_true_iff in Hc.
  cbn [app includes starts_with]. rewrite Hc. cbn [andb orb]. apply IH, Hp.
Qed.

(** The error that reports the exhausted attempts does not open the
    dialog when the last error would not. *)
Lemma handleApiError_exhausted lastError :
  match lastError with
  | Some e => is_rate_limit e = false
  | None => True
  end ->
  handleApiError (exhausted MAX_RETRIES lastError) = false.
Proof.
  intros H. unfold handleApiError, exhausted. cbn [message].
  set (m := match lastError with Some e => message e | None => js "undefined" end).
  assert (Hm : includes (js "429") m = false).
  { unfold m. destruct lastError as [e|]; [|reflexivity].
    unfold is_rate_limit in H. apply orb_false_iff in H. destruct H as [H _].
    destruct (message e); [reflexivity|exact H]. }
  replace (js "AI service failed after " ++ show_nat MAX_RETRIES
           ++ js " attempts. Last error: " ++ m)
    with ((js "AI service failed after " ++ show_nat MAX_RETRIES
           ++ js " attempts. Last error: ") ++ m)
    by (rewrite <- !app_assoc; reflexivity).
  destruct (_ ++ m) as [|c t] eqn:E; [reflexivity|]. rewrite <- E.
  change (js "429") with (52%N :: js "29").
  rewrite includes_after_prefix by reflexivity. exact Hm.
Qed.

(** What the loop of [_withRetry] throws is either a rejection of the
    wrapped call that carries the rate-limit signal, or the error that
    reports the exhausted attempts, made from a last error without the
    signal. *)
Lemma retry_from_thrown (T : Type) (fn : nat -> outcome T) maxRetries :
  forall k i lastError w e w',
  match lastError with
  | Some e0 => is_rate_limit e0 = false
  | None => True
  end ->
  retry_from fn maxRetries k i lastError w = (Rejected e, w') ->
  (exists n, fn n = Rejected e /\ is_rate_limit e = true)
  \/ (exists lastError',
        e = exhausted maxRetries lastError'
        /\ match lastError' with
           | Some e0 => is_rate_limit e0 = false
           | None => True
           end).
Proof.
  induction k as [|k IH]; intros i lastError w e w' Hl H.
  - cbn [retry_from] in H. injection H as <- <-. right. exists lastError.
    split; [reflexivity|exact Hl].
  - cbn [retry_from] in H. destruct (fn (calls w)) as [v|e1] eqn:Ef; [discriminate|].
    destruct (is_rate_limit e1) eqn:Er.
    + injection H as <- <-. left. exists (calls w). split; assumption.
    + apply (IH _ (Some e1) _ _ _ Er H).
Qed.

(** The rate-limit dialog after [_withRetry].  An error that
    [_withRetry] throws opens the dialog only if it is a rejection of
    the wrapped call itself, with 429 in its message: the error that
    reports three failed attempts never opens it.  And a rejection that
    carries 429 in its code only is thrown at the first call, but does
    not open the dialog. *)
Theorem handleApiError_after_retry (T : Type) (fn : nat -> outcome T) (w : World) :
  (forall e w', _withRetry fn MAX_RETRIES w = (Rejected e, w') ->
     handleApiError e = true ->
     exists n, fn n = Rejected e /\ includes (js "429") (message e) = true)
  /\ (forall msg, includes (js "429") msg = false ->
        fn (calls w) = Rejected {| message := msg; code := Some 429%Z |} ->
        _withRetry fn MAX_RETRIES w
        = (Rejected {| message := msg; code := Some 429%Z |}, called w)
        /\ handleApiError {| message := msg; code := Some 429%Z |} = false).
Proof.
  split.
  - intros e w' H Hh. unfold _withRetry in H.
    destruct (retry_from_thrown T fn MAX_RETRIES MAX_RETRIES 0 None w e w' I H)
      as [(n & Hn & _)|(le & -> & Hle)].
    + exists n. split; [exact Hn|]. unfold handleApiError in Hh.
      destruct (message e); [discriminate|exact Hh].
    + rewrite (handleApiError_exhausted le Hle) in Hh. discriminate.
  - intros msg Hm Hf. split.
    + unfold _withRetry, MAX_RETRIES. cbn [retry_from]. rewrite Hf.
      unfold is_rate_limit. cbn [message code]. rewrite orb_true_r. reflexivity.
    + unfold handleApiError. cbn [message]. rewrite Hm. destruct msg; reflexivity.
Qed.

Lemma handleApiError_after_retry_witness :
  let e := {| message := js "quota exceeded"; code := Some 429%Z |} in
  _withRetry (fun n => @Rejected nat e) MAX_RETRIES world0 = (Rejected e, called world0)
  /\ handleApiError e = false.
Proof.
  intros e.
  apply (proj2 (handleApiError_after_retry nat (fun n => Rejected e) world0)
           (js "quota exceeded")); reflexivity.
Defined.

(* ================================================================== *)
(** * The images behind placeholders *)
(* ================================================================== *)

(** ** Replacement texts and decimal numerals *)

Lemma get_substitution_literal matched before after : forall r,
  no_dollar r = true -> get_substitution matched before after r = r.
Proof.
  induction r as [|c r IH]; intros H; [reflexivity|].
  cbn [no_dollar forallb] in H. apply andb_true_iff in H. destruct H as [Hc Hr].
  apply negb_true_iff in Hc. cbn [get_substitution]. rewrite Hc.
  f_equal. apply IH, Hr.
Qed.

Lemma digits_of_uint : forall d,
  forallb is_digit (js (NilEmpty.string_of_uint d)) = true.
Proof.
  induction d; cbn [NilEmpty.string_of_uint]; try reflexivity; exact IHd.
Qed.

Lemma show_nat_digits n : forallb is_digit (show_nat n) = true.
Proof.
  unfold show_nat, NilZero.string_of_uint.
  destruct (Nat.to_uint n); try reflexivity; apply digits_of_uint.
Qed.

Lemma js_inj (a b : string) : js a = js b -> a = b.
Proof.
  unfold js. intros H.
  apply (f_equal (map ascii_of_N)) in H. rewrite !map_map in H.
  rewrite !(map_ext _ (fun x => x) ascii_N_embedding), !map_id in H.
  apply (f_equal string_of_list_ascii) in H.
  rewrite !string_of_list_ascii_of_string in H. exact H.
Qed.

Lemma to_uint_nonnil n : Nat.to_uint n <> Decimal.Nil.
Proof.
  rewrite <- (DecimalNat.Unsigned.of_to n) at 1.
  rewrite DecimalNat.Unsigned.to_of. apply DecimalFacts.unorm_nonnil.
Qed.

Lemma show_nat_inj a b : show_nat a = show_nat b -> a = b.
Proof.
  unfold show_nat. intros H. apply js_inj in H.
  apply (f_equal NilZero.uint_of_string) in H.
  rewrite !NilZero.usu in H by apply to_uint_nonnil.
  injection H as H. apply DecimalNat.Unsigned.to_uint_inj, H.
Qed.

Lemma str_eqb_refl : forall a, str_eqb a a = true.
Proof.
  induction a as [|x a IH]; [reflexivity|].
  cbn [str_eqb]. rewrite N.eqb_refl, IH. reflexivity.
Qed.

Lemma str_eqb_neq a b : a <> b -> str_eqb a b = false.
Proof.
  intros H. destruct (str_eqb a b) eqn:E; [|reflexivity].
  apply str_eqb_eq in E. contradiction.
Qed.

(** ** The first occurrence *)

Lemma includes_middle p : forall u v, includes p (u ++ p ++ v) = true.
Proof.
  induction u as [|c u IH]; intros v.
  - cbn [app]. destruct (p ++ v) eqn:E; cbn [includes];
      rewrite <- E, starts_with_refl; reflexivity.
  - cbn [app includes]. rewrite IH. apply orb_true_r.
Qed.

Lemma replace_string_occurs p r : no_dollar r = true ->
  forall s before, includes p s = true ->
  exists u v, s = u ++ p ++ v /\ replace_string p r before s = u ++ r ++ v.
Proof.
  intros Hr. induction s as [|c s IH]; intros before H.
  - cbn [includes] in H. rewrite orb_false_r in H.
    exists [], []. destruct p as [|x p]; [|discriminate]. split; [reflexivity|].
    cbn [replace_string starts_with length skipn app].
    rewrite (get_substitution_literal _ _ _ r Hr). reflexivity.
  - cbn [replace_string]. destruct (starts_with p (c :: s)) eqn:E.
    + exists [], (skipn (length p) (c :: s)). split.
      * apply starts_with_split, E.
      * rewrite (get_substitution_literal _ _ _ r Hr). reflexivity.
    + cbn [includes] in H. rewrite E in H. cbn [orb] in H.
      destruct (IH (before ++ [c]) H) as (u & v & Es & Er).
      exists (c :: u), v. split; [rewrite Es; reflexivity|].
      rewrite Er. reflexivity.
Qed.

(** ** What the image expression matches *)

Lemma count_while_le (f : char -> bool) : forall s, count_while f s <= length s.
Proof.
  induction s as [|c s IH]; [apply le_n|].
  cbn [count_while length]. destruct (f c); lia.
Qed.

Lemma count_while_firstn (f : char -> bool) : forall s,
  forallb f (firstn (count_while f s) s) = true.
Proof.
  induction s as [|c s IH]; [reflexivity|].
  cbn [count_while]. destruct (f c) eqn:E; [|reflexivity].
  cbn [firstn forallb]. rewrite E, IH. reflexivity.
Qed.

Lemma match_src_shape s m t :
  match_src s = Some (m, t) ->
  1 <= m /\ 5 + m + 1 + t + 1 <= length s
  /\ forallb not_quote (firstn m (skipn 5 s)) = true.
Proof.
  unfold match_src. destruct (starts_with_ci _ s); [|discriminate].
  destruct (skipn 4 s) as [|q s1] eqn:E4; [discriminate|].
  destruct (is_quote q); [|discriminate].
  destruct (count_while not_quote s1) as [|m'] eqn:Em; [discriminate|].
  destruct (skipn (S m') s1) as [|q2 s2] eqn:E2; [discriminate|].
  destruct (is_quote q2); [|discriminate].
  destruct (skipn (count_while not_gt s2) s2) as [|g r] eqn:E3; [discriminate|].
  destruct (N.eqb g GT); [|discriminate].
  intros H. injection H as <- <-.
  assert (E5 : skipn 5 s = s1).
  { change 5 with (4 + 1). rewrite <- skipn_skipn_add, E4. reflexivity. }
  pose proof (f_equal (@length _) E4) as L4. rewrite length_skipn in L4.
  pose proof (f_equal (@length _) E2) as L2. rewrite length_skipn in L2.
  pose proof (f_equal (@length _) E3) as L3. rewrite length_skipn in L3.
  cbn [length] in L4, L2, L3.
  split; [lia|]. split; [lia|].
  rewrite E5, <- Em. apply count_while_firstn.
Qed.

Lemma backtrack_shape r : forall n k m t,
  backtrack n r = Some (k, m, t) ->
  1 <= k /\ match_src (skipn k r) = Some (m, t).
Proof.
  induction n as [|n IH]; intros k m t H; [discriminate|].
  cbn [backtrack] in H.
  destruct (match_src (skipn (S n) r)) as [[m1 t1]|] eqn:E.
  - injection H as <- <- <-. split; [lia|exact E].
  - apply IH, H.
Qed.

Lemma match_img_shape s pre m len :
  match_img s = Some (pre, m, len) ->
  1 <= m /\ pre + m < len /\ len <= length s
  /\ forallb not_quote (firstn m (skipn pre s)) = true.
Proof.
  unfold match_img. destruct (starts_with_ci _ s); [|discriminate].
  destruct (backtrack _ _) as [[[k m1] t]|] eqn:E; [|discriminate].
  intros H. injection H as <- <- <-.
  apply backtrack_shape in E. destruct E as [Hk E].
  apply match_src_shape in E. destruct E as (Hm & Hl & Hq).
  rewrite !skipn_skipn_add in Hq. rewrite skipn_skipn_add, length_skipn in Hl.
  split; [exact Hm|]. split; [lia|]. split; [lia|].
  replace (4 + k + 5) with (4 + k + 5) by reflexivity. exact Hq.
Qed.

Lemma map_set_fresh k v : forall m,
  (forall e, In e m -> fst e <> k) -> map_set m k v = m ++ [(k, v)].
Proof.
  induction m as [|[k' v'] m IH]; intros H; [reflexivity|].
  cbn [map_set]. rewrite (str_eqb_neq k' k (H (k', v') (or_introl eq_refl))).
  cbn [app]. f_equal. apply IH. intros e He. apply H. right. exact He.
Qed.

Lemma firstn_skipn_firstn {A : Type} (m pre len : nat) (s : list A) :
  pre + m <= len ->
  firstn m (skipn pre (firstn len s)) = firstn m (skipn pre s).
Proof.
  revert pre len s. induction pre as [|pre IH]; intros len s H.
  - cbn [skipn]. rewrite firstn_firstn. f_equal. lia.
  - destruct len as [|len]; [lia|]. destruct s as [|x s]; [reflexivity|].
    cbn [firstn skipn]. apply IH. lia.
Qed.

Lemma replace_literal_plain p r : no_dollar r = true ->
  forall s before skip,
  replace_literal p r before skip s = replace_from p r skip s.
Proof.
  intros Hr. induction s as [|c s IH]; intros before skip; [reflexivity|].
  cbn [replace_literal replace_from]. destruct skip as [|k]; [|apply IH].
  destruct (starts_with p (c :: s)).
  - rewrite (get_substitution_literal _ _ _ r Hr), IH. reflexivity.
  - rewrite IH. reflexivity.
Qed.

Lemma replace_from_skipn p r : forall k s,
  replace_from p r k s = replace_from p r 0 (skipn k s).
Proof.
  induction k as [|k IH]; intros s; [reflexivity|].
  destruct s as [|c s]; [reflexivity|]. cbn [replace_from skipn]. apply IH.
Qed.

Lemma replace_all_none p r : forall s,
  includes p s = false -> replace_all p r s = s.
Proof.
  unfold replace_all. induction s as [|c s IH]; intros H; [reflexivity|].
  cbn [replace_from]. rewrite (includes_head _ _ _ H).
  f_equal. apply IH, (includes_tail _ _ _ H).
Qed.

Lemma replace_all_no_start p r b : forall a,
  (forall k, k < length a -> starts_with p (skipn k a ++ b) = false) ->
  replace_all p r (a ++ b) = a ++ replace_all p r b.
Proof.
  unfold replace_all. induction a as [|c a IH]; intros H; [reflexivity|].
  cbn [app replace_from].
  pose proof (H 0 (Nat.lt_0_succ _)) as H0. cbn [skipn app] in H0. rewrite H0.
  f_equal. apply IH. intros k Hk. apply (H (S k)). cbn [length]. lia.
Qed.

Lemma replace_all_hit p r b : p <> [] ->
  replace_all p r (p ++ b) = r ++ replace_all p r b.
Proof.
  intros Hp. unfold replace_all. destruct p as [|x p]; [contradiction|].
  cbn [app replace_from].
  change (x :: p ++ b) with ((x :: p) ++ b). rewrite starts_with_refl.
  f_equal. rewrite replace_from_skipn. cbn [length].
  replace (S (length p) - 1) with (length p) by lia.
  rewrite skipn_app, skipn_all, Nat.sub_diag. reflexivity.
Qed.

Lemma includes_no_start p b : forall a,
  (forall k, k < length a -> starts_with p (skipn k a ++ b) = false) ->
  includes p b = false -> includes p (a ++ b) = false.
Proof.
  induction a as [|c a IH]; intros H Hb; [exact Hb|].
  cbn [app includes].
  pose proof (H 0 (Nat.lt_0_succ _)) as H0. cbn [skipn app] in H0. rewrite H0.
  cbn [orb]. apply IH; [|exact Hb].
  intros k Hk. apply (H (S k)). cbn [length]. lia.
Qed.

Lemma includes_prefix_false p a b : includes p (a ++ b) = false -> includes p a = false.
Proof.
  intros H. apply (includes_false_of p a (a ++ b)); [apply includes_app_l|exact H].
Qed.

Lemma includes_suffix_false p : forall a b,
  includes p (a ++ b) = false -> includes p b = false.
Proof.
  induction a as [|c a IH]; intros b H; [exact H|].
  apply IH. exact (includes_tail _ _ _ H).
Qed.

Lemma starts_with_app_p : forall p d s,
  starts_with (p ++ d) s = true -> starts_with p s = true.
Proof.
  induction p as [|x p IH]; intros d s H; [reflexivity|].
  destruct s as [|c s]; [discriminate|]. cbn [app starts_with] in *.
  apply andb_true_iff in H. destruct H as [H1 H2].
  rewrite H1. cbn [andb]. exact (IH d s H2).
Qed.

Lemma includes_app_p p d : forall s,
  includes p s = false -> includes (p ++ d) s = false.
Proof.
  induction s as [|c s IH]; intros H.
  - cbn [includes] in *. rewrite orb_false_r in *.
    destruct (starts_with (p ++ d) []) eqn:E; [|reflexivity].
    apply starts_with_app_p in E. congruence.
  - cbn [includes]. rewrite (IH (includes_tail _ _ _ H)), orb_false_r.
    destruct (starts_with (p ++ d) (c :: s)) eqn:E; [|reflexivity].
    apply starts_with_app_p in E. rewrite (includes_head _ _ _ H) in E. discriminate.
Qed.

Lemma starts_with_long : forall p w z,
  length p <= length w -> starts_with p (w ++ z) = starts_with p w.
Proof.
  induction p as [|x p IH]; intros w z H; [reflexivity|].
  destruct w as [|c w]; [cbn [length] in H; lia|].
  cbn [app starts_with]. rewrite IH; [reflexivity|]. cbn [length] in H. lia.
Qed.

Lemma includes_starts_skipn p : forall k s,
  includes p s = false -> starts_with p (skipn k s) = false.
Proof.
  induction k as [|k IH]; intros s H.
  - destruct s; cbn [skipn includes] in *; apply orb_false_iff in H; apply H.
  - destruct s as [|c s]; [cbn [skipn includes] in *; apply orb_false_iff in H; apply H|].
    cbn [skipn]. apply IH, (includes_tail _ _ _ H).
Qed.

Lemma starts_with_app_same : forall p a b,
  starts_with (p ++ a) (p ++ b) = starts_with a b.
Proof.
  induction p as [|x p IH]; intros a b; [reflexivity|].
  cbn [app starts_with]. rewrite N.eqb_refl. apply IH.
Qed.

Lemma show_nat_small n : n < 10 -> show_nat n = [(48 + N.of_nat n)%N].
Proof.
  intros H. do 10 (destruct n as [|n]; [reflexivity|]). lia.
Qed.


Lemma replace_literal_none p r : forall s before,
  includes p s = false -> replace_literal p r before 0 s = s.
Proof.
  induction s as [|c s IH]; intros before H; [reflexivity|].
  cbn [replace_literal]. rewrite (includes_head _ _ _ H).
  f_equal. apply IH, (includes_tail _ _ _ H).
Qed.

(* ================================================================== *)
(** * Placeholders of any prefix *)
(* ================================================================== *)

Section Placeholders.

(** The prefix of the placeholders: it holds no dollar sign and does
    not start with a digit, and no occurrence of it starts before
    another one and runs into it, or starts inside one. *)
Variable P : jsstring.
Hypothesis P_no_dollar : no_dollar P = true.
Hypothesis P_straddle : forall w z,
  w <> [] -> length w < length P -> starts_with P (w ++ P ++ z) = false.
Hypothesis P_inside : forall z k,
  1 <= k -> k < length P -> starts_with P (skipn k P ++ z) = false.
Hypothesis P_head : forall d z, is_digit d = true -> starts_with P (d :: z) = false.

Lemma placeholder_at_inj a b : placeholder_at P a = placeholder_at P b -> a = b.
Proof.
  unfold placeholder_at. intros H. apply app_inv_head in H.
  apply show_nat_inj, H.
Qed.

Lemma no_dollar_placeholder n : no_dollar (placeholder_at P n) = true.
Proof.
  unfold no_dollar, placeholder_at. rewrite forallb_app.
  apply andb_true_iff. split; [exact P_no_dollar|].
  pose proof (show_nat_digits n) as H. rewrite forallb_forall in H.
  apply forallb_forall. intros c Hc. specialize (H c Hc).
  unfold is_digit in H. apply andb_true_iff in H. destruct H as [H1 H2].
  apply N.leb_le in H1, H2. apply negb_true_iff, N.eqb_neq.
  unfold DOLLAR. lia.
Qed.

Lemma placeholder_nonempty n : placeholder_at P n <> [].
Proof.
  unfold placeholder_at. intros H. apply app_eq_nil in H. destruct H as [_ H].
  pose proof (show_nat_inj n (S n)) as Hi.
  destruct (show_nat n) eqn:E; [|discriminate].
  unfold show_nat, NilZero.string_of_uint in E.
  pose proof (to_uint_nonnil n) as Hn.
  destruct (Nat.to_uint n); try contradiction; discriminate.
Qed.

(** ** The cleaned text is the text with placeholders for sources *)

Lemma prepend_pieces v pieces tail :
  exists pieces' tail',
    (forall n, with_placeholders P n pieces' tail'
               = v ++ with_placeholders P n pieces tail)
    /\ with_sources pieces' tail' = v ++ with_sources pieces tail
    /\ (forall n, entries P n pieces' = entries P n pieces)
    /\ length pieces' = length pieces
    /\ map snd pieces' = map snd pieces.
Proof.
  destruct pieces as [|[c src] ps].
  - exists [], (v ++ tail). repeat split; reflexivity.
  - exists ((v ++ c, src) :: ps), tail.
    cbn [with_placeholders with_sources entries length map snd].
    repeat split; try reflexivity; intros; rewrite <- app_assoc; reflexivity.
Qed.

Section Callback.

(** A callback that either leaves the match as it is, or replaces the
    first occurrence of the source by the next placeholder and records
    it. *)
Variable callback : jsstring -> jsstring -> Tokens -> jsstring * Tokens.
Variable Q : jsstring -> bool.
Hypothesis callback_spec : forall matched src st,
  includes src matched = true ->
  (forall e, In e (imageMap st) -> fst e <> placeholder_at P (imgCounter st)) ->
  callback matched src st = (matched, st)
  \/ (Q src = true
      /\ exists u v,
           matched = u ++ src ++ v
           /\ callback matched src st
              = (u ++ placeholder_at P (imgCounter st) ++ v,
                 {| imgCounter := S (imgCounter st);
                    imageMap := imageMap st
                                ++ [(placeholder_at P (imgCounter st), src)] |})).

Lemma replace_images_pieces : forall n s skip st,
  length s <= n -> skip <= length s ->
  (forall e, In e (imageMap st) ->
     exists j, j < imgCounter st /\ fst e = placeholder_at P j) ->
  exists pieces tail,
    skipn skip s = with_sources pieces tail
    /\ fst (replace_images callback skip s st)
       = with_placeholders P (imgCounter st) pieces tail
    /\ imageMap (snd (replace_images callback skip s st))
       = imageMap st ++ entries P (imgCounter st) pieces
    /\ imgCounter (snd (replace_images callback skip s st))
       = imgCounter st + length pieces
    /\ forallb (fun src => image_source src && Q src) (map snd pieces) = true.
Proof.
  induction n as [|n IH]; intros s skip st Hn Hs Hf.
  - destruct s; [|cbn [length] in Hn; lia].
    exists [], []. destruct skip; cbn [skipn replace_images fst snd with_sources
      with_placeholders entries map forallb length];
      rewrite app_nil_r, Nat.add_0_r; repeat split.
  - destruct s as [|c s1].
    { exists [], []. destruct skip; cbn [skipn replace_images fst snd with_sources
        with_placeholders entries map forallb length];
        rewrite app_nil_r, Nat.add_0_r; repeat split. }
    cbn [length] in Hn, Hs. destruct skip as [|k].
    + cbn [skipn replace_images].
      destruct (match_img (c :: s1)) as [[[pre m] len]|] eqn:Em.
      * apply match_img_shape in Em. destruct Em as (Hm & Hpm & Hlen & Hq).
        cbn [length] in Hlen.
        set (matched := firstn len (c :: s1)).
        set (src := firstn m (skipn pre matched)).
        assert (Esrc : src = firstn m (skipn pre (c :: s1))).
        { apply firstn_skipn_firstn. lia. }
        assert (Erest : skipn (len - 1) s1 = skipn len (c :: s1)).
        { destruct len as [|len']; [lia|]. cbn [skipn].
          replace (S len' - 1) with len' by lia. reflexivity. }
        assert (Ewhole : c :: s1 = matched ++ skipn len (c :: s1)).
        { symmetry. apply firstn_skipn. }
        assert (Hinc : includes src matched = true).
        { assert (Em : matched = firstn pre matched ++ src ++ skipn m (skipn pre matched)).
          { unfold src. rewrite firstn_skipn, firstn_skipn. reflexivity. }
          rewrite Em. apply includes_middle. }
        assert (Hfresh : forall e, In e (imageMap st) ->
                  fst e <> placeholder_at P (imgCounter st)).
        { intros e He Heq. destruct (Hf e He) as (j & Hj & Ej). rewrite Ej in Heq.
          apply placeholder_at_inj in Heq. lia. }
        destruct (callback_spec matched src st Hinc Hfresh)
          as [Ecb|(HQ & u & v & Eu & Ecb)]; rewrite Ecb.
        -- destruct (IH s1 (len - 1) st) as (ps & tl & E1 & E2 & E3 & E4 & E5);
             [lia|lia|exact Hf|].
           destruct (replace_images callback (len - 1) s1 st) as [rest st2].
           cbn [fst snd] in *.
           destruct (prepend_pieces matched ps tl) as (ps' & tl' & P1 & P2 & P3 & P4 & P5).
           exists ps', tl'. rewrite P2, P1, P3, P4, P5, <- E1, <- E2, Erest.
           repeat split; assumption.
        -- set (ph := placeholder_at P (imgCounter st)) in *.
           set (st1 := {| imgCounter := S (imgCounter st);
                          imageMap := imageMap st ++ [(ph, src)] |}).
           destruct (IH s1 (len - 1) st1) as (ps & tl & E1 & E2 & E3 & E4 & E5);
             [lia|lia| |].
           { intros e He. cbn [imageMap imgCounter st1] in *.
             apply in_app_or in He. destruct He as [He|[<-|[]]].
             - destruct (Hf e He) as (j & Hj & Ej). exists j. split; [lia|exact Ej].
             - exists (imgCounter st). split; [lia|reflexivity]. }
           destruct (replace_images callback (len - 1) s1 st1) as [rest st2].
           cbn [fst snd imageMap imgCounter st1] in *.
           destruct (prepend_pieces v ps tl) as (ps' & tl' & P1 & P2 & P3 & P4 & P5).
           exists ((u, src) :: ps'), tl'.
           cbn [with_sources with_placeholders entries map snd forallb length].
           rewrite P2, P1, P3, P4, P5, <- E1, <- E2, E3, E4, Erest.
           split; [|split; [|split; [|split]]].
           ++ rewrite Ewhole at 1. rewrite Eu, <- !app_assoc. reflexivity.
           ++ rewrite <- !app_assoc. reflexivity.
           ++ rewrite <- app_assoc. reflexivity.
           ++ lia.
           ++ rewrite E5, andb_true_r, HQ, andb_true_r. unfold image_source.
              apply andb_true_iff. split.
              ** rewrite Esrc. destruct (skipn pre (c :: s1)) as [|x t] eqn:Ex.
                 { pose proof (f_equal (@length _) Ex) as L.
                   rewrite length_skipn in L. cbn [length] in L. lia. }
                 destruct m; [lia|]. reflexivity.
              ** rewrite Esrc. exact Hq.
      * destruct (IH s1 0 st) as (ps & tl & E1 & E2 & E3 & E4 & E5);
          [lia|lia|exact Hf|].
        destruct (replace_images callback 0 s1 st) as [rest st1].
        cbn [fst snd skipn] in *.
        destruct (prepend_pieces [c] ps tl) as (ps' & tl' & P1 & P2 & P3 & P4 & P5).
        exists ps', tl'. rewrite P2, P1, P3, P4, P5, <- E1, <- E2.
        repeat split; assumption.
    + cbn [skipn replace_images]. apply IH; [lia|lia|exact Hf].
Qed.

End Callback.

(** ** Putting the sources back *)

Lemma no_start_before_placeholder d z a :
  includes P a = false ->
  forall k, k < length a ->
  starts_with (P ++ d) (skipn k a ++ P ++ z) = false.
Proof.
  intros Ha k Hk.
  destruct (starts_with (P ++ d) _) eqn:E; [|reflexivity].
  apply starts_with_app_p in E.
  pose proof (length_skipn k a) as L.
  destruct (Nat.lt_ge_cases (length (skipn k a)) (length P)) as [Hs|Hs].
  - rewrite P_straddle in E; [discriminate| |exact Hs].
    intros Hn. rewrite Hn in L. cbn [length] in L. lia.
  - rewrite starts_with_long in E by exact Hs.
    rewrite (includes_starts_skipn _ k a Ha) in E. discriminate.
Qed.

(** A placeholder does not occur in a text that holds only later
    ones, as long as all have a single digit. *)
Lemma later_placeholders n : forall ps m tail,
  n < m -> m + length ps <= 10 ->
  includes P (with_sources ps tail) = false ->
  includes (placeholder_at P n) (with_placeholders P m ps tail) = false.
Proof.
  induction ps as [|[c src] ps IH]; intros m tail Hnm Hm Hc.
  - cbn [with_placeholders with_sources] in *. apply includes_app_p, Hc.
  - cbn [with_placeholders with_sources length] in *.
    pose proof (includes_prefix_false _ _ _ Hc) as Hc1.
    pose proof (includes_suffix_false _ _ _ (includes_suffix_false _ _ _ Hc)) as Hc2.
    specialize (IH (S m) tail ltac:(lia) ltac:(lia) Hc2).
    unfold placeholder_at at 2. rewrite <- app_assoc.
    apply includes_no_start.
    { apply no_start_before_placeholder, Hc1. }
    rewrite (show_nat_small m) by lia.
    change (P ++ [(48 + N.of_nat m)%N] ++ with_placeholders P (S m) ps tail)
      with (P ++ (48 + N.of_nat m)%N :: with_placeholders P (S m) ps tail).
    replace (P ++ (48 + N.of_nat m)%N :: with_placeholders P (S m) ps tail)
      with ((P ++ [(48 + N.of_nat m)%N]) ++ with_placeholders P (S m) ps tail)
      by (rewrite <- app_assoc; reflexivity).
    apply includes_no_start; [|exact IH].
    intros k Hk. rewrite length_app in Hk. cbn [length] in Hk.
    unfold placeholder_at. rewrite (show_nat_small n) by lia.
    assert (Hdig : is_digit (48 + N.of_nat m) = true).
    { unfold is_digit. apply andb_true_iff. split; apply N.leb_le; lia. }
    destruct (Nat.eq_dec k 0) as [->|Hk0].
    + cbn [skipn]. rewrite <- app_assoc, starts_with_app_same.
      assert (Hd : N.eqb (48 + N.of_nat n) (48 + N.of_nat m) = false)
        by (apply N.eqb_neq; lia).
      cbn [app starts_with]. rewrite Hd. reflexivity.
    + destruct (starts_with _ _) eqn:E; [|reflexivity].
      apply starts_with_app_p in E.
      destruct (Nat.eq_dec k (length P)) as [->|Hkp].
      * rewrite skipn_app, skipn_all, Nat.sub_diag in E. cbn [skipn app] in E.
        rewrite P_head in E by exact Hdig. discriminate.
      * rewrite skipn_app in E.
        replace (k - length P) with 0 in E by lia.
        cbn [skipn] in E. rewrite <- app_assoc in E.
        rewrite P_inside in E by lia. discriminate.
Qed.

Lemma restore_entries_pieces : forall ps n pre tail,
  n + length ps <= 10 ->
  includes P (pre ++ with_sources ps tail) = false ->
  forallb no_dollar (map snd ps) = true ->
  restore_entries (entries P n ps) (pre ++ with_placeholders P n ps tail)
  = pre ++ with_sources ps tail.
Proof.
  induction ps as [|[c src] ps IH]; intros n pre tail Hn Hc Hd; [reflexivity|].
  cbn [entries with_placeholders with_sources length map snd forallb] in *.
  apply andb_true_iff in Hd. destruct Hd as [Hd1 Hd2].
  unfold restore_entries. cbn [fold_left fst snd].
  rewrite (replace_literal_plain _ _ Hd1).
  assert (E : replace_all (placeholder_at P n) src
                (pre ++ c ++ placeholder_at P n ++ with_placeholders P (S n) ps tail)
              = (pre ++ c ++ src) ++ with_placeholders P (S n) ps tail).
  { replace (pre ++ c ++ placeholder_at P n ++ with_placeholders P (S n) ps tail)
      with ((pre ++ c) ++ placeholder_at P n ++ with_placeholders P (S n) ps tail)
      by (rewrite <- app_assoc; reflexivity).
    rewrite replace_all_no_start.
    - rewrite replace_all_hit by apply placeholder_nonempty.
      rewrite replace_all_none.
      + rewrite <- !app_assoc. reflexivity.
      + apply later_placeholders; [lia|lia|].
        apply (includes_suffix_false _ (pre ++ c ++ src)).
        rewrite <- !app_assoc. exact Hc.
    - unfold placeholder_at at 1 2. intros k Hk. rewrite <- app_assoc.
      apply no_start_before_placeholder; [|exact Hk].
      apply (includes_prefix_false _ _ (src ++ with_sources ps tail)).
      rewrite <- app_assoc. exact Hc. }
  unfold replace_all in E. rewrite E.
  change (fold_left _ (entries P (S n) ps) ?x)
    with (restore_entries (entries P (S n) ps) x).
  rewrite IH; [rewrite <- !app_assoc; reflexivity|lia| |exact Hd2].
  rewrite <- !app_assoc. exact Hc.
Qed.

Lemma length_entries : forall ps n, length (entries P n ps) = length ps.
Proof.
  induction ps as [|[c src] ps IH]; intros n; [reflexivity|].
  cbn [entries length]. rewrite IH. reflexivity.
Qed.

Lemma no_dollar_entries : forall ps n,
  forallb (fun e => no_dollar (snd e)) (entries P n ps)
  = forallb no_dollar (map snd ps).
Proof.
  induction ps as [|[c src] ps IH]; intros n; [reflexivity|].
  cbn [entries forallb map snd]. rewrite IH. reflexivity.
Qed.

Lemma entries_app : forall a b n,
  entries P n (a ++ b) = entries P n a ++ entries P (n + length a) b.
Proof.
  induction a as [|[c src] a IH]; intros b n.
  - cbn [app entries length]. rewrite Nat.add_0_r. reflexivity.
  - cbn [app entries length]. rewrite IH. do 3 f_equal. lia.
Qed.

Lemma in_entries e : forall ps n,
  In e (entries P n ps) ->
  exists k, n <= k /\ k < n + length ps /\ fst e = placeholder_at P k.
Proof.
  induction ps as [|[c src] ps IH]; intros n H; [destruct H|].
  cbn [entries length] in *. destruct H as [<-|H].
  - exists n. repeat split; lia.
  - destruct (IH (S n) H) as (k & H1 & H2 & H3). exists k. repeat split; [lia|lia|exact H3].
Qed.

Lemma restore_entries_absent s : forall ps n,
  includes P s = false ->
  restore_entries (entries P n ps) s = s.
Proof.
  induction ps as [|[c src] ps IH]; intros n H; [reflexivity|].
  cbn [entries]. unfold restore_entries. cbn [fold_left fst snd].
  rewrite replace_literal_none by (apply includes_app_p, H).
  apply IH, H.
Qed.

End Placeholders.

(* ================================================================== *)
(** * replaceImagesWithPlaceholders and restoreImages *)
(* ================================================================== *)

Lemma no_dollar_PLACEHOLDER : no_dollar PLACEHOLDER = true.
Proof. reflexivity. Qed.

Lemma placeholder_straddle (w z : jsstring) :
  w <> [] -> length w < length PLACEHOLDER ->
  starts_with PLACEHOLDER (w ++ PLACEHOLDER ++ z) = false.
Proof.
  change (length PLACEHOLDER) with 27.
  intros Hw Hl. destruct w as [|c0 w]; [contradiction|].
  cbn [length] in Hl.
  do 26 (destruct w as [|? w];
         [cbn; rewrite ?andb_false_r; reflexivity|]; cbn [length] in Hl).
  lia.
Qed.

Lemma placeholder_inside (z : jsstring) k :
  1 <= k -> k < length PLACEHOLDER ->
  starts_with PLACEHOLDER (skipn k PLACEHOLDER ++ z) = false.
Proof.
  change (length PLACEHOLDER) with 27.
  intros H1 H2. destruct k as [|k]; [lia|].
  do 26 (destruct k as [|k]; [cbn; rewrite ?andb_false_r; reflexivity|]).
  lia.
Qed.

Lemma placeholder_head d (z : jsstring) :
  is_digit d = true -> starts_with PLACEHOLDER (d :: z) = false.
Proof.
  intros H. unfold is_digit in H. apply andb_true_iff in H. destruct H as [H1 H2].
  apply N.leb_le in H1, H2.
  cbn [PLACEHOLDER js list_ascii_of_string map starts_with].
  change (N_of_ascii "h") with 104%N.
  assert (Hd : N.eqb 104 d = false) by (apply N.eqb_neq; lia).
  rewrite Hd. reflexivity.
Qed.

(** The callback of [replaceImagesWithPlaceholders]. *)
Lemma tokenize_spec matched src st :
  includes src matched = true ->
  (forall e, In e (imageMap st) -> fst e <> placeholder_at PLACEHOLDER (imgCounter st)) ->
  tokenize matched src st = (matched, st)
  \/ (negb (starts_with (js "https") src) = true
      /\ exists u v,
           matched = u ++ src ++ v
           /\ tokenize matched src st
              = (u ++ placeholder_at PLACEHOLDER (imgCounter st) ++ v,
                 {| imgCounter := S (imgCounter st);
                    imageMap := imageMap st
                                ++ [(placeholder_at PLACEHOLDER (imgCounter st), src)] |})).
Proof.
  intros Hinc Hfresh. unfold tokenize.
  destruct (starts_with (js "https") src); cbn [negb]; [left; reflexivity|].
  right. split; [reflexivity|].
  destruct (replace_string_occurs src (placeholder_at PLACEHOLDER (imgCounter st))
              (no_dollar_placeholder PLACEHOLDER no_dollar_PLACEHOLDER _)
              matched [] Hinc) as (u & v & Eu & Er).
  exists u, v. split; [exact Eu|].
  rewrite Er, (map_set_fresh _ _ _ Hfresh). reflexivity.
Qed.

Lemma replaceImagesWithPlaceholders_shape (html : jsstring) :
  exists pieces tail,
    html = with_sources pieces tail
    /\ replaceImagesWithPlaceholders html
       = (with_placeholders PLACEHOLDER 0 pieces tail, entries PLACEHOLDER 0 pieces)
    /\ forallb tokenized_source (map snd pieces) = true.
Proof.
  destruct (replace_images_pieces PLACEHOLDER tokenize _ tokenize_spec
              (length html) html 0
              {| imgCounter := 0; imageMap := [] |} (le_n _) (Nat.le_0_l _))
    as (ps & tl & E1 & E2 & E3 & _ & E4).
  { intros e []. }
  exists ps, tl. unfold replaceImagesWithPlaceholders.
  destruct (replace_images tokenize 0 html _) as [cleaned st].
  cbn [fst snd skipn imgCounter imageMap app] in *.
  rewrite E1, E2, E3. repeat split. exact E4.
Qed.

(** The cleaned text differs from the given one only where a source
    was replaced: cut at these sources, the given text is the pieces
    with the sources, the cleaned one the same pieces with the
    placeholders numbered from 0 in their order, and the map lists each
    placeholder with its source, in that order.  Every replaced source
    is the group of a match: not empty, without a quote, and not
    starting with https. *)
Theorem replaceImagesWithPlaceholders_pieces (html : jsstring) :
  exists pieces tail,
    html = with_sources pieces tail
    /\ replaceImagesWithPlaceholders html
       = (with_placeholders PLACEHOLDER 0 pieces tail, entries PLACEHOLDER 0 pieces)
    /\ forallb tokenized_source (map snd pieces) = true.
Proof. exact (replaceImagesWithPlaceholders_shape html). Qed.

Lemma convertTagInner_without matched :
  includes (js "config") matched = false -> convertTagInner matched = Some matched.
Proof.
  intros H. unfold convertTagInner.
  set (attributesString := skipn (length TAG_OPEN) (removelast matched)).
  assert (H1 : includes (js "config") attributesString = false).
  { apply (includes_false_of _ _ matched); [|exact H].
    intros E. apply includes_removelast. eapply includes_skipn, E. }
  assert (H2 : includes (js "config")
                 (replace_all [BACKSLASH; QUOTE] [QUOTE] attributesString) = false).
  { apply (includes_false_of _ _ attributesString); [|exact H1].
    apply (includes_unescaped QUOTE (js "config") eq_refl _ _ (le_n _)). }
  assert (H3 : includes (js "config")
                 (replace_all [BACKSLASH; APOSTROPHE] [APOSTROPHE]
                    (replace_all [BACKSLASH; QUOTE] [QUOTE] attributesString))
               = false).
  { apply (includes_false_of _ _
             (replace_all [BACKSLASH; QUOTE] [QUOTE] attributesString)); [|exact H2].
    apply (includes_unescaped APOSTROPHE (js "config") eq_refl _ _ (le_n _)). }
  rewrite (scan_attrs_without (js "config") _ _ 0 [] (le_n _) H3 eq_refl).
  reflexivity.
Qed.

Lemma restoreImages_cleaned
    (key html cleanedHtml : jsstring) (images : list (jsstring * jsstring)) :
  replaceImagesWithPlaceholders html = (cleanedHtml, images) ->
  includes PLACEHOLDER html = false ->
  length images <= 10 ->
  forallb (fun e => no_dollar (snd e)) images = true ->
  has_match match_url cleanedHtml = false ->
  includes (js "config") cleanedHtml = false ->
  restoreImages key cleanedHtml images = Some html.
Proof.
  intros Hr Hp Hl Hd Hu Hc.
  destruct (replaceImagesWithPlaceholders_shape html) as (ps & tl & E1 & E2 & _).
  rewrite Hr in E2. injection E2 as -> ->.
  rewrite length_entries in Hl. rewrite no_dollar_entries in Hd.
  unfold restoreImages, transformPollinationsURLs.
  rewrite (regex_replace_no_match _ _ _ (has_match_url_len _ Hu)).
  rewrite (regex_replace_unchanged match_tag convertTagInner (js "config")
             convertTagInner_without match_tag_length _ _ 0 (le_n _) Hc (Nat.le_0_l _)).
  cbn [skipn]. f_equal. rewrite E1.
  apply (restore_entries_pieces PLACEHOLDER placeholder_straddle
           placeholder_inside placeholder_head ps 0 [] tl); [exact Hl| |exact Hd].
  cbn [app]. rewrite <- E1. exact Hp.
Qed.

(** The round trip.  When the text holds no placeholder address of its
    own, at most ten sources were replaced, none of them holds a dollar
    sign, and the cleaned text holds neither a URL of the image service
    nor the word config, [restoreImages] on the cleaned text and the map
    gives the text back. *)
Theorem restoreImages_round_trip
    (key html cleanedHtml : jsstring) (images : list (jsstring * jsstring)) :
  replaceImagesWithPlaceholders html = (cleanedHtml, images) ->
  includes PLACEHOLDER html = false ->
  length images <= 10 ->
  forallb (fun e => no_dollar (snd e)) images = true ->
  has_match match_url cleanedHtml = false ->
  includes (js "config") cleanedHtml = false ->
  restoreImages key cleanedHtml images = Some html.
Proof. exact (restoreImages_cleaned key html cleanedHtml images). Qed.

Lemma restoreImages_round_trip_witness :
  let html :=
    jsq "'" "<p>a</p><img alt='a' src='data:xyz'><IMG SRC='https://x/y.png' ><img src='b.png' class='k'>" in
  restoreImages (js "KEY")
    (jsq "'" "<p>a</p><img alt='a' src='https://placeholder.img/id-0'><IMG SRC='https://x/y.png' ><img src='https://placeholder.img/id-1' class='k'>")
    [(js "https://placeholder.img/id-0", js "data:xyz");
     (js "https://placeholder.img/id-1", js "b.png")]
  = Some html.
Proof.
  intros html.
  apply (restoreImages_round_trip (js "KEY") html); try reflexivity.
  cbn [length]. lia.
Defined.

(** The bound of ten is needed: the placeholder of the second image
    starts the placeholder of the eleventh, and the loop replaces it
    there first. *)
Example restoreImages_eleven_images :
  let tag (src : jsstring) := jsq "'" "<img src='" ++ src ++ jsq "'" "'>" in
  let html :=
    concat (map tag [js "a"; js "b"; js "c"; js "d"; js "e"; js "f";
                     js "g"; js "h"; js "i"; js "j"; js "k"]) in
  let r := replaceImagesWithPlaceholders html in
  length (snd r) = 11
  /\ restoreImages (js "KEY") (fst r) (snd r)
     = Some (concat (map tag [js "a"; js "b"; js "c"; js "d"; js "e"; js "f";
                              js "g"; js "h"; js "i"; js "j"; js "b0"])).
Proof. vm_compute. split; reflexivity. Qed.

(* ================================================================== *)
(** * editContent *)
(* ================================================================== *)

Lemma html_reply_app h rest :
  html_reply h ++ rest
  = (123 :: 34 :: 104 :: 116 :: 109 :: 108 :: 34 :: 58 :: 34
     :: json_escape h ++ 34 :: 125 :: rest)%N.
Proof.
  unfold html_reply, quoted.
  change (jsq "'" "{'html':") with [123; 34; 104; 116; 109; 108; 34; 58]%N.
  unfold QUOTE, RBRACE.
  repeat (rewrite <- ?app_assoc; cbn [app]). reflexivity.
Qed.

Lemma parse_value_html_reply f h rest :
  parse_value (S (S (S f))) (html_reply h ++ rest)
  = Some (JObj [(js "html", JStr h)], rest).
Proof.
  rewrite html_reply_app. simpl.
  rewrite parse_string_body_escape_lit. simpl.
  reflexivity.
Qed.

Lemma JSON_parse_html_reply h :
  JSON_parse (html_reply h) = Some (JObj [(js "html", JStr h)]).
Proof.
  unfold JSON_parse.
  assert (Hws : skip_ws (html_reply h) = html_reply h).
  { rewrite <- (app_nil_r (html_reply h)), html_reply_app. reflexivity. }
  rewrite Hws.
  assert (Hlen : 11 <= length (html_reply h)).
  { rewrite <- (app_nil_r (html_reply h)), html_reply_app.
    cbn [length]. rewrite length_app. cbn [length]. lia. }
  destruct (length (html_reply h)) as [|[|n]]; try lia.
  replace (2 * S (S n) + 2) with (S (S (S (2 * n + 3)))) by lia.
  rewrite <- (app_nil_r (html_reply h)) at 1.
  rewrite parse_value_html_reply. reflexivity.
Qed.

(** The loop of [_withRetry] that meets a resolved call after [k]
    transient failures. *)
Lemma withRetry_resolves (T : Type) (fn : nat -> outcome T) (w : World) k v :
  k < MAX_RETRIES ->
  transient_failures fn (calls w) k ->
  fn (calls w + k) = Resolved v ->
  _withRetry fn MAX_RETRIES w
  = (Resolved v, {| calls := calls w + k + 1; slept := slept w ++ backoff k |}).
Proof.
  intros Hk Hf Hv. unfold _withRetry.
  replace MAX_RETRIES with (k + S (MAX_RETRIES - k - 1)) at 2 by lia.
  rewrite (retry_from_failures T fn MAX_RETRIES k _ 0 None w Hf).
  cbn [retry_from calls]. rewrite Hv. unfold called. cbn [calls slept].
  unfold backoff. f_equal. f_equal. lia.
Qed.

(** [restoreImages] on a text without a placeholder address, a URL of
    the image service or the word config. *)
Lemma restoreImages_plain P key s ps n :
  includes P s = false ->
  has_match match_url s = false ->
  includes (js "config") s = false ->
  restoreImages key s (entries P n ps) = Some s.
Proof.
  intros Hp Hu Hc. unfold restoreImages, transformPollinationsURLs.
  rewrite (regex_replace_no_match _ _ _ (has_match_url_len _ Hu)).
  rewrite (regex_replace_unchanged match_tag convertTagInner (js "config")
             convertTagInner_without match_tag_length _ _ 0 (le_n _) Hc (Nat.le_0_l _)).
  cbn [skipn]. f_equal. apply restore_entries_absent, Hp.
Qed.

Lemma restore_entries_empty : forall m, restore_entries m [] = [].
Proof.
  induction m as [|e m IH]; [reflexivity|].
  unfold restore_entries in *. cbn [fold_left replace_literal]. exact IH.
Qed.

Lemma cleaned_empty html images :
  replaceImagesWithPlaceholders html = ([], images) -> html = [] /\ images = [].
Proof.
  intros H.
  destruct (replaceImagesWithPlaceholders_shape html) as (ps & tl & E1 & E2 & _).
  rewrite H in E2. injection E2 as E2 E3.
  destruct ps as [|[c src] ps].
  - cbn [with_placeholders with_sources entries] in *. subst. split; reflexivity.
  - cbn [with_placeholders] in E2. symmetry in E2.
    apply app_eq_nil in E2. destruct E2 as [_ E2].
    apply app_eq_nil in E2. destruct E2 as [E2 _].
    apply placeholder_nonempty in E2. destruct E2.
Qed.

(** The model gives back the cleaned text.  When the reply, after any
    failures without a rate-limit signal that leave an attempt, is the
    object whose html is the cleaned text, in a json fence, and the
    conditions of the round trip hold, [editContent] returns the content
    it was given. *)
Theorem editContent_echo
    (generateContent : nat -> outcome (option jsstring))
    (key currentContent cleanedHtml : jsstring)
    (images : list (jsstring * jsstring)) (w : World) (k : nat)
    (w1 w2 a b : jsstring) :
  replaceImagesWithPlaceholders currentContent = (cleanedHtml, images) ->
  includes PLACEHOLDER currentContent = false ->
  length images <= 10 ->
  forallb (fun e => no_dollar (snd e)) images = true ->
  has_match match_url cleanedHtml = false ->
  includes (js "config") cleanedHtml = false ->
  k < MAX_RETRIES ->
  transient_failures generateContent (calls w) k ->
  forallb is_js_space w1 = true -> forallb is_js_space w2 = true ->
  forallb is_json_ws a = true -> forallb is_json_ws b = true ->
  generateContent (calls w + k)
  = Resolved (Some (w1 ++ (js "```json" ++ (a ++ html_reply cleanedHtml ++ b)
                           ++ js "```") ++ w2)) ->
  editContent generateContent key currentContent w
  = (Edited currentContent,
     {| calls := calls w + k + 1; slept := slept w ++ backoff k |}).
Proof.
  intros Hr Hp Hl Hd Hu Hc Hk Hf H1 H2 Ha Hb Hv.
  unfold editContent. rewrite Hr.
  rewrite (withRetry_resolves _ generateContent w k _ Hk Hf Hv).
  unfold read_edit_reply.
  set (text := w1 ++ (js "```json" ++ (a ++ html_reply cleanedHtml ++ b)
                      ++ js "```") ++ w2).
  assert (Et : cleanJsonString text = a ++ html_reply cleanedHtml ++ b)
    by (apply cleanJsonString_long_fence; assumption).
  destruct text as [|c t] eqn:E.
  { unfold text in E. apply app_eq_nil in E. destruct E as [_ E].
    apply app_eq_nil in E. destruct E as [E _]. discriminate E. }
  rewrite Et, (JSON_parse_ws a b _ Ha Hb), JSON_parse_html_reply.
  cbn [get_member obj_get]. rewrite str_eqb_refl. cbn [truthy].
  destruct cleanedHtml as [|x cleaned'].
  - destruct (cleaned_empty _ _ Hr) as [-> ->]. reflexivity.
  - rewrite (restoreImages_cleaned key currentContent _ images Hr Hp Hl Hd Hu Hc).
    reflexivity.
Qed.

Lemma editContent_echo_witness :
  let content := jsq "'" "<p>a</p><img alt='a' src='data:xyz'><img src='b.png' class='k'>" in
  let cleaned := jsq "'" "<p>a</p><img alt='a' src='https://placeholder.img/id-0'><img src='https://placeholder.img/id-1' class='k'>" in
  let reply := js "```json" ++ ([10%N] ++ html_reply cleaned ++ [10%N]) ++ js "```" in
  editContent
    (fun n => match n with
              | O => Rejected {| message := js "overloaded"; code := Some 503%Z |}
              | _ => Resolved (Some ([] ++ reply ++ [10%N]))
              end)
    (js "KEY") content world0
  = (Edited content, {| calls := 2; slept := [1000%Z] |}).
Proof.
  intros content cleaned reply.
  apply (editContent_echo _ (js "KEY") content cleaned
           [(js "https://placeholder.img/id-0", js "data:xyz");
            (js "https://placeholder.img/id-1", js "b.png")]
           world0 1 [] [10%N] [10%N] [10%N]); try reflexivity.
  - cbn [length]. lia.
  - unfold MAX_RETRIES. lia.
  - intros j Hj. exists {| message := js "overloaded"; code := Some 503%Z |}.
    destruct j; [split; reflexivity|lia].
Defined.

(** The model gives no html.  When the first call resolves without a
    text, or with a text that parses to a value whose html is missing or
    empty, [editContent] returns the content it was given, provided this
    holds no placeholder address, no URL of the image service and not
    the word config. *)
Theorem editContent_without_html
    (generateContent : nat -> outcome (option jsstring))
    (key currentContent : jsstring) (w : World) (responseText : option jsstring) :
  includes PLACEHOLDER currentContent = false ->
  has_match match_url currentContent = false ->
  includes (js "config") currentContent = false ->
  generateContent (calls w) = Resolved responseText ->
  (responseText = None \/ responseText = Some []
   \/ exists c t data html,
        responseText = Some (c :: t)
        /\ JSON_parse (cleanJsonString (c :: t)) = Some data
        /\ get_member data (js "html") = Some html
        /\ truthy html = false) ->
  editContent generateContent key currentContent w
  = (Edited currentContent, called w).
Proof.
  intros Hp Hu Hc Hv Hr. unfold editContent.
  destruct (replaceImagesWithPlaceholders_shape currentContent)
    as (ps & tl & E1 & E2 & _).
  rewrite E2.
  assert (Ew : _withRetry generateContent MAX_RETRIES w = (Resolved responseText, called w)).
  { unfold _withRetry, MAX_RETRIES. cbn [retry_from]. rewrite Hv. reflexivity. }
  rewrite Ew.
  assert (Ed : read_edit_reply key currentContent (entries PLACEHOLDER 0 ps) responseText
               = restoreImages key currentContent (entries PLACEHOLDER 0 ps)).
  { unfold read_edit_reply.
    destruct Hr as [->|[->|(c & t & data & html & -> & Ed & Eh & Et)]].
    - reflexivity.
    - reflexivity.
    - rewrite Ed, Eh, Et. reflexivity. }
  rewrite Ed, (restoreImages_plain PLACEHOLDER key currentContent ps 0 Hp Hu Hc).
  reflexivity.
Qed.

Lemma editContent_without_html_witness :
  editContent (fun n => Resolved (Some (js "{}"))) (js "KEY")
    (jsq "'" "<p>a</p><img src='b.png'>") world0
  = (Edited (jsq "'" "<p>a</p><img src='b.png'>"), {| calls := 1; slept := [] |}).
Proof.
  apply (editContent_without_html _ (js "KEY") _ world0 (Some (js "{}")));
    try reflexivity.
  right. right. exists 123%N, [125%N], (JObj []), None.
  repeat split; reflexivity.
Defined.

(* ================================================================== *)
(** * restyleDeck *)
(* ================================================================== *)

(** ** The placeholders of the deck *)

Lemma no_dollar_GLOBAL : no_dollar GLOBAL_PLACEHOLDER = true.
Proof. reflexivity. Qed.

Lemma global_straddle (w z : jsstring) :
  w <> [] -> length w < length GLOBAL_PLACEHOLDER ->
  starts_with GLOBAL_PLACEHOLDER (w ++ GLOBAL_PLACEHOLDER ++ z) = false.
Proof.
  change (length GLOBAL_PLACEHOLDER) with 34.
  intros Hw Hl. destruct w as [|c0 w]; [contradiction|].
  cbn [length] in Hl.
  do 33 (destruct w as [|? w];
         [cbn; rewrite ?andb_false_r; reflexivity|]; cbn [length] in Hl).
  lia.
Qed.

Lemma global_inside (z : jsstring) k :
  1 <= k -> k < length GLOBAL_PLACEHOLDER ->
  starts_with GLOBAL_PLACEHOLDER (skipn k GLOBAL_PLACEHOLDER ++ z) = false.
Proof.
  change (length GLOBAL_PLACEHOLDER) with 34.
  intros H1 H2. destruct k as [|k]; [lia|].
  do 33 (destruct k as [|k]; [cbn; rewrite ?andb_false_r; reflexivity|]).
  lia.
Qed.

Lemma global_head d (z : jsstring) :
  is_digit d = true -> starts_with GLOBAL_PLACEHOLDER (d :: z) = false.
Proof.
  intros H. unfold is_digit in H. apply andb_true_iff in H. destruct H as [H1 H2].
  apply N.leb_le in H1, H2.
  cbn [GLOBAL_PLACEHOLDER js list_ascii_of_string map starts_with].
  change (N_of_ascii "h") with 104%N.
  assert (Hd : N.eqb 104 d = false) by (apply N.eqb_neq; lia).
  rewrite Hd. reflexivity.
Qed.

Lemma tokenize_global_spec matched src st :
  includes src matched = true ->
  (forall e, In e (imageMap st) ->
     fst e <> placeholder_at GLOBAL_PLACEHOLDER (imgCounter st)) ->
  tokenize_global matched src st = (matched, st)
  \/ ((fun _ : jsstring => true) src = true
      /\ exists u v,
           matched = u ++ src ++ v
           /\ tokenize_global matched src st
              = (u ++ placeholder_at GLOBAL_PLACEHOLDER (imgCounter st) ++ v,
                 {| imgCounter := S (imgCounter st);
                    imageMap := imageMap st
                                ++ [(placeholder_at GLOBAL_PLACEHOLDER (imgCounter st),
                                     src)] |})).
Proof.
  intros Hinc Hfresh. right. split; [reflexivity|]. unfold tokenize_global.
  destruct (replace_string_occurs src
              (placeholder_at GLOBAL_PLACEHOLDER (imgCounter st))
              (no_dollar_placeholder GLOBAL_PLACEHOLDER no_dollar_GLOBAL _)
              matched [] Hinc) as (u & v & Eu & Er).
  exists u, v. split; [exact Eu|].
  rewrite Er, (map_set_fresh _ _ _ Hfresh). reflexivity.
Qed.

(** The slides with placeholders: each content is cut at its sources
    and carries the placeholders numbered across the deck; the map
    lists them all in order. *)
Lemma tokenize_slides_shape : forall slides st,
  (forall e, In e (imageMap st) ->
     exists j, j < imgCounter st /\ fst e = placeholder_at GLOBAL_PLACEHOLDER j) ->
  exists cuts,
    map slide_content slides = map (fun c => with_sources (fst c) (snd c)) cuts
    /\ map slide_content (fst (tokenize_slides slides st))
       = cleaned_from GLOBAL_PLACEHOLDER (imgCounter st) cuts
    /\ map slide_title (fst (tokenize_slides slides st)) = map slide_title slides
    /\ imageMap (snd (tokenize_slides slides st))
       = imageMap st
         ++ entries GLOBAL_PLACEHOLDER (imgCounter st) (concat (map fst cuts)).
Proof.
  induction slides as [|slide rest IH]; intros st Hf.
  - exists []. cbn. rewrite app_nil_r. repeat split.
  - cbn [tokenize_slides].
    destruct (replace_images_pieces GLOBAL_PLACEHOLDER tokenize_global _
                tokenize_global_spec (length (slide_content slide))
                (slide_content slide) 0 st (le_n _) (Nat.le_0_l _) Hf)
      as (ps & tl & E1 & E2 & E3 & E4 & _).
    destruct (replace_images tokenize_global 0 (slide_content slide) st)
      as [cleaned st1].
    cbn [fst snd skipn] in *.
    destruct (IH st1) as (cuts & C1 & C2 & C3 & C4).
    { intros e He. rewrite E3 in He. apply in_app_or in He. destruct He as [He|He].
      - destruct (Hf e He) as (j & Hj & Ej). exists j. split; [lia|exact Ej].
      - destruct (in_entries _ _ _ _ He) as (k & H1 & H2 & H3).
        exists k. split; [lia|exact H3]. }
    destruct (tokenize_slides rest st1) as [rest1 st2].
    cbn [fst snd] in *.
    exists ((ps, tl) :: cuts).
    cbn [map fst snd cleaned_from concat slide_content slide_title].
    rewrite C1, C2, C3, C4, E1, E2, E3, E4, entries_app, <- app_assoc.
    repeat split.
Qed.

(** ** The loop over the batches when no call brings slides *)

Lemma retry_from_no_reply (fn : nat -> outcome (option jsstring)) maxRetries :
  (forall n, match fn n with
             | Resolved text => reply_slides text = None
             | Rejected _ => True
             end) ->
  forall k i lastError w,
  match fst (retry_from fn maxRetries k i lastError w) with
  | Resolved text => reply_slides text = None
  | Rejected _ => True
  end.
Proof.
  intros H. induction k as [|k IH]; intros i lastError w; [exact I|].
  cbn [retry_from]. specialize (H (calls w)).
  destruct (fn (calls w)) as [v|e]; [exact H|].
  destruct (is_rate_limit e); [exact I|]. apply IH.
Qed.

Lemma restyle_batches_no_reply chat : no_reply chat ->
  forall n rest, length rest <= n -> forall i acc w,
  fst (restyle_batches chat rest i acc w) = acc ++ map fallback_slide rest.
Proof.
  intros Hc. induction n as [|n IH]; intros rest Hn i acc w.
  - destruct rest; [|cbn [length] in Hn; lia]. cbn. rewrite app_nil_r. reflexivity.
  - destruct rest as [|s1 rest]; [cbn; rewrite app_nil_r; reflexivity|].
    cbn [restyle_batches].
    set (message := {| firstBatch := (i =? 0)%nat;
                       batch := firstn BATCH_SIZE (s1 :: rest) |}).
    pose proof (retry_from_no_reply (fun k => chat k message) MAX_RETRIES
                  (fun k => Hc k message) MAX_RETRIES 0 None w) as Hr.
    unfold _withRetry.
    destruct (retry_from (fun k => chat k message) MAX_RETRIES MAX_RETRIES 0 None w)
      as [result w1].
    cbn [fst] in Hr.
    assert (Ea : match result with
                 | Resolved text =>
                     match reply_slides text with
                     | Some slides => slides
                     | None => map fallback_slide (firstn BATCH_SIZE (s1 :: rest))
                     end
                 | Rejected _ => map fallback_slide (firstn BATCH_SIZE (s1 :: rest))
                 end = map fallback_slide (firstn BATCH_SIZE (s1 :: rest))).
    { destruct result as [text|e]; [rewrite Hr|]; reflexivity. }
    rewrite Ea. cbn [length] in Hn.
    destruct rest as [|s2 [|s3 [|s4 rest1]]]; try reflexivity.
    rewrite IH by (cbn [length] in Hn; lia).
    rewrite <- app_assoc. reflexivity.
Qed.

(** ** One slide of the deck under the map of the whole deck *)

Lemma restore_entries_app a b s :
  restore_entries (a ++ b) s = restore_entries b (restore_entries a s).
Proof. unfold restore_entries. apply fold_left_app. Qed.

Lemma restore_entries_none_in s : forall es,
  (forall e, In e es -> includes (fst e) s = false) ->
  restore_entries es s = s.
Proof.
  induction es as [|e es IH]; intros H; [reflexivity|].
  unfold restore_entries. cbn [fold_left].
  rewrite replace_literal_none by (apply H; left; reflexivity).
  apply IH. intros e' He'. apply H. right. exact He'.
Qed.

Lemma restore_cut key before ps after tl :
  length (before ++ ps ++ after) <= 10 ->
  includes GLOBAL_PLACEHOLDER (with_sources ps tl) = false ->
  forallb no_dollar (map snd ps) = true ->
  has_match match_url
    (with_placeholders GLOBAL_PLACEHOLDER (length before) ps tl) = false ->
  includes (js "config")
    (with_placeholders GLOBAL_PLACEHOLDER (length before) ps tl) = false ->
  restoreImages key (with_placeholders GLOBAL_PLACEHOLDER (length before) ps tl)
    (entries GLOBAL_PLACEHOLDER 0 (before ++ ps ++ after))
  = Some (with_sources ps tl).
Proof.
  intros Hl Hp Hd Hu Hc. rewrite !length_app in Hl.
  unfold restoreImages, transformPollinationsURLs.
  rewrite (regex_replace_no_match _ _ _ (has_match_url_len _ Hu)).
  rewrite (regex_replace_unchanged match_tag convertTagInner (js "config")
             convertTagInner_without match_tag_length _ _ 0 (le_n _) Hc (Nat.le_0_l _)).
  cbn [skipn]. f_equal.
  rewrite !entries_app, !restore_entries_app. cbn [Nat.add].
  rewrite (restore_entries_none_in _ (entries GLOBAL_PLACEHOLDER 0 before)).
  - pose proof (restore_entries_pieces GLOBAL_PLACEHOLDER global_straddle
                  global_inside global_head ps (length before) [] tl) as E.
    cbn [app] in E. rewrite E; [|lia|exact Hp|exact Hd].
    apply restore_entries_absent, Hp.
  - intros e He. destruct (in_entries _ _ _ _ He) as (k & H1 & H2 & ->).
    apply (later_placeholders GLOBAL_PLACEHOLDER global_straddle global_inside
             global_head); [lia|lia|exact Hp].
Qed.

Lemma nth_error_middle {A : Type} (pre : list A) x rest :
  nth_error (pre ++ x :: rest) (length pre) = Some x.
Proof.
  induction pre as [|y pre IH]; [reflexivity|]. cbn [app length nth_error]. exact IH.
Qed.

(** The last step on the slides of the fallback: each slide gets its
    own title and content back. *)
Lemma merge_cuts key all : forall cuts slides toks before pre,
  map slide_content slides = map (fun c => with_sources (fst c) (snd c)) cuts ->
  map slide_content toks = cleaned_from GLOBAL_PLACEHOLDER (length before) cuts ->
  map slide_title toks = map slide_title slides ->
  before ++ concat (map fst cuts) = all ->
  length all <= 10 ->
  forallb no_dollar (map snd all) = true ->
  forallb (fun s => negb (includes GLOBAL_PLACEHOLDER (slide_content s))) slides = true ->
  forallb (fun t => negb (has_match match_url (slide_content t))
                    && negb (includes (js "config") (slide_content t))) toks = true ->
  merge_slides key (entries GLOBAL_PLACEHOLDER 0 all)
    (pre ++ map fallback_slide toks) slides (length pre)
  = Some (map unchanged slides).
Proof.
  induction cuts as [|[ps tl] cuts IH];
    intros slides toks before pre Hs Ht Htt Hall Hl Hd Hg Hp.
  - destruct slides; [reflexivity|discriminate].
  - destruct slides as [|s slides]; [discriminate|].
    destruct toks as [|t toks]; [discriminate|].
    cbn [map fst snd cleaned_from concat forallb] in *.
    injection Hs as Hs1 Hs. injection Ht as Ht1 Ht. injection Htt as Htt1 Htt.
    apply andb_true_iff in Hg. destruct Hg as [Hg1 Hg].
    apply andb_true_iff in Hp. destruct Hp as [Hp1 Hp].
    apply negb_true_iff in Hg1. apply andb_true_iff in Hp1. destruct Hp1 as [Hu Hc].
    apply negb_true_iff in Hu, Hc.
    assert (Hdp : forallb no_dollar (map snd ps) = true).
    { rewrite <- Hall, !map_app, !forallb_app in Hd.
      apply andb_true_iff in Hd. destruct Hd as [_ Hd].
      apply andb_true_iff in Hd. apply Hd. }
    assert (Er : restoreImages key (slide_content t) (entries GLOBAL_PLACEHOLDER 0 all)
                 = Some (slide_content s)).
    { rewrite Ht1, Hs1, <- Hall.
      apply restore_cut; [rewrite Hall; exact Hl|rewrite <- Hs1; exact Hg1|exact Hdp
                          |rewrite <- Ht1; exact Hu|rewrite <- Ht1; exact Hc]. }
    cbn [merge_slides]. rewrite nth_error_middle.
    unfold merge_slide at 1.
    change (truthy (Some (fallback_slide t))) with true.
    change (get_member (fallback_slide t) (js "content"))
      with (Some (Some (JStr (slide_content t)))).
    change (get_member (fallback_slide t) (js "title"))
      with (Some (Some (JStr (slide_title t)))).
    cbn [negb]. rewrite Er.
    specialize (IH slides toks (before ++ ps) (pre ++ [fallback_slide t])).
    replace (length (pre ++ [fallback_slide t])) with (S (length pre)) in IH
      by (rewrite length_app; cbn [length]; lia).
    replace ((pre ++ [fallback_slide t]) ++ map fallback_slide toks)
      with (pre ++ fallback_slide t :: map fallback_slide toks) in IH
      by (rewrite <- app_assoc; reflexivity).
    rewrite (length_app before ps) in IH.
    rewrite IH; try assumption.
    + unfold unchanged at 2. rewrite Htt1. reflexivity.
    + rewrite <- app_assoc. exact Hall.
Qed.

(** The chat brings nothing.  When every call fails or brings no list
    of slides, the deck comes back as it was: every slide with its own
    id, title and content, provided that the deck holds at most ten
    images, no source with a dollar sign and no placeholder address of
    its own, and that no content with placeholders holds a URL of the
    image service or the word config. *)
Theorem restyleDeck_without_reply
    (chat : RestyleChat) (key : jsstring) (slides slidesWithPlaceholders : list Slide)
    (st : Tokens) (w : World) :
  tokenize_slides slides {| imgCounter := 0; imageMap := [] |}
    = (slidesWithPlaceholders, st) ->
  length (imageMap st) <= 10 ->
  forallb (fun e => no_dollar (snd e)) (imageMap st) = true ->
  forallb (fun s => negb (includes GLOBAL_PLACEHOLDER (slide_content s))) slides = true ->
  forallb (fun t => negb (has_match match_url (slide_content t))
                    && negb (includes (js "config") (slide_content t)))
    slidesWithPlaceholders = true ->
  no_reply chat ->
  fst (restyleDeck chat key slides w) = Some (map unchanged slides).
Proof.
  intros Ht Hl Hd Hg Hp Hc. unfold restyleDeck.
  destruct (tokenize_slides_shape slides {| imgCounter := 0; imageMap := [] |})
    as (cuts & C1 & C2 & C3 & C4); [intros e []|].
  rewrite Ht in *. cbn [fst snd imgCounter imageMap app] in *.
  pose proof (restyle_batches_no_reply chat Hc _ slidesWithPlaceholders (le_n _) 0 [] w)
    as Eb.
  destruct (restyle_batches chat slidesWithPlaceholders 0 [] w) as [acc w1].
  cbn [fst snd app] in *. subst acc. rewrite C4.
  rewrite C4, length_entries in Hl. rewrite C4, no_dollar_entries in Hd.
  apply (merge_cuts key (concat (map fst cuts)) cuts slides slidesWithPlaceholders [] []);
    try assumption. reflexivity.
Qed.

Lemma restyleDeck_without_reply_witness :
  let slide (n c : jsstring) :=
    {| slide_id := n; slide_title := js "T"; slide_content := c |} in
  let slides :=
    [slide (js "a") (jsq "'" "<img src='https://x/1.png'><img src='data:2'>");
     slide (js "b") (jsq "'" "<p>text</p>");
     slide (js "c") (jsq "'" "<IMG alt='z' SRC='3.png'>");
     slide (js "d") (jsq "'" "<p>d</p>");
     slide (js "e") (jsq "'" "<img src='5.png'>")] in
  fst (restyleDeck
         (fun n m => Rejected {| message := js "overloaded"; code := Some 503%Z |})
         (js "KEY") slides world0)
  = Some (map unchanged slides).
Proof.
  intros slide slides.
  eapply (restyleDeck_without_reply _ (js "KEY") slides); try reflexivity.
  - vm_compute. lia.
  - intros n m. exact I.
Defined.

(** ** The loop over the batches when every reply is a batch of records *)

Lemma cleanJsonString_batch_text b : cleanJsonString (batch_text b) = batch_text b.
Proof.
  unfold cleanJsonString.
  assert (E : trim (batch_text b) = batch_text b).
  { rewrite <- (app_nil_r (batch_text b)), batch_text_app.
    apply (trim_braces _ (123 :: 34 :: 115 :: 108 :: 105 :: 100 :: 101 :: 115
                          :: 34 :: 58 :: 91 :: slides_text b ++ [93])%N).
    cbn [app]. do 11 f_equal. rewrite <- app_assoc. reflexivity. }
  rewrite E. rewrite <- (app_nil_r (batch_text b)), batch_text_app. reflexivity.
Qed.

Lemma reply_slides_batch_text b :
  reply_slides (Some (batch_text b)) = Some (map slide_value b).
Proof.
  unfold reply_slides. rewrite cleanJsonString_batch_text, JSON_parse_batch.
  reflexivity.
Qed.

Lemma restyle_batches_step chat rest i acc w text w1 :
  rest <> [] ->
  _withRetry
    (fun k => chat k {| firstBatch := (i =? 0)%nat; batch := firstn BATCH_SIZE rest |})
    MAX_RETRIES w = (Resolved text, w1) ->
  restyle_batches chat rest i acc w
  = restyle_batches chat (skipn 4 rest) (i + BATCH_SIZE)
      (acc ++ match reply_slides text with
              | Some slides => slides
              | None => map fallback_slide (firstn BATCH_SIZE rest)
              end) w1.
Proof.
  intros Hr Hw. destruct rest as [|a rest]; [contradiction|].
  cbn [restyle_batches]. rewrite Hw.
  destruct rest as [|b [|c [|d rest]]]; reflexivity.
Qed.

Lemma skipn_nth_cons {A : Type} (d : A) : forall (l : list A) j,
  j < length l -> skipn j l = nth j l d :: skipn (j + 1) l.
Proof.
  induction l as [|x l IH]; intros j H; [cbn [length] in H; lia|].
  destruct j as [|j]; [reflexivity|].
  cbn [skipn nth Nat.add]. apply IH. cbn [length] in H. lia.
Qed.

Lemma restyle_batches_records chat toks n0 bs : forall m j acc w,
  calls w = n0 + j ->
  (forall t, j <= t < j + m ->
     4 * t < length toks
     /\ chat (n0 + t) (restyle_message toks t)
        = Resolved (Some (batch_text (nth t bs [])))) ->
  restyle_batches chat (skipn (4 * j) toks) (4 * j) acc w
  = restyle_batches chat (skipn (4 * (j + m)) toks) (4 * (j + m))
      (acc ++ map slide_value (concat (firstn m (skipn j bs))))
      {| calls := calls w + m; slept := slept w |}.
Proof.
  induction m as [|m IH]; intros j acc w Hc Hh.
  - rewrite !Nat.add_0_r. cbn [firstn concat map]. rewrite app_nil_r.
    destruct w; reflexivity.
  - destruct (Hh j ltac:(lia)) as [Hj Hrs].
    rewrite (restyle_batches_step chat _ (4 * j) acc w
               (Some (batch_text (nth j bs []))) (called w)).
    + replace (skipn 4 (skipn (4 * j) toks)) with (skipn (4 * (j + 1)) toks)
        by (rewrite skipn_skipn_add; f_equal; lia).
      replace (4 * j + BATCH_SIZE) with (4 * (j + 1)) by (unfold BATCH_SIZE; lia).
      rewrite reply_slides_batch_text.
      rewrite (IH (j + 1) _ (called w)).
      * cbn [calls slept called].
        replace (j + 1 + m) with (j + S m) by lia.
        replace (S (calls w) + m) with (calls w + S m) by lia.
        f_equal. rewrite <- app_assoc, <- map_app. do 2 f_equal.
        destruct (Nat.lt_ge_cases j (length bs)) as [Hlt|Hge].
        -- rewrite (skipn_nth_cons [] bs j Hlt). reflexivity.
        -- rewrite (nth_overflow bs [] Hge), !skipn_all2 by lia.
           rewrite !firstn_nil. reflexivity.
      * cbn [calls called]. lia.
      * intros t Ht. apply Hh. lia.
    + apply skipn_nonempty. exact Hj.
    + unfold _withRetry, MAX_RETRIES.
      erewrite retry_from_resolved.
      * destruct w; reflexivity.
      * rewrite Hc. replace (4 * j =? 0)%nat with (j =? 0)%nat by (destruct j; reflexivity).
        exact Hrs.
Qed.

Lemma length_tokenize_slides : forall slides st,
  length (fst (tokenize_slides slides st)) = length slides.
Proof.
  induction slides as [|s slides IH]; intros st; [reflexivity|].
  cbn [tokenize_slides].
  destruct (replace_images tokenize_global 0 (slide_content s) st) as [cleaned st1].
  specialize (IH st1). destruct (tokenize_slides slides st1) as [rest1 st2].
  cbn [fst length] in *. rewrite IH. reflexivity.
Qed.

Lemma merge_slides_beyond key images acc : forall slides i,
  length acc <= i ->
  merge_slides key images acc slides i = Some (map unchanged slides).
Proof.
  induction slides as [|s slides IH]; intros i H; [reflexivity|].
  cbn [merge_slides map].
  assert (E : nth_error acc i = None) by (apply nth_error_None; exact H).
  rewrite E. cbn [merge_slide truthy negb]. rewrite IH by lia. reflexivity.
Qed.

Lemma by_position_none key images : forall slides,
  by_position key images slides [] = Some (map unchanged slides).
Proof.
  induction slides as [|s slides IH]; [reflexivity|].
  cbn [by_position hd_error tl merged map]. rewrite IH. reflexivity.
Qed.

Lemma merge_slides_records key images : forall slides records pre,
  merge_slides key images (pre ++ map slide_value records) slides (length pre)
  = by_position key images slides records.
Proof.
  induction slides as [|s slides IH]; intros records pre; [reflexivity|].
  destruct records as [|r records].
  - cbn [map]. rewrite app_nil_r, by_position_none.
    apply merge_slides_beyond, le_n.
  - cbn [merge_slides by_position hd_error tl map].
    rewrite nth_error_middle.
    unfold merge_slide, merged.
    change (truthy (Some (slide_value r))) with true. cbn [negb].
    rewrite get_member_content, get_member_title.
    specialize (IH records (pre ++ [slide_value r])).
    replace (length (pre ++ [slide_value r])) with (S (length pre)) in IH
      by (rewrite length_app; cbn [length]; lia).
    replace ((pre ++ [slide_value r]) ++ map slide_value records)
      with (pre ++ slide_value r :: map slide_value records) in IH
      by (rewrite <- app_assoc; reflexivity).
    rewrite IH. reflexivity.
Qed.

(** The records are taken by position.  When every batch is answered
    at the first attempt by a batch of slide records, whatever their
    number, the slide at index [i] of the deck keeps its id and takes
    the title and the restored content of the record at index [i] of all
    records in the order of the replies; a slide without such a record
    stays as it was.  One call is made per batch of four slides and no
    delay is waited for. *)
Theorem restyleDeck_by_position
    (chat : RestyleChat) (key : jsstring) (slides slidesWithPlaceholders : list Slide)
    (st : Tokens) (w : World) (bs : list Batch) :
  tokenize_slides slides {| imgCounter := 0; imageMap := [] |}
    = (slidesWithPlaceholders, st) ->
  length bs = turn_count (length slides) ->
  (forall j, j < length bs ->
     chat (calls w + j) (restyle_message slidesWithPlaceholders j)
     = Resolved (Some (batch_text (nth j bs [])))) ->
  restyleDeck chat key slides w
  = (by_position key (imageMap st) slides (concat bs),
     {| calls := calls w + length bs; slept := slept w |}).
Proof.
  intros Ht Hl Hc. unfold restyleDeck.
  pose proof (length_tokenize_slides slides {| imgCounter := 0; imageMap := [] |}) as Hlen.
  rewrite Ht in *. cbn [fst] in Hlen.
  pose proof (restyle_batches_records chat slidesWithPlaceholders (calls w) bs
                (length bs) 0 [] w ltac:(lia)) as E.
  change (4 * 0) with 0 in E. change (0 + length bs) with (length bs) in E.
  cbn [skipn app] in E. rewrite E.
  - rewrite skipn_all2.
    + cbn [restyle_batches]. rewrite firstn_all.
      rewrite <- (merge_slides_records key (imageMap st) slides (concat bs) []).
      reflexivity.
    + rewrite Hlen, Hl. unfold turn_count.
      pose proof (Nat.div_mod (length slides + 3) 4 ltac:(lia)).
      pose proof (Nat.mod_upper_bound (length slides + 3) 4 ltac:(lia)). lia.
  - intros t Ht'. split.
    + rewrite Hlen. apply turn_count_lt. lia.
    + apply Hc. lia.
Qed.

Lemma restyleDeck_by_position_witness :
  let slide (n c : jsstring) :=
    {| slide_id := n; slide_title := js "T"; slide_content := c |} in
  let slides :=
    [slide (js "a") (jsq "'" "<img src='1.png'>");
     slide (js "b") (jsq "'" "<p>b</p>");
     slide (js "c") (jsq "'" "<p>c</p>");
     slide (js "d") (jsq "'" "<p>d</p>");
     slide (js "e") (jsq "'" "<p>e</p>")] in
  let record (t c : jsstring) := {| s_title := t; s_content := c |} in
  let first :=
    [record (js "A") (jsq "'" "<b><img src='https://placeholder.img/global-id-0'></b>");
     record (js "B") (js "<b>b</b>");
     record (js "C") (js "<b>c</b>")] in
  let second := [record (js "E") (js "<b>e</b>")] in
  restyleDeck
    (fun n m => Resolved (Some (batch_text (if (n =? 0)%nat then first else second))))
    (js "KEY") slides world0
  = (Some [{| restyled_id := js "a"; restyled_title := Some (JStr (js "A"));
              restyled_content := jsq "'" "<b><img src='1.png'></b>" |};
           {| restyled_id := js "b"; restyled_title := Some (JStr (js "B"));
              restyled_content := js "<b>b</b>" |};
           {| restyled_id := js "c"; restyled_title := Some (JStr (js "C"));
              restyled_content := js "<b>c</b>" |};
           {| restyled_id := js "d"; restyled_title := Some (JStr (js "E"));
              restyled_content := js "<b>e</b>" |};
           {| restyled_id := js "e"; restyled_title := Some (JStr (js "T"));
              restyled_content := js "<p>e</p>" |}],
     {| calls := 2; slept := [] |}).
Proof.
  intros slide slides record first second.
  etransitivity.
  - eapply (restyleDeck_by_position _ (js "KEY") slides _ _ world0 [first; second]).
    + reflexivity.
    + reflexivity.
    + intros j Hj.
      destruct j as [|[|j]]; [reflexivity|reflexivity|cbn [length] in Hj; lia].
  - vm_compute. reflexivity.
Defined.

(* ================================================================== *)
(** * The title of the deck *)
(* ================================================================== *)

Lemma last_cons_nonempty {A : Type} (x : A) l d : l <> [] -> last (x :: l) d = last l d.
Proof. destruct l; [contradiction|reflexivity]. Qed.

Lemma split_colon_nonempty : forall s skip piece, split_colon skip s piece <> [].
Proof.
  induction s as [|c s IH]; intros skip piece; [discriminate|].
  cbn [split_colon]. destruct skip as [|k]; [|apply IH].
  destruct (match_colon (c :: s)); [discriminate|apply IH].
Qed.

(** The last part holds no colon. *)
Lemma split_colon_last_no_colon : forall s skip piece,
  no_colon piece = true ->
  no_colon (last (split_colon skip s piece) []) = true.
Proof.
  induction s as [|c s IH]; intros skip piece Hp; [exact Hp|].
  cbn [split_colon]. destruct skip as [|k]; [|apply IH, Hp].
  unfold match_colon. destruct (N.eqb c COLON) eqn:Ec.
  - rewrite last_cons_nonempty by apply split_colon_nonempty.
    apply IH. reflexivity.
  - apply IH. unfold no_colon. rewrite forallb_app. cbn [forallb].
    rewrite Ec. cbn [negb andb]. rewrite andb_true_r. exact Hp.
Qed.

(** The title of the deck is never empty and holds no colon. *)
Theorem deck_title_of_shape (outline : list OutlineItem) :
  deck_title_of outline <> [] /\ no_colon (deck_title_of outline) = true.
Proof.
  unfold deck_title_of. destruct outline as [|item outline].
  - split; [discriminate|reflexivity].
  - pose proof (split_colon_last_no_colon (title item) 0 [] eq_refl) as H.
    destruct (last (split_colon 0 (title item) []) []) as [|c t].
    + split; [discriminate|reflexivity].
    + split; [discriminate|exact H].
Qed.

Lemma split_colon_no_colon : forall rest piece,
  no_colon rest = true -> split_colon 0 rest piece = [piece ++ rest].
Proof.
  induction rest as [|c rest IH]; intros piece H.
  - cbn [split_colon]. rewrite app_nil_r. reflexivity.
  - cbn [no_colon forallb] in H. apply andb_true_iff in H. destruct H as [Hc Hr].
    apply negb_true_iff in Hc. cbn [split_colon match_colon]. rewrite Hc.
    rewrite (IH _ Hr), <- app_assoc. reflexivity.
Qed.

Lemma split_colon_skip : forall ws rest piece,
  split_colon (length ws) (ws ++ rest) piece = split_colon 0 rest piece.
Proof.
  induction ws as [|c ws IH]; intros rest piece; [reflexivity|].
  cbn [length app split_colon]. apply IH.
Qed.

Lemma count_space_run : forall ws rest,
  forallb is_js_space ws = true ->
  match rest with
  | c :: _ => is_js_space c = false
  | [] => True
  end ->
  count_space (ws ++ rest) = length ws.
Proof.
  induction ws as [|c ws IH]; intros rest Hw Hr.
  - destruct rest as [|c rest]; [reflexivity|]. cbn [app count_space length].
    rewrite Hr. reflexivity.
  - cbn [forallb] in Hw. apply andb_true_iff in Hw. destruct Hw as [Hc Hw].
    cbn [app count_space length]. rewrite Hc, (IH rest Hw Hr). reflexivity.
Qed.

(** While the scan is before the last colon, the last part is what
    follows that colon and its white space. *)
Lemma split_colon_last ws rest :
  forallb is_js_space ws = true ->
  no_colon rest = true ->
  match rest with
  | c :: _ => is_js_space c = false
  | [] => True
  end ->
  forall pre skip piece,
  skip <= count_space (pre ++ COLON :: ws ++ rest) ->
  last (split_colon skip (pre ++ COLON :: ws ++ rest) piece) [] = rest.
Proof.
  intros Hw Hr Hh. induction pre as [|c pre IH]; intros skip piece Hs.
  - cbn [app] in *. change (count_space (COLON :: ws ++ rest)) with 0 in Hs.
    destruct skip; [|lia].
    cbn [split_colon match_colon]. rewrite N.eqb_refl.
    rewrite last_cons_nonempty by apply split_colon_nonempty.
    rewrite (count_space_run ws rest Hw Hh). cbn [Nat.add].
    replace (S (length ws) - 1) with (length ws) by lia.
    rewrite split_colon_skip, (split_colon_no_colon rest [] Hr). reflexivity.
  - cbn [app] in *. cbn [split_colon]. destruct skip as [|k].
    + unfold match_colon. destruct (N.eqb c COLON).
      * rewrite last_cons_nonempty by apply split_colon_nonempty.
        apply IH. lia.
      * apply IH. lia.
    + apply IH. cbn [count_space] in Hs. destruct (is_js_space c); lia.
Qed.

(** The title of the deck is the part of the title of the first outline
    item after its last colon and the white space that follows it; a
    title without a colon is taken as it is. *)
Theorem deck_title_of_last_part (item : OutlineItem) (outline : list OutlineItem) :
  (forall pre ws rest,
     title item = pre ++ COLON :: ws ++ rest ->
     forallb is_js_space ws = true ->
     no_colon rest = true ->
     match rest with
     | c :: _ => is_js_space c = false
     | [] => False
     end ->
     deck_title_of (item :: outline) = rest)
  /\ (no_colon (title item) = true -> title item <> [] ->
      deck_title_of (item :: outline) = title item).
Proof.
  split.
  - intros pre ws rest Et Hw Hr Hh. unfold deck_title_of. rewrite Et.
    rewrite (split_colon_last ws rest Hw Hr); [| |apply Nat.le_0_l].
    + destruct rest; [destruct Hh|reflexivity].
    + destruct rest; [exact I|exact Hh].
  - intros Hn He. unfold deck_title_of.
    rewrite (split_colon_no_colon _ [] Hn). cbn [last app].
    destruct (title item); [contradiction|reflexivity].
Qed.

Lemma deck_title_of_last_part_witness :
  deck_title_of [{| id := js "slide-0"; title := js "Deck: Part 2:  The Plan";
                    points := [] |}]
  = js "The Plan".
Proof.
  apply (proj1 (deck_title_of_last_part
                  {| id := js "slide-0"; title := js "Deck: Part 2:  The Plan";
                     points := [] |} [])
           (js "Deck: Part 2") (js "  ") (js "The Plan")); reflexivity.
Defined.

(* ================================================================== *)
(** * [transformPollinationsURLs] on its own result *)
(* ================================================================== *)

Section MapDecodeTail.

Variable f : char -> char.
Hypothesis f_percent : f PERCENT = PERCENT.
Hypothesis f_hex : forall n, (n < 16)%N -> f (hex_digit n) = hex_digit n.
Hypothesis f_unreserved : forall c, is_unreserved c = true -> f c <> PERCENT.

(** Decoding an encoded text that is followed by more text. *)
Lemma decode_map_encode_tail (t : jsstring) : forall n s e,
  length s <= n ->
  code_units s = true ->
  encodeURIComponent s = Some e ->
  decode_from 0 (map f e ++ t)
  = match decode_from 0 t with
    | Some x => Some (map (fun c => if is_unreserved c then f c else c) s ++ x)
    | None => None
    end.
Proof.
  induction n as [|n IH]; intros s e Hn Hu He.
  - destruct s; [|simpl in Hn; lia]. injection He as <-. cbn [map app].
    destruct (decode_from 0 t); reflexivity.
  - destruct s as [|c s1].
    { injection He as <-. cbn [map app]. destruct (decode_from 0 t); reflexivity. }
    cbn [length] in Hn. cbn [code_units forallb] in Hu.
    apply andb_true_iff in Hu. destruct Hu as [Hc Hu]. apply N.ltb_lt in Hc.
    cbn [encodeURIComponent] in He. cbn [map].
    destruct (is_unreserved c) eqn:Eu.
    + destruct (encodeURIComponent s1) as [r|] eqn:Er; [|discriminate].
      injection He as <-. cbn [map app decode_from].
      destruct (N.eqb_spec (f c) PERCENT) as [E|_];
        [exfalso; exact (f_unreserved c Eu E)|].
      rewrite (IH s1 r) by (try assumption; lia).
      destruct (decode_from 0 t); reflexivity.
    + destruct (is_low_surrogate c) eqn:El; [discriminate|].
      destruct (is_high_surrogate c) eqn:Eh.
      * destruct s1 as [|d s2]; [discriminate|].
        destruct (is_low_surrogate d) eqn:Ed; [|discriminate].
        destruct (encodeURIComponent s2) as [r|] eqn:Er; [|discriminate].
        injection He as <-.
        cbn [code_units forallb] in Hu. apply andb_true_iff in Hu.
        destruct Hu as [_ Hu].
        unfold is_high_surrogate in Eh. unfold is_low_surrogate in Ed.
        apply andb_true_iff in Eh. destruct Eh as [Eh1 Eh2].
        apply andb_true_iff in Ed. destruct Ed as [Ed1 Ed2].
        apply N.leb_le in Eh1, Eh2, Ed1, Ed2.
        set (cp := ((c - 55296) * 1024 + (d - 56320) + 65536)%N).
        assert (Hcp : (65536 <= cp < 2097152)%N) by (unfold cp; lia).
        rewrite map_app, (map_percent_bytes f f_percent f_hex _ (utf8_bytes cp ltac:(lia))).
        rewrite <- app_assoc.
        rewrite (decode_from_utf8 cp [c; d]).
        2:{ rewrite utf8_length.
            rewrite (ltb_false cp 128), (ltb_false cp 2048), (ltb_false cp 65536)
              by lia.
            apply decode_escape_4; lia. }
        rewrite (IH s2 r) by (try assumption; cbn [length] in Hn; lia).
        cbn [map app].
        destruct (is_unreserved d) eqn:Eud;
          [apply unreserved_small in Eud; lia|].
        destruct (decode_from 0 t); reflexivity.
      * destruct (encodeURIComponent s1) as [r|] eqn:Er; [|discriminate].
        injection He as <-.
        unfold is_high_surrogate in Eh. unfold is_low_surrogate in El.
        rewrite map_app, (map_percent_bytes f f_percent f_hex _ (utf8_bytes c ltac:(lia))).
        rewrite <- app_assoc.
        rewrite (decode_from_utf8 c [c]).
        2:{ rewrite utf8_length.
            destruct (N.ltb_spec c 128).
            - unfold utf8. rewrite (ltb_true c 128) by lia. cbn [flat_map].
              rewrite app_nil_r. apply decode_escape_1. lia.
            - destruct (N.ltb_spec c 2048); [apply decode_escape_2; lia|].
              rewrite (ltb_true c 65536) by lia.
              apply decode_escape_3; [lia|].
              apply andb_false_iff in Eh, El.
              destruct Eh as [Eh|Eh], El as [El|El];
                try apply N.leb_gt in Eh; try apply N.leb_gt in El; lia. }
        rewrite (IH s1 r) by (try assumption; lia).
        destruct (decode_from 0 t); reflexivity.
Qed.

End MapDecodeTail.

(** Encoding a text that is followed by more text. *)
Lemma encode_app (b : jsstring) : forall n a ea,
  length a <= n ->
  encodeURIComponent a = Some ea ->
  encodeURIComponent (a ++ b)
  = match encodeURIComponent b with
    | Some eb => Some (ea ++ eb)
    | None => None
    end.
Proof.
  induction n as [|n IH]; intros a ea Hn He.
  - destruct a; [|simpl in Hn; lia]. injection He as <-. cbn [app].
    destruct (encodeURIComponent b); reflexivity.
  - destruct a as [|c a1].
    { injection He as <-. cbn [app]. destruct (encodeURIComponent b); reflexivity. }
    cbn [length] in Hn. cbn [encodeURIComponent app] in *.
    destruct (is_unreserved c).
    + destruct (encodeURIComponent a1) as [r|] eqn:Er; [|discriminate].
      injection He as <-. rewrite (IH a1 r) by (try exact Er; lia).
      destruct (encodeURIComponent b); reflexivity.
    + destruct (is_low_surrogate c); [discriminate|].
      destruct (is_high_surrogate c).
      * destruct a1 as [|d a2]; [discriminate|]. cbn [app].
        destruct (is_low_surrogate d); [|discriminate].
        destruct (encodeURIComponent a2) as [r|] eqn:Er; [|discriminate].
        injection He as <-.
        rewrite (IH a2 r) by (try exact Er; cbn [length] in Hn; lia).
        destruct (encodeURIComponent b); [rewrite <- app_assoc|]; reflexivity.
      * destruct (encodeURIComponent a1) as [r|] eqn:Er; [|discriminate].
        injection He as <-. rewrite (IH a1 r) by (try exact Er; lia).
        destruct (encodeURIComponent b); [rewrite <- app_assoc|]; reflexivity.
Qed.

Lemma alnum_unreserved c : is_alnum c = true -> is_unreserved c = true.
Proof. intros H. unfold is_unreserved. rewrite H. reflexivity. Qed.

Lemma alnum_plain c :
  is_alnum c = true -> c <> PERCENT /\ c <> UNDERSCORE.
Proof.
  unfold is_alnum. intros H.
  repeat (apply orb_true_iff in H; destruct H as [H|H]);
    apply andb_true_iff in H; destruct H as [H1 H2];
    apply N.leb_le in H1, H2; unfold PERCENT, UNDERSCORE; split; lia.
Qed.

Lemma encode_alnum : forall k,
  forallb is_alnum k = true -> encodeURIComponent k = Some k.
Proof.
  induction k as [|c k IH]; intros H; [reflexivity|].
  cbn [forallb] in H. apply andb_true_iff in H. destruct H as [Hc Hk].
  cbn [encodeURIComponent]. rewrite (alnum_unreserved c Hc), (IH Hk). reflexivity.
Qed.

Lemma decode_alnum : forall k,
  forallb is_alnum k = true -> decode_from 0 k = Some k.
Proof.
  induction k as [|c k IH]; intros H; [reflexivity|].
  cbn [forallb] in H. apply andb_true_iff in H. destruct H as [Hc Hk].
  cbn [decode_from]. destruct (alnum_plain c Hc) as [Hp _].
  apply N.eqb_neq in Hp. rewrite Hp, (IH Hk). reflexivity.
Qed.

Lemma map_underscore_alnum : forall k,
  forallb is_alnum k = true -> map underscore_to_space k = k.
Proof.
  induction k as [|c k IH]; intros H; [reflexivity|].
  cbn [forallb] in H. apply andb_true_iff in H. destruct H as [Hc Hk].
  cbn [map]. rewrite (IH Hk). unfold underscore_to_space.
  destruct (alnum_plain c Hc) as [_ Hu]. apply N.eqb_neq in Hu. rewrite Hu.
  reflexivity.
Qed.

Lemma decode_plain : forall s,
  forallb (fun c => negb (N.eqb c PERCENT)) s = true -> decode_from 0 s = Some s.
Proof.
  induction s as [|c s IH]; intros H; [reflexivity|].
  cbn [forallb] in H. apply andb_true_iff in H. destruct H as [Hc Hs].
  apply negb_true_iff in Hc. cbn [decode_from]. rewrite Hc, (IH Hs). reflexivity.
Qed.

Lemma code_units_underscores : forall d,
  code_units d = true -> code_units (map underscore_to_space d) = true.
Proof.
  unfold code_units. induction d as [|c d IH]; intros H; [reflexivity|].
  cbn [forallb map] in *. apply andb_true_iff in H. destruct H as [Hc Hd].
  rewrite (IH Hd), andb_true_r. unfold underscore_to_space.
  destruct (N.eqb c UNDERSCORE); [reflexivity|exact Hc].
Qed.

Lemma map_underscores_twice : forall d,
  map (fun c => if is_unreserved c then underscore_to_space c else c)
    (map underscore_to_space d)
  = map underscore_to_space d.
Proof.
  intros d. rewrite map_map. apply map_ext. intros c.
  destruct (is_unreserved (underscore_to_space c)); [|reflexivity].
  unfold underscore_to_space.
  destruct (N.eqb c UNDERSCORE) eqn:Ec; [reflexivity|]. rewrite Ec. reflexivity.
Qed.

(** The rewrite is not idempotent.  On the URL it has written for an
    encoded description, with a key of letters and digits, a second pass
    takes the query for a part of the description: it writes the
    description again, then the query of the first pass
    percent-encoded, and adds a second query. *)
Theorem transformPollinationsURLs_twice (secure : bool) (d e k k2 : jsstring) :
  d <> [] -> code_units d = true -> encodeURIComponent d = Some e ->
  forallb is_alnum k = true ->
  exists u,
    transformPollinationsURLs
      ((if secure then js "https" else js "http") ++ URL_HOST_PATH ++ e) k = Some u
    /\ transformPollinationsURLs u k2
       = Some (js "https://gen.pollinations.ai/image/"
               ++ replace_all [UNDERSCORE] (js "%20") e
               ++ js "%3Fmodel%3Dflux%26key%3D" ++ k
               ++ js "?model=flux&key=" ++ k2).
Proof.
  intros Hd Hu He Hk.
  eexists. split; [apply (transform_encoded_description secure d e k Hd Hu He)|].
  set (e1 := replace_all [UNDERSCORE] (js "%20") e).
  set (d1 := map underscore_to_space d).
  set (Q := js "?model=flux&key=").
  assert (Hu1 : code_units d1 = true) by (apply code_units_underscores, Hu).
  assert (He1 : encodeURIComponent d1 = Some e1)
    by (apply (encode_underscores (length d) d e (le_n _) Hu He)).
  assert (Hd1 : d1 <> []) by (unfold d1; destruct d; [contradiction|discriminate]).
  destruct (encode_chars (length d1) d1 e1 (le_n _) Hu1 He1) as [Hchars Hne].
  specialize (Hne Hd1).
  set (raw := e1 ++ Q ++ k).
  assert (Hraw : raw <> []).
  { unfold raw. destruct e1; [contradiction|discriminate]. }
  assert (Hurl : Forall (fun c => is_url_char c = true) raw).
  { unfold raw. apply Forall_app. split.
    - eapply Forall_impl; [|exact Hchars]. intros c. apply unreserved_url_char.
    - apply Forall_app. split.
      + apply Forall_forall. apply forallb_forall. reflexivity.
      + apply Forall_forall. intros c Hc. rewrite forallb_forall in Hk.
        apply unreserved_url_char. left. apply alnum_unreserved, Hk, Hc. }
  change (js "https://gen.pollinations.ai/image/" ++ e1 ++ Q ++ k)
    with (js "https" ++ URL_HOST_PATH ++ raw).
  pose proof (match_url_secure raw Hraw Hurl) as Hm.
  unfold transformPollinationsURLs.
  rewrite regex_replace_whole.
  - cbv beta.
    change (js "https://gen.pollinations.ai/image/" ++ raw)
      with (js "https" ++ URL_HOST_PATH ++ raw).
    rewrite Hm. change (skipn 34 (js "https" ++ URL_HOST_PATH ++ raw)) with raw.
    rewrite replace_underscore_map. unfold raw. rewrite !map_app.
    change (map underscore_to_space Q) with Q.
    rewrite (map_underscore_alnum k Hk).
    unfold decodeURIComponent.
    rewrite (decode_map_encode_tail underscore_to_space eq_refl) with (n := length d1) (s := d1);
      try assumption; try apply le_n.
    + rewrite decode_plain.
      * unfold d1 at 1. rewrite map_underscores_twice. fold d1.
        rewrite (encode_app (Q ++ k) (length d1) d1 e1 (le_n _) He1).
        rewrite (encode_app k (length Q) Q (js "%3Fmodel%3Dflux%26key%3D") (le_n _) eq_refl).
        rewrite (encode_alnum k Hk). rewrite <- !app_assoc. reflexivity.
      * rewrite forallb_app. apply andb_true_iff. split; [reflexivity|].
        apply forallb_forall. intros c Hc. rewrite forallb_forall in Hk.
        apply negb_true_iff, N.eqb_neq. apply (alnum_plain c (Hk c Hc)).
    + intros n Hn. unfold underscore_to_space.
      destruct (N.eqb_spec (hex_digit n) UNDERSCORE) as [E|_]; [|reflexivity].
      unfold hex_digit, UNDERSCORE in E. destruct (N.ltb_spec n 10); lia.
    + intros c Hc. unfold underscore_to_space.
      destruct (N.eqb_spec c UNDERSCORE) as [_|_]; [discriminate|].
      intros E. subst c. discriminate.
  - discriminate.
  - unfold match_url_len.
    change (js "https://gen.pollinations.ai/image/" ++ raw)
      with (js "https" ++ URL_HOST_PATH ++ raw).
    rewrite Hm. f_equal; rewrite ?length_app; reflexivity.
Qed.

Lemma transformPollinationsURLs_twice_witness :
  exists u,
    transformPollinationsURLs
      (js "http" ++ URL_HOST_PATH ++ js "a_red_caf%C3%A9") (js "KEY1") = Some u
    /\ transformPollinationsURLs u (js "KEY2")
       = Some (js "https://gen.pollinations.ai/image/"
               ++ replace_all [UNDERSCORE] (js "%20") (js "a_red_caf%C3%A9")
               ++ js "%3Fmodel%3Dflux%26key%3D" ++ js "KEY1"
               ++ js "?model=flux&key=" ++ js "KEY2").
Proof.
  apply (transformPollinationsURLs_twice false
           (js "a_red_caf" ++ [233%N]) (js "a_red_caf%C3%A9") (js "KEY1") (js "KEY2")).
  - discriminate.
  - reflexivity.
  - vm_compute. reflexivity.
  - reflexivity.
Defined.

(* ================================================================== *)
(** * From the backend to the deck *)
(* ================================================================== *)

Lemma yields_of_texts flag : forall cs,
  concat (map text (yields_of flag cs))
  = concat (map (fun c => match c with Some t => t | None => [] end) cs).
Proof.
  induction cs as [|c cs IH]; [reflexivity|].
  unfold yields_of in *. cbn [flat_map map concat]. rewrite map_app, concat_app, IH.
  f_equal. destruct c as [[|x t]|]; cbn [map concat text]; rewrite ?app_nil_r; reflexivity.
Qed.

(** The texts of the turns add up to the text of the batches. *)
Lemma turn_texts chat outline n0 bs : forall m j,
  j + m <= length bs ->
  (forall t, j <= t < j + m ->
     exists rs, chat (n0 + t) (turn_message outline t) = Resolved rs
                /\ failure rs = None
                /\ stream_texts rs = batch_text (nth t bs [])) ->
  concat (map text (concat (map (turn_yields chat outline n0) (seq j m))))
  = concat (map batch_text (firstn m (skipn j bs))).
Proof.
  induction m as [|m IH]; intros j Hl H; [reflexivity|].
  cbn [seq map concat]. rewrite map_app, concat_app.
  rewrite (IH (S j)) by (try lia; intros t Ht; apply H; lia).
  destruct (H j ltac:(lia)) as (rs & Hrs & _ & Ht).
  unfold turn_yields at 1. rewrite Hrs, yields_of_texts.
  fold (stream_texts rs). rewrite Ht.
  rewrite (skipn_nth_cons [] bs j) by lia.
  cbn [firstn map concat]. replace (j + 1) with (S j) by lia. reflexivity.
Qed.

(** From the backend to the deck.  When every turn is answered at the
    first attempt by a stream without an error whose chunks add up to
    one complete batch of slide records, however it is cut into chunks,
    the generator returns after one call per batch of four outline
    items, and the loop of [handleFinalGeneration] over its chunks
    leaves exactly the slides of all batches, in order, for the deck,
    provided that the text holds no backtick and no content holds a URL
    of the image service or the word config. *)
Theorem generation_to_deck
    (chat : Chat) (outline : list OutlineItem) (w : World)
    (bs : list Batch) (apiKey : jsstring) :
  length bs = turn_count (length outline) ->
  (forall j, j < turn_count (length outline) ->
     exists rs, chat (calls w + j) (turn_message outline j) = Resolved rs
                /\ failure rs = None
                /\ stream_texts rs = batch_text (nth j bs [])) ->
  no_backtick (stream_text bs) = true ->
  forallb plain_content (concat bs) = true ->
  exists chunks,
    generatePresentationStream chat outline w
    = (chunks, Returned,
       {| calls := calls w + turn_count (length outline); slept := slept w |})
    /\ deck_slides apiKey (finalCompleteSlides (consume chunks))
       = Some (map deck_of_record (concat bs)).
Proof.
  intros Hl Hc Hb Hp.
  exists (concat (map (turn_yields chat outline (calls w))
                    (seq 0 (turn_count (length outline))))).
  split.
  - apply generator_healthy. intros j Hj.
    destruct (Hc j Hj) as (rs & Hrs & Hf & _). exists rs. split; assumption.
  - apply deck_of_stream_text; [|exact Hb|exact Hp].
    rewrite (turn_texts chat outline (calls w) bs (turn_count (length outline)) 0).
    + cbn [skipn]. rewrite <- Hl, firstn_all. reflexivity.
    + cbn [Nat.add]. apply Nat.eq_le_incl. symmetry. exact Hl.
    + intros t Ht. apply Hc. lia.
Qed.

Lemma generation_to_deck_witness :
  let item := {| id := js "s"; title := js "T"; points := [] |} in
  let r (t : jsstring) := {| s_title := t; s_content := js "<div>x</div>" |} in
  let first := [r (js "A"); r (js "B"); r (js "C"); r (js "D")] in
  let second := [r (js "E")] in
  let chat : Chat :=
    fun n _ =>
      let t := batch_text (if (n =? 0)%nat then first else second) in
      Resolved {| chunks := [Some (firstn 20 t); None; Some (skipn 20 t)];
                  failure := None |} in
  exists chunks,
    generatePresentationStream chat [item; item; item; item; item] world0
    = (chunks, Returned, {| calls := 2; slept := [] |})
    /\ deck_slides (js "KEY") (finalCompleteSlides (consume chunks))
       = Some (map deck_of_record (first ++ second)).
Proof.
  intros item r first second chat.
  apply (generation_to_deck chat [item; item; item; item; item] world0
           [first; second] (js "KEY")).
  - reflexivity.
  - intros j Hj. destruct j as [|[|j]].
    + eexists. split; [reflexivity|]. split; reflexivity.
    + eexists. split; [reflexivity|]. split; reflexivity.
    + exfalso. change (turn_count (length [item; item; item; item; item])) with 2 in Hj.
      lia.
  - reflexivity.
  - reflexivity.
Defined.

(* ================================================================== *)
(** * [transformPollinationsURLs]: a second pass, and the errors *)
(* ================================================================== *)

(** ** The shape of a match of the URL expression *)




Lemma skipn_app_exact {A : Type} (a b : list A) n :
  n = length a -> skipn n (a ++ b) = b.
Proof. intros ->. rewrite skipn_app, skipn_all, Nat.sub_diag. reflexivity. Qed.

Lemma firstn_app_exact {A : Type} (a b : list A) n :
  n = length a -> firstn n (a ++ b) = a.
Proof.
  intros ->. rewrite firstn_app, firstn_all, Nat.sub_diag. cbn [firstn].
  apply app_nil_r.
Qed.






(** ** The code units of a decoded text *)






(** ** The lone surrogates *)




(** ** One step of the global replace *)




(** ** A rewritten URL is not what it was *)








(** ** When the rewrite throws *)




(** A description with a lone surrogate: nothing is malformed in its
    escapes, and [encodeURIComponent] throws. *)
Example transformPollinationsURLs_lone_surrogate :
  transformPollinationsURLs (js "https://gen.pollinations.ai/image/a" ++ [55357%N]) (js "KEY")
  = None
  /\ decodeURIComponent (js "a" ++ [55357%N]) = Some (js "a" ++ [55357%N])
  /\ well_formed_utf16 (js "a" ++ [55357%N]) = false.
Proof. vm_compute. repeat split; reflexivity. Qed.

(* ================================================================== *)
(** * Slides and batches in any layout *)
(* ================================================================== *)

(** ** String literals *)

(** What follows a string literal does not change how it is read. *)
Lemma parse_string_body_ext : forall n a s r t,
  length a <= n ->
  parse_string_body a = Some (s, r) ->
  parse_string_body (a ++ t) = Some (s, r ++ t).
Proof.
  induction n as [|n IH]; intros a s r t Hn H.
  - destruct a; [discriminate|simpl in Hn; lia].
  - destruct a as [|c a1]; [discriminate|].
    cbn [app parse_string_body] in *. cbn [length] in Hn.
    destruct (N.eqb c QUOTE). { injection H as <- <-. reflexivity. }
    destruct (N.eqb c BACKSLASH).
    + destruct a1 as [|e a2]; [discriminate|]. cbn [app length] in *.
      destruct (N.eqb e 117).
      * destruct a2 as [|h1 [|h2 [|h3 [|h4 a3]]]]; try discriminate.
        cbn [app length] in *.
        destruct (hex4 h1 h2 h3 h4); [|discriminate].
        destruct (parse_string_body a3) as [[s' r']|] eqn:E; [|discriminate].
        injection H as <- <-.
        rewrite (IH a3 s' r' t) by (try exact E; lia). reflexivity.
      * destruct (simple_escape e); [|discriminate].
        destruct (parse_string_body a2) as [[s' r']|] eqn:E; [|discriminate].
        injection H as <- <-.
        rewrite (IH a2 s' r' t) by (try exact E; lia). reflexivity.
    + destruct (N.ltb c 32); [discriminate|].
      destruct (parse_string_body a1) as [[s' r']|] eqn:E; [|discriminate].
      injection H as <- <-.
      rewrite (IH a1 s' r' t) by (try exact E; lia). reflexivity.
Qed.

Lemma spells_parse lit s rest :
  spells lit s = true -> parse_string_body (lit ++ QUOTE :: rest) = Some (s, rest).
Proof.
  unfold spells.
  destruct (parse_string_body (lit ++ [QUOTE])) as [[s' [|y r]]|] eqn:E; try discriminate.
  intros H. apply str_eqb_eq in H. subst s'.
  pose proof (parse_string_body_ext _ _ _ _ rest (le_n _) E) as P.
  rewrite <- app_assoc in P. exact P.
Qed.


(** What [parse_string_body] reads is the inside of a string for the
    second scan, and each of its quotes comes after a backslash. *)
Lemma parse_string_body_slide_scan : forall n a s r,
  length a <= n ->
  parse_string_body a = Some (s, r) ->
  exists c, a = c ++ QUOTE :: r
    /\ (forall ss rest j st,
          SlideScan.slideInString st = true ->
          scan_slides ss (c ++ QUOTE :: rest) j st
          = scan_slides ss rest (j + length c + 1) (set_slideInString false st))
    /\ (forall prev, quotes_escaped prev c = true).
Proof.
  induction n as [|n IH]; intros a s r Hn H.
  - destruct a; [discriminate|simpl in Hn; lia].
  - destruct a as [|c a1]; [discriminate|].
    cbn [parse_string_body] in H. cbn [length] in Hn.
    destruct (N.eqb_spec c QUOTE) as [->|Hq].
    { injection H as <- <-. exists []. split; [reflexivity|]. split.
      - intros ss rest j st Hs. cbn [app length].
        rewrite scan_slides_step by discriminate.
        rewrite slide_step_quote, Hs. f_equal. lia.
      - reflexivity. }
    destruct (N.eqb_spec c BACKSLASH) as [->|Hb].
    + destruct a1 as [|e a2]; [discriminate|]. cbn [length] in Hn.
      destruct (N.eqb_spec e 117) as [->|He].
      * destruct a2 as [|h1 [|h2 [|h3 [|h4 a3]]]]; try discriminate.
        cbn [length] in Hn. unfold hex4 in H.
        destruct (hex_value h1) eqn:E1; [|discriminate].
        destruct (hex_value h2) eqn:E2; [|discriminate].
        destruct (hex_value h3) eqn:E3; [|discriminate].
        destruct (hex_value h4) eqn:E4; [|discriminate].
        destruct (parse_string_body a3) as [[s' r']|] eqn:E; [|discriminate].
        injection H as <- <-.
        destruct (IH a3 s' r') as (c' & Hc' & Hs' & Hq'); [lia|exact E|].
        destruct (hex_value_plain _ _ E1) as [A1 B1].
        destruct (hex_value_plain _ _ E2) as [A2 B2].
        destruct (hex_value_plain _ _ E3) as [A3 B3].
        destruct (hex_value_plain _ _ E4) as [A4 B4].
        exists (BACKSLASH :: 117%N :: h1 :: h2 :: h3 :: h4 :: c').
        split; [rewrite Hc'; reflexivity|]. split.
        -- intros ss rest j st Hs. cbn [app length].
           rewrite scan_slides_escape.
           do 4 (rewrite scan_slides_step by assumption;
                 rewrite slide_step_in_string by assumption).
           rewrite Hs' by exact Hs. f_equal. lia.
        -- intros prev. cbn [quotes_escaped].
           apply N.eqb_neq in A1, A2, A3, A4.
           rewrite A1, A2, A3, A4, Hq'. reflexivity.
      * destruct (simple_escape e); [|discriminate].
        destruct (parse_string_body a2) as [[s' r']|] eqn:E; [|discriminate].
        injection H as <- <-.
        destruct (IH a2 s' r') as (c' & Hc' & Hs' & Hq'); [lia|exact E|].
        exists (BACKSLASH :: e :: c').
        split; [rewrite Hc'; reflexivity|]. split.
        -- intros ss rest j st Hs. cbn [app length].
           rewrite scan_slides_escape. rewrite Hs' by exact Hs. f_equal. lia.
        -- intros prev. cbn [quotes_escaped]. rewrite Hq'.
           rewrite N.eqb_refl, orb_true_r. reflexivity.
    + destruct (N.ltb c 32); [discriminate|].
      destruct (parse_string_body a1) as [[s' r']|] eqn:E; [|discriminate].
      injection H as <- <-.
      destruct (IH a1 s' r') as (c' & Hc' & Hs' & Hq'); [lia|exact E|].
      exists (c :: c'). split; [rewrite Hc'; reflexivity|]. split.
      * intros ss rest j st Hs. cbn [app length].
        rewrite scan_slides_step by assumption.
        rewrite slide_step_in_string by assumption.
        rewrite Hs' by exact Hs. f_equal. lia.
      * intros prev. cbn [quotes_escaped]. apply N.eqb_neq in Hq.
        rewrite Hq, Hq'. reflexivity.
Qed.

Lemma spells_scan lit s :
  spells lit s = true ->
  (forall ss rest j st,
     SlideScan.slideInString st = true ->
     scan_slides ss (lit ++ QUOTE :: rest) j st
     = scan_slides ss rest (j + length lit + 1) (set_slideInString false st))
  /\ (forall prev, quotes_escaped prev lit = true).
Proof.
  unfold spells.
  destruct (parse_string_body (lit ++ [QUOTE])) as [[s' [|y r]]|] eqn:E; try discriminate.
  intros _.
  destruct (parse_string_body_slide_scan _ _ _ _ (le_n _) E) as (c & Hc & Hs & Hq).
  apply app_inj_tail in Hc. destruct Hc as [-> _]. split; assumption.
Qed.

(** A literal between its quotes, outside a string: the second scan
    passes over it. *)
Lemma scan_slides_literal ss lit s rest j st :
  spells lit s = true ->
  SlideScan.slideInString st = false ->
  scan_slides ss (QUOTE :: lit ++ QUOTE :: rest) j st
  = scan_slides ss rest (j + (length lit + 2)) st.
Proof.
  intros Hl Hs. destruct (spells_scan lit s Hl) as [Hscan _].
  rewrite scan_slides_step by discriminate.
  rewrite slide_step_quote, Hs. cbn [negb].
  rewrite Hscan by reflexivity.
  replace (set_slideInString false (set_slideInString true st)) with st
    by (destruct st; simpl in *; subst; reflexivity).
  f_equal. lia.
Qed.

(** ** White space *)

Lemma skip_ws_stop c s : is_json_ws c = false -> skip_ws (c :: s) = c :: s.
Proof. intros H. cbn [skip_ws]. rewrite H. reflexivity. Qed.

Lemma skip_ws_before w c s :
  is_ws w = true -> is_json_ws c = false -> skip_ws (w ++ c :: s) = c :: s.
Proof.
  intros Hw Hc. rewrite (skip_ws_leading w (c :: s) Hw). apply skip_ws_stop, Hc.
Qed.

Lemma json_ws_js_space c : is_json_ws c = true -> is_js_space c = true.
Proof. intros H. ws_char H; reflexivity. Qed.

Lemma json_ws_neutral c : is_json_ws c = true -> is_neutral c = true.
Proof. intros H. ws_char H; reflexivity. Qed.

Lemma is_ws_js_space w : is_ws w = true -> forallb is_js_space w = true.
Proof.
  unfold is_ws. rewrite !forallb_forall. intros H c Hc.
  apply json_ws_js_space, H, Hc.
Qed.

Lemma is_ws_gap w : is_ws w = true -> is_gap w = true.
Proof.
  unfold is_ws, is_gap. rewrite !forallb_forall. intros H c Hc.
  apply json_ws_neutral, H, Hc.
Qed.

(** ** [JSON.parse] on a member, a slide and a batch *)

Lemma member_ok_parts m v :
  member_ok m v = true ->
  is_ws (m_lead m) = true /\ is_ws (m_key_gap m) = true
  /\ is_ws (m_colon_gap m) = true /\ is_ws (m_trail m) = true
  /\ spells (m_lit m) v = true.
Proof.
  unfold member_ok. intros H.
  repeat (apply andb_true_iff in H; destruct H as [H ?]). repeat split; assumption.
Qed.

Lemma written_ok_parts x :
  written_ok x = true ->
  is_ws (w_lead x) = true /\ is_ws (w_trail x) = true
  /\ member_ok (w_title x) (s_title (w_record x)) = true
  /\ member_ok (w_content x) (s_content (w_record x)) = true.
Proof.
  unfold written_ok. intros H.
  repeat (apply andb_true_iff in H; destruct H as [H ?]). repeat split; assumption.
Qed.

Lemma batch_ok_parts b :
  batch_ok b = true ->
  is_ws (b_lead b) = true /\ is_ws (b_key_gap b) = true
  /\ is_ws (b_colon_gap b) = true /\ is_ws (b_pad b) = true
  /\ is_ws (b_trail b) = true /\ forallb written_ok (b_slides b) = true.
Proof.
  unfold batch_ok. intros H.
  repeat (apply andb_true_iff in H; destruct H as [H ?]). repeat split; assumption.
Qed.

(** The text of a member with what follows it, written out. *)
Lemma member_text_app key m rest :
  member_text key m ++ rest
  = m_lead m ++ QUOTE :: key ++ QUOTE :: m_key_gap m ++ COLON :: m_colon_gap m
    ++ QUOTE :: m_lit m ++ QUOTE :: m_trail m ++ rest.
Proof.
  unfold member_text, member_head.
  repeat (rewrite <- ?app_assoc; cbn [app]). reflexivity.
Qed.

(** One member of an object, from its key on, followed by a comma or
    by the closing brace. *)
Lemma parse_members_member f key m v d rest :
  (forall r, parse_string_body (key ++ QUOTE :: r) = Some (key, r)) ->
  member_ok m v = true ->
  is_json_ws d = false ->
  parse_members (S (S f)) (skip_ws (member_text key m ++ d :: rest))
  = if N.eqb d COMMA then
      match parse_members (S f) (skip_ws rest) with
      | Some (ms, r4) => Some ((key, JStr v) :: ms, r4)
      | None => None
      end
    else if N.eqb d RBRACE then Some ([(key, JStr v)], rest)
    else None.
Proof.
  intros Hk Hm Hd.
  destruct (member_ok_parts m v Hm) as (W1 & W2 & W3 & W4 & Hl).
  rewrite member_text_app, skip_ws_before by (try exact W1; reflexivity).
  cbn [parse_members]. rewrite N.eqb_refl, Hk.
  rewrite skip_ws_before by (try exact W2; reflexivity).
  rewrite N.eqb_refl.
  rewrite skip_ws_before by (try exact W3; reflexivity).
  cbn [parse_value]. cbn [N.eqb QUOTE LBRACE LBRACKET Pos.eqb].
  rewrite (spells_parse _ _ _ Hl).
  rewrite skip_ws_before by (try exact W4; exact Hd).
  reflexivity.
Qed.

Lemma parse_title_key r :
  parse_string_body (js "title" ++ QUOTE :: r) = Some (js "title", r).
Proof. reflexivity. Qed.

Lemma parse_content_key r :
  parse_string_body (js "content" ++ QUOTE :: r) = Some (js "content", r).
Proof. reflexivity. Qed.

Lemma skip_ws_member key m rest :
  is_ws (m_lead m) = true ->
  exists t, skip_ws (member_text key m ++ rest) = QUOTE :: t.
Proof.
  intros H. rewrite member_text_app, skip_ws_before by (try exact H; reflexivity).
  eexists. reflexivity.
Qed.

(** The object of a slide, with anything after it. *)
Lemma parse_value_object_text f x rest :
  written_ok x = true ->
  parse_value (S (S (S (S f)))) (object_text x ++ rest) = Some (written_value x, rest).
Proof.
  intros Hx. destruct (written_ok_parts x Hx) as (_ & _ & Ht & Hc).
  destruct (member_ok_parts _ _ Ht) as (Wt & _).
  destruct (member_ok_parts _ _ Hc) as (Wc & _).
  unfold object_text, written_value. cbn [app parse_value].
  cbn [N.eqb LBRACE Pos.eqb].
  destruct (content_first x).
  - rewrite <- !app_assoc. cbn [app].
    destruct (skip_ws_member (js "content") (w_content x)
                (COMMA :: member_text (js "title") (w_title x) ++ RBRACE :: rest) Wc)
      as [t Et].
    pose proof (parse_members_member (S f) (js "content") (w_content x) _ COMMA
                  (member_text (js "title") (w_title x) ++ RBRACE :: rest)
                  parse_content_key Hc eq_refl) as P1.
    rewrite Et in P1 |- *. cbn [N.eqb QUOTE RBRACE Pos.eqb]. rewrite P1.
    cbn [N.eqb COMMA Pos.eqb].
    rewrite (parse_members_member f (js "title") (w_title x) _ RBRACE rest
               parse_title_key Ht eq_refl).
    reflexivity.
  - rewrite <- !app_assoc. cbn [app].
    destruct (skip_ws_member (js "title") (w_title x)
                (COMMA :: member_text (js "content") (w_content x) ++ RBRACE :: rest) Wt)
      as [t Et].
    pose proof (parse_members_member (S f) (js "title") (w_title x) _ COMMA
                  (member_text (js "content") (w_content x) ++ RBRACE :: rest)
                  parse_title_key Ht eq_refl) as P1.
    rewrite Et in P1 |- *. cbn [N.eqb QUOTE RBRACE Pos.eqb]. rewrite P1.
    cbn [N.eqb COMMA Pos.eqb].
    rewrite (parse_members_member f (js "content") (w_content x) _ RBRACE rest
               parse_content_key Hc eq_refl).
    reflexivity.
Qed.

Lemma parse_value_object_fuel F x rest :
  4 <= F -> written_ok x = true ->
  parse_value F (object_text x ++ rest) = Some (written_value x, rest).
Proof.
  intros HF Hx. destruct F as [|[|[|[|f]]]]; try lia.
  apply parse_value_object_text, Hx.
Qed.

Lemma parse_elements_eq f s :
  parse_elements (S f) s
  = match parse_value f s with
    | None => None
    | Some (v, r) =>
        match skip_ws r with
        | [] => None
        | d :: r2 =>
            if N.eqb d COMMA then
              match parse_elements f (skip_ws r2) with
              | Some (vs, r3) => Some (v :: vs, r3)
              | None => None
              end
            else if N.eqb d RBRACKET then Some ([v], r2)
            else None
        end
    end.
Proof. reflexivity. Qed.

Lemma object_text_head x : exists t, object_text x = LBRACE :: t.
Proof. unfold object_text. eexists. reflexivity. Qed.

Lemma JSON_parse_object_text x :
  written_ok x = true -> JSON_parse (object_text x) = Some (written_value x).
Proof.
  intros Hx. unfold JSON_parse.
  destruct (object_text_head x) as [t Et].
  assert (Hws : skip_ws (object_text x) = object_text x)
    by (rewrite Et; reflexivity).
  rewrite Hws.
  rewrite (parse_value_adequate _ (S (S (S (S (2 * length (object_text x) + 2))))))
    by lia.
  rewrite <- (app_nil_r (object_text x)) at 2.
  rewrite parse_value_object_text by exact Hx. reflexivity.
Qed.

Lemma elements_text_cons x l :
  elements_text (x :: l)
  = match l with
    | [] => element_text x
    | _ :: _ => element_text x ++ COMMA :: elements_text l
    end.
Proof. reflexivity. Qed.

Lemma skip_ws_element x rest :
  is_ws (w_lead x) = true ->
  skip_ws (element_text x ++ rest) = object_text x ++ w_trail x ++ rest.
Proof.
  intros H. unfold element_text. rewrite <- !app_assoc.
  destruct (object_text_head x) as [t Et]. rewrite Et. cbn [app].
  apply skip_ws_before; [exact H|reflexivity].
Qed.

Lemma skip_ws_elements x l rest :
  is_ws (w_lead x) = true ->
  skip_ws (elements_text (x :: l) ++ rest)
  = object_text x ++ w_trail x
    ++ match l with
       | [] => rest
       | _ :: _ => COMMA :: elements_text l ++ rest
       end.
Proof.
  intros H. rewrite elements_text_cons. destruct l.
  - apply skip_ws_element, H.
  - rewrite <- app_assoc. cbn [app]. apply skip_ws_element, H.
Qed.

(** The elements of a slides array, up to its closing bracket. *)
Lemma parse_elements_written : forall l x f rest,
  forallb written_ok (x :: l) = true ->
  parse_elements (length l + 5 + f) (skip_ws (elements_text (x :: l) ++ RBRACKET :: rest))
  = Some (map written_value (x :: l), rest).
Proof.
  induction l as [|x' l IH]; intros x f rest H.
  - cbn [forallb] in H. apply andb_true_iff in H. destruct H as [Hx _].
    destruct (written_ok_parts x Hx) as (W1 & W2 & _).
    rewrite skip_ws_elements by exact W1.
    change (length (@nil Written) + 5 + f) with (S (4 + f)).
    rewrite parse_elements_eq.
    rewrite parse_value_object_fuel by (try exact Hx; lia).
    rewrite skip_ws_before by (try exact W2; reflexivity).
    reflexivity.
  - cbn [forallb] in H. apply andb_true_iff in H. destruct H as [Hx Hl].
    destruct (written_ok_parts x Hx) as (W1 & W2 & _).
    rewrite skip_ws_elements by exact W1.
    change (length (x' :: l) + 5 + f) with (S (length l + 5 + f)).
    rewrite parse_elements_eq.
    rewrite parse_value_object_fuel by (try exact Hx; lia).
    rewrite skip_ws_before by (try exact W2; reflexivity).
    cbn [N.eqb COMMA Pos.eqb].
    rewrite (IH x' f rest Hl). reflexivity.
Qed.

Lemma elements_text_head x l rest :
  is_ws (w_lead x) = true ->
  exists t, skip_ws (elements_text (x :: l) ++ rest) = LBRACE :: t.
Proof.
  intros H. rewrite skip_ws_elements by exact H.
  destruct (object_text_head x) as [t ->]. eexists. reflexivity.
Qed.

Lemma written_batch_text_app b rest :
  written_batch_text b ++ rest
  = LBRACE :: b_lead b ++ QUOTE :: js "slides" ++ QUOTE :: b_key_gap b
    ++ COLON :: b_colon_gap b ++ LBRACKET :: b_pad b
    ++ elements_text (b_slides b) ++ RBRACKET :: b_trail b ++ RBRACE :: rest.
Proof.
  unfold written_batch_text, batch_head.
  repeat (rewrite <- ?app_assoc; cbn [app]). reflexivity.
Qed.

Lemma parse_slides_key r :
  parse_string_body (js "slides" ++ QUOTE :: r) = Some (js "slides", r).
Proof. reflexivity. Qed.

(** A batch, with anything after it. *)
Lemma parse_value_written_batch b f rest :
  batch_ok b = true ->
  parse_value (length (b_slides b) + 8 + f) (written_batch_text b ++ rest)
  = Some (written_batch_value b, rest).
Proof.
  intros Hb. destruct (batch_ok_parts b Hb) as (W1 & W2 & W3 & W4 & W5 & Hl).
  rewrite written_batch_text_app. unfold written_batch_value.
  replace (length (b_slides b) + 8 + f)
    with (S (S (S (length (b_slides b) + 5 + f)))) by lia.
  cbn [parse_value]. cbn [N.eqb LBRACE Pos.eqb].
  rewrite skip_ws_before by (try exact W1; reflexivity).
  cbn [N.eqb QUOTE RBRACE Pos.eqb].
  cbn [parse_members]. rewrite N.eqb_refl, parse_slides_key.
  rewrite skip_ws_before by (try exact W2; reflexivity).
  rewrite N.eqb_refl.
  rewrite skip_ws_before by (try exact W3; reflexivity).
  cbn [parse_value]. cbn [N.eqb LBRACKET LBRACE Pos.eqb].
  rewrite (skip_ws_leading (b_pad b)) by exact W4.
  destruct (b_slides b) as [|x l] eqn:El.
  - cbn [elements_text app]. rewrite skip_ws_stop by reflexivity.
    cbn [N.eqb RBRACKET Pos.eqb].
    rewrite skip_ws_before by (try exact W5; reflexivity).
    reflexivity.
  - assert (Wx : is_ws (w_lead x) = true).
    { cbn [forallb] in Hl. apply andb_true_iff in Hl. destruct Hl as [Hx _].
      apply (written_ok_parts x Hx). }
    destruct (elements_text_head x l (RBRACKET :: b_trail b ++ RBRACE :: rest) Wx)
      as [t Et].
    pose proof (parse_elements_written l x (S f) (b_trail b ++ RBRACE :: rest) Hl) as P.
    rewrite Et in P |- *. cbn [N.eqb LBRACE RBRACKET Pos.eqb].
    cbn [length].
    replace (S (length l) + 5 + f) with (length l + 5 + S f) by lia.
    rewrite P.
    rewrite skip_ws_before by (try exact W5; reflexivity).
    reflexivity.
Qed.

Lemma JSON_parse_written_batch b :
  batch_ok b = true -> JSON_parse (written_batch_text b) = Some (written_batch_value b).
Proof.
  intros Hb. unfold JSON_parse.
  assert (Hws : skip_ws (written_batch_text b) = written_batch_text b) by reflexivity.
  rewrite Hws.
  rewrite (parse_value_adequate _
             (length (b_slides b) + 8 + (2 * length (written_batch_text b) + 2)))
    by lia.
  rewrite <- (app_nil_r (written_batch_text b)) at 2.
  rewrite parse_value_written_batch by exact Hb. reflexivity.
Qed.

Lemma last_snoc {A : Type} (l : list A) (x d : A) : last (l ++ [x]) d = x.
Proof. apply last_last. Qed.

(** The text of a batch is the text of an object. *)
Lemma written_batch_object b :
  batch_ok b = true ->
  is_object_text (written_batch_text b) (written_batch_value b).
Proof.
  intros Hb. split; [apply JSON_parse_written_batch, Hb|]. split; [reflexivity|].
  unfold written_batch_text.
  replace (batch_head b ++ b_pad b ++ elements_text (b_slides b)
           ++ RBRACKET :: b_trail b ++ [RBRACE])
    with ((batch_head b ++ b_pad b ++ elements_text (b_slides b)
           ++ RBRACKET :: b_trail b) ++ [RBRACE]).
  - apply last_last.
  - repeat (rewrite <- ?app_assoc; cbn [app]). reflexivity.
Qed.

Lemma batch_slides_written b :
  batch_slides (written_batch_value b) = map written_value (b_slides b).
Proof. reflexivity. Qed.

(* ================================================================== *)
(** * The second scan on slides in any layout *)
(* ================================================================== *)

(** A text of neutral characters changes nothing outside a string. *)
Lemma scan_slides_neutral ss : forall f rest j st,
  forallb is_neutral f = true ->
  SlideScan.slideInString st = false ->
  scan_slides ss (f ++ rest) j st = scan_slides ss rest (j + length f) st.
Proof.
  induction f as [|x f IH]; intros rest j st Hf Hs.
  - cbn [app length]. rewrite Nat.add_0_r. reflexivity.
  - cbn [forallb] in Hf. apply andb_true_iff in Hf. destruct Hf as [Hx Hf].
    destruct (is_neutral_neutral x Hx) as (Hq & Hb & Hl & Hr).
    cbn [app length]. rewrite scan_slides_step by exact Hb.
    rewrite slide_step_plain by assumption.
    rewrite IH by assumption. f_equal. lia.
Qed.

Lemma scan_slides_ws ss w rest j st :
  is_ws w = true ->
  SlideScan.slideInString st = false ->
  scan_slides ss (w ++ rest) j st = scan_slides ss rest (j + length w) st.
Proof. intros Hw. apply scan_slides_neutral, is_ws_gap, Hw. Qed.

Lemma length_member_text key m :
  length (member_text key m)
  = length (m_lead m) + length key + length (m_key_gap m)
    + length (m_colon_gap m) + length (m_lit m) + length (m_trail m) + 5.
Proof.
  unfold member_text, member_head.
  repeat (rewrite ?length_app; cbn [length]). lia.
Qed.

(** A member, outside a string: the second scan passes over it. *)
Lemma scan_slides_member ss key m v rest j st :
  json_escape key = key ->
  member_ok m v = true ->
  SlideScan.slideInString st = false ->
  scan_slides ss (member_text key m ++ rest) j st
  = scan_slides ss rest (j + length (member_text key m)) st.
Proof.
  intros Hk Hm Hs.
  destruct (member_ok_parts m v Hm) as (W1 & W2 & W3 & W4 & Hl).
  rewrite member_text_app, length_member_text.
  rewrite scan_slides_ws by assumption.
  rewrite scan_slides_key by assumption.
  rewrite scan_slides_ws by assumption.
  rewrite scan_slides_step by discriminate.
  rewrite slide_step_plain by (try discriminate; assumption).
  rewrite scan_slides_ws by assumption.
  rewrite (scan_slides_literal ss (m_lit m) v) by assumption.
  rewrite scan_slides_ws by assumption.
  f_equal. lia.
Qed.

(** The two members of a slide with the comma between them. *)
Lemma scan_slides_members ss x rest j st :
  written_ok x = true ->
  SlideScan.slideInString st = false ->
  scan_slides ss (removelast (tl (object_text x)) ++ rest) j st
  = scan_slides ss rest (j + (length (object_text x) - 2)) st.
Proof.
  intros Hx Hs. destruct (written_ok_parts x Hx) as (_ & _ & Ht & Hc).
  unfold object_text. cbn [tl]. rewrite removelast_last.
  destruct (content_first x).
  - rewrite <- app_assoc. cbn [app].
    rewrite (scan_slides_member ss (js "content") _ _ _ _ _ eq_refl Hc Hs).
    rewrite scan_slides_step by discriminate.
    rewrite slide_step_plain by (try discriminate; assumption).
    rewrite (scan_slides_member ss (js "title") _ _ _ _ _ eq_refl Ht Hs).
    f_equal. repeat (rewrite ?length_app; cbn [length]). lia.
  - rewrite <- app_assoc. cbn [app].
    rewrite (scan_slides_member ss (js "title") _ _ _ _ _ eq_refl Ht Hs).
    rewrite scan_slides_step by discriminate.
    rewrite slide_step_plain by (try discriminate; assumption).
    rewrite (scan_slides_member ss (js "content") _ _ _ _ _ eq_refl Hc Hs).
    f_equal. repeat (rewrite ?length_app; cbn [length]). lia.
Qed.

Lemma object_text_shape_written x :
  object_text x = LBRACE :: removelast (tl (object_text x)) ++ [RBRACE].
Proof.
  unfold object_text. cbn [tl]. rewrite removelast_last. reflexivity.
Qed.

Lemma length_object_text x : 2 <= length (object_text x).
Proof.
  rewrite object_text_shape_written. cbn [length]. rewrite length_app.
  cbn [length]. lia.
Qed.

(** ** The test on a closed slide *)

Lemma get_member_written_title x :
  get_member (written_value x) (js "title") = Some (Some (JStr (s_title (w_record x)))).
Proof. unfold written_value. destruct (content_first x); reflexivity. Qed.

Lemma get_member_written_content x :
  get_member (written_value x) (js "content")
  = Some (Some (JStr (s_content (w_record x)))).
Proof. unfold written_value. destruct (content_first x); reflexivity. Qed.

Lemma some_title_eq_written : forall seen t,
  some_title_eq (map written_value seen) (Some (JStr t))
  = Some (title_seen (map w_record seen) t).
Proof.
  induction seen as [|x seen IH]; intros t; [reflexivity|].
  cbn [map some_title_eq]. rewrite get_member_written_title. cbn [strict_eq].
  unfold title_seen in *. cbn [existsb].
  destruct (str_eqb (s_title (w_record x)) t); [reflexivity|]. apply IH.
Qed.

(** Whether the second scan takes a slide, given the slides it has. *)
Lemma try_slide_written seen x j lastEnd :
  written_ok x = true ->
  try_slide (map written_value seen) (object_text x) j lastEnd
  = (map written_value
       (seen ++ if has_fields (w_record x)
                   && negb (title_seen (map w_record seen) (s_title (w_record x)))
                then [x] else []),
     if has_fields (w_record x) then (Z.of_nat j + 1)%Z else lastEnd).
Proof.
  intros Hx. unfold try_slide, has_fields.
  rewrite (JSON_parse_object_text x Hx).
  rewrite get_member_written_title, get_member_written_content.
  cbn [truthy].
  destruct (s_title (w_record x)) as [|a t] eqn:Ht;
    [cbn [andb]; rewrite app_nil_r; reflexivity|].
  destruct (s_content (w_record x)) as [|b c] eqn:Hc;
    [cbn [andb]; rewrite app_nil_r; reflexivity|].
  rewrite some_title_eq_written. cbn [andb].
  destruct (title_seen (map w_record seen) (a :: t)); cbn [negb].
  - rewrite app_nil_r. reflexivity.
  - rewrite map_app. reflexivity.
Qed.

(** ** A slide object in the array *)

(** The object up to its closing brace, scanned between two slides: it
    is open, and nothing else has changed. *)
Lemma scan_slides_object_open ss x rest j lastEnd slides :
  written_ok x = true ->
  scan_slides ss (LBRACE :: removelast (tl (object_text x)) ++ rest) j
    (between_slides lastEnd slides)
  = scan_slides ss rest (j + (length (object_text x) - 1))
      {| SlideScan.slideBraceCount := 1;
         SlideScan.slideInString := false;
         SlideScan.slideStartIndex := Z.of_nat j;
         SlideScan.lastParsedSlideEnd := lastEnd;
         SlideScan.completeSlides := slides |}.
Proof.
  intros Hx. pose proof (length_object_text x) as Hlen.
  rewrite scan_slides_step by discriminate.
  set (st1 := slide_step ss j LBRACE (between_slides lastEnd slides)).
  assert (Hst1 : st1 = {| SlideScan.slideBraceCount := 1;
                          SlideScan.slideInString := false;
                          SlideScan.slideStartIndex := Z.of_nat j;
                          SlideScan.lastParsedSlideEnd := lastEnd;
                          SlideScan.completeSlides := slides |}) by reflexivity.
  clearbody st1. subst st1.
  rewrite scan_slides_members by (try exact Hx; reflexivity).
  f_equal. lia.
Qed.

(** The object, scanned between two slides: it is put to the test. *)
Lemma scan_slides_object pre x rest seen lastEnd :
  written_ok x = true ->
  scan_slides (pre ++ object_text x ++ rest) (object_text x ++ rest) (length pre)
    (between_slides lastEnd (map written_value seen))
  = scan_slides (pre ++ object_text x ++ rest) rest (length pre + length (object_text x))
      (between_slides
         (if has_fields (w_record x)
          then Z.of_nat (length pre + length (object_text x)) else lastEnd)
         (map written_value
            (seen ++ if has_fields (w_record x)
                        && negb (title_seen (map w_record seen) (s_title (w_record x)))
                     then [x] else []))).
Proof.
  intros Hx. set (ss := pre ++ object_text x ++ rest).
  pose proof (length_object_text x) as Hlen.
  assert (E : object_text x ++ rest
              = LBRACE :: removelast (tl (object_text x)) ++ RBRACE :: rest).
  { rewrite (object_text_shape_written x) at 1. cbn [app].
    rewrite <- app_assoc. reflexivity. }
  rewrite E. clear E.
  rewrite scan_slides_object_open by exact Hx.
  rewrite scan_slides_step by discriminate.
  f_equal; [lia|].
  unfold slide_step.
  cbn [N.eqb QUOTE LBRACE RBRACE Pos.eqb SlideScan.slideInString
       SlideScan.slideBraceCount SlideScan.slideStartIndex
       SlideScan.lastParsedSlideEnd SlideScan.completeSlides
       Z.sub Z.add Z.opp Z.pos_sub Z.eqb andb].
  destruct (Z.eqb_spec (Z.of_nat (length pre)) (-1)) as [E|_]; [lia|].
  cbn [negb].
  replace (Z.of_nat (length pre + (length (object_text x) - 1)) + 1)%Z
    with (Z.of_nat (length pre + length (object_text x))) by lia.
  unfold ss. rewrite substring_middle, (try_slide_written _ _ _ _ Hx).
  replace (Z.of_nat (length pre + (length (object_text x) - 1)) + 1)%Z
    with (Z.of_nat (length pre + length (object_text x))) by lia.
  reflexivity.
Qed.

(** An element of the array, with the white space around it. *)
Lemma scan_slides_element pre x rest seen lastEnd :
  written_ok x = true ->
  scan_slides (pre ++ element_text x ++ rest) (element_text x ++ rest) (length pre)
    (between_slides lastEnd (map written_value seen))
  = scan_slides (pre ++ element_text x ++ rest) rest (length pre + length (element_text x))
      (between_slides
         (if has_fields (w_record x)
          then Z.of_nat (length pre + length (w_lead x) + length (object_text x))
          else lastEnd)
         (map written_value
            (seen ++ if has_fields (w_record x)
                        && negb (title_seen (map w_record seen) (s_title (w_record x)))
                     then [x] else []))).
Proof.
  intros Hx. destruct (written_ok_parts x Hx) as (W1 & W2 & _).
  unfold element_text. rewrite <- !app_assoc.
  rewrite scan_slides_ws by (try exact W1; reflexivity).
  pose proof (scan_slides_object (pre ++ w_lead x) x (w_trail x ++ rest) seen lastEnd Hx)
    as H.
  rewrite <- !app_assoc, length_app in H. rewrite H.
  rewrite scan_slides_ws by (try exact W2; reflexivity).
  rewrite !length_app. f_equal. lia.
Qed.

(** The slides a scan has after a list of elements. *)
Lemma take_written_app : forall l1 l2 seen,
  take_written seen (l1 ++ l2)
  = take_written seen l1
    ++ take_written (seen ++ map w_record (take_written seen l1)) l2.
Proof.
  induction l1 as [|x l1 IH]; intros l2 seen.
  - cbn [app take_written map]. rewrite app_nil_r. reflexivity.
  - cbn [app take_written].
    destruct (has_fields (w_record x) && negb (title_seen seen (s_title (w_record x)))).
    + cbn [app map]. rewrite IH, <- app_assoc. reflexivity.
    + apply IH.
Qed.

Lemma take_written_one seen x :
  (if has_fields (w_record x) && negb (title_seen seen (s_title (w_record x)))
   then [x] else [])
  = take_written seen [x].
Proof.
  cbn [take_written]. destruct (_ && _); reflexivity.
Qed.

Lemma length_take_written : forall l seen, length (take_written seen l) <= length l.
Proof.
  induction l as [|x l IH]; intros seen; [simpl; lia|].
  cbn [take_written]. destruct (_ && _); cbn [length].
  - pose proof (IH (seen ++ [w_record x])). lia.
  - pose proof (IH seen). lia.
Qed.

Lemma closed_elements_cons x l :
  closed_elements (x :: l) = element_text x ++ COMMA :: closed_elements l.
Proof. unfold closed_elements. cbn [flat_map]. rewrite <- app_assoc. reflexivity. Qed.


Lemma elements_text_snoc : forall l x,
  elements_text (l ++ [x]) = closed_elements l ++ element_text x.
Proof.
  induction l as [|x0 l IH]; intros x; [reflexivity|].
  rewrite closed_elements_cons. cbn [app]. rewrite elements_text_cons.
  destruct (l ++ [x]) eqn:E; [destruct l; discriminate|].
  rewrite <- E, IH, <- app_assoc. reflexivity.
Qed.

(** The closed slides of an open batch: each is put to the test in
    turn.  The scan is between two slides after them. *)
Lemma scan_slides_closed_elements : forall l pre rest seen lastEnd,
  forallb written_ok l = true ->
  exists lastEnd',
    scan_slides (pre ++ closed_elements l ++ rest) (closed_elements l ++ rest) (length pre)
      (between_slides lastEnd (map written_value seen))
    = scan_slides (pre ++ closed_elements l ++ rest) rest
        (length pre + length (closed_elements l))
        (between_slides lastEnd'
           (map written_value (seen ++ take_written (map w_record seen) l)))
    /\ ((lastEnd <= Z.of_nat (length pre))%Z ->
        (lastEnd' <= Z.of_nat (length pre + length (closed_elements l)))%Z)
    /\ (l = [] -> lastEnd' = lastEnd)
    /\ (forall l0 x, l = l0 ++ [x] -> has_fields (w_record x) = true ->
          lastEnd' = Z.of_nat (length pre + length (closed_elements l0)
                               + length (w_lead x) + length (object_text x))).
Proof.
  induction l as [|x l IH]; intros pre rest seen lastEnd H.
  - exists lastEnd. cbn [closed_elements flat_map app length take_written].
    rewrite Nat.add_0_r, app_nil_r.
    split; [reflexivity|]. split; [intros; lia|]. split; [reflexivity|].
    intros l0 x E. destruct l0; discriminate.
  - cbn [forallb] in H. apply andb_true_iff in H. destruct H as [Hx Hl].
    rewrite closed_elements_cons. rewrite <- !app_assoc. cbn [app].
    rewrite (scan_slides_element pre x _ seen lastEnd Hx).
    rewrite scan_slides_step by discriminate.
    rewrite slide_step_plain by (try discriminate; reflexivity).
    rewrite take_written_one.
    set (lastEnd1 := if has_fields (w_record x)
                     then Z.of_nat (length pre + length (w_lead x)
                                    + length (object_text x))
                     else lastEnd).
    destruct (IH (pre ++ element_text x ++ [COMMA]) rest
                (seen ++ take_written (map w_record seen) [x]) lastEnd1 Hl)
      as (lastEnd' & E & Hle & Hnil & Hlast).
    rewrite <- !app_assoc in E. cbn [app] in E.
    rewrite !length_app in E. cbn [length] in E.
    replace (length pre + length (element_text x) + 1)
      with (length pre + (length (element_text x) + 1)) by lia.
    exists lastEnd'. split; [|split; [|split]].
    + rewrite E. rewrite length_app. cbn [length].
      change (x :: l) with ([x] ++ l). rewrite take_written_app.
      rewrite (map_app w_record). f_equal. lia.
    + intros Hin. rewrite !length_app in Hle. cbn [length] in Hle.
      rewrite length_app. cbn [length].
      assert (Hl1 : (lastEnd1 <= Z.of_nat (length pre + (length (element_text x) + 1)))%Z).
      { unfold lastEnd1, element_text. rewrite !length_app.
        destruct (has_fields (w_record x)); lia. }
      specialize (Hle Hl1). lia.
    + discriminate.
    + intros l0 y El Hy. destruct l0 as [|x0 l0].
      * cbn [app] in El. injection El as -> ->.
        rewrite (Hnil eq_refl). unfold lastEnd1. rewrite Hy.
        cbn [closed_elements flat_map length]. f_equal. lia.
      * cbn [app] in El. injection El as -> ->.
        rewrite (Hlast l0 y eq_refl Hy).
        rewrite closed_elements_cons.
        repeat (rewrite ?length_app; cbn [length]). f_equal. lia.
Qed.

(* ================================================================== *)
(** * The parser on the beginnings of a stream in any layout *)
(* ================================================================== *)

(** ** The key of the slides array *)

Lemma match_key_open_no_quote key opener c s :
  c <> QUOTE -> match_key_open key opener (c :: s) = None.
Proof.
  intros Hc. unfold match_key_open. cbn [starts_with app].
  destruct (N.eqb_spec QUOTE c) as [E|_]; [congruence|]. reflexivity.
Qed.

(** The search passes over a text without quotes. *)
Lemma regex_search_no_quote key opener : forall a s idx,
  forallb (fun c => negb (N.eqb c QUOTE)) a = true ->
  regex_search (match_key_open key opener) (a ++ s) idx
  = regex_search (match_key_open key opener) s (idx + length a).
Proof.
  induction a as [|c a IH]; intros s idx H.
  - cbn [app length]. rewrite Nat.add_0_r. reflexivity.
  - cbn [forallb] in H. apply andb_true_iff in H. destruct H as [Hc Ha].
    apply negb_true_iff, N.eqb_neq in Hc.
    cbn [app]. rewrite regex_search_miss by (apply match_key_open_no_quote, Hc).
    rewrite IH by exact Ha. cbn [length]. f_equal. lia.
Qed.

Lemma neutral_no_quote a :
  forallb is_neutral a = true -> forallb (fun c => negb (N.eqb c QUOTE)) a = true.
Proof.
  rewrite !forallb_forall. intros H c Hc. specialize (H c Hc).
  destruct (is_neutral_neutral c H) as [Hq _].
  apply negb_true_iff, N.eqb_neq, Hq.
Qed.

Lemma in_skipn {A : Type} (x : A) n l : In x (skipn n l) -> In x l.
Proof.
  intros H. rewrite <- (firstn_skipn n l). apply in_or_app. right. exact H.
Qed.

(** A match of the pattern holds the opening character. *)
Lemma match_key_open_needs key opener s len :
  match_key_open key opener s = Some len -> In opener s.
Proof.
  unfold match_key_open.
  destruct (starts_with _ s); [|discriminate].
  set (s1 := skipn _ s).
  destruct (skipn (count_space s1) s1) as [|c s2] eqn:E1; [discriminate|].
  destruct (N.eqb c COLON); [|discriminate].
  destruct (skipn (count_space s2) s2) as [|d s3] eqn:E2; [discriminate|].
  destruct (N.eqb_spec d opener) as [->|]; [|discriminate].
  intros _. apply (in_skipn _ (length (QUOTE :: key ++ [QUOTE])) s). fold s1.
  apply (in_skipn _ (count_space s1)). rewrite E1. right.
  apply (in_skipn _ (count_space s2)). rewrite E2. left. reflexivity.
Qed.

Lemma regex_search_absent key opener : forall s idx,
  ~ In opener s -> regex_search (match_key_open key opener) s idx = None.
Proof.
  induction s as [|c s IH]; intros idx H.
  - cbn [regex_search].
    destruct (match_key_open key opener []) eqn:E; [|reflexivity].
    apply match_key_open_needs in E. contradiction.
  - cbn [regex_search].
    destruct (match_key_open key opener (c :: s)) eqn:E.
    + apply match_key_open_needs in E. contradiction.
    + apply IH. intros F. apply H. right. exact F.
Qed.

Lemma count_space_stop : forall w c s,
  forallb is_js_space w = true -> is_js_space c = false ->
  count_space (w ++ c :: s) = length w.
Proof.
  induction w as [|x w IH]; intros c s Hw Hc.
  - cbn [app count_space length]. rewrite Hc. reflexivity.
  - cbn [forallb] in Hw. apply andb_true_iff in Hw. destruct Hw as [Hx Hw].
    cbn [app count_space length]. rewrite Hx, (IH c s Hw Hc). reflexivity.
Qed.

(** The pattern at a key that is followed by white space, a colon, white
    space and the opening character. *)
Lemma match_key_open_at key opener kg cg rest :
  is_ws kg = true -> is_ws cg = true -> is_js_space opener = false ->
  match_key_open key opener
    (QUOTE :: key ++ QUOTE :: kg ++ COLON :: cg ++ opener :: rest)
  = Some (length key + 2 + length kg + 1 + length cg + 1).
Proof.
  intros Hk Hc Ho. unfold match_key_open.
  replace (QUOTE :: key ++ QUOTE :: kg ++ COLON :: cg ++ opener :: rest)
    with ((QUOTE :: key ++ [QUOTE]) ++ kg ++ COLON :: cg ++ opener :: rest)
    by (cbn [app]; rewrite <- app_assoc; reflexivity).
  rewrite starts_with_refl.
  rewrite (skipn_app_exact (QUOTE :: key ++ [QUOTE])) by reflexivity.
  rewrite (count_space_stop kg COLON) by (try reflexivity; apply is_ws_js_space, Hk).
  rewrite (skipn_app_exact kg) by reflexivity.
  rewrite N.eqb_refl.
  rewrite (count_space_stop cg opener) by (try exact Ho; apply is_ws_js_space, Hc).
  rewrite (skipn_app_exact cg) by reflexivity.
  rewrite N.eqb_refl. f_equal. cbn [length]. rewrite length_app. cbn [length]. lia.
Qed.

Lemma length_batch_head b :
  length (batch_head b)
  = length (b_lead b) + length (b_key_gap b) + length (b_colon_gap b) + 11.
Proof.
  unfold batch_head. repeat (rewrite ?length_app; cbn [length]).
  change (length (js "slides")) with 6. lia.
Qed.

Lemma regex_search_hit m s idx len :
  m s = Some len -> regex_search m s idx = Some (idx, len).
Proof. intros H. destruct s; cbn [regex_search]; rewrite H; reflexivity. Qed.

Lemma batch_head_app b rest :
  batch_head b ++ rest
  = LBRACE :: b_lead b
    ++ (QUOTE :: js "slides" ++ QUOTE :: b_key_gap b ++ COLON :: b_colon_gap b
        ++ LBRACKET :: rest).
Proof.
  unfold batch_head. repeat (rewrite <- ?app_assoc; cbn [app]). reflexivity.
Qed.

(** With the text before a batch and the head of the batch, the first
    match of the pattern is the key of the batch. *)
Lemma regex_search_batch_head g b rest :
  is_gap g = true -> batch_ok b = true ->
  regex_search (match_key_open (js "slides") LBRACKET) (g ++ batch_head b ++ rest) 0
  = Some (length g + 1 + length (b_lead b),
          length (batch_head b) - 1 - length (b_lead b)).
Proof.
  intros Hg Hb. destruct (batch_ok_parts b Hb) as (W1 & W2 & W3 & _).
  rewrite batch_head_app.
  rewrite regex_search_no_quote by (apply neutral_no_quote, Hg).
  rewrite regex_search_miss by reflexivity.
  rewrite regex_search_no_quote by (apply neutral_no_quote, is_ws_gap, W1).
  rewrite (regex_search_hit _ _ _ _
             (match_key_open_at (js "slides") LBRACKET (b_key_gap b) (b_colon_gap b)
                rest W2 W3 eq_refl)).
  rewrite length_batch_head. change (length (js "slides")) with 6.
  f_equal. f_equal; lia.
Qed.

(** Before the bracket of the array has arrived the pattern has no
    match. *)
Lemma regex_search_before_bracket g b q y :
  is_gap g = true -> batch_ok b = true ->
  g ++ batch_head b = q ++ y -> y <> [] ->
  regex_search (match_key_open (js "slides") LBRACKET) q 0 = None.
Proof.
  intros Hg Hb E Hy. destruct (batch_ok_parts b Hb) as (W1 & W2 & W3 & _).
  set (A := g ++ LBRACE :: b_lead b).
  set (K := QUOTE :: js "slides" ++ QUOTE :: b_key_gap b ++ COLON :: b_colon_gap b).
  assert (EA : g ++ batch_head b = (A ++ K) ++ [LBRACKET]).
  { unfold A, K, batch_head. repeat (rewrite <- ?app_assoc; cbn [app]). reflexivity. }
  rewrite EA in E. symmetry in E.
  destruct (cut_before_last q y (A ++ K) LBRACKET E Hy) as [y' Hy'].
  assert (HA : forallb (fun c => negb (N.eqb c QUOTE)) A = true).
  { unfold A. rewrite forallb_app. apply andb_true_iff. split.
    - apply neutral_no_quote, Hg.
    - cbn [forallb]. apply neutral_no_quote, is_ws_gap, W1. }
  assert (HK : ~ In LBRACKET K).
  { unfold K. intros F. cbn [In] in F. destruct F as [F|F]; [discriminate|].
    apply in_app_or in F. destruct F as [F|F].
    - revert F. cbv. intuition discriminate.
    - cbn [In] in F. destruct F as [F|F]; [discriminate|].
      apply in_app_or in F. destruct F as [F|F].
      + unfold is_ws in W2. rewrite forallb_forall in W2.
        specialize (W2 _ F). discriminate.
      + cbn [In] in F. destruct F as [F|F]; [discriminate|].
        unfold is_ws in W3. rewrite forallb_forall in W3.
        specialize (W3 _ F). discriminate. }
  (* q is a beginning of A ++ K *)
  assert (Hq : exists a k, q = a ++ k
                           /\ forallb (fun c => negb (N.eqb c QUOTE)) a = true
                           /\ ~ In LBRACKET k).
  { destruct (Nat.le_gt_cases (length q) (length A)) as [L|L].
    - exists q, []. split; [symmetry; apply app_nil_r|]. split; [|intros []].
      assert (Eq : q = firstn (length q) A).
      { rewrite <- (firstn_app_exact q y' (length q) eq_refl) at 1.
        rewrite <- Hy'. rewrite firstn_app.
        replace (length q - length A) with 0 by lia. cbn [firstn].
        apply app_nil_r. }
      rewrite Eq. rewrite <- (firstn_skipn (length q) A) in HA.
      rewrite forallb_app in HA. apply andb_true_iff in HA. apply HA.
    - exists A, (firstn (length q - length A) K). split; [|split; [exact HA|]].
      + rewrite <- (firstn_app_exact q y' (length q) eq_refl) at 1.
        rewrite <- Hy'. rewrite firstn_app, firstn_all2 by lia. reflexivity.
      + intros F. apply HK. rewrite <- (firstn_skipn (length q - length A) K).
        apply in_or_app. left. exact F. }
  destruct Hq as (a & k & -> & Ha & Hk).
  rewrite regex_search_no_quote by exact Ha.
  apply regex_search_absent, Hk.
Qed.

(* ================================================================== *)
(** * The parser on the beginnings of a stream in any layout *)
(* ================================================================== *)

Lemma written_stream_cons g b items tail :
  written_stream ((g, b) :: items) tail
  = g ++ written_batch_text b ++ written_stream items tail.
Proof.
  unfold written_stream. cbn [flat_map fst snd]. rewrite <- !app_assoc. reflexivity.
Qed.

Lemma written_stream_tail items tail :
  written_stream items tail = written_stream items [] ++ tail.
Proof. unfold written_stream. rewrite app_nil_r. reflexivity. Qed.

Lemma written_stream_snoc done g b :
  written_stream (done ++ [(g, b)]) []
  = written_stream done [] ++ g ++ written_batch_text b.
Proof.
  unfold written_stream. rewrite flat_map_app. cbn [flat_map fst snd].
  rewrite !app_nil_r. reflexivity.
Qed.

Lemma stream_slides_snoc done g b :
  stream_slides (done ++ [(g, b)]) = stream_slides done ++ b_slides b.
Proof.
  unfold stream_slides. rewrite flat_map_app. cbn [flat_map snd].
  rewrite app_nil_r. reflexivity.
Qed.

Lemma stream_ok_cons g b items tail :
  stream_ok ((g, b) :: items) tail = true ->
  is_gap g = true /\ batch_ok b = true /\ stream_ok items tail = true.
Proof.
  unfold stream_ok. cbn [forallb fst snd]. intros H.
  apply andb_true_iff in H. destruct H as [H Ht].
  apply andb_true_iff in H. destruct H as [H Hi].
  apply andb_true_iff in H. destruct H as [Hg Hb].
  rewrite Hi, Ht. auto.
Qed.

Lemma stream_ok_snoc done g b :
  stream_ok done [] = true -> is_gap g = true -> batch_ok b = true ->
  stream_ok (done ++ [(g, b)]) [] = true.
Proof.
  unfold stream_ok. intros H Hg Hb. rewrite andb_true_r in *.
  rewrite forallb_app, H. cbn [forallb fst snd]. rewrite Hg, Hb. reflexivity.
Qed.

Lemma stream_ok_tail items tail :
  stream_ok items tail = true -> is_gap tail = true.
Proof. unfold stream_ok. intros H. apply andb_true_iff in H. apply H. Qed.

(** The first scan over complete batches with the text before each. *)
Lemma scan_batches_written done pre post slides :
  stream_ok done [] = true ->
  scan_batches (pre ++ written_stream done [] ++ post)
    (written_stream done [] ++ post) (length pre)
    (between_batches (Z.of_nat (length pre)) slides)
  = scan_batches (pre ++ written_stream done [] ++ post) post
      (length pre + length (written_stream done []))
      (between_batches (Z.of_nat (length pre + length (written_stream done [])))
         (slides ++ map written_value (stream_slides done))).
Proof.
  intros Hok.
  set (items := map (fun gb => {| gap := [fst gb];
                                  item_text := written_batch_text (snd gb);
                                  item_value := written_batch_value (snd gb) |}) done).
  assert (E1 : flat_map item_whole items = written_stream done []).
  { unfold items, written_stream. rewrite app_nil_r. clear.
    induction done as [|gb done IH]; [reflexivity|].
    cbn [map flat_map]. rewrite IH. unfold item_whole at 1.
    cbn [gap item_text concat]. rewrite app_nil_r. reflexivity. }
  assert (E2 : flat_map (fun it => batch_slides (item_value it)) items
               = map written_value (stream_slides done)).
  { unfold items, stream_slides. clear.
    induction done as [|gb done IH]; [reflexivity|].
    cbn [map flat_map item_value]. rewrite batch_slides_written, map_app, IH.
    reflexivity. }
  assert (F : Forall (fun it => forallb is_filler (gap it) = true
                                /\ is_object_text (item_text it) (item_value it)) items).
  { unfold items. apply Forall_forall. intros it Hin. apply in_map_iff in Hin.
    destruct Hin as (gb & <- & Hin). cbn [gap item_text item_value].
    unfold stream_ok in Hok. apply andb_true_iff in Hok. destruct Hok as [Hok _].
    rewrite forallb_forall in Hok. specialize (Hok _ Hin).
    apply andb_true_iff in Hok. destruct Hok as [Hg Hb]. split.
    - cbn [forallb]. rewrite andb_true_r. unfold is_filler.
      unfold is_gap in Hg. rewrite Hg. reflexivity.
    - apply written_batch_object, Hb. }
  pose proof (scan_batches_items items pre post slides F) as H.
  rewrite E1, E2 in H. exact H.
Qed.

Lemma written_batch_text_split b :
  written_batch_text b = batch_head b ++ array_rest b.
Proof. reflexivity. Qed.

(** The first scan on complete batches followed by a batch that is cut,
    or by a part of the text before it: the slides of the complete
    batches, and the end cursor after the last of them. *)
Lemma scan_batches_cut done g b q y :
  stream_ok done [] = true -> is_gap g = true -> batch_ok b = true ->
  g ++ written_batch_text b = q ++ y -> y <> [] ->
  let P := written_stream done [] ++ q in
  BatchScan.completeSlides (scan_batches P P 0 batch_init)
  = map written_value (stream_slides done)
  /\ BatchScan.lastValidBatchEndIndex (scan_batches P P 0 batch_init)
     = Z.of_nat (length (written_stream done [])).
Proof.
  intros Hok Hg Hb Hq Hy P.
  pose proof (scan_batches_written done [] q [] Hok) as H1.
  cbn [app length Nat.add] in H1. fold P in H1.
  change (between_batches (Z.of_nat 0) []) with batch_init in H1.
  set (D := written_stream done []) in *.
  set (st := between_batches (Z.of_nat (length D))
               (map written_value (stream_slides done))) in *.
  rewrite H1.
  assert (Hw : batch_within (length D) st) by (split; simpl; lia).
  pose proof (scan_batches_later P (length q) q (length D) st (le_n _) Hw) as [Hlo1 Hlo2].
  destruct (object_text_shape _ _ (written_batch_object b Hb)) as (c & Ec & Bc).
  assert (Hq' : q ++ y = (g ++ LBRACE :: c) ++ [RBRACE]).
  { rewrite <- Hq, Ec, <- app_assoc. reflexivity. }
  destruct (cut_before_last q y (g ++ LBRACE :: c) RBRACE Hq' Hy) as [y' Hy'].
  set (t := g ++ LBRACE :: c) in *.
  pose proof (scan_batches_prefix (D ++ t) P (length q) q y' (length D) st (le_n _)) as Hup.
  assert (Hag : firstn (length D + length q) (D ++ t)
                = firstn (length D + length q) P).
  { unfold P. rewrite Hy', app_assoc.
    rewrite <- length_app, firstn_app, Nat.sub_diag, !firstn_all. cbn [firstn].
    apply app_nil_r. }
  specialize (Hup Hag Hw). rewrite <- Hy' in Hup.
  assert (Hfull : scan_batches (D ++ t) t (length D) st
                  = {| BatchScan.braceCount := 1;
                       BatchScan.inString := false;
                       BatchScan.currentObjectStartIndex := Z.of_nat (length D + length g);
                       BatchScan.lastValidBatchEndIndex := Z.of_nat (length D);
                       BatchScan.completeSlides := map written_value (stream_slides done) |}).
  { unfold t at 2. rewrite scan_batches_neutral by (exact Hg || reflexivity).
    rewrite scan_batches_step by discriminate.
    unfold st, batch_step, between_batches.
    cbn [BatchScan.inString BatchScan.braceCount BatchScan.currentObjectStartIndex
         BatchScan.lastValidBatchEndIndex BatchScan.completeSlides].
    change (N.eqb LBRACE QUOTE) with false. change (N.eqb LBRACE LBRACE) with true.
    cbv iota. change (Z.eqb 0 0) with true. cbv iota.
    match goal with
    | |- scan_batches ?cs c ?i ?s = _ =>
        pose proof (Bc cs [] i s eq_refl) as Bc'
    end.
    rewrite app_nil_r in Bc'. rewrite Bc' by (cbn; lia).
    cbn [scan_batches]. f_equal. }
  rewrite Hfull in Hup. destruct Hup as [Hup1 Hup2].
  cbn [BatchScan.completeSlides BatchScan.lastValidBatchEndIndex] in Hup1, Hup2.
  destruct Hlo1 as [l1 Hl1]. destruct Hup1 as [l2 Hl2].
  split.
  - apply extends_both; [exists l1; exact Hl1|exists l2; exact Hl2].
  - assert (E : BatchScan.lastValidBatchEndIndex st = Z.of_nat (length D))
      by reflexivity.
    lia.
Qed.

(** The parser on complete batches followed by the beginning of a batch
    in which the slides array is not open yet. *)
Lemma parsePhases_before_bracket done g b q y flag :
  stream_ok done [] = true -> is_gap g = true -> batch_ok b = true ->
  g ++ batch_head b = q ++ y -> y <> [] ->
  parsePhases (written_stream done [] ++ q) flag
  = {| completeSlides := map written_value (stream_slides done);
       inProgressHtml := [] |}.
Proof.
  intros Hok Hg Hb Hq Hy.
  assert (Hq' : g ++ written_batch_text b = q ++ y ++ array_rest b).
  { rewrite written_batch_text_split, !app_assoc, Hq. reflexivity. }
  assert (Hy' : y ++ array_rest b <> []).
  { intros E. apply app_eq_nil in E. apply Hy, E. }
  destruct (scan_batches_cut done g b _ _ Hok Hg Hb Hq' Hy') as [Hs Hl].
  unfold parsePhases. rewrite Hs, Hl, substring_from_app.
  rewrite (regex_search_before_bracket g b q y Hg Hb Hq Hy). reflexivity.
Qed.

Lemma array_rest_nonempty b : array_rest b <> [].
Proof.
  unfold array_rest. intros E. apply (f_equal (@length _)) in E.
  rewrite !length_app in E. cbn [length] in E. rewrite !length_app in E.
  cbn [length] in E. lia.
Qed.

(** The parser on complete batches followed by a batch that is cut
    inside its slides array: the second scan runs on what has arrived of
    the array. *)
Lemma parsePhases_inside done g b q' y flag :
  stream_ok done [] = true -> is_gap g = true -> batch_ok b = true ->
  array_rest b = q' ++ y -> y <> [] ->
  parsePhases (written_stream done [] ++ g ++ batch_head b ++ q') flag
  = let p2 := scan_slides q' q' 0
                (slide_init (map written_value (stream_slides done))) in
    {| completeSlides := SlideScan.completeSlides p2;
       inProgressHtml :=
         if flag then []
         else extractInProgress
                (substring_from q' (SlideScan.lastParsedSlideEnd p2)) |}.
Proof.
  intros Hok Hg Hb Hq Hy.
  assert (Hq' : g ++ written_batch_text b = (g ++ batch_head b ++ q') ++ y).
  { rewrite written_batch_text_split, Hq, <- !app_assoc. reflexivity. }
  destruct (scan_batches_cut done g b _ _ Hok Hg Hb Hq' Hy) as [Hs Hl].
  unfold parsePhases. rewrite Hs, Hl, substring_from_app.
  rewrite (regex_search_batch_head g b q' Hg Hb).
  assert (E : length g + 1 + length (b_lead b)
              + (length (batch_head b) - 1 - length (b_lead b))
              = length (g ++ batch_head b)).
  { rewrite length_app, length_batch_head. lia. }
  rewrite E. rewrite (app_assoc g). rewrite substring_from_app. reflexivity.
Qed.

(* ================================================================== *)
(** * The number of slides on the beginnings of a stream in any layout *)
(* ================================================================== *)

(** The second scan over the end of a slides array: the bracket, the
    white space after it and the closing brace of the batch add no
    slide. *)
Lemma scan_slides_close_array ss trail j lastEnd slides :
  is_ws trail = true ->
  SlideScan.completeSlides
    (scan_slides ss (RBRACKET :: trail ++ [RBRACE]) j (between_slides lastEnd slides))
  = slides.
Proof.
  intros Hw.
  rewrite scan_slides_step by discriminate.
  rewrite slide_step_plain by (reflexivity || discriminate).
  rewrite scan_slides_ws by (exact Hw || reflexivity).
  rewrite scan_slides_step by discriminate.
  cbn [scan_slides]. reflexivity.
Qed.

(** The second scan on the whole of a slides array. *)
Lemma scan_slides_array_rest b seen :
  batch_ok b = true ->
  SlideScan.completeSlides
    (scan_slides (array_rest b) (array_rest b) 0 (slide_init (map written_value seen)))
  = map written_value (seen ++ take_written (map w_record seen) (b_slides b)).
Proof.
  intros Hb. destruct (batch_ok_parts b Hb) as (_ & _ & _ & W4 & W5 & Hs).
  change (slide_init (map written_value seen))
    with (between_slides 0 (map written_value seen)).
  unfold array_rest.
  rewrite scan_slides_ws by (exact W4 || reflexivity). cbn [Nat.add].
  destruct (b_slides b) as [|x0 l0] eqn:El.
  - cbn [elements_text app take_written]. rewrite app_nil_r.
    apply scan_slides_close_array, W5.
  - destruct (@exists_last _ (x0 :: l0)) as [l [x E]]; [discriminate|].
    rewrite E in *. clear E x0 l0.
    rewrite forallb_app in Hs. apply andb_true_iff in Hs. destruct Hs as [Hl Hx].
    cbn [forallb] in Hx. rewrite andb_true_r in Hx.
    rewrite elements_text_snoc, <- !app_assoc.
    destruct (scan_slides_closed_elements l (b_pad b)
                (element_text x ++ RBRACKET :: b_trail b ++ [RBRACE]) seen 0 Hl)
      as (lastEnd' & H1 & _).
    rewrite H1. clear H1.
    pose proof (scan_slides_element (b_pad b ++ closed_elements l) x
                  (RBRACKET :: b_trail b ++ [RBRACE])
                  (seen ++ take_written (map w_record seen) l) lastEnd' Hx) as H2.
    rewrite <- !app_assoc, length_app in H2. rewrite H2. clear H2.
    rewrite scan_slides_close_array by exact W5.
    f_equal. rewrite <- ?app_assoc. f_equal.
    rewrite take_written_app, take_written_one, (map_app w_record). reflexivity.
Qed.

(** The parser returns at least the slides of the complete batches the
    buffer starts with. *)
Lemma parsePhases_written_at_least done x flag :
  stream_ok done [] = true ->
  length (stream_slides done)
  <= length (completeSlides (parsePhases (written_stream done [] ++ x) flag)).
Proof.
  intros Hok. unfold parsePhases.
  pose proof (scan_batches_written done [] x [] Hok) as H1.
  cbn [app length Nat.add] in H1.
  change (between_batches (Z.of_nat 0) []) with batch_init in H1.
  set (P := written_stream done [] ++ x) in *.
  rewrite H1.
  set (st := between_batches _ _).
  assert (Hw : batch_within (length (written_stream done [])) st)
    by (split; simpl; lia).
  destruct (scan_batches_later P (length x) x _ st (le_n _) Hw) as [[l Hl] _].
  set (p1 := scan_batches P x (length (written_stream done [])) st) in *.
  assert (Hp1 : length (stream_slides done) <= length (BatchScan.completeSlides p1)).
  { rewrite Hl. unfold st. cbn [BatchScan.completeSlides between_batches].
    rewrite length_app, length_map. lia. }
  destruct (regex_search _ _ 0) as [[index len]|]; cbn [completeSlides]; [|exact Hp1].
  set (ss := substring_from _ _).
  destruct (scan_slides_later ss (length ss) ss 0
              (slide_init (BatchScan.completeSlides p1)) (le_n _)
              (slide_init_within _)) as [[l' Hl'] _].
  rewrite Hl'. cbn [SlideScan.completeSlides slide_init].
  rewrite length_app. lia.
Qed.

(** A batch with the text before it, cut before or after the bracket
    of its array. *)
Lemma item_cut_before g b k :
  k < length (g ++ batch_head b) ->
  firstn k (g ++ written_batch_text b) = firstn k (g ++ batch_head b)
  /\ skipn k (g ++ batch_head b) <> [].
Proof.
  intros H. split.
  - rewrite written_batch_text_split, app_assoc.
    apply firstn_app_short. lia.
  - intros E. apply (f_equal (@length _)) in E. rewrite length_skipn in E.
    cbn [length] in E. lia.
Qed.

Lemma item_cut_after g b k :
  length (g ++ batch_head b) <= k -> k < length (g ++ written_batch_text b) ->
  firstn k (g ++ written_batch_text b)
  = g ++ batch_head b ++ firstn (k - length (g ++ batch_head b)) (array_rest b)
  /\ skipn (k - length (g ++ batch_head b)) (array_rest b) <> [].
Proof.
  intros H1 H2. split.
  - rewrite written_batch_text_split, app_assoc.
    rewrite firstn_app_long by exact H1. rewrite <- app_assoc. reflexivity.
  - intros E. apply (f_equal (@length _)) in E. rewrite length_skipn in E.
    rewrite written_batch_text_split, app_assoc, length_app in H2.
    cbn [length] in E. lia.
Qed.

(** Within one batch, more of the text gives at least as many slides. *)
Lemma parsePhases_same_item done g b k1 k2 f1 f2 :
  stream_ok done [] = true -> is_gap g = true -> batch_ok b = true ->
  k1 <= k2 -> k2 < length (g ++ written_batch_text b) ->
  length (completeSlides
            (parsePhases (written_stream done []
                          ++ firstn k1 (g ++ written_batch_text b)) f1))
  <= length (completeSlides
               (parsePhases (written_stream done []
                             ++ firstn k2 (g ++ written_batch_text b)) f2)).
Proof.
  intros Hok Hg Hb H12 H2.
  destruct (Nat.lt_ge_cases k1 (length (g ++ batch_head b))) as [Hk|Hk].
  - destruct (item_cut_before g b k1 Hk) as [E1 Y1]. rewrite E1.
    rewrite (parsePhases_before_bracket done g b _ _ f1 Hok Hg Hb
               (eq_sym (firstn_skipn k1 _)) Y1).
    cbn [completeSlides]. rewrite length_map.
    apply parsePhases_written_at_least, Hok.
  - destruct (item_cut_after g b k1 Hk) as [E1 Y1]; [lia|].
    destruct (item_cut_after g b k2) as [E2 Y2]; [lia|lia|].
    rewrite E1, E2.
    set (h := length (g ++ batch_head b)) in *.
    rewrite (parsePhases_inside done g b _ _ f1 Hok Hg Hb
               (eq_sym (firstn_skipn (k1 - h) _)) Y1).
    rewrite (parsePhases_inside done g b _ _ f2 Hok Hg Hb
               (eq_sym (firstn_skipn (k2 - h) _)) Y2).
    cbn [completeSlides].
    set (full := array_rest b).
    set (st := slide_init (map written_value (stream_slides done))).
    assert (Hsplit : firstn (k2 - h) full
                     = firstn (k1 - h) full
                       ++ firstn (k2 - h - (k1 - h)) (skipn (k1 - h) full))
      by (apply firstn_le_split; lia).
    set (q1 := firstn (k1 - h) full) in *.
    set (y := firstn (k2 - h - (k1 - h)) (skipn (k1 - h) full)) in *.
    pose proof (scan_slides_prefix (q1 ++ y) q1 (length q1) q1 y 0 st (le_n _)) as Hp.
    rewrite Hsplit.
    destruct Hp as [[l Hl] _].
    + cbn [Nat.add]. rewrite firstn_app, Nat.sub_diag, !firstn_all. cbn [firstn].
      apply app_nil_r.
    + apply slide_init_within.
    + rewrite Hl, length_app. lia.
Qed.

(** A batch that is cut gives no more slides than it holds. *)
Lemma parsePhases_item_bound done g b k f :
  stream_ok done [] = true -> is_gap g = true -> batch_ok b = true ->
  k < length (g ++ written_batch_text b) ->
  length (completeSlides
            (parsePhases (written_stream done []
                          ++ firstn k (g ++ written_batch_text b)) f))
  <= length (stream_slides done) + length (b_slides b).
Proof.
  intros Hok Hg Hb H2.
  destruct (Nat.lt_ge_cases k (length (g ++ batch_head b))) as [Hk|Hk].
  - destruct (item_cut_before g b k Hk) as [E1 Y1]. rewrite E1.
    rewrite (parsePhases_before_bracket done g b _ _ f Hok Hg Hb
               (eq_sym (firstn_skipn k _)) Y1).
    cbn [completeSlides]. rewrite length_map. lia.
  - destruct (item_cut_after g b k Hk H2) as [E1 Y1]. rewrite E1.
    set (h := length (g ++ batch_head b)) in *.
    rewrite (parsePhases_inside done g b _ _ f Hok Hg Hb
               (eq_sym (firstn_skipn (k - h) _)) Y1).
    cbn [completeSlides].
    set (full := array_rest b) in *.
    set (st := slide_init (map written_value (stream_slides done))).
    set (q1 := firstn (k - h) full).
    pose proof (scan_slides_prefix full q1 (length q1) q1 (skipn (k - h) full)
                  0 st (le_n _)) as Hp.
    destruct Hp as [[l Hl] _].
    + cbn [Nat.add]. unfold q1. rewrite firstn_firstn.
      f_equal. rewrite length_firstn. lia.
    + apply slide_init_within.
    + unfold q1 in Hl. rewrite firstn_skipn in Hl. unfold full, st in Hl.
      rewrite scan_slides_array_rest in Hl by exact Hb.
      apply (f_equal (@length _)) in Hl.
      rewrite length_map, !length_app in Hl.
      pose proof (length_take_written (b_slides b) (map w_record (stream_slides done))).
      unfold q1, st, full. lia.
Qed.

Lemma batch_head_nonempty b : batch_head b <> [].
Proof. unfold batch_head. discriminate. Qed.

(** On the beginnings of a stream, a longer beginning gives at least as
    many slides. *)
Lemma parsePhases_written_prefix_mono : forall rest done tail k1 k2 f1 f2,
  stream_ok done [] = true -> stream_ok rest tail = true ->
  k1 <= k2 ->
  length (completeSlides
            (parsePhases (written_stream done []
                          ++ firstn k1 (written_stream rest tail)) f1))
  <= length (completeSlides
               (parsePhases (written_stream done []
                             ++ firstn k2 (written_stream rest tail)) f2)).
Proof.
  induction rest as [|[g b] rest IH]; intros done tail k1 k2 f1 f2 Hok Hr H12.
  - pose proof (stream_ok_tail _ _ Hr) as Ht.
    assert (E : forall k f,
               parsePhases (written_stream done [] ++ firstn k (written_stream [] tail)) f
               = {| completeSlides := map written_value (stream_slides done);
                    inProgressHtml := [] |}).
    { intros k f.
      apply (parsePhases_before_bracket done tail empty_batch _
               (skipn k tail ++ batch_head empty_batch) f Hok Ht eq_refl).
      - unfold written_stream. cbn [flat_map app].
        rewrite app_assoc, firstn_skipn. reflexivity.
      - intros F. apply app_eq_nil in F. destruct F as [_ F]. discriminate. }
    rewrite !E. lia.
  - destruct (stream_ok_cons _ _ _ _ Hr) as (Hg & Hb & Hr').
    rewrite written_stream_cons, app_assoc.
    set (item := g ++ written_batch_text b).
    destruct (Nat.lt_ge_cases k2 (length item)) as [Hk2|Hk2].
    + rewrite !firstn_app_short by lia.
      apply parsePhases_same_item; assumption.
    + destruct (Nat.lt_ge_cases k1 (length item)) as [Hk1|Hk1].
      * rewrite (firstn_app_short k1) by lia.
        rewrite (firstn_app_long k2) by lia.
        rewrite (app_assoc (written_stream done [])).
        unfold item at 2. rewrite <- written_stream_snoc.
        pose proof (parsePhases_item_bound done g b k1 f1 Hok Hg Hb Hk1) as Hlo.
        pose proof (parsePhases_written_at_least (done ++ [(g, b)])
                      (firstn (k2 - length item) (written_stream rest tail)) f2
                      (stream_ok_snoc _ _ _ Hok Hg Hb))
          as Hhi.
        rewrite stream_slides_snoc, length_app in Hhi. fold item in Hlo. lia.
      * rewrite !firstn_app_long by lia.
        rewrite !(app_assoc (written_stream done [])).
        unfold item. rewrite <- written_stream_snoc.
        apply IH; [apply stream_ok_snoc; assumption|exact Hr'|lia].
Qed.

(* ================================================================== *)
(** * What a cut marker leaves at the end of the buffer *)
(* ================================================================== *)

(** ** The two scans do not react to it *)

Lemma residue_chars c :
  is_residue c = true ->
  c <> QUOTE /\ c <> BACKSLASH /\ c <> LBRACE /\ c <> RBRACE
  /\ c <> COLON /\ c <> LBRACKET.
Proof.
  intros H. repeat split; intros ->; discriminate.
Qed.

Lemma batch_step_residue cs i c st :
  is_residue c = true -> batch_step cs i c st = st.
Proof.
  intros H. destruct (residue_chars c H) as (H1 & H2 & H3 & H4 & _).
  destruct (BatchScan.inString st) eqn:E.
  - apply batch_step_in_string; assumption.
  - apply batch_step_plain; assumption.
Qed.

Lemma slide_step_residue ss j c st :
  is_residue c = true -> slide_step ss j c st = st.
Proof.
  intros H. destruct (residue_chars c H) as (H1 & H2 & H3 & H4 & _).
  destruct (SlideScan.slideInString st) eqn:E.
  - apply slide_step_in_string; assumption.
  - apply slide_step_plain; assumption.
Qed.

Lemma scan_batches_residue cs : forall T i st,
  forallb is_residue T = true -> scan_batches cs T i st = st.
Proof.
  induction T as [|c T IH]; intros i st H; [reflexivity|].
  cbn [forallb] in H. apply andb_true_iff in H. destruct H as [Hc HT].
  rewrite scan_batches_step by (apply (residue_chars c Hc)).
  rewrite batch_step_residue by exact Hc. apply IH, HT.
Qed.

Lemma scan_slides_residue ss : forall T j st,
  forallb is_residue T = true -> scan_slides ss T j st = st.
Proof.
  induction T as [|c T IH]; intros j st H; [reflexivity|].
  cbn [forallb] in H. apply andb_true_iff in H. destruct H as [Hc HT].
  rewrite scan_slides_step by (apply (residue_chars c Hc)).
  rewrite slide_step_residue by exact Hc. apply IH, HT.
Qed.

(** The first scan of a text followed by such characters ends in the
    state in which the scan of the text ends. *)
Lemma scan_batches_app_residue cs cs' T : forall n X i st,
  forallb is_residue T = true ->
  length X <= n ->
  firstn (i + length X) cs = firstn (i + length X) cs' ->
  batch_within i st ->
  scan_batches cs' (X ++ T) i st = scan_batches cs X i st.
Proof.
  induction n as [|n IH]; intros X i st HT Hn Hag Hw.
  - destruct X; [|simpl in Hn; lia]. cbn [app scan_batches].
    apply scan_batches_residue, HT.
  - destruct X as [|c X].
    { cbn [app scan_batches]. apply scan_batches_residue, HT. }
    destruct (N.eqb_spec c BACKSLASH) as [->|Hc].
    + destruct X as [|d X].
      * cbn [scan_batches]. rewrite batch_step_backslash. cbn [app].
        destruct T as [|t T].
        -- cbn [scan_batches]. apply batch_step_backslash.
        -- rewrite scan_batches_escape. apply scan_batches_residue.
           cbn [forallb] in HT. apply andb_true_iff in HT. apply HT.
      * cbn [app]. rewrite !scan_batches_escape.
        apply IH; [exact HT|simpl in Hn; lia| |eapply batch_within_le; [exact Hw|lia]].
        cbn [length] in Hag.
        replace (i + 2 + length X) with (i + S (S (length X))) by lia. exact Hag.
    + cbn [app]. rewrite !scan_batches_step by exact Hc.
      rewrite (batch_step_agree (i + length (c :: X)) cs cs' i c st Hag)
        by (cbn [length]; try lia; exact Hw).
      destruct (batch_step_later cs' i c st Hw) as [_ Hw'].
      apply IH; [exact HT|simpl in Hn; lia| |exact Hw'].
      cbn [length] in Hag.
      replace (i + 1 + length X) with (i + S (length X)) by lia. exact Hag.
Qed.

Lemma scan_slides_app_residue ss ss' T : forall n X j st,
  forallb is_residue T = true ->
  length X <= n ->
  firstn (j + length X) ss = firstn (j + length X) ss' ->
  slide_within j st ->
  scan_slides ss' (X ++ T) j st = scan_slides ss X j st.
Proof.
  induction n as [|n IH]; intros X j st HT Hn Hag Hw.
  - destruct X; [|simpl in Hn; lia]. cbn [app scan_slides].
    apply scan_slides_residue, HT.
  - destruct X as [|c X].
    { cbn [app scan_slides]. apply scan_slides_residue, HT. }
    destruct (N.eqb_spec c BACKSLASH) as [->|Hc].
    + destruct X as [|d X].
      * change (scan_slides ss [BACKSLASH] j st) with st. cbn [app].
        destruct T as [|t T]; [reflexivity|].
        rewrite scan_slides_escape. apply scan_slides_residue.
        cbn [forallb] in HT. apply andb_true_iff in HT. apply HT.
      * cbn [app]. rewrite !scan_slides_escape.
        apply IH; [exact HT|simpl in Hn; lia| |eapply slide_within_le; [exact Hw|lia]].
        cbn [length] in Hag.
        replace (j + 2 + length X) with (j + S (S (length X))) by lia. exact Hag.
    + cbn [app]. rewrite !scan_slides_step by exact Hc.
      rewrite (slide_step_agree (j + length (c :: X)) ss ss' j c st Hag)
        by (cbn [length]; try lia; exact Hw).
      destruct (slide_step_later ss' j c st Hw) as [_ [Hw' _]].
      apply IH; [exact HT|simpl in Hn; lia| |exact Hw'].
      cbn [length] in Hag.
      replace (j + 1 + length X) with (j + S (length X)) by lia. exact Hag.
Qed.

(** The end cursor of the first scan is inside the text. *)
Lemma scan_batches_within cs : forall n rest i st,
  length rest <= n ->
  batch_within i st ->
  (BatchScan.lastValidBatchEndIndex (scan_batches cs rest i st)
   <= Z.of_nat (i + length rest))%Z.
Proof.
  induction n as [|n IH]; intros rest i st Hn Hw.
  - destruct rest; [|simpl in Hn; lia]. cbn [scan_batches length].
    destruct Hw. lia.
  - destruct rest as [|c rest]; [cbn [scan_batches length]; destruct Hw; lia|].
    destruct (N.eqb_spec c BACKSLASH) as [->|Hc].
    + destruct rest as [|d rest].
      * cbn [scan_batches]. rewrite batch_step_backslash. cbn [length].
        destruct Hw. lia.
      * rewrite scan_batches_escape.
        assert (Hw2 : batch_within (i + 2) st)
          by (eapply batch_within_le; [exact Hw|lia]).
        pose proof (IH rest (i + 2) st ltac:(simpl in Hn; lia) Hw2).
        cbn [length]. lia.
    + rewrite scan_batches_step by exact Hc.
      destruct (batch_step_later cs i c st Hw) as [_ Hw'].
      pose proof (IH rest (i + 1) _ ltac:(simpl in Hn; lia) Hw').
      cbn [length]. lia.
Qed.

Lemma substring_from_app_le (Q T : jsstring) e :
  (e <= Z.of_nat (length Q))%Z ->
  substring_from (Q ++ T) e = substring_from Q e ++ T.
Proof.
  intros H. unfold substring_from, clamp. rewrite length_app.
  replace (Nat.min (Z.to_nat e) (length Q + length T)) with (Z.to_nat e) by lia.
  replace (Nat.min (Z.to_nat e) (length Q)) with (Z.to_nat e) by lia.
  rewrite skipn_app. replace (Z.to_nat e - length Q) with 0 by lia.
  reflexivity.
Qed.

(** ** The pattern of the array does not match over it *)

Lemma starts_with_app_tail q T : forall lit s,
  ~ In q T -> (exists l0, lit = l0 ++ [q]) ->
  starts_with lit (s ++ T) = starts_with lit s.
Proof.
  induction lit as [|x p IH]; intros s Hq [l0 El]; [reflexivity|].
  destruct s as [|y s].
  - cbn [app]. destruct (starts_with (x :: p) T) eqn:E; [|reflexivity].
    exfalso. apply starts_with_true_iff in E. destruct E as [b Eb].
    apply Hq. rewrite Eb, El. apply in_or_app. left. apply in_or_app. right.
    left. reflexivity.
  - cbn [app starts_with]. destruct (N.eqb x y); [|reflexivity]. cbn [andb].
    destruct l0 as [|z l0].
    + cbn [app] in El. injection El as _ ->. reflexivity.
    + apply IH; [exact Hq|]. exists l0. cbn [app] in El. injection El as _ E.
      exact E.
Qed.

Lemma after_space_residue : forall T,
  forallb is_residue T = true ->
  skipn (count_space T) T = []
  \/ exists c T', skipn (count_space T) T = c :: T' /\ is_residue c = true.
Proof.
  induction T as [|c T IH]; intros H; [left; reflexivity|].
  cbn [forallb] in H. apply andb_true_iff in H. destruct H as [Hc HT].
  cbn [count_space]. destruct (is_js_space c).
  - cbn [skipn]. apply IH, HT.
  - right. exists c, T. split; [reflexivity|exact Hc].
Qed.

Lemma after_space_cases T : forall X,
  forallb is_residue T = true ->
  (exists c X', skipn (count_space X) X = c :: X'
                /\ count_space (X ++ T) = count_space X
                /\ skipn (count_space X) (X ++ T) = c :: X' ++ T)
  \/ (skipn (count_space X) X = []
      /\ (skipn (count_space (X ++ T)) (X ++ T) = []
          \/ exists c T', skipn (count_space (X ++ T)) (X ++ T) = c :: T'
                          /\ is_residue c = true)).
Proof.
  induction X as [|c X IH]; intros HT.
  - right. split; [reflexivity|]. cbn [app]. apply after_space_residue, HT.
  - cbn [app count_space]. destruct (is_js_space c).
    + cbn [skipn].
      destruct (IH HT) as [(d & X' & A1 & A2 & A3)|A].
      * left. exists d, X'. rewrite A2. auto.
      * right. exact A.
    + left. exists c, X. cbn [skipn]. auto.
Qed.

Lemma match_key_open_app_residue key opener s T :
  forallb is_residue T = true -> is_residue opener = false ->
  match_key_open key opener (s ++ T) = match_key_open key opener s.
Proof.
  intros HT Ho. unfold match_key_open.
  assert (HqT : ~ In QUOTE T).
  { intros F. rewrite forallb_forall in HT. specialize (HT _ F). discriminate. }
  rewrite (starts_with_app_tail QUOTE T (QUOTE :: key ++ [QUOTE]) s HqT)
    by (exists (QUOTE :: key); reflexivity).
  destruct (starts_with (QUOTE :: key ++ [QUOTE]) s) eqn:E; [|reflexivity].
  apply starts_with_split in E.
  set (lit := QUOTE :: key ++ [QUOTE]) in *.
  set (s1 := skipn (length lit) s) in *.
  assert (E1 : skipn (length lit) (s ++ T) = s1 ++ T).
  { rewrite E at 1. rewrite <- app_assoc, skipn_app, skipn_all, Nat.sub_diag.
    reflexivity. }
  rewrite E1. cbv zeta.
  destruct (after_space_cases T s1 HT)
    as [(c & X' & A1 & A2 & A3)|(A1 & [A2|(c & T' & A2 & A3)])].
  - rewrite A2, A3, A1. destruct (N.eqb c COLON); [|reflexivity].
    destruct (after_space_cases T X' HT)
      as [(d & Y' & B1 & B2 & B3)|(B1 & [B2|(d & T' & B2 & B3)])].
    + rewrite B2, B3, B1. reflexivity.
    + rewrite B2, B1. reflexivity.
    + rewrite B2, B1.
      destruct (N.eqb_spec d opener) as [->|_]; [congruence|reflexivity].
  - rewrite A2, A1. reflexivity.
  - rewrite A2, A1.
    destruct (N.eqb_spec c COLON) as [->|_]; [discriminate|reflexivity].
Qed.

Lemma regex_search_app_residue key opener T : forall R idx,
  forallb is_residue T = true -> is_residue opener = false ->
  regex_search (match_key_open key opener) (R ++ T) idx
  = regex_search (match_key_open key opener) R idx.
Proof.
  induction R as [|c R IH]; intros idx HT Ho.
  - cbn [app]. rewrite regex_search_absent.
    + reflexivity.
    + intros F. rewrite forallb_forall in HT. specialize (HT _ F). congruence.
  - change ((c :: R) ++ T) with (c :: R ++ T). cbn [regex_search].
    change (c :: R ++ T) with ((c :: R) ++ T).
    rewrite match_key_open_app_residue by assumption.
    destruct (match_key_open key opener (c :: R)); [reflexivity|].
    apply IH; assumption.
Qed.

Lemma match_key_open_length key opener s len :
  match_key_open key opener s = Some len -> len <= length s.
Proof.
  unfold match_key_open.
  destruct (starts_with (QUOTE :: key ++ [QUOTE]) s) eqn:E; [|discriminate].
  apply starts_with_split in E.
  set (lit := QUOTE :: key ++ [QUOTE]) in *.
  set (s1 := skipn (length lit) s) in *. cbv zeta.
  destruct (skipn (count_space s1) s1) as [|c s2] eqn:E1; [discriminate|].
  destruct (N.eqb c COLON); [|discriminate].
  destruct (skipn (count_space s2) s2) as [|d s3] eqn:E2; [discriminate|].
  destruct (N.eqb d opener); [|discriminate].
  intros H. injection H as <-.
  apply (f_equal (@length _)) in E1, E2. rewrite length_skipn in E1, E2.
  cbn [length] in E1, E2.
  rewrite E. unfold lit.
  change (length ((QUOTE :: key ++ [QUOTE]) ++ s1))
    with (S (length ((key ++ [QUOTE]) ++ s1))).
  rewrite !length_app. cbn [length]. lia.
Qed.

Lemma regex_search_bound key opener : forall s idx i len,
  regex_search (match_key_open key opener) s idx = Some (i, len) ->
  idx <= i /\ i - idx + len <= length s.
Proof.
  induction s as [|c s IH]; intros idx i len H.
  - cbn [regex_search] in H.
    destruct (match_key_open key opener []) eqn:E; [|discriminate].
    injection H as <- <-. apply match_key_open_length in E. lia.
  - cbn [regex_search] in H.
    destruct (match_key_open key opener (c :: s)) eqn:E.
    + injection H as <- <-. apply match_key_open_length in E. lia.
    + apply IH in H. cbn [length]. lia.
Qed.

(** ** The slides of a buffer that ends with it *)

Lemma completeSlides_any_flag s f1 f2 :
  completeSlides (parsePhases s f1) = completeSlides (parsePhases s f2).
Proof.
  unfold parsePhases. destruct (regex_search _ _ 0) as [[index len]|]; reflexivity.
Qed.

(** Text of a marker that is cut, or white space, at the end of the
    cleaned buffer changes nothing in the slides. *)
Lemma completeSlides_residue Q T f :
  forallb is_residue T = true ->
  completeSlides (parsePhases (Q ++ T) f) = completeSlides (parsePhases Q f).
Proof.
  intros HT. unfold parsePhases.
  assert (E1 : scan_batches (Q ++ T) (Q ++ T) 0 batch_init
               = scan_batches Q Q 0 batch_init).
  { apply (scan_batches_app_residue Q (Q ++ T) T (length Q));
      [exact HT|lia| |apply batch_init_within].
    cbn [Nat.add]. rewrite firstn_all, firstn_app, Nat.sub_diag, firstn_all.
    cbn [firstn]. symmetry. apply app_nil_r. }
  rewrite E1. set (p1 := scan_batches Q Q 0 batch_init).
  pose proof (scan_batches_within Q (length Q) Q 0 batch_init (le_n _)
                batch_init_within) as Hin.
  fold p1 in Hin. cbn [Nat.add] in Hin.
  rewrite substring_from_app_le by exact Hin.
  rewrite regex_search_app_residue by (exact HT || reflexivity).
  set (R := substring_from Q (BatchScan.lastValidBatchEndIndex p1)).
  destruct (regex_search _ R 0) as [[index len]|] eqn:Er; [|reflexivity].
  cbn [completeSlides].
  apply regex_search_bound in Er. destruct Er as [_ Er].
  rewrite substring_from_app_le by lia.
  set (ss := substring_from R (Z.of_nat (index + len))).
  f_equal.
  apply (scan_slides_app_residue ss (ss ++ T) T (length ss));
    [exact HT|lia| |apply slide_init_within].
  cbn [Nat.add]. rewrite firstn_all, firstn_app, Nat.sub_diag, firstn_all.
  cbn [firstn]. symmetry. apply app_nil_r.
Qed.

(* ================================================================== *)
(** * The cleaning step on a growing buffer *)
(* ================================================================== *)

(** ** Removing a pattern from the beginning of a text

    What the removal makes of a beginning [x] of a text does not depend
    on what follows, up to a proper beginning [t] of the pattern that
    [x] ends with. *)

Lemma app_prefix_cases {A : Type} : forall (p x w z : list A),
  p ++ w = x ++ z -> (exists r, x = p ++ r) \/ (exists u, p = x ++ u).
Proof.
  induction p as [|a p IH]; intros x w z E.
  - left. exists x. reflexivity.
  - destruct x as [|b x].
    + right. exists (a :: p). reflexivity.
    + cbn [app] in E. injection E as -> E.
      destruct (IH x w z E) as [[r ->]|[u ->]].
      * left. exists r. reflexivity.
      * right. exists u. reflexivity.
Qed.

Lemma replace_all_pending p : p <> [] -> forall n x,
  length x <= n ->
  exists C t,
    (forall z, replace_all p [] (x ++ z) = C ++ replace_all p [] (t ++ z))
    /\ length t < length p /\ (exists u, p = t ++ u).
Proof.
  intros Hp. induction n as [|n IH]; intros x Hn.
  - destruct x; [|simpl in Hn; lia]. exists [], []. split; [reflexivity|].
    split; [destruct p; [contradiction|simpl; lia]|exists p; reflexivity].
  - destruct x as [|c x].
    { exists [], []. split; [reflexivity|].
      split; [destruct p; [contradiction|simpl; lia]|exists p; reflexivity]. }
    destruct (starts_with p (c :: x)) eqn:E1.
    + apply starts_with_true_iff in E1. destruct E1 as [r Er].
      assert (Hr : length r <= n).
      { apply (f_equal (@length _)) in Er. rewrite length_app in Er.
        cbn [length] in Er, Hn. destruct p; [contradiction|]. cbn [length] in Er. lia. }
      destruct (IH r Hr) as (C & t & H1 & H2 & H3).
      exists C, t. split; [|split; assumption].
      intros z. rewrite Er, <- app_assoc, replace_all_hit by exact Hp.
      cbn [app]. apply H1.
    + destruct (starts_with (c :: x) p) eqn:E2.
      * apply starts_with_true_iff in E2. destruct E2 as [u Eu].
        exists [], (c :: x). split; [reflexivity|]. split; [|exists u; exact Eu].
        destruct u as [|a u].
        -- rewrite app_nil_r in Eu. rewrite Eu in E1.
           rewrite <- (app_nil_r (c :: x)) in E1 at 2.
           rewrite starts_with_refl in E1. discriminate.
        -- rewrite Eu, length_app. cbn [length]. lia.
      * assert (Hz : forall z, starts_with p ((c :: x) ++ z) = false).
        { intros z. destruct (starts_with p ((c :: x) ++ z)) eqn:E3; [|reflexivity].
          apply starts_with_true_iff in E3. destruct E3 as [w Ew]. symmetry in Ew.
          destruct (app_prefix_cases p (c :: x) w z Ew) as [[r Er]|[u Eu]].
          - rewrite Er, starts_with_refl in E1. discriminate.
          - rewrite Eu, starts_with_refl in E2. discriminate. }
        destruct (IH x ltac:(simpl in Hn; lia)) as (C & t & H1 & H2 & H3).
        exists (c :: C), t. split; [|split; assumption].
        intros z. unfold replace_all. cbn [app].
        rewrite replace_from_no_match_here by (apply (Hz z)).
        cbn [app]. f_equal. apply H1.
Qed.

Lemma forallb_replace_from (f : N -> bool) p : forall s k,
  forallb f s = true -> forallb f (replace_from p [] k s) = true.
Proof.
  induction s as [|c s IH]; intros k H; [reflexivity|].
  cbn [forallb] in H. apply andb_true_iff in H. destruct H as [Hc Hs].
  cbn [replace_from]. destruct k as [|k]; [|apply IH, Hs].
  destruct (starts_with p (c :: s)).
  - cbn [app]. apply IH, Hs.
  - cbn [forallb]. rewrite Hc. apply IH, Hs.
Qed.

Lemma marker_prefix t u :
  FENCE_JSON = t ++ u -> length t < length FENCE_JSON ->
  forallb is_marker_char t = true.
Proof.
  intros E H.
  assert (Et : t = firstn (length t) FENCE_JSON).
  { rewrite E, firstn_app, Nat.sub_diag, firstn_all. cbn [firstn].
    symmetry. apply app_nil_r. }
  rewrite Et. change (length FENCE_JSON) with 7 in H.
  generalize dependent (length t). intros k Hk _. clear E.
  do 7 (destruct k as [|k]; [reflexivity|]). lia.
Qed.

Lemma fence_prefix t u :
  FENCE = t ++ u -> forallb is_marker_char t = true.
Proof.
  intros E.
  assert (Et : t = firstn (length t) FENCE).
  { rewrite E, firstn_app, Nat.sub_diag, firstn_all. cbn [firstn].
    symmetry. apply app_nil_r. }
  rewrite Et. generalize (length t). intros k.
  do 3 (destruct k as [|k]; [reflexivity|]). destruct k; reflexivity.
Qed.

(** The buffer without its markers: a beginning [C] that stays whatever
    follows, and what is left of a marker that is cut. *)
Lemma strip_pending x :
  exists C J,
    strip x = C ++ J
    /\ forallb is_marker_char J = true
    /\ forall z, exists D, strip (x ++ z) = C ++ D.
Proof.
  destruct (replace_all_pending FENCE_JSON ltac:(discriminate) (length x) x (le_n _))
    as (C1 & t1 & H1 & L1 & [u1 E1]).
  destruct (replace_all_pending FENCE ltac:(discriminate) (length C1) C1 (le_n _))
    as (C2 & t2 & H2 & L2 & [u2 E2]).
  exists C2, (replace_all FENCE [] (t2 ++ replace_all FENCE_JSON [] (t1 ++ []))).
  split; [|split].
  - unfold strip. rewrite <- (app_nil_r x) at 1. rewrite H1, H2. reflexivity.
  - unfold replace_all. apply forallb_replace_from. rewrite forallb_app.
    rewrite (fence_prefix t2 u2 E2). apply forallb_replace_from.
    rewrite app_nil_r. apply (marker_prefix t1 u1 E1 L1).
  - intros z. eexists. unfold strip. rewrite H1, H2. reflexivity.
Qed.

(** ** White space around the cleaned buffer *)

Lemma marker_residue c : is_marker_char c = true -> is_residue c = true.
Proof. intros H. unfold is_residue. rewrite H. reflexivity. Qed.

Lemma marker_not_space c : is_marker_char c = true -> is_js_space c = false.
Proof.
  unfold is_marker_char. intros H.
  repeat (apply orb_true_iff in H; destruct H as [H|H]);
    apply N.eqb_eq in H; subst c; reflexivity.
Qed.

Lemma markers_residue J :
  forallb is_marker_char J = true -> forallb is_residue J = true.
Proof.
  intros H. apply forallb_forall. intros c Hc.
  rewrite forallb_forall in H. apply marker_residue, H, Hc.
Qed.

Lemma spaces_residue w :
  forallb is_js_space w = true -> forallb is_residue w = true.
Proof.
  intros H. apply forallb_forall. intros c Hc.
  rewrite forallb_forall in H. unfold is_residue. rewrite (H c Hc).
  apply orb_true_r.
Qed.

Lemma trim_start_app_marker J : forall C,
  forallb is_marker_char J = true -> trim_start (C ++ J) = trim_start C ++ J.
Proof.
  induction C as [|c C IH]; intros H.
  - cbn [app trim_start]. destruct J as [|j J]; [reflexivity|].
    cbn [forallb] in H. apply andb_true_iff in H. destruct H as [Hj _].
    cbn [trim_start]. rewrite (marker_not_space j Hj). reflexivity.
  - cbn [app trim_start]. destruct (is_js_space c); [apply IH, H|reflexivity].
Qed.

Lemma trim_end_marker Q J :
  J <> [] -> forallb is_marker_char J = true -> trim_end (Q ++ J) = Q ++ J.
Proof.
  intros Hn H. destruct (@exists_last _ J Hn) as [J' [c E]]. subst J.
  rewrite forallb_app in H. apply andb_true_iff in H. destruct H as [_ H].
  cbn [forallb] in H. rewrite andb_true_r in H.
  rewrite app_assoc.
  rewrite (trim_end_after_nonspace (Q ++ J') c [] (marker_not_space c H)).
  reflexivity.
Qed.

Lemma trim_start_split : forall s,
  exists w, s = w ++ trim_start s /\ forallb is_js_space w = true.
Proof.
  induction s as [|c s [w [E H]]]; [exists []; split; reflexivity|].
  cbn [trim_start]. destruct (is_js_space c) eqn:Ec.
  - exists (c :: w). cbn [app forallb]. rewrite Ec, H. split; [f_equal; exact E|reflexivity].
  - exists []. split; reflexivity.
Qed.

Lemma trim_end_split s :
  exists w, s = trim_end s ++ w /\ forallb is_js_space w = true.
Proof.
  destruct (trim_start_split (rev s)) as [w [E H]].
  exists (rev w). split.
  - unfold trim_end. rewrite <- rev_app_distr, <- E, rev_involutive. reflexivity.
  - apply forallb_forall. intros c Hc. rewrite forallb_forall in H.
    apply H, in_rev, Hc.
Qed.

(** The slides of the cleaned buffer are those of the beginning that
    stays, without the white space before it. *)
Lemma completeSlides_trim C J f f' :
  forallb is_marker_char J = true ->
  completeSlides (parsePhases (trim (C ++ J)) f)
  = completeSlides (parsePhases (trim_start C) f').
Proof.
  intros HJ. rewrite (completeSlides_any_flag _ f f').
  unfold trim. rewrite trim_start_app_marker by exact HJ.
  destruct J as [|j J].
  - rewrite app_nil_r.
    destruct (trim_end_split (trim_start C)) as [w [E Hw]].
    rewrite E at 2. symmetry. apply completeSlides_residue, spaces_residue, Hw.
  - rewrite trim_end_marker by (discriminate || exact HJ).
    apply completeSlides_residue, markers_residue, HJ.
Qed.

Lemma trim_start_firstn : forall s m,
  trim_start (firstn m s)
  = firstn (m - (length s - length (trim_start s))) (trim_start s).
Proof.
  induction s as [|c s IH]; intros m.
  - rewrite !firstn_nil. reflexivity.
  - destruct m as [|m]; [reflexivity|].
    cbn [firstn trim_start]. destruct (is_js_space c) eqn:Ec.
    + rewrite IH. pose proof (length_trim_start s). cbn [length].
      f_equal. lia.
    + cbn [length]. rewrite Nat.sub_diag, Nat.sub_0_r. reflexivity.
Qed.

Lemma trim_start_gap g :
  is_gap g = true -> is_gap (trim_start g) = true.
Proof.
  intros H. destruct (trim_start_suffix g) as [w E].
  unfold is_gap in *. rewrite E, forallb_app in H.
  apply andb_true_iff in H. apply H.
Qed.

(** A stream without the white space it starts with is a stream. *)
Lemma trim_start_written items tail :
  stream_ok items tail = true ->
  exists items' tail',
    trim_start (written_stream items tail) = written_stream items' tail'
    /\ stream_ok items' tail' = true.
Proof.
  intros H. destruct items as [|[g b] items].
  - exists [], (trim_start tail). split; [reflexivity|].
    apply stream_ok_tail in H. unfold stream_ok. cbn [forallb andb].
    apply trim_start_gap, H.
  - destruct (stream_ok_cons _ _ _ _ H) as (Hg & Hb & Hr).
    exists ((trim_start g, b) :: items), tail. split.
    + rewrite !written_stream_cons, written_batch_text_app.
      apply trim_start_app_stop. reflexivity.
    + unfold stream_ok in *. cbn [forallb fst snd].
      rewrite (trim_start_gap g Hg), Hb. exact Hr.
Qed.

Lemma firstn_prefix {A : Type} (c d w : list A) :
  w = c ++ d -> c = firstn (length c) w.
Proof.
  intros ->. rewrite firstn_app, Nat.sub_diag, firstn_all. cbn [firstn].
  symmetry. apply app_nil_r.
Qed.

Lemma app_eq_prefix {A : Type} (a b c d : list A) :
  a ++ b = c ++ d -> length a <= length c ->
  c = a ++ firstn (length c - length a) b.
Proof.
  intros E L. apply (f_equal (firstn (length c))) in E.
  rewrite firstn_app_long in E by exact L.
  rewrite firstn_app, Nat.sub_diag, firstn_all in E. cbn [firstn] in E.
  rewrite app_nil_r in E. symmetry. exact E.
Qed.

(** C9: on a well-formed stream, the cleaned text of which is a
    sequence of batches in any layout with text between them, a longer
    beginning of the stream never gives fewer slides. *)
Theorem completeSlides_grows_with_buffer
    (stream : jsstring) (items : list (jsstring * WrittenBatch)) (tail : jsstring)
    (n1 n2 : nat) (f1 f2 : bool) :
  stream_ok items tail = true ->
  strip stream = written_stream items tail ->
  n1 <= n2 ->
  length (completeSlides (parseLiveStream (firstn n1 stream) f1))
  <= length (completeSlides (parseLiveStream (firstn n2 stream) f2)).
Proof.
  intros Hok HW H12.
  set (W := written_stream items tail) in *.
  set (x1 := firstn n1 stream). set (x2 := firstn n2 stream).
  assert (E12 : x2 = x1 ++ firstn (n2 - n1) (skipn n1 stream))
    by (apply firstn_le_split, H12).
  assert (E2 : stream = x2 ++ skipn n2 stream)
    by (symmetry; apply firstn_skipn).
  destruct (strip_pending x1) as (C1 & J1 & S1 & M1 & D1).
  destruct (strip_pending x2) as (C2 & J2 & S2 & M2 & D2).
  unfold parseLiveStream, cleanStreamOf. fold (strip x1). fold (strip x2).
  rewrite S1, S2.
  rewrite (completeSlides_trim C1 J1 f1 false M1).
  rewrite (completeSlides_trim C2 J2 f2 false M2).
  (* both beginnings are beginnings of the cleaned stream *)
  destruct (D2 (skipn n2 stream)) as [d2 Hd2]. rewrite <- E2, HW in Hd2.
  destruct (D1 (firstn (n2 - n1) (skipn n1 stream))) as [d1 Hd1].
  rewrite <- E12, S2 in Hd1.
  destruct (Nat.le_gt_cases (length C1) (length C2)) as [L|L].
  - assert (P1 : C1 = firstn (length C1) W).
    { apply (firstn_prefix C1 (firstn (length C2 - length C1) d1 ++ d2)).
      rewrite Hd2, app_assoc. f_equal.
      apply (app_eq_prefix C1 d1 C2 J2); [symmetry; exact Hd1|exact L]. }
    pose proof (firstn_prefix C2 d2 W Hd2) as P2.
    rewrite P1, P2, !trim_start_firstn.
    destruct (trim_start_written items tail Hok) as (items' & tail' & EW & Hok').
    fold W in EW. rewrite EW.
    apply (parsePhases_written_prefix_mono items' [] tail' _ _ false false
             eq_refl Hok').
    lia.
  - assert (P1 : C1 = C2 ++ firstn (length C1 - length C2) J2).
    { apply (app_eq_prefix C2 J2 C1 d1); [exact Hd1|lia]. }
    assert (MJ : forallb is_marker_char (firstn (length C1 - length C2) J2) = true).
    { rewrite <- (firstn_skipn (length C1 - length C2) J2) in M2.
      rewrite forallb_app in M2. apply andb_true_iff in M2. apply M2. }
    rewrite P1. rewrite trim_start_app_marker by exact MJ.
    rewrite completeSlides_residue by (apply markers_residue, MJ).
    apply le_n.
Qed.

Lemma completeSlides_grows_with_buffer_witness :
  let a := {| w_lead := [];
              content_first := true;
              w_title := {| m_lead := [SPACE]; m_key_gap := []; m_colon_gap := [SPACE];
                            m_lit := js "A"; m_trail := [10%N] |};
              w_content := {| m_lead := [10%N; SPACE]; m_key_gap := [];
                              m_colon_gap := [SPACE];
                              m_lit := js "<div>x</div>"; m_trail := [] |};
              w_trail := [SPACE];
              w_record := {| s_title := js "A"; s_content := js "<div>x</div>" |} |} in
  let b := {| w_lead := [];
              content_first := false;
              w_title := {| m_lead := []; m_key_gap := []; m_colon_gap := [];
                            m_lit := js "B"; m_trail := [] |};
              w_content := {| m_lead := []; m_key_gap := []; m_colon_gap := [];
                              m_lit := js "<div>y</div>"; m_trail := [] |};
              w_trail := [];
              w_record := {| s_title := js "B"; s_content := js "<div>y</div>" |} |} in
  let items :=
    [([10%N], {| b_lead := [SPACE]; b_key_gap := []; b_colon_gap := [SPACE];
                 b_pad := [SPACE]; b_slides := [a]; b_trail := [10%N] |});
     ([10%N], {| b_lead := []; b_key_gap := []; b_colon_gap := [];
                 b_pad := []; b_slides := [b]; b_trail := [] |})] in
  let stream :=
    js "```json" ++ [10%N]
    ++ jsq "'" "{ 'slides': [ {" ++ [10%N]
    ++ jsq "'" " 'content': '<div>x</div>', 'title': 'A'" ++ [10%N]
    ++ jsq "'" "} ]" ++ [10%N] ++ jsq "'" "}" ++ [10%N]
    ++ jsq "'" "{'slides':[{'title':'B','content':'<div>y</div>'}]}" ++ [10%N]
    ++ js "```" in
  strip stream = written_stream items [10%N]
  /\ length (completeSlides (parseLiveStream (firstn 5 stream) false)) = 0
  /\ length (completeSlides (parseLiveStream (firstn 70 stream) false)) = 1
  /\ length (completeSlides (parseLiveStream (firstn 5 stream) false))
     <= length (completeSlides (parseLiveStream (firstn 70 stream) false)).
Proof.
  intros a b items stream. split; [vm_compute; reflexivity|].
  split; [vm_compute; reflexivity|]. split; [vm_compute; reflexivity|].
  apply (completeSlides_grows_with_buffer stream items [10%N] 5 70 false false).
  - vm_compute. reflexivity.
  - vm_compute. reflexivity.
  - lia.
Defined.

(* ================================================================== *)
(** * A buffer cut inside the content of a slide, in any layout *)
(* ================================================================== *)

(** ** Where the pattern of the content finds its match *)











(** ** The second scan on the open batch *)




(** ** The parser on the cleaned buffer *)


(* ================================================================== *)
(** * The three replacements on an escaped content *)
(* ================================================================== *)











(* ================================================================== *)
(** * The cleaning step on a buffer cut inside a content *)
(* ================================================================== *)














(** The order of the replacements shows in a content that holds a
    backslash before the letter n: the escaped backslash is read as the
    beginning of an escaped newline. *)
Example backslash_before_n_in_content :
  let c := js "<p>C:" ++ [BACKSLASH] ++ js "new" in
  let buffer := jsq "'" "{'slides':[{'title':'A','content':'" ++ json_escape c in
  is_previewable c = false
  /\ inProgressHtml (parseLiveStream buffer false)
     = js "<p>C:" ++ [BACKSLASH; 10%N] ++ js "ew</div>".
Proof. vm_compute. split; reflexivity. Qed.

(** A buffer cut inside an escape, after its backslash: the backslash
    stays at the end of the preview. *)
Example cut_inside_an_escape :
  let buffer := jsq "'" "{'slides':[{'title':'A','content':'<div>a" ++ [BACKSLASH] in
  inProgressHtml (parseLiveStream buffer false)
  = js "<div>a" ++ [BACKSLASH] ++ js "</div>".
Proof. vm_compute. reflexivity. Qed.
